(** * Card-offer enrolment scripts: a shallow embedding and its properties

    The development follows the two scripts of the repository that share one
    design: the Chase script (second half of [src/unnamed/part_000]) and the
    Amex script ([src/amex/Amex-Offers.py]).

    - [Text]      : the string helpers both scripts rely on ([str.strip],
                    [str.splitlines], [int]).
    - [Re]        : a backtracking matcher with the semantics of the [re]
                    module for the constructs the scripts' patterns use.
    - [Datetime]  : proleptic Gregorian dates, [strptime] / [strftime] for the
                    formats used, [timedelta] day arithmetic.
    - [Py]        : the exception classes the scripts tell apart, and
                    computations over a world: a state-and-exception monad
                    with [try] / [except] / [finally].
    - [Sheets]    : what both scripts do with the rows of the worksheet.
    - [Chase], [Amex] : the functions of each script, in source order; calls
                    that leave the process are answered by an environment
                    and logged.
    - [Fixtures]  : the inputs and predicates the statements use.

    The properties follow, grouped by subject: text extraction, removal of
    duplicates, the final flush, navigation, the end of a run, the enrolment
    loop, the keys a run does not queue again, and the two passes over the
    accounts.

    Text is taken to be ASCII: [\d], [\s], [\w] and case folding are the ASCII
    ones, and the locale of [strptime] / [strftime] is the C (English) one. *)

From Stdlib Require Import ZArith Lia Bool Ascii String.
From stdpp Require Import gmap strings list.

Set Warnings "-clear-no-such-hyp".

Open Scope string_scope.
Open Scope Z_scope.

(* ===================================================================== *)
(** ** Strings *)
(* ===================================================================== *)

Module Text.

Definition code (c : ascii) : N := N_of_ascii c.

Definition between (lo hi : N) (c : ascii) : bool :=
  ((lo <=? code c) && (code c <=? hi))%N.

Definition is_digit : ascii -> bool := between 48 57.
Definition is_upper : ascii -> bool := between 65 90.
Definition is_lower : ascii -> bool := between 97 122.
Definition is_alpha (c : ascii) : bool := is_upper c || is_lower c.

(** [\w] *)
Definition is_word (c : ascii) : bool :=
  is_alpha c || is_digit c || (code c =? 95)%N.

(** [str.isspace], which is also [\s]: TAB..CR, FS..US and the space. *)
Definition is_space (c : ascii) : bool :=
  between 9 13 c || between 28 32 c.

(** The line boundaries of [str.splitlines] (the ASCII ones). *)
Definition is_linebreak (c : ascii) : bool :=
  between 10 13 c || between 28 30 c.

Definition lower (c : ascii) : ascii :=
  if is_upper c then ascii_of_N (code c + 32) else c.
Definition upper (c : ascii) : ascii :=
  if is_lower c then ascii_of_N (code c - 32) else c.

Definition ascii_eqb (a b : ascii) : bool := (code a =? code b)%N.

Fixpoint lstrip (s : string) : string :=
  match s with
  | String c s' => if is_space c then lstrip s' else s
  | EmptyString => EmptyString
  end.

Fixpoint rstrip (s : string) : string :=
  match s with
  | String c s' =>
      match rstrip s' with
      | EmptyString => if is_space c then EmptyString else String c EmptyString
      | t => String c t
      end
  | EmptyString => EmptyString
  end.

(** [s.strip()] *)
Definition strip (s : string) : string := rstrip (lstrip s).

(** Python truthiness of a string. *)
Definition nonempty (s : string) : bool :=
  match s with EmptyString => false | _ => true end.

(** [a or b] on strings. *)
Definition or_else (a b : string) : string := if nonempty a then a else b.

(** [s[:n]] *)
Fixpoint str_take (n : nat) (s : string) : string :=
  match n, s with
  | S n', String c s' => String c (str_take n' s')
  | _, _ => EmptyString
  end.

(** [int(s)] for a string of ASCII digits. *)
Fixpoint int_acc (acc : Z) (s : string) : Z :=
  match s with
  | String c s' => int_acc (10 * acc + (Z.of_N (code c) - 48)) s'
  | EmptyString => acc
  end.
Definition int (s : string) : Z := int_acc 0 s.

(** [s.splitlines()]: a CR LF pair is one boundary, a trailing boundary adds
    no empty line. *)
Fixpoint splitlines_acc (cur : string) (s : string) : list string :=
  match s with
  | EmptyString => if nonempty cur then [String.rev cur] else []
  | String c s' =>
      if is_linebreak c then
        match c, s' with
        | "013"%char, String "010"%char s'' =>
            String.rev cur :: splitlines_acc EmptyString s''
        | _, _ => String.rev cur :: splitlines_acc EmptyString s'
        end
      else splitlines_acc (String c cur) s'
  end.
Definition splitlines (s : string) : list string := splitlines_acc EmptyString s.

End Text.

(* ===================================================================== *)
(** ** Regular expressions *)
(* ===================================================================== *)

Module Re.
Import Text.

(** The constructs that occur in the scripts' patterns. *)
Inductive re : Type :=
| Eps                                       (* empty pattern *)
| Lit (c : ascii)                           (* one literal character *)
| Cls (p : ascii -> bool)                   (* a class: \d \s [..] . *)
| Ncl (p : ascii -> bool)                   (* a negated class [^..] *)
| Cat (r1 r2 : re)
| Alt (r1 r2 : re)                          (* r1|r2, r1 tried first *)
| Rep (r : re) (lo : nat) (hi : option nat) (* greedy r{lo,hi} *)
| Grp (n : nat) (r : re)                    (* capturing group number n *)
| Bol                                       (* ^ *)
| Eol                                       (* $ *)
| Wb.                                       (* \b *)

(** A position in the subject: the character just before it and what is
    left. *)
Record cursor := Cursor { prev : option ascii; rest : string }.

Definition caps := list (nat * string).

Definition advance (c : cursor) : option (ascii * cursor) :=
  match rest c with
  | String a s' => Some (a, Cursor (Some a) s')
  | EmptyString => None
  end.

Definition lit_ok (icase : bool) (a b : ascii) : bool :=
  if icase then ascii_eqb (lower a) (lower b) else ascii_eqb a b.

Definition cls_ok (icase : bool) (p : ascii -> bool) (b : ascii) : bool :=
  if icase then p b || p (lower b) || p (upper b) else p b.

Definition word_before (c : cursor) : bool :=
  match prev c with Some a => is_word a | None => false end.
Definition word_after (c : cursor) : bool :=
  match rest c with String a _ => is_word a | EmptyString => false end.

(** The text between two positions of the same subject. *)
Definition consumed (c c' : cursor) : string :=
  str_take (String.length (rest c) - String.length (rest c')) (rest c).

Definition set_cap (n : nat) (v : string) (g : caps) : caps :=
  (n, v) :: filter (fun kv => negb (Nat.eqb (fst kv) n)) g.

Fixpoint get_cap (n : nat) (g : caps) : option string :=
  match g with
  | (k, v) :: g' => if Nat.eqb k n then Some v else get_cap n g'
  | [] => None
  end.

Definition under (hi : option nat) (cnt : nat) : bool :=
  match hi with Some h => Nat.ltb cnt h | None => true end.

(** Backtracking matcher in continuation-passing style: [k] is what remains
    to be matched; the first success in priority order wins. An iteration of
    a repetition has to consume input (every repeated pattern in the scripts
    does). *)
Fixpoint run {A : Type} (icase : bool) (r : re) (c : cursor) (g : caps)
    (k : cursor -> caps -> option A) {struct r} : option A :=
  match r with
  | Eps => k c g
  | Lit a =>
      match advance c with
      | Some (b, c') => if lit_ok icase a b then k c' g else None
      | None => None
      end
  | Cls p =>
      match advance c with
      | Some (b, c') => if cls_ok icase p b then k c' g else None
      | None => None
      end
  | Ncl p =>
      match advance c with
      | Some (b, c') => if cls_ok icase p b then None else k c' g
      | None => None
      end
  | Cat r1 r2 => run icase r1 c g (fun c' g' => run icase r2 c' g' k)
  | Alt r1 r2 =>
      match run icase r1 c g k with
      | Some x => Some x
      | None => run icase r2 c g k
      end
  | Rep r1 lo hi =>
      (fix loop (fuel cnt : nat) (c : cursor) (g : caps) {struct fuel} : option A :=
         let stop := if Nat.leb lo cnt then k c g else None in
         match fuel with
         | O => stop
         | S fuel' =>
             if under hi cnt then
               match run icase r1 c g (fun c' g' =>
                       if Nat.ltb (String.length (rest c')) (String.length (rest c))
                       then loop fuel' (S cnt) c' g' else None) with
               | Some x => Some x
               | None => stop
               end
             else stop
         end) (S (String.length (rest c))) O c g
  | Grp n r1 => run icase r1 c g (fun c' g' => k c' (set_cap n (consumed c c') g'))
  | Bol => match prev c with None => k c g | Some _ => None end
  | Eol =>
      match rest c with
      | EmptyString => k c g
      | String "010"%char EmptyString => k c g
      | _ => None
      end
  | Wb => if xorb (word_before c) (word_after c) then k c g else None
  end.

(** The loop of a repetition on its own: [step] matches one iteration. *)
Definition rep_loop {A : Type}
    (step : cursor -> caps -> (cursor -> caps -> option A) -> option A)
    (lo : nat) (hi : option nat) (k : cursor -> caps -> option A)
    : nat -> nat -> cursor -> caps -> option A :=
  fix loop (fuel cnt : nat) (c : cursor) (g : caps) {struct fuel} : option A :=
    let stop := if Nat.leb lo cnt then k c g else None in
    match fuel with
    | O => stop
    | S fuel' =>
        if under hi cnt then
          match step c g (fun c' g' =>
                  if Nat.ltb (String.length (rest c')) (String.length (rest c))
                  then loop fuel' (S cnt) c' g' else None) with
          | Some x => Some x
          | None => stop
          end
        else stop
    end.

(** A match object: [group 0] and the numbered groups. *)
Record mobj := Mobj { whole : string; groups : caps }.

Definition group (n : nat) (m : mobj) : string :=
  match n with
  | O => whole m
  | _ => match get_cap n (groups m) with Some v => v | None => EmptyString end
  end.

Definition match_at (icase : bool) (r : re) (c : cursor) : option (cursor * mobj) :=
  run icase r c [] (fun c' g => Some (c', Mobj (consumed c c') g)).

(** [re.match]: at the start of the subject only; also gives what is left
    after the match. *)
Definition rmatch (icase : bool) (r : re) (s : string) : option (mobj * string) :=
  match match_at icase r (Cursor None s) with
  | Some (c', m) => Some (m, rest c')
  | None => None
  end.

(** [re.search]: the leftmost start position that matches. *)
Fixpoint search_from (icase : bool) (r : re) (p : option ascii) (s : string)
    : option mobj :=
  match match_at icase r (Cursor p s) with
  | Some (_, m) => Some m
  | None =>
      match s with
      | String a s' => search_from icase r (Some a) s'
      | EmptyString => None
      end
  end.

Definition search (icase : bool) (r : re) (s : string) : option mobj :=
  search_from icase r None s.

Definition found (icase : bool) (r : re) (s : string) : bool :=
  match search icase r s with Some _ => true | None => false end.

(** Pattern-building shorthands. *)
Fixpoint str (s : string) : re :=
  match s with
  | String c EmptyString => Lit c
  | String c s' => Cat (Lit c) (str s')
  | EmptyString => Eps
  end.

Fixpoint cats (rs : list re) : re :=
  match rs with
  | [] => Eps
  | [r] => r
  | r :: rs' => Cat r (cats rs')
  end.

Fixpoint alts (rs : list re) : re :=
  match rs with
  | [] => Cls (fun _ => false)
  | [r] => r
  | r :: rs' => Alt r (alts rs')
  end.

Definition star (r : re) : re := Rep r 0 None.
Definition plus (r : re) : re := Rep r 1 None.
Definition opt (r : re) : re := Rep r 0 (Some 1%nat).
Definition rep (r : re) (lo hi : nat) : re := Rep r lo (Some hi).
Definition times (r : re) (n : nat) : re := Rep r n (Some n).

Definition d : re := Cls is_digit.                          (* \d *)
Definition sp : re := Cls is_space.                         (* \s *)
Definition dot : re := Ncl (fun c => ascii_eqb c "010").    (* . *)
Definition alpha : re := Cls is_alpha.                      (* [A-Za-z] *)
Definition one_of (s : string) : re :=                      (* [..] *)
  Cls (fun c => existsb (ascii_eqb c) (list_ascii_of_string s)).
Definition none_of (s : string) : re :=                     (* [^..] *)
  Ncl (fun c => existsb (ascii_eqb c) (list_ascii_of_string s)).

End Re.

(* ===================================================================== *)
(** ** Dates *)
(* ===================================================================== *)

(** The part of [datetime] the scripts use: calendar dates in the proleptic
    Gregorian calendar with the ordinal arithmetic of the library,
    [strptime] (format compiled to a pattern, matched at the start, nothing
    may remain, then the date is validated) and [strftime]. *)
Module Datetime.
Import Text Re.

Record date := Date { year : Z; month : Z; day : Z }.

Definition MINYEAR : Z := 1.
Definition MAXYEAR : Z := 9999.

Definition is_leap (y : Z) : bool :=
  (y mod 4 =? 0) && (negb (y mod 100 =? 0) || (y mod 400 =? 0)).

Definition days_before_year (y : Z) : Z :=
  let p := y - 1 in p * 365 + p / 4 - p / 100 + p / 400.

Definition DAYS_IN_MONTH (m : Z) : Z :=
  match m with
  | 1 => 31 | 2 => 28 | 3 => 31 | 4 => 30 | 5 => 31 | 6 => 30
  | 7 => 31 | 8 => 31 | 9 => 30 | 10 => 31 | 11 => 30 | 12 => 31
  | _ => -1
  end.

Definition DAYS_BEFORE_MONTH (m : Z) : Z :=
  match m with
  | 1 => 0 | 2 => 31 | 3 => 59 | 4 => 90 | 5 => 120 | 6 => 151
  | 7 => 181 | 8 => 212 | 9 => 243 | 10 => 273 | 11 => 304 | 12 => 334
  | _ => -1
  end.

Definition days_in_month (y m : Z) : Z :=
  if (m =? 2) && is_leap y then 29 else DAYS_IN_MONTH m.

Definition days_before_month (y m : Z) : Z :=
  DAYS_BEFORE_MONTH m + (if (2 <? m) && is_leap y then 1 else 0).

Definition ymd2ord (y m d : Z) : Z :=
  days_before_year y + days_before_month y m + d.

Definition DI400Y : Z := 146097.
Definition DI100Y : Z := 36524.
Definition DI4Y : Z := 1461.

Definition ord2ymd (n0 : Z) : date :=
  let n := n0 - 1 in
  let n400 := n / DI400Y in let n := n mod DI400Y in
  let y := n400 * 400 + 1 in
  let n100 := n / DI100Y in let n := n mod DI100Y in
  let n4 := n / DI4Y in let n := n mod DI4Y in
  let n1 := n / 365 in let n := n mod 365 in
  let y := y + n100 * 100 + n4 * 4 + n1 in
  if (n1 =? 4) || (n100 =? 4) then Date (y - 1) 12 31
  else
    let leapyear := (n1 =? 3) && (negb (n4 =? 24) || (n100 =? 3)) in
    let m := Z.shiftr (n + 50) 5 in
    let preceding := DAYS_BEFORE_MONTH m + (if (2 <? m) && leapyear then 1 else 0) in
    if n <? preceding then
      let m := m - 1 in
      let preceding :=
        preceding - (DAYS_IN_MONTH m + (if (m =? 2) && leapyear then 1 else 0)) in
      Date y m (n - preceding + 1)
    else Date y m (n - preceding + 1).

(** [date(y, m, d)]; [None] stands for the [ValueError] of an impossible
    date. *)
Definition make_date (y m d : Z) : option date :=
  if (MINYEAR <=? y) && (y <=? MAXYEAR) && (1 <=? m) && (m <=? 12)
     && (1 <=? d) && (d <=? days_in_month y m)
  then Some (Date y m d) else None.

Definition toordinal (dt : date) : Z := ymd2ord (year dt) (month dt) (day dt).

Definition MAXORDINAL : Z := 3652059.  (* date(9999, 12, 31).toordinal() *)

(** [dt + timedelta(days=n)]; [None] stands for the [OverflowError] of a
    day count over 999999999 or of a result outside the supported years. *)
Definition add_days (dt : date) (n : Z) : option date :=
  if (Z.abs n <=? 999999999) then
    let o := toordinal dt + n in
    if (0 <? o) && (o <=? MAXORDINAL) then Some (ord2ymd o) else None
  else None.

Definition a_month : list string :=
  ["jan"; "feb"; "mar"; "apr"; "may"; "jun";
   "jul"; "aug"; "sep"; "oct"; "nov"; "dec"].

Definition f_month : list string :=
  ["january"; "february"; "march"; "april"; "may"; "june"; "july";
   "august"; "september"; "october"; "november"; "december"].

(** Names sorted by decreasing length, as the library sorts them before
    joining them into an alternation. *)
Definition f_month_by_length : list string :=
  ["september"; "february"; "november"; "december"; "january"; "october";
   "august"; "march"; "april"; "june"; "july"; "may"].

(** Group numbers standing for the named groups of the compiled format. *)
Definition g_b : nat := 1.
Definition g_B : nat := 2.
Definition g_d : nat := 3.
Definition g_m : nat := 4.
Definition g_y : nat := 5.
Definition g_Y : nat := 6.

Definition directive (x : ascii) : option re :=
  if ascii_eqb x "d" then
    Some (Grp g_d (alts [Cat (Lit "3") (one_of "01"); Cat (one_of "12") d;
                         Cat (Lit "0") (one_of "123456789"); one_of "123456789";
                         Cat (Lit " ") (one_of "123456789")]))
  else if ascii_eqb x "m" then
    Some (Grp g_m (alts [Cat (Lit "1") (one_of "012");
                         Cat (Lit "0") (one_of "123456789"); one_of "123456789"]))
  else if ascii_eqb x "y" then Some (Grp g_y (times d 2))
  else if ascii_eqb x "Y" then Some (Grp g_Y (times d 4))
  else if ascii_eqb x "b" then Some (Grp g_b (alts (map str a_month)))
  else if ascii_eqb x "B" then Some (Grp g_B (alts (map str f_month_by_length)))
  else None.

(** The pattern of a format: a run of whitespace stands for [\s+], [%x] for
    the pattern of the directive, anything else for itself. *)
Fixpoint pattern (in_ws : bool) (f : string) : option re :=
  match f with
  | EmptyString => Some Eps
  | String c f' =>
      if is_space c then
        if in_ws then pattern true f'
        else option_map (Cat (plus sp)) (pattern true f')
      else if ascii_eqb c "%" then
        match f' with
        | String x f'' =>
            match directive x, pattern false f'' with
            | Some r, Some r' => Some (Cat r r')
            | _, _ => None
            end
        | EmptyString => None
        end
      else option_map (Cat (Lit c)) (pattern false f')
  end.

Fixpoint index_of (s : string) (l : list string) (i : Z) : Z :=
  match l with
  | x :: l' => if String.eqb x s then i else index_of s l' (i + 1)
  | [] => 0
  end.

Definition lower_str (s : string) : string :=
  string_of_list_ascii (map lower (list_ascii_of_string s)).

Definition year_of (m : mobj) : Z :=
  match get_cap g_Y (groups m), get_cap g_y (groups m) with
  | Some v, _ => int v
  | None, Some v => let y := int v in if y <=? 68 then y + 2000 else y + 1900
  | None, None => 1900
  end.

Definition month_of (m : mobj) : Z :=
  match get_cap g_m (groups m), get_cap g_B (groups m), get_cap g_b (groups m) with
  | Some v, _, _ => int v
  | None, Some v, _ => index_of (lower_str v) f_month 1
  | None, None, Some v => index_of (lower_str v) a_month 1
  | None, None, None => 1
  end.

Definition day_of (m : mobj) : Z :=
  match get_cap g_d (groups m) with
  | Some v => int (lstrip v)
  | None => 1
  end.

(** [datetime.strptime(s, f).date()]; [None] stands for [ValueError]. *)
Definition strptime (s f : string) : option date :=
  match pattern false f with
  | Some r =>
      match rmatch true r s with
      | Some (m, EmptyString) => make_date (year_of m) (month_of m) (day_of m)
      | _ => None
      end
  | None => None
  end.

Definition digit_char (n : Z) : ascii := ascii_of_N (Z.to_N (48 + n mod 10)).

(** The last [w] decimal digits of [n], zero padded. *)
Fixpoint zfill (w : nat) (n : Z) (acc : string) : string :=
  match w with
  | O => acc
  | S w' => zfill w' (n / 10) (String (digit_char n) acc)
  end.

Definition capitalize (s : string) : string :=
  match s with String c s' => String (upper c) s' | EmptyString => EmptyString end.

Definition month_abbr (m : Z) : string :=
  capitalize (nth (Z.to_nat (m - 1)) a_month EmptyString).

(** [dt.strftime(f)] for the directives [%b], [%d] and [%Y] (four digits). *)
Fixpoint strftime (dt : date) (f : string) : string :=
  match f with
  | EmptyString => EmptyString
  | String c f' =>
      if ascii_eqb c "%" then
        match f' with
        | String x f'' =>
            (if ascii_eqb x "b" then month_abbr (month dt)
             else if ascii_eqb x "d" then zfill 2 (day dt) EmptyString
             else if ascii_eqb x "Y" then zfill 4 (year dt) EmptyString
             else String c (String x EmptyString)) +:+ strftime dt f''
        | EmptyString => String c EmptyString
        end
      else String c (strftime dt f')
  end.

End Datetime.

(* ===================================================================== *)
(** ** Exceptions *)
(* ===================================================================== *)

Module Py.

(** The exception classes the scripts tell apart. [KeyboardInterrupt] and
    [SystemExit] are not subclasses of [Exception];
    [InvalidSessionIdException] is a [WebDriverException];
    [OtherException] stands for any other subclass of [Exception]. *)
Inductive exn : Type :=
| KeyboardInterrupt
| SystemExit
| WebDriverException
| InvalidSessionIdException
| EOFError
| OtherException.

Definition is_Exception (e : exn) : bool :=
  match e with
  | KeyboardInterrupt | SystemExit => false
  | _ => true
  end.

Definition is_WebDriverException (e : exn) : bool :=
  match e with
  | WebDriverException | InvalidSessionIdException => true
  | _ => false
  end.

Definition is_KeyboardInterrupt (e : exn) : bool :=
  match e with KeyboardInterrupt => true | _ => false end.

Definition is_InvalidSessionId (e : exn) : bool :=
  match e with InvalidSessionIdException => true | _ => false end.

Definition is_EOFError (e : exn) : bool :=
  match e with EOFError => true | _ => false end.

Definition any_exn (e : exn) : bool := true.

(** The outcome of a call: a value or a raised exception. *)
Inductive result (A : Type) : Type :=
| Ret (a : A)
| Raise (e : exn).
Arguments Ret {A} a.
Arguments Raise {A} e.

Definition raised {A} (r : result A) : bool :=
  match r with Ret _ => false | Raise _ => true end.

(** [try: r  except <class>: h] on a pure outcome. *)
Definition rescue {A} (cls : exn -> bool) (r : result A) (h : result A) : result A :=
  match r with
  | Ret a => Ret a
  | Raise e => if cls e then h else Raise e
  end.

(** *** Computations over a world

    A computation takes the world (sheet, buffers, log of outside calls) to
    an outcome and the world it leaves; an exception unwinds to the nearest
    handler and keeps the world as it is at that point. *)
Definition M (W A : Type) : Type := W -> result A * W.

Definition ret {W A} (a : A) : M W A := fun w => (Ret a, w).
Definition raise {W A} (e : exn) : M W A := fun w => (Raise e, w).
Definition lift {W A} (r : result A) : M W A := fun w => (r, w).
Definition bind {W A B} (m : M W A) (f : A -> M W B) : M W B :=
  fun w =>
    match m w with
    | (Ret a, w') => f a w'
    | (Raise e, w') => (Raise e, w')
    end.
Definition get {W} : M W W := fun w => (Ret w, w).
Definition modify {W} (f : W -> W) : M W unit := fun w => (Ret tt, f w).

Declare Scope run_scope.
Delimit Scope run_scope with run.
Notation "x <- m ;; k" := (bind m (fun x => k))
  (at level 100, m at next level, k at level 200, right associativity) : run_scope.
Notation "m ;; k" := (bind m (fun _ => k))
  (at level 100, k at level 200, right associativity) : run_scope.

(** [try: m  except <cls> as e: h e] *)
Definition try_except {W A} (m : M W A) (cls : exn -> bool) (h : exn -> M W A)
    : M W A :=
  fun w =>
    match m w with
    | (Ret a, w') => (Ret a, w')
    | (Raise e, w') => if cls e then h e w' else (Raise e, w')
    end.

(** [try: m  finally: fin]: [fin] runs whatever [m] does; its own exception,
    if any, replaces the outcome of [m]. *)
Definition try_finally {W A} (m : M W A) (fin : M W unit) : M W A :=
  fun w =>
    match m w with
    | (r, w') =>
        match fin w' with
        | (Ret _, w'') => (r, w'')
        | (Raise e, w'') => (Raise e, w'')
        end
    end.

Definition outcome (o : option exn) : result unit :=
  match o with None => Ret tt | Some e => Raise e end.

Definition nonnil {A} (l : list A) : bool :=
  match l with [] => false | _ => true end.

(** [triple P m Q R]: started in a world satisfying [P], the computation
    [m] ends -- it always does, being a function -- either with a value [a]
    in a world satisfying [Q a], or with an exception [e] in a world
    satisfying [R e]. *)
Definition triple {W A} (P : W -> Prop) (m : M W A)
    (Q : A -> W -> Prop) (R : exn -> W -> Prop) : Prop :=
  forall w, P w ->
    match m w with
    | (Ret a, w') => Q a w'
    | (Raise e, w') => R e w'
    end.

(** A property of the world kept by a computation, whatever its outcome. *)
Definition keeps {W A} (I : W -> Prop) (m : M W A) : Prop :=
  triple I m (fun _ => I) (fun _ => I).

(** A statement about the value a computation returns, whatever the world it
    starts in. *)
Definition returns {W A} (m : M W A) (Q : A -> Prop) : Prop :=
  triple (fun _ => True) m (fun a _ => Q a) (fun _ _ => True).

End Py.

(* ===================================================================== *)
(** ** The offers worksheet *)
(* ===================================================================== *)

(** What both scripts do with the rows of the worksheet. *)
Module Sheets.

(** A sheet row, and a dedup key ([tuple(row)]): the list of its cells. *)
Definition row : Type := list string.

(** The scan of [dedupe_rows], identical in both scripts: indexes [i],
    [i - 1], ..., 1 in that order (row 0 is the header); [req] collects the
    indexes whose row was already seen. *)
Fixpoint dedupe_scan (rows : list row) (i : nat) (seen : gset row) (req : list nat)
    : list nat :=
  match i with
  | O => req
  | S i' =>
      match rows !! i with
      | Some key =>
          if bool_decide (key ∈ seen) then dedupe_scan rows i' seen (req ++ [i])
          else dedupe_scan rows i' ({[key]} ∪ seen) req
      | None => req
      end
  end.

Definition dedupe_requests (rows : list row) : list nat :=
  dedupe_scan rows (length rows - 1) ∅ [].

(** The deleteRange requests of one batch are applied in order, each on the
    sheet the previous one left; [i] is the 0-based index of the row. *)
Definition delete_all (rows : list row) (idx : list nat) : list row :=
  foldl (fun sh i => delete i sh) rows idx.

End Sheets.

(* ===================================================================== *)
(** ** The Chase script: text extraction *)
(* ===================================================================== *)

Module Chase.
Import Text Re Datetime Py.
Open Scope run_scope.

Definition BRAND_FALLBACK : string := "Unknown Brand".
Definition CARD_NAME_DEFAULT : string := "Chase Card".

Definition date_formats : list string :=
  ["%b %d, %Y"; "%B %d, %Y"; "%m/%d/%Y"; "%m/%d/%y"].

(** Pattern "(\d+)\s+days". *)
Definition re_days : re := cats [Grp 1 (plus d); plus sp; str "days"].

Fixpoint first_format (s : string) (fmts : list string) : option date :=
  match fmts with
  | f :: fmts' =>
      match strptime s f with
      | Some dt => Some dt
      | None => first_format s fmts'
      end
  | [] => None
  end.

Section Extraction.

(** [datetime.today()], as a date. *)
Variable today : date.

Definition try_parse_date_any (s : string) : option date :=
  if negb (nonempty s) then None
  else
    let s := strip s in
    match first_format s date_formats with
    | Some dt => Some dt
    | None =>
        match search true re_days s with
        | Some m => add_days today (int (group 1 m))
        | None => None
        end
    end.

(** The argument is [Optional[str]]: [None] is read as the empty string. *)
Definition normalize_date_out (s : option string) : string :=
  match try_parse_date_any (default EmptyString s) with
  | Some dt => strftime dt "%b %d, %Y"
  | None => EmptyString
  end.

(** Pattern "\$\d[\d,]*(?:\.\d{2})?". *)
Definition re_amount : re :=
  cats [Lit "$"; d; star (alts [d; Lit ","]); opt (cats [Lit "."; times d 2])].

(** Pattern "\d[\d,]*(?:\.\d{2})?". *)
Definition re_number : re :=
  cats [d; star (alts [d; Lit ","]); opt (cats [Lit "."; times d 2])].

Definition re_percent : re := cats [rep d 1 3; Lit "%"].
Definition re_cash_opt : re := opt (cats [str "cash"; star sp]).

Definition re_discount : re :=
  Grp 1 (alts [cats [re_amount; star sp; re_cash_opt; str "back"];
               cats [re_amount; star sp; str "off"];
               cats [re_percent; star sp; re_cash_opt; str "back"];
               cats [re_percent; star sp; str "off"]]).

Fixpoint parse_discount_from_sources (texts : list string) : string :=
  match texts with
  | t :: texts' =>
      if negb (nonempty t) then parse_discount_from_sources texts'
      else
        match search true re_discount t with
        | Some m => strip (group 1 m)
        | None => parse_discount_from_sources texts'
        end
  | [] => EmptyString
  end.

(** The pattern, piece by piece: "\$\s?", the group "([\d,]+(?:\.\d{2})?)",
    "\s*", an optional "cash\s*back" with trailing whitespace, then
    "(?:maximum|max)\b". *)
Definition re_max_after : re :=
  cats [Lit "$"; opt sp;
       Grp 1 (cats [plus (alts [d; Lit ","]); opt (cats [Lit "."; times d 2])]);
       star sp; opt (cats [str "cash"; star sp; str "back"; star sp]);
       alts [str "maximum"; str "max"]; Wb].

(** Pattern "[Mm]ax(?:imum)?[^$]{0,25}\$(\d[\d,]*(?:\.\d{2})?)". *)
Definition re_max_before : re :=
  cats [one_of "Mm"; str "ax"; opt (str "imum"); rep (none_of "$") 0 25;
       Lit "$"; Grp 1 re_number].

(** Pattern "(?:spend|purchase)[^$]{0,25}\$(\d[\d,]*(?:\.\d{2})?)". *)
Definition re_min_spend : re :=
  cats [alts [str "spend"; str "purchase"]; rep (none_of "$") 0 25;
       Lit "$"; Grp 1 re_number].

(** Pattern "\$(\d[\d,]*(?:\.\d{2})?)". *)
Definition re_header_amount : re := cats [Lit "$"; Grp 1 re_number].

(** The pattern, piece by piece: "(?:Expires?|Offer expires|Exp\.)", "\s*",
    an optional "on" with trailing whitespace, then the group
    "([A-Za-z]{3,9}\s+\d{1,2},\s*\d{2,4}|\d{1,2}/\d{1,2}/\d{2,4})". *)
Definition re_expires_on : re :=
  cats [alts [cats [str "Expire"; opt (Lit "s")]; str "Offer expires"; str "Exp."];
       star sp; opt (cats [str "on"; star sp]);
       Grp 1 (alts [cats [rep alpha 3 9; plus sp; rep d 1 2; Lit ","; star sp; rep d 2 4];
                    cats [rep d 1 2; Lit "/"; rep d 1 2; Lit "/"; rep d 2 4]])].

(** Pattern "expires?\s+in\s+\d+\s+days". *)
Definition re_expires_in : re :=
  cats [str "expire"; opt (Lit "s"); plus sp; str "in"; plus sp; plus d; plus sp;
       str "days"].

Definition re_location_only : re :=
  str "Offer only applies to the following location".

(** Pattern "\n\d{2,5}\s+.+\n[A-Za-z\s]+,\s*[A-Z]{2}\s+\d{5}". *)
Definition re_address : re :=
  cats [Lit "010"; rep d 2 5; plus sp; plus dot; Lit "010";
       plus (alts [alpha; sp]); Lit ","; star sp; times (Cls is_upper) 2; plus sp;
       times d 5].

Definition dollar (s : string) : string := "$" +:+ s.

(** Returns [(maxd, mind, exp, local)]. *)
Definition parse_limits_local_expiration (terms_text hdr_limit : string)
    : string * string * string * string :=
  let maxd :=
    match search true re_max_after terms_text with
    | Some m => dollar (group 1 m)
    | None => EmptyString
    end in
  let maxd :=
    if negb (nonempty maxd) then
      match search false re_max_before terms_text with
      | Some m => dollar (group 1 m)
      | None => maxd
      end
    else maxd in
  let mind :=
    match search true re_min_spend terms_text with
    | Some m => dollar (group 1 m)
    | None => EmptyString
    end in
  let mind :=
    if negb (nonempty mind) && nonempty hdr_limit then
      match search false re_header_amount hdr_limit with
      | Some m2 => dollar (group 1 m2)
      | None => mind
      end
    else mind in
  let exp :=
    match search true re_expires_on terms_text with
    | Some m => normalize_date_out (Some (group 1 m))
    | None =>
        match search true re_expires_in terms_text with
        | Some m2 => normalize_date_out (Some (group 0 m2))
        | None => EmptyString
        end
    end in
  let local :=
    if found true re_location_only terms_text then "Yes" else "No" in
  let local :=
    if String.eqb local "No" && found false re_address terms_text then "Yes"
    else local in
  (maxd, or_else mind "None", exp, local).

End Extraction.

(** *** Brand *)

(** What the page answers to the three brand probes. *)
Record brand_dom := {
  (* the script looking for the sibling before an "added to card" element *)
  js_added_sibling : result string;
  (* CSS selector |-> text of the first element it finds, if any *)
  first_text : string -> result (option string);
  (* the heading elements, each with the outcome of reading its text *)
  headings : result (list (result string))
}.

(** The pattern of the first probe, as the source spells it in a raw string:
    "cash\\s*back|\\$\\d", that is "cash", a backslash, any number of "s",
    "back" -- or a backslash, the end of the subject, a backslash and "d". *)
Definition re_guard_js : re :=
  alts [cats [str "cash"; Lit "\"; star (Lit "s"); str "back"];
        cats [Lit "\"; Eol; Lit "\"; Lit "d"]].

(** Pattern "cash\s*back|\$\d". *)
Definition re_guard : re :=
  alts [cats [str "cash"; star sp; str "back"]; cats [Lit "$"; d]].

(** Pattern "cash\s*back|\$\d|about this deal". *)
Definition re_guard_heading : re :=
  alts [cats [str "cash"; star sp; str "back"]; cats [Lit "$"; d];
        str "about this deal"].

Definition brand_selectors : list string :=
  ["[data-testid='merchantName']"; "[data-testid='brandName']";
   "div[class*='merchant'] span"; "div[class*='brand'] span"].

(** Each probe gives [Ret (Some brand)], [Ret None] (fall through to the next
    probe: nothing usable, or an [Exception] swallowed) or raises what
    [except Exception] does not catch. *)
Definition swallow {A} (r : result (option A)) : result (option A) :=
  rescue is_Exception r (Ret None).

Definition brand_from_js (dom : brand_dom) : result (option string) :=
  swallow
    match js_added_sibling dom with
    | Ret val =>
        if nonempty val && negb (found true re_guard_js val)
        then Ret (Some (strip val)) else Ret None
    | Raise e => Raise e
    end.

Definition brand_from_selector (dom : brand_dom) (sel : string)
    : result (option string) :=
  swallow
    match first_text dom sel with
    | Ret (Some t) =>
        let txt := strip t in
        if nonempty txt && negb (found true re_guard txt)
        then Ret (Some txt) else Ret None
    | Ret None => Ret None
    | Raise e => Raise e
    end.

Fixpoint brand_from_selectors (dom : brand_dom) (sels : list string)
    : result (option string) :=
  match sels with
  | sel :: sels' =>
      match brand_from_selector dom sel with
      | Ret None => brand_from_selectors dom sels'
      | r => r
      end
  | [] => Ret None
  end.

Definition heading_ok (txt : string) : bool :=
  nonempty txt && negb (found true re_guard_heading txt)
  && Nat.leb 2 (String.length txt) && Nat.leb (String.length txt) 60.

Fixpoint scan_headings (hs : list (result string)) : result (option string) :=
  match hs with
  | Ret t :: hs' =>
      let txt := strip t in
      if heading_ok txt then Ret (Some txt) else scan_headings hs'
  | Raise e :: _ => Raise e
  | [] => Ret None
  end.

Definition brand_from_headings (dom : brand_dom) : result (option string) :=
  swallow
    match headings dom with
    | Ret hs => scan_headings (firstn 6 hs)
    | Raise e => Raise e
    end.

Definition brand_fallback (tile_guess : string) : string :=
  or_else (strip tile_guess) BRAND_FALLBACK.

Definition extract_brand_smart (dom : brand_dom) (tile_guess : string)
    : result string :=
  match brand_from_js dom with
  | Ret (Some b) => Ret b
  | Raise e => Raise e
  | Ret None =>
      match brand_from_selectors dom brand_selectors with
      | Ret (Some b) => Ret b
      | Raise e => Raise e
      | Ret None =>
          match brand_from_headings dom with
          | Ret (Some b) => Ret b
          | Raise e => Raise e
          | Ret None => Ret (brand_fallback tile_guess)
          end
      end
  end.

(** *** The world the script acts on *)

Abbreviation row := Sheets.row.

(** The lines the script prints that mark its progress. *)
Inductive printed : Type :=
| POffersStart                      (* [offers] starting scan... *)
| POffersSafetyStop                 (* [offers] safety stop: too many clicks. *)
| POffersAppended (n : nat)         (* [offers] appended n row(s). *)
| POffersBuffered (n : nat)         (* [offers] append failed; buffered n row(s) *)
| POffersDone (n : nat)             (* [offers] done - n new row(s). *)
| PCardSkipped                      (* [card] categories view not ready; skipping. *)
| PCardError (acc_id : string)      (* [card] error acc_id: ... *)
| PCardsComplete (cards rows : nat) (* [cards] complete - ... *)
| PFlushNothing                     (* [flush] nothing to append. *)
| PFlushAppended (total : nat)      (* [flush] appended total buffered row(s). *)
| PFlushError                       (* [flush] error: ... *)
| PMainAbort                        (* [main] Post-login not detected - aborting. *)
| PMainComplete                     (* [main] Run complete. *)
| PMainInterrupted                  (* [main] Interrupted - flushing buffers. *)
| PMainFatal.                       (* [main] Fatal - ... *)

(** The calls that leave the process, in the order they are made. *)
Inductive event : Type :=
| EvGet (url : string)              (* driver.get(url) *)
| EvScript (url : string)           (* window.location.replace(url) *)
| EvPrefill                         (* prefill_home_login *)
| EvWaitLogin                       (* wait_for_post_login *)
| EvVisit (acc_id : string)         (* go_to_categories_for(acc_id) *)
| EvScan                            (* find_add_buttons() *)
| EvRead                            (* OFFER_WS.get_all_values() *)
| EvAppend (rows : list row)        (* OFFER_WS.append_rows(rows) *)
| EvUpdateCell (r c : nat) (v : string)  (* OFFER_WS.update_cell(r, c, v) *)
| EvDeleteRows (idx : list nat)     (* batch_update of deleteRange requests *)
| EvFilter (last_row : nat)         (* clear and set the basic filter *)
| EvLog (level func : string)       (* sheet_log(level, func, ...) *)
| EvQuit                            (* driver.quit() *)
| EvHold                            (* sleeping until Ctrl+C *)
| EvPrint (p : printed).

Record world := World {
  sheet : list row;                 (* the rows of OFFER_WS, header first *)
  APPEND_BUFFER : list row;
  CURRENT_CARD_BUFFER : list row;
  (* the set built by process_cards and shared with the enrolment loop,
     which adds to it in place *)
  existing_rows : gset row;
  clock : nat;                      (* calls made so far *)
  trace : list event
}.

Definition set_sheet (v : list row) (w : world) : world :=
  World v (APPEND_BUFFER w) (CURRENT_CARD_BUFFER w) (existing_rows w) (clock w) (trace w).
Definition set_APPEND_BUFFER (v : list row) (w : world) : world :=
  World (sheet w) v (CURRENT_CARD_BUFFER w) (existing_rows w) (clock w) (trace w).
Definition set_CURRENT_CARD_BUFFER (v : list row) (w : world) : world :=
  World (sheet w) (APPEND_BUFFER w) v (existing_rows w) (clock w) (trace w).
Definition set_existing_rows (v : gset row) (w : world) : world :=
  World (sheet w) (APPEND_BUFFER w) (CURRENT_CARD_BUFFER w) v (clock w) (trace w).
Definition emit (e : event) (w : world) : world :=
  World (sheet w) (APPEND_BUFFER w) (CURRENT_CARD_BUFFER w) (existing_rows w)
        (clock w) (trace w ++ [e]).
Definition tick (e : event) (w : world) : world :=
  World (sheet w) (APPEND_BUFFER w) (CURRENT_CARD_BUFFER w) (existing_rows w)
        (S (clock w)) (trace w ++ [e]).

(** A computation of the script: from a world to an outcome and the world it
    leaves. *)
Local Abbreviation M := (Py.M world).

Definition print (p : printed) : M unit := modify (emit (EvPrint p)).

(** [sheet_log] swallows whatever its own append raises. *)
Definition sheet_log (level func : string) : M unit :=
  modify (emit (EvLog level func)).

Definition ACCOUNT_IDS : list string :=
  ["1091891200"; "571406113"; "504430043"; "1095857180"].

Definition CHASE_HOME_URL : string := "https://www.chase.com/".

Definition OFFER_HEADERS : list string :=
  ["Card Holder"; "Last Four"; "Card Name"; "Brand"; "Discount";
   "Maximum Discount"; "Minimum Spend"; "Date Added"; "Expiration"; "Local"].

(** The values read from the environment at start-up. *)
Record config := {
  HOLDER : string;
  APPEND_CHUNK_SIZE : Z;
  CLOSE_ON_EXIT : bool;
  LOGIN_WAIT_MAX : Z
}.

(** What the detail view of an offer shows to the quick readers. *)
Record detail_page := {
  offer_amount : string;            (* read_offer_header_quick: disc *)
  limitations : string;             (* read_offer_header_quick: limit *)
  pay_with : string * string;       (* parse_card_and_last4_quick *)
  detail_text : result string       (* read_detail_text_quick *)
}.

(** One "add" button found by a scan, with what the page does when the loop
    works on it. *)
Record button := {
  tile_found : bool;                (* the ancestor lookup succeeds *)
  tile_text : result string;        (* tile.text *)
  stamp : string;                   (* str(time.time()) *)
  tile_headings : string -> result (option string);
                                    (* XPath |-> text of the first match *)
  click_ok : bool;                  (* click_add_target *)
  navigated : result bool;          (* the "Pay with" marker shows in time *)
  detail : detail_page;
  brand_page : brand_dom;
  back : option exn                 (* quick_back *)
}.

(** Everything outside the process: the answer to the call made at each
    value of the clock. *)
Record env := {
  today : date;
  get_reply : nat -> option exn;
  script_reply : nat -> option exn;
  prefill_reply : nat -> option exn;
  login_reply : nat -> result bool;
  visit_reply : nat -> result bool;
  scan_reply : nat -> result (list button);
  sink_reply : nat -> option exn;
  quit_reply : nat -> option exn
}.

Section Run.

Variable E : env.
Variable cfg : config.

(** An outside call: it is logged, the clock advances, the environment
    answers. *)
Definition call {A} (ev : event) (reply : nat -> result A) : M A :=
  fun w => (reply (clock w), tick ev w).

(** *** Sink *)

Definition get_all_values : M (list row) :=
  call EvRead (fun n => outcome (sink_reply E n));;
  w <- get;; ret (sheet w).

Definition append_rows (rows : list row) : M unit :=
  call (EvAppend rows) (fun n => outcome (sink_reply E n));;
  modify (fun w => set_sheet (sheet w ++ rows) w).

(** Cell (r, c), counted from 1. *)
Definition update_cell (r c : nat) (v : string) : M unit :=
  call (EvUpdateCell r c v) (fun n => outcome (sink_reply E n));;
  modify (fun w =>
    set_sheet (alter (fun cells => <[pred c := v]> cells) (pred r) (sheet w)) w).

Definition delete_rows (idx : list nat) : M unit :=
  call (EvDeleteRows idx) (fun n => outcome (sink_reply E n));;
  modify (fun w => set_sheet (Sheets.delete_all (sheet w) idx) w).

Definition set_filter (last_row : nat) : M unit :=
  call (EvFilter last_row) (fun n => outcome (sink_reply E n)).

(** *** Navigation *)

Fixpoint robust_get_loop (url : string) (n : nat) : M bool :=
  match n with
  | O => sheet_log "WARN" "nav";; ret false
  | S n' =>
      r <- try_except
             (call (EvGet url) (fun k => outcome (get_reply E k));; ret true)
             is_WebDriverException (fun _ => ret false);;
      if r : bool then ret true
      else
        r2 <- try_except
                (call (EvScript url) (fun k => outcome (script_reply E k));; ret true)
                is_Exception (fun _ => ret false);;
        if r2 : bool then ret true else robust_get_loop url n'
  end.

(** [robust_get(url, tries)]: [max(1, tries)] rounds. When the rounds are
    used up every one of them has set [last_exc], so the warning is logged. *)
Definition robust_get (url : string) (tries : Z) : M bool :=
  robust_get_loop url (Z.to_nat (Z.max 1 tries)).

(** *** Enrolment loop *)

(** [re.sub(r"\s+", " ", txt)] *)
Fixpoint collapse_ws (in_ws : bool) (s : string) : string :=
  match s with
  | EmptyString => EmptyString
  | String c s' =>
      if is_space c then
        if in_ws then collapse_ws true s' else String " " (collapse_ws true s')
      else String c (collapse_ws false s')
  end.

(** An unreadable tile gets the clock reading as its fingerprint. *)
Definition tile_fingerprint (b : button) : result string :=
  rescue is_Exception
    match tile_text b with
    | Ret t => Ret (str_take 200 (collapse_ws false (strip t)))
    | Raise e => Raise e
    end
    (Ret (stamp b)).

(** The first button whose tile is found and not yet processed. *)
Fixpoint pick (processed : gset string) (bs : list button)
    : result (option (button * string)) :=
  match bs with
  | [] => Ret None
  | b :: bs' =>
      if tile_found b then
        match tile_fingerprint b with
        | Ret fp =>
            if bool_decide (fp ∈ processed) then pick processed bs'
            else Ret (Some (b, fp))
        | Raise e => Raise e
        end
      else pick processed bs'
  end.

Definition heading_paths : list string :=
  [".//h3"; ".//h2"; ".//div[@role='heading']"].

Fixpoint first_heading (q : string -> result (option string)) (paths : list string)
    : result string :=
  match paths with
  | p :: paths' =>
      match q p with
      | Ret (Some t) =>
          if nonempty (strip t) then Ret (strip t) else first_heading q paths'
      | Ret None => first_heading q paths'
      | Raise e => Raise e
      end
  | [] => Ret EmptyString
  end.

Definition tile_brand_guess (b : button) : result string :=
  rescue is_Exception (first_heading (tile_headings b) heading_paths)
         (Ret EmptyString).

(** The local variables of the loop. *)
Record scan_state := Scan {
  per_card_rows : list row;
  per_card_keys : gset row;
  processed_fps : gset string;
  added_total : nat;
  idle_cycles : nat;
  safety_clicks : nat
}.

Definition scan_start : scan_state := Scan [] ∅ ∅ 0 0 0.

Definition mark_processed (fp : string) (s : scan_state) : scan_state :=
  Scan (per_card_rows s) (per_card_keys s) ({[fp]} ∪ processed_fps s)
       (added_total s) (idle_cycles s) (safety_clicks s).

Definition today_str : string := strftime (today E) "%b %d, %Y".

(** A row is queued only when its key is in neither set; then both sets and
    both row lists grow. *)
Definition record_row (r : row) (s : scan_state) : M scan_state :=
  w <- get;;
  if bool_decide (r ∉ existing_rows w) && bool_decide (r ∉ per_card_keys s) then
    modify (fun w =>
      set_existing_rows ({[r]} ∪ existing_rows w)
        (set_CURRENT_CARD_BUFFER (CURRENT_CARD_BUFFER w ++ [r]) w));;
    ret (Scan (per_card_rows s ++ [r]) ({[r]} ∪ per_card_keys s)
              (processed_fps s) (S (added_total s))
              (idle_cycles s) (safety_clicks s))
  else ret s.

Definition detail_row (b : button) (tile_txt guess disc_tile : string)
    : result row :=
  let header_disc := offer_amount (detail b) in
  let header_lim := limitations (detail b) in
  let '(card_name, last4) := pay_with (detail b) in
  match detail_text (detail b) with
  | Raise e => Raise e
  | Ret terms =>
      let '(maxd, mind, exp_norm, local) :=
        parse_limits_local_expiration (today E) terms header_lim in
      let discount :=
        or_else (parse_discount_from_sources [header_disc; disc_tile; terms; tile_txt])
          (or_else header_disc (or_else disc_tile "Unknown")) in
      match extract_brand_smart (brand_page b) guess with
      | Raise e => Raise e
      | Ret brand =>
          Ret [HOLDER cfg; last4; card_name; brand; discount; maxd; mind;
               today_str; exp_norm; local]
      end
  end.

Definition tile_row (b : button) (guess disc_tile : string) : result row :=
  let discount := or_else disc_tile "Unknown" in
  match (if nonempty guess then Ret guess
         else extract_brand_smart (brand_page b) guess) with
  | Raise e => Raise e
  | Ret brand =>
      Ret [HOLDER cfg; "XXXX"; CARD_NAME_DEFAULT; brand; discount; EmptyString;
           "None"; today_str; EmptyString; "No"]
  end.

Inductive ctl : Type := Continue | Break.

(** One turn of [while True]. *)
Definition scan_step (s : scan_state) : M (ctl * scan_state) :=
  buttons <- call EvScan (scan_reply E);;
  picked <- lift (pick (processed_fps s) buttons);;
  match picked with
  | None =>
      let s := Scan (per_card_rows s) (per_card_keys s) (processed_fps s)
                    (added_total s) (S (idle_cycles s)) (safety_clicks s) in
      if Nat.leb 3 (idle_cycles s) then ret (Break, s) else ret (Continue, s)
  | Some (b, fp) =>
      let s := Scan (per_card_rows s) (per_card_keys s) (processed_fps s)
                    (added_total s) 0 (S (safety_clicks s)) in
      if Nat.ltb 200 (safety_clicks s) then
        print POffersSafetyStop;; ret (Break, s)
      else
        tile_txt <- lift (tile_text b);;
        guess <- lift (tile_brand_guess b);;
        let disc_tile := parse_discount_from_sources [tile_txt] in
        if negb (click_ok b) then ret (Continue, mark_processed fp s)
        else
          nav <- lift (navigated b);;
          if nav : bool then
            r <- lift (detail_row b tile_txt guess disc_tile);;
            s <- record_row r s;;
            lift (outcome (back b));;
            ret (Continue, mark_processed fp s)
          else
            r <- lift (tile_row b guess disc_tile);;
            s <- record_row r s;;
            ret (Continue, mark_processed fp s)
  end.

(** The loop, run for at most [fuel] turns; [None] when they do not
    suffice. *)
Fixpoint scan_loop (fuel : nat) (s : scan_state) : M (option scan_state) :=
  match fuel with
  | O => ret None
  | S fuel' =>
      r <- scan_step s;;
      match r with
      | (Break, s') => ret (Some s')
      | (Continue, s') => scan_loop fuel' s'
      end
  end.

(** Turns left at most: every turn either adds an idle cycle (below 3) or a
    click (up to the cap). *)
Definition turns_left (s : scan_state) : nat :=
  3 * (201 - safety_clicks s) + (3 - idle_cycles s).

Definition scan_fuel : nat := turns_left scan_start.

Definition reset_filters_full_range : M unit :=
  values <- get_all_values;;
  set_filter (Nat.max 1 (length values)).

(** After the loop: the rows of the card go to the sheet in one call, or to
    [APPEND_BUFFER] when that call (or the filter reset after it) fails. *)
Definition record_card_rows (s : scan_state) : M nat :=
  let rows := per_card_rows s in
  (if nonnil rows then
     try_except
       (append_rows rows;;
        modify (set_CURRENT_CARD_BUFFER []);;
        print (POffersAppended (length rows));;
        reset_filters_full_range)
       is_Exception
       (fun _ =>
          modify (fun w => set_APPEND_BUFFER (APPEND_BUFFER w ++ rows) w);;
          print (POffersBuffered (length rows)))
   else ret tt);;
  print (POffersDone (added_total s));;
  ret (added_total s).

(** The steps before the loop (expanding and scrolling the list, waiting for
    tiles) swallow their exceptions and touch nothing the script keeps. The
    fuel covers every run of the loop, so its [None] branch is never taken. *)
Definition enroll_all_offers_for_current_card : M nat :=
  modify (set_CURRENT_CARD_BUFFER []);;
  print POffersStart;;
  r <- scan_loop scan_fuel scan_start;;
  match r with
  | None => ret O
  | Some s => record_card_rows s
  end.

(** *** Card loop *)

(** [go_to_categories_for] is one outside call here: the page either gets to
    the card's offers view, or not, or the attempt raises. *)
Definition go_to_categories_for (acc_id : string) : M bool :=
  call (EvVisit acc_id) (visit_reply E).

Fixpoint cards_loop (ids : list string) (total_cards total_rows : nat)
    : M (nat * nat) :=
  match ids with
  | [] => ret (total_cards, total_rows)
  | acc_id :: ids' =>
      t <- try_except
             (ok <- go_to_categories_for acc_id;;
              if negb ok then
                print PCardSkipped;; ret (S total_cards, total_rows)
              else
                added <- enroll_all_offers_for_current_card;;
                ret (S total_cards, total_rows + added)%nat)
             is_Exception
             (fun _ =>
                sheet_log "ERROR" "card";; print (PCardError acc_id);;
                ret (total_cards, total_rows));;
      cards_loop ids' (fst t) (snd t)
  end.

Definition process_cards : M unit :=
  rows <- get_all_values;;
  modify (set_existing_rows (list_to_set (tail rows)));;
  t <- cards_loop ACCOUNT_IDS 0 0;;
  print (PCardsComplete (fst t) (snd t)).

(** *** Sheet maintenance *)

Definition cell (r : row) (i : nat) : string :=
  match r !! i with Some v => strip v | None => EmptyString end.

Definition date_updates_of_row (i : nat) (r : row) : list (nat * nat * string) :=
  flat_map (fun col_idx =>
    let raw := cell r col_idx in
    let norm := if nonempty raw then normalize_date_out (today E) (Some raw)
                else EmptyString in
    if nonempty norm && negb (String.eqb norm raw)
    then [(S i, S col_idx, norm)] else []) [7%nat; 8%nat].

Fixpoint date_updates (i : nat) (rows : list row) : list (nat * nat * string) :=
  match rows with
  | [] => []
  | r :: rows' => date_updates_of_row i r ++ date_updates (S i) rows'
  end.

Fixpoint apply_updates (us : list (nat * nat * string)) : M unit :=
  match us with
  | [] => ret tt
  | (r, c, v) :: us' => update_cell r c v;; apply_updates us'
  end.

Definition normalize_sheet_dates : M unit :=
  rows <- get_all_values;;
  apply_updates (date_updates 1 (tail rows)).

Definition dedupe_rows : M nat :=
  rows <- get_all_values;;
  let req := Sheets.dedupe_requests rows in
  (if nonnil req then delete_rows req else ret tt);;
  ret (length req).

(** *** Final flush and main *)

(** [range(0, n, step)]: a zero step is a [ValueError], a negative one gives
    nothing. *)
Definition chunk_starts (n : nat) (step : Z) : result (list nat) :=
  if step =? 0 then Raise OtherException
  else if step <? 0 then Ret []
  else
    let st := Z.to_nat step in
    Ret (map (fun j => j * st)%nat (seq 0%nat ((n + st - 1) / st)%nat)).

Fixpoint append_chunks (starts : list nat) (total : nat) : M nat :=
  match starts with
  | [] => ret total
  | i :: starts' =>
      w <- get;;
      let chunk := take (Z.to_nat (APPEND_CHUNK_SIZE cfg)) (drop i (APPEND_BUFFER w)) in
      append_rows chunk;;
      append_chunks starts' (total + length chunk)
  end.

Definition flush_buffer : M unit :=
  modify (fun w =>
    if nonnil (CURRENT_CARD_BUFFER w)
    then set_CURRENT_CARD_BUFFER []
           (set_APPEND_BUFFER (APPEND_BUFFER w ++ CURRENT_CARD_BUFFER w) w)
    else w);;
  w <- get;;
  if negb (nonnil (APPEND_BUFFER w)) then print PFlushNothing
  else
    try_finally
      (try_except
         (starts <- lift (chunk_starts (length (APPEND_BUFFER w)) (APPEND_CHUNK_SIZE cfg));;
          total <- append_chunks starts 0;;
          print (PFlushAppended total);;
          reset_filters_full_range)
         is_Exception
         (fun _ => print PFlushError))
      (modify (set_APPEND_BUFFER [])).

Definition safe_quit : M unit :=
  try_except (call EvQuit (fun n => outcome (quit_reply E n)))
             is_InvalidSessionId (fun _ => ret tt).

(** The script sleeps until the operator interrupts it, and then returns. *)
Definition hold_open : M unit := modify (emit EvHold).

Definition prefill_home_login : M unit :=
  try_except (call EvPrefill (fun n => outcome (prefill_reply E n)))
             is_Exception (fun _ => ret tt).

Definition wait_for_post_login : M bool :=
  ok <- call EvWaitLogin (login_reply E);;
  if ok : bool then ret true else sheet_log "ERROR" "wait";; ret false.

(** The [try] block of [main]. *)
Definition main_body : M unit :=
  robust_get CHASE_HOME_URL 1;;
  prefill_home_login;;
  ok <- wait_for_post_login;;
  if negb ok then print PMainAbort
  else
    process_cards;;
    process_cards;;
    normalize_sheet_dates;;
    dedupe_rows;;
    reset_filters_full_range;;
    print PMainComplete.

(** The two [except] clauses of [main]. *)
Definition main_handled (e : exn) : bool := is_KeyboardInterrupt e || is_Exception e.
Definition main_handler (e : exn) : M unit :=
  if is_KeyboardInterrupt e
  then print PMainInterrupted;; sheet_log "WARN" "main"
  else print PMainFatal;; sheet_log "ERROR" "main".

(** The [finally] clause of [main]. *)
Definition main_finally : M unit :=
  flush_buffer;;
  if CLOSE_ON_EXIT cfg then safe_quit else hold_open.

Definition main : M unit :=
  try_finally (try_except main_body main_handled main_handler) main_finally.

End Run.

End Chase.

(* ===================================================================== *)
(** ** The Amex script *)
(* ===================================================================== *)

Module Amex.
Import Text Re Datetime Py.
Open Scope run_scope.

Abbreviation row := Sheets.row.

Definition LOGIN_URL : string := "https://www.americanexpress.com/en-us/account/login".
Definition MICRO_BATCH : nat := 3.

(** *** Text extraction *)

(** MONEY_RE, "\$[\d,]+(?:\.\d{2})?" *)
Definition re_money : re :=
  cats [Lit "$"; plus (alts [d; Lit ","]); opt (cats [Lit "."; times d 2])].

(** Pattern "Expires[, ]+(.+)$". *)
Definition re_expires_tail : re :=
  cats [str "Expires"; plus (one_of ", "); Grp 1 (plus dot); Eol].

(** Pattern "([A-Za-z]{3,9}\s+\d{1,2},\s*\d{2,4})". *)
Definition re_month_date : re :=
  Grp 1 (cats [rep alpha 3 9; plus sp; rep d 1 2; Lit ","; star sp; rep d 2 4]).

Fixpoint first_format_str (s : string) (fmts : list string) : option string :=
  match fmts with
  | f :: fmts' =>
      match strptime s f with
      | Some dt => Some (strftime dt "%b %d, %Y")
      | None => first_format_str s fmts'
      end
  | [] => None
  end.

(** The function calls itself on the text after "Expires", which is shorter
    than its argument; [fuel] bounds the depth of these calls, and the
    length of the argument is enough of it ([normalize_exp_enough]). *)
Fixpoint normalize_exp_fuel (fuel : nat) (raw : string) : string :=
  let raw := strip raw in
  match first_format_str raw ["%m/%d/%Y"; "%m/%d/%y"] with
  | Some out => out
  | None =>
      match search true re_expires_tail raw, fuel with
      | Some m, S fuel' => normalize_exp_fuel fuel' (group 1 m)
      | Some m, O => raw
      | None, _ =>
          match search false re_month_date raw with
          | Some m =>
              match first_format_str (group 1 m)
                      ["%b %d, %Y"; "%B %d, %Y"; "%b %d, %y"; "%B %d, %y"] with
              | Some out => out
              | None => raw
              end
          | None => raw
          end
      end
  end.

Definition normalize_exp (raw : string) : string :=
  normalize_exp_fuel (String.length raw) raw.

Fixpoint contains_char (c : ascii) (s : string) : bool :=
  match s with
  | String a s' => ascii_eqb a c || contains_char c s'
  | EmptyString => false
  end.

(** Returns [(discount, min_spend, max_total)]. *)
Definition parse_from_desc (desc : string) : string * string * string :=
  let min_spend :=
    match search true (cats [str "Spend"; star sp; Grp 1 re_money]) desc with
    | Some m => group 1 m
    | None => "None"
    end in
  let m :=
    match search true
            (cats [alts [str "earn"; str "get"]; star sp;
                   Grp 1 (alts [cats [rep d 1 3; Lit "%"]; re_money]);
                   star sp; str "back"]) desc with
    | Some m => Some m
    | None =>
        match search true
                (Grp 1 (cats [rep d 1 3; Lit "%"; star sp;
                              opt (cats [str "cash"; star sp]); str "back"])) desc with
        | Some m => Some m
        | None => search true (cats [Grp 1 re_money; star sp; str "back"]) desc
        end
    end in
  let discount :=
    match m with
    | Some m =>
        if negb (contains_char "%" (group 1 m)) then group 1 m +:+ " back"
        else group 1 m
    | None => "Unknown"
    end in
  let max_total :=
    match search true (cats [str "total of"; star sp; Grp 1 re_money]) desc with
    | Some m => group 1 m
    | None => EmptyString
    end in
  (discount, min_spend, max_total).

(** Pattern "^Expires\b|^Spend\b|^Earn\b|View Details|Terms apply". *)
Definition re_boilerplate : re :=
  alts [cats [Bol; str "Expires"; Wb]; cats [Bol; str "Spend"; Wb];
        cats [Bol; str "Earn"; Wb]; str "View Details"; str "Terms apply"].

(** Pattern "back|spend|earn|total|expires". *)
Definition re_offer_words : re :=
  alts [str "back"; str "spend"; str "earn"; str "total"; str "expires"].

Definition nonblank_lines (txt : string) : list string :=
  List.filter nonempty (map strip (splitlines txt)).

Fixpoint first_brand_line (lines : list string) : string :=
  match lines with
  | l :: lines' =>
      if found true re_boilerplate l then first_brand_line lines'
      else if found false re_money l && found true re_offer_words l
      then first_brand_line lines'
      else l
  | [] => "Unknown Brand"
  end.

Definition infer_brand_from_text (txt : string) : string :=
  first_brand_line (firstn 6 (nonblank_lines txt)).

(** What a node of the page shows; [None] for a read that raises (every such
    read sits in a [try] that swallows the exception). *)
Record node := {
  node_text : option string;        (* node.text *)
  h3_span : option string;          (* .//h3//span *)
  expiration_date : option string   (* [data-testid='expirationDate'] *)
}.

(** An "add" button: itself as a node, and its ancestors from the parent
    upwards, as far as they can be reached. *)
Record button := {
  self : node;
  parents : list node;
  click : option exn                (* scrolling to and clicking the button *)
}.

(** Pattern "View Details|Terms apply|Expires". *)
Definition re_tile_marker : re :=
  alts [str "View Details"; str "Terms apply"; str "Expires"].

Fixpoint first_tile (ns : list node) : option node :=
  match ns with
  | n :: ns' =>
      if found true re_tile_marker (default EmptyString (node_text n))
      then Some n else first_tile ns'
  | [] => None
  end.

Definition tile_root_from_button (b : button) : node :=
  default (self b) (first_tile (firstn 8 (parents b))).

(** [sorted(lines, key=len, reverse=True)]: longest first, lines of equal
    length in their original order. *)
Fixpoint insert_by_length (x : string) (l : list string) : list string :=
  match l with
  | y :: l' =>
      if Nat.leb (String.length y) (String.length x) then x :: l
      else y :: insert_by_length x l'
  | [] => [x]
  end.
Definition longest_first (l : list string) : list string :=
  foldr insert_by_length [] l.

(** Pattern "\bSpend\b|\bEarn\b|\bback\b". *)
Definition re_desc_words : re :=
  alts [cats [Wb; str "Spend"; Wb]; cats [Wb; str "Earn"; Wb];
        cats [Wb; str "back"; Wb]].

(** The pattern, piece by piece: "Expires\s+" and then the group
    "([A-Za-z]{3,9}\s+\d{1,2},\s*\d{2,4}|\d{1,2}/\d{1,2}/\d{2,4})". *)
Definition re_expires_date : re :=
  cats [str "Expires"; plus sp;
        Grp 1 (alts [cats [rep alpha 3 9; plus sp; rep d 1 2; Lit ","; star sp; rep d 2 4];
                     cats [rep d 1 2; Lit "/"; rep d 1 2; Lit "/"; rep d 2 4]])].

Fixpoint first_desc (lines : list string) : string :=
  match lines with
  | l :: lines' => if found true re_desc_words l then l else first_desc lines'
  | [] => EmptyString
  end.

(** Returns [(brand, discount, min_spend, max_total, exp)]. *)
Definition extract_tile_data (tile : node)
    : string * string * string * string * string :=
  let brand :=
    match h3_span tile with
    | Some t => or_else (strip t) "Unknown Brand"
    | None => "Unknown Brand"
    end in
  let txt := default EmptyString (node_text tile) in
  let brand :=
    if String.eqb brand "Unknown Brand" then infer_brand_from_text txt else brand in
  let desc := first_desc (longest_first (map strip (splitlines txt))) in
  let '(discount, min_spend, max_total) := parse_from_desc desc in
  let exp :=
    match expiration_date tile with
    | Some t => if nonempty (strip t) then normalize_exp (strip t) else EmptyString
    | None => EmptyString
    end in
  let exp :=
    if negb (nonempty exp) then
      match search true re_expires_date txt with
      | Some m => normalize_exp (group 1 m)
      | None => exp
      end
    else exp in
  (brand, discount, min_spend, max_total, exp).

(** *** The world the script acts on *)

Inductive event : Type :=
| EvGet (url : string)              (* driver.get(url) *)
| EvWaitReady                       (* wait_until_offers_ready *)
| EvRefresh                         (* driver.refresh() *)
| EvCardInfo                        (* current_card_info *)
| EvSnapshot                        (* plus_buttons_snapshot *)
| EvClick                           (* scroll to the button and click it *)
| EvRead                            (* OFFERS_WS.get_all_values() *)
| EvAppend (rows : list row)        (* OFFERS_WS.append_rows(rows) *)
| EvDeleteRows (idx : list nat)
| EvFilter (last_row : nat)
| EvLog (level func : string)
| EvQuit
| EvInput.                          (* waiting for Enter *)

Record world := World {
  sheet : list row;
  APPEND_BUFFER : list row;
  clock : nat;
  trace : list event
}.

Definition set_sheet (v : list row) (w : world) : world :=
  World v (APPEND_BUFFER w) (clock w) (trace w).
Definition set_APPEND_BUFFER (v : list row) (w : world) : world :=
  World (sheet w) v (clock w) (trace w).
Definition emit (e : event) (w : world) : world :=
  World (sheet w) (APPEND_BUFFER w) (clock w) (trace w ++ [e]).
Definition tick (e : event) (w : world) : world :=
  World (sheet w) (APPEND_BUFFER w) (S (clock w)) (trace w ++ [e]).

Local Abbreviation M := (Py.M world).

Record config := {
  AMEX_HOLDER : string;
  AUTO_CLOSE : bool;
  MAX_REFRESH_ROUNDS : nat
}.

Record env := {
  today : date;
  get_reply : nat -> option exn;
  ready_reply : nat -> option exn;
  refresh_reply : nat -> option exn;
  card_info_reply : nat -> string * string;
  snapshot_reply : nat -> result (list button);
  sink_reply : nat -> option exn;
  quit_reply : nat -> option exn;
  input_reply : nat -> option exn
}.

Section Run.

Variable E : env.
Variable cfg : config.

Definition call {A} (ev : event) (reply : nat -> result A) : M A :=
  fun w => (reply (clock w), tick ev w).

Definition sheet_log (level func : string) : M unit :=
  modify (emit (EvLog level func)).

Definition append_rows (rows : list row) : M unit :=
  call (EvAppend rows) (fun n => outcome (sink_reply E n));;
  modify (fun w => set_sheet (sheet w ++ rows) w).

Definition get_all_values : M (list row) :=
  call EvRead (fun n => outcome (sink_reply E n));;
  w <- get;; ret (sheet w).

Definition delete_rows (idx : list nat) : M unit :=
  call (EvDeleteRows idx) (fun n => outcome (sink_reply E n));;
  modify (fun w => set_sheet (Sheets.delete_all (sheet w) idx) w).

Definition append_rows_now (rows : list row) : M unit :=
  if negb (nonnil rows) then ret tt
  else try_except (append_rows rows) is_Exception
                  (fun _ => sheet_log "ERROR" "append_rows").

Definition flush_buffer : M unit :=
  w <- get;;
  if nonnil (APPEND_BUFFER w) then
    append_rows_now (APPEND_BUFFER w);;
    modify (set_APPEND_BUFFER [])
  else ret tt.

Definition dedupe_rows : M nat :=
  rows <- get_all_values;;
  let req := Sheets.dedupe_requests rows in
  (if nonnil req then delete_rows req else ret tt);;
  ret (length req).

Definition reset_filters : M unit :=
  values <- get_all_values;;
  try_except (call (EvFilter (Nat.max 1 (length values)))
                   (fun n => outcome (sink_reply E n)))
             is_Exception (fun _ => ret tt).

(** One direct attempt; a [WebDriverException] is logged and reported as
    [False], anything else propagates. *)
Definition robust_get (url : string) : M bool :=
  try_except (call (EvGet url) (fun n => outcome (get_reply E n));; ret true)
             is_WebDriverException
             (fun _ => sheet_log "WARN" "nav";; ret false).

(** *** Adding loop *)

Definition plus_buttons_snapshot : M (list button) :=
  try_except (call EvSnapshot (snapshot_reply E)) is_Exception (fun _ => ret []).

Definition current_card_info : M (string * string) :=
  call EvCardInfo (fun n => Ret (card_info_reply E n)).

Definition offer_row (holder last4 card_name date_added : string) (tile : node) : row :=
  let '(brand, discount, min_spend, max_total, exp) := extract_tile_data tile in
  [holder; last4; card_name; or_else brand "Unknown Brand";
   or_else discount "Unknown"; max_total; or_else min_spend "None";
   date_added; exp; "No"].

Record add_state := Add {
  safety_clicks : nat;
  idle_rounds : nat;
  added_count : nat
}.

Inductive ctl : Type := Continue | Break.

Definition add_step (holder last4 card_name date_added : string) (s : add_state)
    : M (ctl * add_state) :=
  btns <- plus_buttons_snapshot;;
  match btns with
  | [] =>
      let s := Add (safety_clicks s) (S (idle_rounds s)) (added_count s) in
      if Nat.leb 2 (idle_rounds s) then ret (Break, s) else ret (Continue, s)
  | btn :: _ =>
      let tile := tile_root_from_button btn in
      let r := offer_row holder last4 card_name date_added tile in
      try_except (call EvClick (fun _ => outcome (click btn)))
                 is_Exception (fun _ => sheet_log "WARN" "click_add");;
      modify (fun w => set_APPEND_BUFFER (APPEND_BUFFER w ++ [r]) w);;
      w <- get;;
      (if Nat.leb MICRO_BATCH (length (APPEND_BUFFER w)) then flush_buffer
       else ret tt);;
      let s := Add (S (safety_clicks s)) 0 (S (added_count s)) in
      if Nat.ltb 800 (safety_clicks s) then
        sheet_log "WARN" "add_loop";; ret (Break, s)
      else ret (Continue, s)
  end.

Fixpoint add_loop (fuel : nat) (holder last4 card_name date_added : string)
    (s : add_state) : M (option add_state) :=
  match fuel with
  | O => ret None
  | S fuel' =>
      r <- add_step holder last4 card_name date_added s;;
      match r with
      | (Break, s') => ret (Some s')
      | (Continue, s') => add_loop fuel' holder last4 card_name date_added s'
      end
  end.

Definition turns_left (s : add_state) : nat :=
  2 * (801 - safety_clicks s) + (2 - idle_rounds s).

Definition add_start : add_state := Add 0 0 0.
Definition add_fuel : nat := turns_left add_start.

(** The fuel covers every run of the loop, so its [None] branch is never
    taken. *)
Definition add_all_offers_for_current_card (holder : string) : M nat :=
  info <- current_card_info;;
  let date_added := strftime (today E) "%b %d, %Y" in
  r <- add_loop add_fuel holder (snd info) (fst info) date_added add_start;;
  match r with
  | Some s => ret (added_count s)
  | None => ret O
  end.

(** *** Main *)

Fixpoint refresh_rounds (rounds : nat) (total_added : nat) : M unit :=
  match rounds with
  | O => ret tt
  | S rounds' =>
      if Nat.eqb total_added 0 then ret tt
      else
        call EvRefresh (fun n => outcome (refresh_reply E n));;
        added <- add_all_offers_for_current_card (AMEX_HOLDER cfg);;
        flush_buffer;;
        refresh_rounds rounds' added
  end.

Definition main_body : M unit :=
  robust_get LOGIN_URL;;
  call EvWaitReady (fun n => outcome (ready_reply E n));;
  total_added <- add_all_offers_for_current_card (AMEX_HOLDER cfg);;
  flush_buffer;;
  refresh_rounds (MAX_REFRESH_ROUNDS cfg) total_added;;
  dedupe_rows;;
  reset_filters.

Definition main_finally : M unit :=
  flush_buffer;;
  if AUTO_CLOSE cfg then
    try_except (call EvQuit (fun n => outcome (quit_reply E n)))
               is_Exception (fun _ => ret tt)
  else
    try_except (call EvInput (fun n => outcome (input_reply E n)))
               is_EOFError (fun _ => ret tt).

Definition main : M unit :=
  try_finally
    (try_except main_body is_Exception (fun _ => sheet_log "ERROR" "main"))
    main_finally.

End Run.

End Amex.

(* ===================================================================== *)
(** ** The first Chase script: text extraction *)
(* ===================================================================== *)

(** The earlier script kept at the head of the Chase source file. *)
Module ChaseFirst.
Import Text Re.

(** The pattern, piece by piece: "[Mm]ax", "[^$]{0,25}", "\$", then the
    group "\d[\d,]*". *)
Definition re_max : re :=
  cats [one_of "Mm"; str "ax"; rep (none_of "$") 0 25; Lit "$";
       Grp 1 (cats [d; star (alts [d; Lit ","])])].

(** The pattern, piece by piece: "(?:spend|purchase)", "[^$]{0,25}", "\$",
    then the group "\d[\d,]*"; it is searched ignoring case. *)
Definition re_min : re :=
  cats [alts [str "spend"; str "purchase"]; rep (none_of "$") 0 25; Lit "$";
       Grp 1 (cats [d; star (alts [d; Lit ","])])].

(** Returns [(max_discount, min_spend)]. *)
Definition parse_vals (text : string) : string * string :=
  let maxd := search false re_max text in
  let mind := search true re_min text in
  (match maxd with Some m => "$" +:+ group 1 m | None => EmptyString end,
   match mind with Some m => "$" +:+ group 1 m | None => EmptyString end).

End ChaseFirst.

(* ===================================================================== *)
(** ** Inputs used in the statements below *)
(* ===================================================================== *)

Module Fixtures.
Import Text Re Datetime Py.

(** The run date of the relative-expiration example. *)
Definition new_year_2024 : date := Date 2024 1 1.

(** A currency amount as the brand guards spell it, "\$\d", and the
    percentage of the discount pattern, "\d{1,3}%". *)
Definition re_currency : re := cats [Lit "$"; d].
Definition re_percentage : re := cats [rep d 1 3; Lit "%"].
Definition re_cash_back : re := cats [str "cash"; star sp; str "back"].

(** A page on which none of the brand probes finds anything. *)
Definition silent_page : Chase.brand_dom :=
  {| Chase.js_added_sibling := Ret EmptyString;
     Chase.first_text := fun _ => Ret None;
     Chase.headings := Ret [] |}.

(** A page whose merchant-name element reads "10% off". *)
Definition percent_page : Chase.brand_dom :=
  {| Chase.js_added_sibling := Ret EmptyString;
     Chase.first_text := fun sel =>
       if String.eqb sel "[data-testid='merchantName']"
       then Ret (Some "10% off") else Ret None;
     Chase.headings := Ret [] |}.

(** A page on which the element before the "added to card" marker reads
    "$10 back". *)
Definition amount_before_marker_page : Chase.brand_dom :=
  {| Chase.js_added_sibling := Ret "$10 back";
     Chase.first_text := fun _ => Ret None;
     Chase.headings := Ret [] |}.

(** Survivors of de-duplication, for comparison with what the scripts'
    reverse scan leaves: [keep_last] keeps a row when no equal row follows it
    (last-seen-wins), [keep_first] is the scan in the other direction, which
    keeps a row when no equal row precedes it. *)
Fixpoint keep_last (l : list Sheets.row) : list Sheets.row :=
  match l with
  | [] => []
  | x :: l' => if bool_decide (x ∈ l') then keep_last l' else x :: keep_last l'
  end.

Fixpoint keep_first_from (seen : gset Sheets.row) (l : list Sheets.row)
    : list Sheets.row :=
  match l with
  | [] => []
  | x :: l' =>
      if bool_decide (x ∈ seen) then keep_first_from seen l'
      else x :: keep_first_from ({[x]} ∪ seen) l'
  end.
Definition keep_first (l : list Sheets.row) : list Sheets.row :=
  keep_first_from ∅ l.

(** The rows passed to [append_rows], call by call. *)
Definition chase_appends (t : list Chase.event) : list (list Sheets.row) :=
  omap (fun e => match e with Chase.EvAppend rows => Some rows | _ => None end) t.

Definition amex_appends (t : list Amex.event) : list (list Sheets.row) :=
  omap (fun e => match e with Amex.EvAppend rows => Some rows | _ => None end) t.

(** The account identifiers passed to [go_to_categories_for], in order. *)
Definition chase_visits (t : list Chase.event) : list string :=
  omap (fun e => match e with Chase.EvVisit a => Some a | _ => None end) t.

(** Three distinct rows and the de-duplication fixture. *)
Definition row_A : Sheets.row := ["A"].
Definition row_B : Sheets.row := ["B"].
Definition row_C : Sheets.row := ["C"].
Definition fixture_sheet : list Sheets.row :=
  [Chase.OFFER_HEADERS; row_A; row_B; row_A; row_C; row_B].

(** 900 distinct rows. *)
Definition rows900 : list Sheets.row :=
  map (fun i => ["row"; zfill 4 (Z.of_nat i) EmptyString]) (seq 0 900).

(** A Chase environment in which every call succeeds, login is detected,
    every card view opens and no card shows an "add" button. *)
Definition chase_calm : Chase.env :=
  {| Chase.today := new_year_2024;
     Chase.get_reply := fun _ => None;
     Chase.script_reply := fun _ => None;
     Chase.prefill_reply := fun _ => None;
     Chase.login_reply := fun _ => Ret true;
     Chase.visit_reply := fun _ => Ret true;
     Chase.scan_reply := fun _ => Ret [];
     Chase.sink_reply := fun _ => None;
     Chase.quit_reply := fun _ => None |}.

(** The same with a sink whose call number [k] (counted on the clock)
    fails. *)
Definition chase_sink_fails_at (k : nat) : Chase.env :=
  {| Chase.today := new_year_2024;
     Chase.get_reply := fun _ => None;
     Chase.script_reply := fun _ => None;
     Chase.prefill_reply := fun _ => None;
     Chase.login_reply := fun _ => Ret true;
     Chase.visit_reply := fun _ => Ret true;
     Chase.scan_reply := fun _ => Ret [];
     Chase.sink_reply := fun n => if Nat.eqb n k then Some OtherException else None;
     Chase.quit_reply := fun _ => None |}.

Definition chase_cfg : Chase.config :=
  {| Chase.HOLDER := "Andrew";
     Chase.APPEND_CHUNK_SIZE := 400;
     Chase.CLOSE_ON_EXIT := true;
     Chase.LOGIN_WAIT_MAX := 420 |}.

(** A world at clock 0 with the given sheet and pending rows. *)
Definition chase_world (sh buf : list Sheets.row) : Chase.world :=
  Chase.World sh buf [] ∅ 0 [].


(** Environments in which every direct navigation fails, with the given
    exception. *)
Definition chase_get_fails (e : exn) : Chase.env :=
  {| Chase.today := new_year_2024;
     Chase.get_reply := fun _ => Some e;
     Chase.script_reply := fun _ => None;
     Chase.prefill_reply := fun _ => None;
     Chase.login_reply := fun _ => Ret true;
     Chase.visit_reply := fun _ => Ret true;
     Chase.scan_reply := fun _ => Ret [];
     Chase.sink_reply := fun _ => None;
     Chase.quit_reply := fun _ => None |}.

Definition amex_get_fails (e : exn) : Amex.env :=
  {| Amex.today := new_year_2024;
     Amex.get_reply := fun _ => Some e;
     Amex.ready_reply := fun _ => None;
     Amex.refresh_reply := fun _ => None;
     Amex.card_info_reply := fun _ => ("Amex Card", "XXXX");
     Amex.snapshot_reply := fun _ => Ret [];
     Amex.sink_reply := fun _ => None;
     Amex.quit_reply := fun _ => None;
     Amex.input_reply := fun _ => None |}.

(** [j] full rounds of [robust_get]: a direct attempt and a scripted one. *)
Fixpoint nav_rounds (url : string) (j : nat) : list Chase.event :=
  match j with
  | O => []
  | S j' => Chase.EvGet url :: Chase.EvScript url :: nav_rounds url j'
  end.

Definition amex_cfg : Amex.config :=
  {| Amex.AMEX_HOLDER := "Card Holder";
     Amex.AUTO_CLOSE := true;
     Amex.MAX_REFRESH_ROUNDS := 3 |}.

Definition amex_world (sh buf : list Sheets.row) : Amex.world :=
  Amex.World sh buf 0 [].


(** The claim of C1 on a failed second append: the rows after the first
    chunk would still be in the buffer. *)
Definition rows_stay_queued (buf : list Sheets.row) (w' : Chase.world) : Prop :=
  Chase.APPEND_BUFFER w' = drop 400 buf.

(** The log of calls has grown from [t]. *)
Definition chase_grown (t : list Chase.event) (w : Chase.world) : Prop :=
  exists evs, Chase.trace w = (t ++ evs)%list.

Definition amex_grown (t : list Amex.event) (w : Amex.world) : Prop :=
  exists evs, Amex.trace w = (t ++ evs)%list.

(** [m], started in [w1], first logs [ev]. *)
Definition opens_with {A} (m : M Chase.world A) (w1 : Chase.world) (ev : Chase.event)
    : Prop :=
  triple (eq w1) m
    (fun _ => chase_grown (Chase.trace w1 ++ [ev])%list)
    (fun _ => chase_grown (Chase.trace w1 ++ [ev])%list).

(** How a Chase flush of the pending rows opens: nothing to do, a first
    chunk for the sink, or -- with a chunk size that is not positive -- the
    error of a zero step or the report of an empty loop. *)
Definition flush_opening (chunk_size : Z) (pending : list Sheets.row) : Chase.event :=
  match pending with
  | [] => Chase.EvPrint Chase.PFlushNothing
  | _ =>
      if (0 <? chunk_size)%Z then Chase.EvAppend (take (Z.to_nat chunk_size) pending)
      else if (chunk_size =? 0)%Z then Chase.EvPrint Chase.PFlushError
      else Chase.EvPrint (Chase.PFlushAppended 0)
  end.

(** No row with key [k] is queued in a buffer, and none was passed to
    [append_rows]. *)
Definition chase_free_of (k : Sheets.row) (w : Chase.world) : Prop :=
  (k ∉ Chase.APPEND_BUFFER w)
  /\ (k ∉ Chase.CURRENT_CARD_BUFFER w)
  /\ forall rows, Chase.EvAppend rows ∈ Chase.trace w -> k ∉ rows.

(** The sheet is [base] followed by rows whose key is not [k]. *)
Definition chase_sheet_from (k : Sheets.row) (base : list Sheets.row) (w : Chase.world)
    : Prop :=
  exists extra, Chase.sheet w = (base ++ extra)%list /\ k ∉ extra.

(** What a run keeps true of a key [k]: nothing queued or appended carries
    it; and, where asked for, the sheet still is [base] -- which holds [k]
    below its header -- followed by other rows, and [k] is in the key set
    the pass works with. *)
Definition chase_key_inv (k : Sheets.row) (base : option (list Sheets.row))
    (known : bool) (w : Chase.world) : Prop :=
  chase_free_of k w
  /\ (forall sh0, base = Some sh0 -> k ∈ tail sh0 /\ chase_sheet_from k sh0 w)
  /\ (known = true -> k ∈ Chase.existing_rows w).

(** An event that passes no row with key [k] to the sink. *)
Definition quiet_for (k : Sheets.row) (ev : Chase.event) : Prop :=
  match ev with Chase.EvAppend rows => k ∉ rows | _ => True end.

(** Events other than a visit to an account and the report of a completed
    run. *)
Definition calm (ev : Chase.event) : bool :=
  match ev with
  | Chase.EvVisit _ => false
  | Chase.EvPrint Chase.PMainComplete => false
  | _ => true
  end.

(** The events logged since the log read [t0] satisfy [P]. *)
Definition chase_since (t0 : list Chase.event) (P : list Chase.event -> Prop)
    (w : Chase.world) : Prop :=
  exists evs, Chase.trace w = (t0 ++ evs)%list /\ P evs.

(** [P] is kept when a calm event is logged. *)
Definition calm_stable (P : list Chase.event -> Prop) : Prop :=
  forall evs ev, calm ev = true -> P evs -> P (evs ++ [ev])%list.

(** So far the accounts [p] were visited, in this order, and the run has not
    reported completion. *)
Definition visited (p : list string) (evs : list Chase.event) : Prop :=
  (Chase.EvPrint Chase.PMainComplete ∉ evs) /\ chase_visits evs = p.

(** The visits of a run: at most the list of accounts gone through twice,
    and all of it when the run reports completion. *)
Definition run_visits (evs : list Chase.event) : Prop :=
  chase_visits evs `prefix_of` (Chase.ACCOUNT_IDS ++ Chase.ACCOUNT_IDS)%list
  /\ (Chase.EvPrint Chase.PMainComplete ∈ evs ->
      chase_visits evs = (Chase.ACCOUNT_IDS ++ Chase.ACCOUNT_IDS)%list).

(** A Chase environment in which login is detected and no card view opens. *)
Definition chase_views_closed : Chase.env :=
  {| Chase.today := new_year_2024;
     Chase.get_reply := fun _ => None;
     Chase.script_reply := fun _ => None;
     Chase.prefill_reply := fun _ => None;
     Chase.login_reply := fun _ => Ret true;
     Chase.visit_reply := fun _ => Ret false;
     Chase.scan_reply := fun _ => Ret [];
     Chase.sink_reply := fun _ => None;
     Chase.quit_reply := fun _ => None |}.

(** A tile reading "Starbucks 10% back" under the heading "Starbucks"; a
    click on its button adds the offer in place, without opening the detail
    view. *)
Definition starbucks_tile : Chase.button :=
  {| Chase.tile_found := true;
     Chase.tile_text := Ret "Starbucks 10% back";
     Chase.stamp := "0";
     Chase.tile_headings := fun path =>
       if String.eqb path ".//h3" then Ret (Some "Starbucks") else Ret None;
     Chase.click_ok := true;
     Chase.navigated := Ret false;
     Chase.detail := {| Chase.offer_amount := EmptyString;
                        Chase.limitations := EmptyString;
                        Chase.pay_with := (EmptyString, EmptyString);
                        Chase.detail_text := Ret EmptyString |};
     Chase.brand_page := silent_page;
     Chase.back := None |}.

Definition starbucks_row : Sheets.row :=
  ["Andrew"; "XXXX"; "Chase Card"; "Starbucks"; "10% back"; EmptyString; "None";
   "Jan 01, 2024"; EmptyString; "No"].

(** Every card shows that one tile, on every poll; the sink fails on its
    call number [k]. *)
Definition chase_one_offer (k : nat) : Chase.env :=
  {| Chase.today := new_year_2024;
     Chase.get_reply := fun _ => None;
     Chase.script_reply := fun _ => None;
     Chase.prefill_reply := fun _ => None;
     Chase.login_reply := fun _ => Ret true;
     Chase.visit_reply := fun _ => Ret true;
     Chase.scan_reply := fun _ => Ret [starbucks_tile];
     Chase.sink_reply := fun n => if Nat.eqb n k then Some OtherException else None;
     Chase.quit_reply := fun _ => None |}.

(** The counters of the two loops at the start of a turn. *)
Definition chase_counters_ok (s : Chase.scan_state) : Prop :=
  (Chase.idle_cycles s <= 2 /\ Chase.safety_clicks s <= 200)%nat.
Definition amex_counters_ok (s : Amex.add_state) : Prop :=
  (Amex.idle_rounds s <= 1 /\ Amex.safety_clicks s <= 800)%nat.

(** A property of the buffers and of the shared key set only. *)
Definition on_buffers (I : Chase.world -> Prop) : Prop :=
  forall w w',
    Chase.APPEND_BUFFER w' = Chase.APPEND_BUFFER w ->
    Chase.CURRENT_CARD_BUFFER w' = Chase.CURRENT_CARD_BUFFER w ->
    Chase.existing_rows w' = Chase.existing_rows w ->
    I w -> I w'.

End Fixtures.

(* ===================================================================== *)
(** ** Predicates on rows, buffers and exceptions *)
(* ===================================================================== *)

(** The vocabulary of the statements about what a run leaves behind: which
    exceptions can leave a function, the shape of the rows it writes, the
    languages its patterns accept. *)
Module Shapes.
Import Text Re Datetime Py.
Open Scope run_scope.
Open Scope list_scope.

(** [m] raises nothing but exceptions satisfying [P]. *)
Definition raises_only {W A} (m : M W A) (P : exn -> Prop) : Prop :=
  triple (fun _ => True) m (fun _ _ => True) (fun e _ => P e).

(** Not an [Exception]: an operator interrupt or an exit request. *)
Definition no_Exception (e : exn) : Prop := is_Exception e = false.

(** Login is not detected and closing the browser fails. *)
Definition chase_quit_fails : Chase.env :=
  {| Chase.today := Fixtures.new_year_2024;
     Chase.get_reply := fun _ => None;
     Chase.script_reply := fun _ => None;
     Chase.prefill_reply := fun _ => None;
     Chase.login_reply := fun _ => Ret false;
     Chase.visit_reply := fun _ => Ret true;
     Chase.scan_reply := fun _ => Ret [];
     Chase.sink_reply := fun _ => None;
     Chase.quit_reply := fun _ => Some WebDriverException |}.

(** The offers never get ready and the final prompt fails to read. *)
Definition amex_input_fails : Amex.env :=
  {| Amex.today := Fixtures.new_year_2024;
     Amex.get_reply := fun _ => None;
     Amex.ready_reply := fun _ => Some OtherException;
     Amex.refresh_reply := fun _ => None;
     Amex.card_info_reply := fun _ => ("Amex Card", "XXXX");
     Amex.snapshot_reply := fun _ => Ret [];
     Amex.sink_reply := fun _ => None;
     Amex.quit_reply := fun _ => None;
     Amex.input_reply := fun _ => Some OtherException |}.

Definition amex_cfg_open : Amex.config :=
  {| Amex.AMEX_HOLDER := "Card Holder";
     Amex.AUTO_CLOSE := false;
     Amex.MAX_REFRESH_ROUNDS := 3 |}.

(** *** The rows of a card *)

Section CardRows.
Variable E : Chase.env.
Variable cfg : Chase.config.

(** What every row built by the enrolment loop looks like: one cell per
    header, the holder first, a discount and a minimum spend that are not
    blank, today's date under "Date Added", "Yes" or "No" under "Local". *)
Definition offer_row_shape (r : Sheets.row) : Prop :=
  length r = length Chase.OFFER_HEADERS
  /\ r !! 0%nat = Some (Chase.HOLDER cfg)
  /\ (exists v, r !! 4%nat = Some v /\ nonempty v = true)
  /\ (exists v, r !! 6%nat = Some v /\ nonempty v = true)
  /\ r !! 7%nat = Some (Chase.today_str E)
  /\ (r !! 9%nat = Some "Yes" \/ r !! 9%nat = Some "No").

(** The bookkeeping of the loop while it works on the card it entered in
    [w0]: the variables of the loop against the world. *)
Record card_inv (w0 : Chase.world) (s : Chase.scan_state) (w : Chase.world) : Prop :=
  CardInv {
    ci_sheet : Chase.sheet w = Chase.sheet w0;
    ci_pending : Chase.APPEND_BUFFER w = Chase.APPEND_BUFFER w0;
    ci_buffer : Chase.CURRENT_CARD_BUFFER w = Chase.per_card_rows s;
    ci_count : Chase.added_total s = length (Chase.per_card_rows s);
    ci_distinct : NoDup (Chase.per_card_rows s);
    ci_keys : Chase.per_card_keys s = list_to_set (Chase.per_card_rows s);
    ci_known : Chase.existing_rows w
               = Chase.existing_rows w0 ∪ list_to_set (Chase.per_card_rows s);
    ci_new : forall r, r ∈ Chase.per_card_rows s -> r ∉ Chase.existing_rows w0;
    ci_clicks : (length (Chase.per_card_rows s) <= Chase.safety_clicks s)%nat;
    ci_cap : (length (Chase.per_card_rows s) <= 200)%nat;
    ci_shape : Forall offer_row_shape (Chase.per_card_rows s)
  }.

End CardRows.

(** Where the rows of a card are once the function is left: taken by the
    sheet (and then not in the card buffer), or still in the card buffer;
    on a normal return they are also in [APPEND_BUFFER] whenever something
    failed after they were collected. *)
Definition card_settled (w : Chase.world) (rows : list Sheets.row)
    (r : result nat) (w' : Chase.world) : Prop :=
  let taken := Chase.sheet w' = Chase.sheet w ++ rows
               /\ Chase.CURRENT_CARD_BUFFER w' = [] in
  let held := Chase.sheet w' = Chase.sheet w
              /\ Chase.CURRENT_CARD_BUFFER w' = rows in
  match r with
  | Ret n =>
      n = length rows
      /\ ((taken /\ Chase.APPEND_BUFFER w' = Chase.APPEND_BUFFER w)
          \/ (taken /\ Chase.APPEND_BUFFER w' = Chase.APPEND_BUFFER w ++ rows)
          \/ (held /\ Chase.APPEND_BUFFER w' = Chase.APPEND_BUFFER w ++ rows))
  | Raise _ =>
      Chase.APPEND_BUFFER w' = Chase.APPEND_BUFFER w /\ (taken \/ held)
  end.

(** *** The final flush *)

(** The rows a flush has to send: the global buffer, then what the card in
    progress had collected. *)
Definition pending_rows (w : Chase.world) : list Sheets.row :=
  Chase.APPEND_BUFFER w ++ Chase.CURRENT_CARD_BUFFER w.

(** The rows handed to the sink since the trace [t]. *)
Definition appended_since (t : list Chase.event) (w : Chase.world)
    : list (list Sheets.row) :=
  Fixtures.chase_appends (drop (length t) (Chase.trace w)).

(** A configuration that differs from the fixture in its chunk size only. *)
Definition chase_cfg_chunks (n : Z) : Chase.config :=
  {| Chase.HOLDER := "Andrew";
     Chase.APPEND_CHUNK_SIZE := n;
     Chase.CLOSE_ON_EXIT := true;
     Chase.LOGIN_WAIT_MAX := 420 |}.

(** *** The rows of an Amex pass *)

Section AmexRows.
Variable E : Amex.env.
Variable holder : string.

(** What every row built by the adding loop looks like: ten cells, the
    holder first, a brand, a discount and a minimum spend that are not
    blank, today's date under "Date Added", "No" under "Local". *)
Definition amex_row_shape (r : Sheets.row) : Prop :=
  length r = 10%nat
  /\ r !! 0%nat = Some holder
  /\ (exists v, r !! 3%nat = Some v /\ nonempty v = true)
  /\ (exists v, r !! 4%nat = Some v /\ nonempty v = true)
  /\ (exists v, r !! 6%nat = Some v /\ nonempty v = true)
  /\ r !! 7%nat = Some (strftime (Amex.today E) "%b %d, %Y")
  /\ r !! 9%nat = Some "No".

(** The bookkeeping of the adding loop entered in [w0]: one row per click
    counted, each in the sheet or in the buffer, in the order of the
    clicks. *)
Definition amex_inv (w0 : Amex.world) (s : Amex.add_state) (w : Amex.world) : Prop :=
  Amex.added_count s = Amex.safety_clicks s
  /\ exists rows,
       Amex.sheet w ++ Amex.APPEND_BUFFER w
         = Amex.sheet w0 ++ Amex.APPEND_BUFFER w0 ++ rows
       /\ length rows = Amex.added_count s
       /\ Forall amex_row_shape rows.

(** What [main] does with the offers view, the first time and after every
    refresh: the adding pass, then a flush. *)
Definition amex_pass : M Amex.world nat :=
  n <- Amex.add_all_offers_for_current_card E holder;;
  Amex.flush_buffer E;;
  ret n.

End AmexRows.

(** An offers view with one offer to add: the first poll shows its button,
    the later ones show none. *)
Definition peets_tile : Amex.node :=
  {| Amex.node_text :=
       Some ("Peets Coffee" +:+ "010" +:+ "Spend $20 or more, get $5 back"
             +:+ "010" +:+ "Expires 12/31/2024" +:+ "010" +:+ "View Details");
     Amex.h3_span := Some "Peets Coffee";
     Amex.expiration_date := None |}.

Definition peets_button : Amex.button :=
  {| Amex.self := {| Amex.node_text := Some "Add to Card";
                     Amex.h3_span := None;
                     Amex.expiration_date := None |};
     Amex.parents := [peets_tile];
     Amex.click := None |}.

Definition amex_one_offer : Amex.env :=
  {| Amex.today := Fixtures.new_year_2024;
     Amex.get_reply := fun _ => None;
     Amex.ready_reply := fun _ => None;
     Amex.refresh_reply := fun _ => None;
     Amex.card_info_reply := fun _ => ("Amex Card", "1001");
     Amex.snapshot_reply := fun n => if Nat.eqb n 1 then Ret [peets_button] else Ret [];
     Amex.sink_reply := fun _ => None;
     Amex.quit_reply := fun _ => None;
     Amex.input_reply := fun _ => None |}.

(** *** Refreshes of the Amex offers view *)

Definition is_refresh (ev : Amex.event) : bool :=
  match ev with Amex.EvRefresh => true | _ => false end.

(** The number of [driver.refresh()] calls in a trace. *)
Definition amex_refreshes (t : list Amex.event) : nat :=
  length (List.filter is_refresh t).

(** *** Dates *)

(** A date that [date(y, m, d)] accepts. *)
Definition valid_date (dt : date) : Prop :=
  make_date (year dt) (month dt) (day dt) = Some dt.

(** The character before the position reached after reading [s]. *)
Fixpoint str_last (s : string) (p : option ascii) : option ascii :=
  match s with
  | EmptyString => p
  | String a s' => str_last s' (Some a)
  end.

(** The pattern of the format ["%b %d, %Y"], piece by piece. *)
Definition re_month_name : re := alts (map str a_month).
Definition re_day : re :=
  alts [Cat (Lit "3") (one_of "01"); Cat (one_of "12") d;
        Cat (Lit "0") (one_of "123456789"); one_of "123456789";
        Cat (Lit " ") (one_of "123456789")].

(** The check behind [ord2ymd]'s validity, for one day [r] of the first
    400-year cycle: the date of ordinal [r + 1] is a date of the calendar,
    in the years 1 to 400, and before the year 400 when the same day of the
    last supported cycle is still within range. *)
Definition cycle_day_ok (r : Z) : bool :=
  let dt := ord2ymd (r + 1) in
  (1 <=? year dt) && (year dt <=? 400)
  && (1 <=? month dt) && (month dt <=? 12)
  && (1 <=? day dt) && (day dt <=? days_in_month (year dt) (month dt))
  && ((MAXORDINAL - 24 * DI400Y <=? r) || (year dt <=? 399)).

(** [f 0 && f 1 && ... && f (n - 1)], counting in binary. *)
Definition all_below (f : Z -> bool) (n : positive) : Z * bool :=
  Pos.iter (fun st => (fst st + 1, snd st && f (fst st))%Z) (0, true) n.

(** *** Date cells of the sheet *)

Section DateCells.
Variable today : date.

(** What [normalize_sheet_dates] writes into column [col] (counted from 0)
    of a row that reads [r]: the normalized date, when there is one and it
    differs from the stripped cell. *)
Definition date_fix (r : Sheets.row) (col : nat) : option string :=
  let raw := Chase.cell r col in
  let norm := if nonempty raw then Chase.normalize_date_out today (Some raw)
              else EmptyString in
  if nonempty norm && negb (String.eqb norm raw) then Some norm else None.

Definition put_fix (r : Sheets.row) (col : nat) (cells : Sheets.row) : Sheets.row :=
  match date_fix r col with
  | Some v => <[col := v]> cells
  | None => cells
  end.

(** The row [r] with its "Date Added" and "Expiration" cells normalized. *)
Definition fixed_row (r : Sheets.row) : Sheets.row :=
  put_fix r 8 (put_fix r 7 r).

End DateCells.

(** One [update_cell] on the rows of the sheet. *)
Definition put_cell (sh : list Sheets.row) (u : nat * nat * string) : list Sheets.row :=
  alter (fun cells => <[pred (snd (fst u)) := snd u]> cells) (pred (fst (fst u))) sh.

(** A sheet with a date to rewrite: the header and one offer whose
    expiration reads "12/31/2024". *)
Definition dated_sheet : list Sheets.row :=
  [Chase.OFFER_HEADERS;
   ["Andrew"; "1001"; "Chase Card"; "Starbucks"; "10% back"; EmptyString; "None";
    "Jan 01, 2024"; "12/31/2024"; "No"]].

(** *** What a pattern can match *)

Fixpoint joined (ss : list string) : string :=
  match ss with
  | [] => EmptyString
  | s :: ss' => s +:+ joined ss'
  end.

(** The texts a pattern can consume (the conditions of [^], [$] and [\b] on
    what surrounds the text are left out: they consume nothing). *)
Fixpoint lang (icase : bool) (r : re) (s : string) {struct r} : Prop :=
  match r with
  | Eps | Bol | Eol | Wb => s = EmptyString
  | Lit a => exists b, s = String b EmptyString /\ lit_ok icase a b = true
  | Cls p => exists b, s = String b EmptyString /\ cls_ok icase p b = true
  | Ncl p => exists b, s = String b EmptyString /\ cls_ok icase p b = false
  | Cat r1 r2 =>
      exists s1 s2, s = (s1 +:+ s2)%string /\ lang icase r1 s1 /\ lang icase r2 s2
  | Alt r1 r2 => lang icase r1 s \/ lang icase r2 s
  | Rep r1 lo hi =>
      exists ss, s = joined ss /\ Forall (lang icase r1) ss
                 /\ (lo <= length ss)%nat
                 /\ match hi with Some h => (length ss <= h)%nat | None => True end
  | Grp _ r1 => lang icase r1 s
  end.

(** The values a pattern can give to its group [n]. *)
Fixpoint grp_lang (icase : bool) (n : nat) (r : re) (v : string) {struct r} : Prop :=
  match r with
  | Grp m r1 => (m = n /\ lang icase r1 v) \/ grp_lang icase n r1 v
  | Cat r1 r2 | Alt r1 r2 => grp_lang icase n r1 v \/ grp_lang icase n r2 v
  | Rep r1 _ _ => grp_lang icase n r1 v
  | _ => False
  end.

(** The pattern sets its group [n] in every match. *)
Fixpoint sets (n : nat) (r : re) {struct r} : bool :=
  match r with
  | Grp m r1 => Nat.eqb m n || sets n r1
  | Cat r1 r2 => sets n r1 || sets n r2
  | Alt r1 r2 => sets n r1 && sets n r2
  | Rep r1 lo _ => Nat.leb 1 lo && sets n r1
  | _ => false
  end.

(** A run of digits and commas, then possibly a point and two digits. With
    [strict], the run starts with a digit. *)
Definition digit_or_comma (c : ascii) : bool := is_digit c || ascii_eqb c ",".

Fixpoint all_chars (p : ascii -> bool) (s : string) : bool :=
  match s with
  | EmptyString => true
  | String c s' => p c && all_chars p s'
  end.

Definition number_text (strict : bool) (v : string) : Prop :=
  exists a frac,
    v = (a +:+ frac)%string
    /\ nonempty a = true /\ all_chars digit_or_comma a = true
    /\ (strict = true -> exists c a', a = String c a' /\ is_digit c = true)
    /\ (frac = EmptyString
        \/ exists d1 d2, frac = String "." (String d1 (String d2 EmptyString))
                         /\ is_digit d1 = true /\ is_digit d2 = true).

(** A dollar amount as the sheet shows it. *)
Definition dollar_amount (strict : bool) (s : string) : Prop :=
  exists v, s = String "$" v /\ number_text strict v.

(** What a successful run tells about the position [c'] and the groups [g']
    that its continuation was given. *)
Definition run_sound (icase : bool) (r : re) (c : cursor) (g : caps)
    (c' : cursor) (g' : caps) : Prop :=
  (exists s, rest c = (s +:+ rest c')%string /\ lang icase r s)
  /\ (forall n v, get_cap n g' = Some v ->
                  get_cap n g = Some v \/ grp_lang icase n r v)
  /\ (forall n, get_cap n g <> None -> get_cap n g' <> None)
  /\ (forall n, sets n r = true -> get_cap n g' <> None).


(** An event that neither reaches the offers sheet nor opens an account. *)
Definition off_sheet (ev : Chase.event) : bool :=
  match ev with
  | Chase.EvVisit _ | Chase.EvScan | Chase.EvRead | Chase.EvAppend _
  | Chase.EvUpdateCell _ _ _ | Chase.EvDeleteRows _ | Chase.EvFilter _ => false
  | _ => true
  end.

(** The state of a run that has not got past the login: the sheet [sh] as it
    was, nothing queued, and only events off the sheet logged since [t0]. *)
Definition logged_out (sh : list Sheets.row) (t0 : list Chase.event)
    (w : Chase.world) : Prop :=
  Chase.sheet w = sh /\ Chase.APPEND_BUFFER w = []
  /\ Chase.CURRENT_CARD_BUFFER w = []
  /\ exists evs, Chase.trace w = t0 ++ evs /\ forallb off_sheet evs = true.


(** One to three digits and a percent sign. *)
Definition percent_text (s : string) : Prop :=
  exists ds, s = (ds +:+ "%")%string /\ all_chars is_digit ds = true
             /\ (1 <= String.length ds <= 3)%nat.

(** What stands between the amount and the last word of a discount: blanks,
    with "cash" (in any case) among them only when [cash_ok]. *)
Definition discount_gap (cash_ok : bool) (s : string) : Prop :=
  all_chars is_space s = true
  \/ (cash_ok = true
      /\ exists b1 c b2, s = (b1 +:+ c +:+ b2)%string
           /\ all_chars is_space b1 = true /\ lower_str c = "cash"
           /\ all_chars is_space b2 = true).

(** A discount as the sheet shows it: a dollar amount or a percentage, then
    "back", possibly "cash back", or "off", in any case. *)
Definition discount_text (s : string) : Prop :=
  exists amt gap word,
    s = (amt +:+ gap +:+ word)%string
    /\ (dollar_amount true amt \/ percent_text amt)
    /\ ((lower_str word = "back" /\ discount_gap true gap)
        \/ (lower_str word = "off" /\ discount_gap false gap)).

(** An amount in whole dollars: the sign, a digit, then digits and commas. *)
Definition whole_dollars (s : string) : Prop :=
  exists c v, s = String "$" (String c v) /\ is_digit c = true
              /\ all_chars digit_or_comma v = true.

(** The view of the first account raises, the other views do not open. *)
Definition chase_card_fails : Chase.env :=
  {| Chase.today := Fixtures.new_year_2024;
     Chase.get_reply := fun _ => None;
     Chase.script_reply := fun _ => None;
     Chase.prefill_reply := fun _ => None;
     Chase.login_reply := fun _ => Ret true;
     Chase.visit_reply := fun n => if Nat.eqb n 1 then Raise OtherException else Ret false;
     Chase.scan_reply := fun _ => Ret [];
     Chase.sink_reply := fun _ => None;
     Chase.quit_reply := fun _ => None |}.

End Shapes.

(* ===================================================================== *)
(** ** Reasoning about computations *)
(* ===================================================================== *)

Section Triples.
Import Py.
Context {W : Type}.
Implicit Types (I P : W -> Prop).

Lemma triple_weaken {A} (P P' : W -> Prop) (m : M W A) Q Q' R R' :
  triple P' m Q' R' ->
  (forall w, P w -> P' w) ->
  (forall a w, Q' a w -> Q a w) ->
  (forall e w, R' e w -> R e w) ->
  triple P m Q R.
Proof.
  intros Hm HP HQ HR w Hw. specialize (Hm w (HP w Hw)).
  destruct (m w) as [[a|e] w']; auto.
Qed.

Lemma triple_ret {A} (P : W -> Prop) (a : A) Q R :
  (forall w, P w -> Q a w) -> triple P (ret a) Q R.
Proof. intros H w Hw. simpl. auto. Qed.

Lemma triple_raise {A} (P : W -> Prop) e (Q : A -> W -> Prop) R :
  (forall w, P w -> R e w) -> triple P (raise e) Q R.
Proof. intros H w Hw. simpl. auto. Qed.

Lemma triple_lift {A} (P : W -> Prop) (r : result A) Q R :
  (forall a w, r = Ret a -> P w -> Q a w) ->
  (forall e w, r = Raise e -> P w -> R e w) ->
  triple P (lift r) Q R.
Proof. intros HQ HR w Hw. unfold lift. destruct r; auto. Qed.

Lemma triple_get (P : W -> Prop) Q R :
  (forall w, P w -> Q w w) -> triple P get Q R.
Proof. intros H w Hw. simpl. auto. Qed.

Lemma triple_modify (P : W -> Prop) (f : W -> W) Q R :
  (forall w, P w -> Q tt (f w)) -> triple P (modify f) Q R.
Proof. intros H w Hw. simpl. auto. Qed.

Lemma triple_bind {A B} (P : W -> Prop) (m : M W A) (f : A -> M W B) Q Q' R :
  triple P m Q R ->
  (forall a, triple (Q a) (f a) Q' R) ->
  triple P (bind m f) Q' R.
Proof.
  intros Hm Hf w Hw. unfold bind. specialize (Hm w Hw).
  destruct (m w) as [[a|e] w']; [apply (Hf a w' Hm) | exact Hm].
Qed.

Lemma triple_try_except {A} (P : W -> Prop) (m : M W A) cls h Q R R1 :
  triple P m Q R1 ->
  (forall e, cls e = true -> triple (R1 e) (h e) Q R) ->
  (forall e w, cls e = false -> R1 e w -> R e w) ->
  triple P (try_except m cls h) Q R.
Proof.
  intros Hm Hh Hr w Hw. unfold try_except. specialize (Hm w Hw).
  destruct (m w) as [[a|e] w']; [exact Hm|].
  destruct (cls e) eqn:Hc; [apply (Hh e Hc w' Hm) | apply (Hr e w' Hc Hm)].
Qed.

(** [finally]: the clause runs from whatever world the body leaves; when it
    returns, the outcome of the body stands. *)
Lemma triple_try_finally {A} (P : W -> Prop) (m : M W A) fin
    (Q : A -> W -> Prop) (R : exn -> W -> Prop) (Q1 : A -> W -> Prop)
    (R1 : exn -> W -> Prop) :
  triple P m Q1 R1 ->
  (forall a, triple (Q1 a) fin (fun _ => Q a) R) ->
  (forall e, triple (R1 e) fin (fun _ => R e) R) ->
  triple P (try_finally m fin) Q R.
Proof.
  intros Hm Hq Hr w Hw. unfold try_finally. specialize (Hm w Hw).
  destruct (m w) as [[a|e] w'].
  - specialize (Hq a w' Hm). destruct (fin w') as [[[]|e'] w'']; exact Hq.
  - specialize (Hr e w' Hm). destruct (fin w') as [[[]|e'] w'']; exact Hr.
Qed.

Lemma keeps_ret {A} I (a : A) : keeps I (ret a).
Proof. apply triple_ret. auto. Qed.

Lemma keeps_lift {A} I (r : result A) : keeps I (lift r).
Proof. apply triple_lift; auto. Qed.

Lemma keeps_get I : keeps I get.
Proof. apply triple_get. auto. Qed.

Lemma keeps_modify I (f : W -> W) : (forall w, I w -> I (f w)) -> keeps I (modify f).
Proof. intros H. apply triple_modify. exact H. Qed.

Lemma keeps_bind {A B} I (m : M W A) (f : A -> M W B) :
  keeps I m -> (forall a, keeps I (f a)) -> keeps I (bind m f).
Proof. intros Hm Hf. eapply triple_bind; [exact Hm | exact Hf]. Qed.

Lemma keeps_try_except {A} I (m : M W A) cls h :
  keeps I m -> (forall e, keeps I (h e)) -> keeps I (try_except m cls h).
Proof.
  intros Hm Hh. eapply triple_try_except; [exact Hm | intros; apply Hh | auto].
Qed.

Lemma keeps_try_finally {A} I (m : M W A) fin :
  keeps I m -> keeps I fin -> keeps I (try_finally m fin).
Proof.
  intros Hm Hf. eapply triple_try_finally; [exact Hm | |]; intros; exact Hf.
Qed.

Lemma keeps_snd {A} I (m : M W A) w : keeps I m -> I w -> I (snd (m w)).
Proof. intros H Hw. specialize (H w Hw). destruct (m w) as [[a|e] w']; exact H. Qed.

Lemma returns_ret {A} (a : A) (Q : A -> Prop) : Q a -> returns (@ret W A a) Q.
Proof. intros H w _. exact H. Qed.

Lemma returns_bind {A B} (m : M W A) (f : A -> M W B) Q :
  (forall a, returns (f a) Q) -> returns (bind m f) Q.
Proof.
  intros Hf w _. unfold bind. destruct (m w) as [[a|e] w']; [|exact I].
  apply (Hf a w' I).
Qed.

Lemma returns_bind_with {A B} (m : M W A) (f : A -> M W B) (P : A -> Prop) Q :
  returns m P -> (forall a, P a -> returns (f a) Q) -> returns (bind m f) Q.
Proof.
  intros Hm Hf w _. unfold bind. specialize (Hm w I).
  destruct (m w) as [[a|e] w']; [|exact I]. apply (Hf a Hm w' I).
Qed.

End Triples.


(* ===================================================================== *)
(** ** Properties: the matcher, and the depth of [normalize_exp] *)
(* ===================================================================== *)

Section FuelFacts.
Import Text Re Datetime Py Fixtures.
Local Open Scope nat_scope.






Lemma run_rep {A} icase r lo hi c g (k : cursor -> caps -> option A) :
  run icase (Rep r lo hi) c g k
  = rep_loop (run icase r) lo hi k (S (String.length (rest c))) 0 c g.
Proof. reflexivity. Qed.



Lemma run_eol {A} icase c g (k : cursor -> caps -> option A) x :
  run icase Eol c g k = Some x -> k c g = Some x.
Proof.
  cbn [run]. destruct (rest c) as [|a s]; [auto|].
  destruct a as [[] [] [] [] [] [] [] []]; try discriminate.
  destruct s; [auto | discriminate].
Qed.

Lemma get_set_cap n v g : get_cap n (set_cap n v g) = Some v.
Proof. unfold set_cap. cbn [get_cap]. rewrite Nat.eqb_refl. reflexivity. Qed.



Lemma run_cat {A} icase r1 r2 c g (k : cursor -> caps -> option A) :
  run icase (Cat r1 r2) c g k = run icase r1 c g (fun c' g' => run icase r2 c' g' k).
Proof. reflexivity. Qed.

Lemma run_grp {A} icase n r c g (k : cursor -> caps -> option A) :
  run icase (Grp n r) c g k
  = run icase r c g (fun c' g' => k c' (set_cap n (consumed c c') g')).
Proof. reflexivity. Qed.





End FuelFacts.


(* ===================================================================== *)
(** ** Properties: text extraction *)
(* ===================================================================== *)

Section ExtractionFacts.
Import Text Re Datetime Py Fixtures.

(** An alternation is tried branch by branch at every start position, so
    when it is found nowhere neither branch is. *)
Lemma search_from_alt_none icase r1 r2 s p :
  search_from icase (Alt r1 r2) p s = None ->
  search_from icase r1 p s = None /\ search_from icase r2 p s = None.
Proof.
  revert p. induction s as [|a s IH]; intros p H; cbn in H |- *.
  - unfold match_at in *. cbn in H.
    destruct (run icase r1 _ _ _) as [[? ?]|]; [discriminate|].
    destruct (run icase r2 _ _ _) as [[? ?]|]; [discriminate|]. auto.
  - unfold match_at in *. cbn in H.
    destruct (run icase r1 _ _ _) as [[? ?]|]; [discriminate|].
    destruct (run icase r2 _ _ _) as [[? ?]|]; [discriminate|].
    apply IH in H. exact H.
Qed.

Lemma found_alt_false icase r1 r2 s :
  found icase (Alt r1 r2) s = false ->
  found icase r1 s = false /\ found icase r2 s = false.
Proof.
  unfold found, search. intros H.
  destruct (search_from icase (Alt r1 r2) None s) eqn:Hs; [discriminate|].
  apply search_from_alt_none in Hs as [H1 H2]. rewrite H1, H2. auto.
Qed.

Lemma guard_excludes b :
  found true Chase.re_guard b = false ->
  found true re_cash_back b = false /\ found true re_currency b = false.
Proof. intros H. apply found_alt_false in H. exact H. Qed.

Lemma guard_heading_excludes b :
  found true Chase.re_guard_heading b = false ->
  found true re_cash_back b = false /\ found true re_currency b = false.
Proof.
  intros H. apply found_alt_false in H as [H1 H2].
  apply found_alt_false in H2 as [H2 _]. auto.
Qed.

Lemma brand_from_selector_guarded dom sel b :
  Chase.brand_from_selector dom sel = Ret (Some b) ->
  found true Chase.re_guard b = false.
Proof.
  unfold Chase.brand_from_selector, Chase.swallow, rescue.
  destruct (Chase.first_text dom sel) as [[t|]|e]; try discriminate.
  - destruct (nonempty (strip t)); [|discriminate].
    destruct (found true Chase.re_guard (strip t)) eqn:Hg; [discriminate|].
    intros [= <-]. exact Hg.
  - destruct (is_Exception e); discriminate.
Qed.

Lemma brand_from_selectors_guarded dom sels b :
  Chase.brand_from_selectors dom sels = Ret (Some b) ->
  found true Chase.re_guard b = false.
Proof.
  induction sels as [|sel sels IH]; simpl; [discriminate|].
  destruct (Chase.brand_from_selector dom sel) as [[b'|]|e] eqn:Hsel.
  - intros [= <-]. eapply brand_from_selector_guarded; eauto.
  - exact IH.
  - discriminate.
Qed.

Lemma scan_headings_guarded hs b :
  Chase.scan_headings hs = Ret (Some b) ->
  found true Chase.re_guard_heading b = false.
Proof.
  induction hs as [|[t|e] hs IH]; simpl; try discriminate.
  destruct (Chase.heading_ok (strip t)) eqn:Hok; [|exact IH].
  intros [= <-]. unfold Chase.heading_ok in Hok.
  repeat (apply andb_prop in Hok as [Hok ?]).
  now apply negb_true_iff.
Qed.

Lemma brand_from_headings_guarded dom b :
  Chase.brand_from_headings dom = Ret (Some b) ->
  found true Chase.re_guard_heading b = false.
Proof.
  unfold Chase.brand_from_headings, Chase.swallow, rescue.
  destruct (Chase.headings dom) as [hs|e].
  - destruct (Chase.scan_headings (firstn 6 hs)) as [o|e] eqn:Hs.
    + intros [= ->]. eapply scan_headings_guarded; eauto.
    + destruct (is_Exception e); discriminate.
  - destruct (is_Exception e); discriminate.
Qed.

(** The Amex brand is the fallback or one of the lines looked at, and then a
    line that is no boilerplate and does not hold both a dollar amount and an
    offer word. *)
Lemma first_brand_line_spec lines b :
  Amex.first_brand_line lines = b ->
  b = "Unknown Brand"
  \/ (b ∈ lines
      /\ found true Amex.re_boilerplate b = false
      /\ (found false Amex.re_money b = false
          \/ found true Amex.re_offer_words b = false)).
Proof.
  induction lines as [|l lines IH]; simpl; [auto|].
  destruct (found true Amex.re_boilerplate l) eqn:Hb.
  - intros H. destruct (IH H) as [->|(Hin & H1 & H2)]; [auto|].
    right. split; [apply list_elem_of_further; exact Hin | auto].
  - destruct (found false Amex.re_money l) eqn:Hm;
      [destruct (found true Amex.re_offer_words l) eqn:Hw|]; cbn [andb].
    + intros H. destruct (IH H) as [->|(Hin & H1 & H2)]; [auto|].
      right. split; [apply list_elem_of_further; exact Hin | auto].
    + intros <-. right. split; [apply list_elem_of_here | auto].
    + intros <-. right. split; [apply list_elem_of_here | auto].
Qed.


(** C7, counterexample. On a page whose merchant-name element reads
    "10% off" the brand returned is "10% off", which the percentage pattern
    matches: no probe checks for percentages. Nor does the Amex function,
    which also lets a line with a dollar amount through when it holds no
    offer word. *)
Lemma brand_can_be_a_percentage :
  Chase.extract_brand_smart percent_page EmptyString = Ret "10% off"
  /\ found true re_percentage "10% off" = true
  /\ Amex.infer_brand_from_text "10% off today" = "10% off today"
  /\ found true re_percentage "10% off today" = true
  /\ Amex.infer_brand_from_text "$5 Store" = "$5 Store"
  /\ found true re_currency "$5 Store" = true.
Proof. repeat split; vm_compute; reflexivity. Qed.

(** The first probe of the Chase function tests its value against a pattern
    with doubled backslashes, which no amount matches: "$10 back" found
    before the marker is returned as the brand. *)
Lemma first_probe_lets_amounts_through :
  Chase.extract_brand_smart amount_before_marker_page EmptyString = Ret "$10 back"
  /\ found true re_currency "$10 back" = true
  /\ found true Chase.re_guard "$10 back" = true
  /\ found true Chase.re_guard_js "$10 back" = false.
Proof. repeat split; vm_compute; reflexivity. Qed.

(** C7, as amended. In the Chase script, when the first probe (the element
    before the "added" marker) yields nothing, the brand returned is either
    the fallback -- the stripped tile guess, or "Unknown Brand" when that is
    empty -- or a text in which neither "cash back" nor a dollar sign
    followed by a digit occurs; and when the attribute hooks and the headings
    yield nothing either and the tile guess is blank, it is exactly
    "Unknown Brand". In the Amex script the brand inferred from a text is
    "Unknown Brand" or one of its first six non-blank lines, one that is no
    boilerplate and does not hold both a dollar amount and an offer word; on
    a text without such a line it is exactly "Unknown Brand". *)
Theorem brand_guarded_or_fallback (dom : Chase.brand_dom)
    (tile_guess b txt : string) :
  (Chase.brand_from_js dom = Ret None ->
   (Chase.extract_brand_smart dom tile_guess = Ret b ->
    b = Chase.brand_fallback tile_guess
    \/ (found true re_cash_back b = false /\ found true re_currency b = false))
   /\ (Chase.brand_from_selectors dom Chase.brand_selectors = Ret None ->
       Chase.brand_from_headings dom = Ret None ->
       strip tile_guess = EmptyString ->
       Chase.extract_brand_smart dom tile_guess = Ret "Unknown Brand"))
  /\ (Amex.infer_brand_from_text txt = b ->
      b = "Unknown Brand"
      \/ (b ∈ firstn 6 (Amex.nonblank_lines txt)
          /\ found true Amex.re_boilerplate b = false
          /\ (found false Amex.re_money b = false
              \/ found true Amex.re_offer_words b = false)))
  /\ (Amex.nonblank_lines txt = [] ->
      Amex.infer_brand_from_text txt = "Unknown Brand").
Proof.
  split; [|split].
  - intros Hjs. unfold Chase.extract_brand_smart. rewrite Hjs. split.
    + destruct (Chase.brand_from_selectors dom Chase.brand_selectors)
        as [[b1|]|e] eqn:Hsel.
      * intros [= <-]. right.
        apply guard_excludes. eapply brand_from_selectors_guarded; eauto.
      * destruct (Chase.brand_from_headings dom) as [[b2|]|e] eqn:Hh.
        -- intros [= <-]. right.
           apply guard_heading_excludes. eapply brand_from_headings_guarded; eauto.
        -- intros [= <-]. left. reflexivity.
        -- discriminate.
      * discriminate.
    + intros -> -> Hg. unfold Chase.brand_fallback. rewrite Hg. reflexivity.
  - apply first_brand_line_spec.
  - intros Hnil. unfold Amex.infer_brand_from_text. rewrite Hnil. reflexivity.
Qed.

Lemma brand_guarded_or_fallback_witness :
  Chase.extract_brand_smart silent_page "  " = Ret "Unknown Brand"
  /\ Amex.infer_brand_from_text "  " = "Unknown Brand".
Proof.
  destruct (brand_guarded_or_fallback silent_page "  " "Unknown Brand" "  ")
    as (HC & _ & HA).
  split.
  - apply HC; vm_compute; reflexivity.
  - apply HA. vm_compute. reflexivity.
Defined.

End ExtractionFacts.

(* ===================================================================== *)
(** ** Properties: removal of duplicate rows *)
(* ===================================================================== *)

Section DedupFacts.
Import Text Re Datetime Py Fixtures Sheets.
Local Open Scope list_scope.
Local Open Scope nat_scope.

Lemma delete_at_length {A} (l1 : list A) x l2 :
  delete (length l1) (l1 ++ x :: l2) = l1 ++ l2.
Proof. induction l1 as [|y l1 IH]; simpl; [reflexivity | now rewrite IH]. Qed.

Lemma delete_all_snoc rows req i :
  delete_all rows (req ++ [i]) = delete i (delete_all rows req).
Proof. unfold delete_all. now rewrite foldl_app. Qed.

Lemma keep_last_elem l x : x ∈ keep_last l <-> x ∈ l.
Proof.
  induction l as [|y l IH]; simpl; [reflexivity|].
  case_bool_decide as Hy; set_solver.
Qed.

Lemma keep_last_NoDup l : NoDup (keep_last l).
Proof.
  induction l as [|y l IH]; simpl; [constructor|].
  case_bool_decide as Hy; [exact IH|].
  constructor; [rewrite keep_last_elem; exact Hy | exact IH].
Qed.

Lemma keep_first_from_elem seen l x :
  x ∈ keep_first_from seen l <-> x ∈ l /\ x ∉ seen.
Proof.
  revert seen. induction l as [|y l IH]; intros seen; simpl.
  - set_solver.
  - case_bool_decide as Hy; rewrite ?elem_of_cons, IH.
    + set_solver.
    + destruct (decide (x = y)) as [-> | Hne]; set_solver.
Qed.

Lemma keep_first_from_NoDup seen l : NoDup (keep_first_from seen l).
Proof.
  revert seen. induction l as [|y l IH]; intros seen; simpl; [constructor|].
  case_bool_decide as Hy; [apply IH|].
  constructor; [| apply IH].
  rewrite keep_first_from_elem. set_solver.
Qed.

(** Both scan directions leave the same rows, each once. *)
Lemma keep_first_last_perm l : keep_first l ≡ₚ keep_last l.
Proof.
  apply NoDup_Permutation.
  - apply keep_first_from_NoDup.
  - apply keep_last_NoDup.
  - intros x. unfold keep_first. rewrite keep_first_from_elem, keep_last_elem. set_solver.
Qed.

Lemma keep_last_length l : length (keep_last l) <= length l.
Proof. induction l as [|y l IH]; simpl; [lia|]. case_bool_decide; simpl; lia. Qed.

(** The invariant of the reverse scan: with the rows above index [i] already
    visited, [seen] holds exactly those rows, and carrying out the requests
    collected so far leaves the rows up to [i] untouched and, above them, the
    last occurrence of every row. *)
Lemma dedupe_scan_spec rows i seen req :
  i < length rows ->
  seen = list_to_set (drop (S i) rows) ->
  delete_all rows req = take (S i) rows ++ keep_last (drop (S i) rows) ->
  length req + length (keep_last (drop (S i) rows)) = length (drop (S i) rows) ->
  delete_all rows (dedupe_scan rows i seen req)
    = take 1 rows ++ keep_last (drop 1 rows)
  /\ length (dedupe_scan rows i seen req) + length (keep_last (drop 1 rows))
     = length (drop 1 rows).
Proof.
  revert seen req. induction i as [|i IH]; intros seen req Hi Hseen Hdel Hlen.
  - simpl. auto.
  - simpl dedupe_scan.
    destruct (lookup_lt_is_Some_2 rows (S i) Hi) as [key Hkey].
    rewrite Hkey.
    pose proof (drop_S _ _ _ Hkey) as Hdrop.
    pose proof (take_S_r _ _ _ Hkey) as Htake.
    assert (Hlt : length (take (S i) rows) = S i) by (rewrite length_take; lia).
    case_bool_decide as Hin.
    + apply IH; [lia | | |].
      * subst seen. rewrite Hdrop. simpl. set_solver.
      * rewrite delete_all_snoc, Hdel, Htake, <- app_assoc. simpl.
        rewrite <- Hlt at 1. rewrite delete_at_length.
        rewrite Hdrop. simpl.
        rewrite bool_decide_eq_true_2; [reflexivity|].
        subst seen. now apply elem_of_list_to_set in Hin.
      * rewrite Hdrop. simpl.
        rewrite bool_decide_eq_true_2
          by (subst seen; now apply elem_of_list_to_set in Hin).
        rewrite length_app. simpl. lia.
    + assert (Hnot : key ∉ drop (S (S i)) rows).
      { subst seen. now rewrite elem_of_list_to_set in Hin. }
      apply IH; [lia | | |].
      * subst seen. rewrite Hdrop. reflexivity.
      * rewrite Hdel, Htake, <- app_assoc, Hdrop. simpl.
        rewrite bool_decide_eq_false_2 by exact Hnot. reflexivity.
      * rewrite Hdrop. simpl.
        rewrite bool_decide_eq_false_2 by exact Hnot. simpl. lia.
Qed.

(** What carrying out [dedupe_requests] does to any sheet: the header stays,
    below it the last occurrence of every row stays, and one request is made
    per row removed. *)
Lemma dedupe_requests_spec rows :
  delete_all rows (dedupe_requests rows) = take 1 rows ++ keep_last (drop 1 rows)
  /\ length (dedupe_requests rows) + length (keep_last (drop 1 rows))
     = length (drop 1 rows).
Proof.
  unfold dedupe_requests.
  destruct rows as [|hdr data]; [simpl; auto|].
  replace (length (hdr :: data) - 1) with (length data) by (simpl; lia).
  assert (Hdrop : drop (S (length data)) (hdr :: data) = [])
    by (apply drop_ge; simpl; lia).
  assert (Htake : take (S (length data)) (hdr :: data) = hdr :: data)
    by (apply take_ge; simpl; lia).
  apply dedupe_scan_spec; rewrite ?Hdrop, ?Htake; simpl; try lia; try reflexivity.
  now rewrite app_nil_r.
Qed.

Ltac decide_membership :=
  repeat (first [ rewrite bool_decide_eq_true_2 by set_solver
                | rewrite bool_decide_eq_false_2 by set_solver ]; simpl).

Lemma fixture_requests (hdr A B C : row) :
  A <> B -> A <> C -> B <> C ->
  dedupe_requests [hdr; A; B; A; C; B] = [2; 1]%nat.
Proof.
  intros HAB HAC HBC. unfold dedupe_requests. simpl. decide_membership. reflexivity.
Qed.

Lemma fixture_survivors (A B C : row) :
  A <> B -> A <> C -> B <> C ->
  keep_last [A; B; A; C; B] = [A; C; B] /\ keep_first [A; B; A; C; B] = [A; B; C].
Proof.
  intros HAB HAC HBC. unfold keep_first. simpl. split; decide_membership; reflexivity.
Qed.

Lemma chase_dedupe_rows_run E w req :
  dedupe_requests (Chase.sheet w) = req -> req <> [] ->
  Chase.sink_reply E (Chase.clock w) = None ->
  Chase.sink_reply E (S (Chase.clock w)) = None ->
  fst (Chase.dedupe_rows E w) = Ret (length req)
  /\ Chase.sheet (snd (Chase.dedupe_rows E w)) = delete_all (Chase.sheet w) req.
Proof.
  intros Hreq Hne H0 H1.
  unfold Chase.dedupe_rows, Chase.get_all_values, Chase.delete_rows, Chase.call.
  unfold bind, get, ret, modify. simpl. rewrite H0. simpl. rewrite Hreq.
  destruct req as [|i req]; [congruence|]. simpl. rewrite H1. simpl. auto.
Qed.

Lemma amex_dedupe_rows_run E w req :
  dedupe_requests (Amex.sheet w) = req -> req <> [] ->
  Amex.sink_reply E (Amex.clock w) = None ->
  Amex.sink_reply E (S (Amex.clock w)) = None ->
  fst (Amex.dedupe_rows E w) = Ret (length req)
  /\ Amex.sheet (snd (Amex.dedupe_rows E w)) = delete_all (Amex.sheet w) req.
Proof.
  intros Hreq Hne H0 H1.
  unfold Amex.dedupe_rows, Amex.get_all_values, Amex.delete_rows, Amex.call.
  unfold bind, get, ret, modify. simpl. rewrite H0. simpl. rewrite Hreq.
  destruct req as [|i req]; [congruence|]. simpl. rewrite H1. simpl. auto.
Qed.

(** C5. On a sheet holding the rows A, B, A, C, B below its header (A, B, C
    distinct) and a sink that answers, [dedupe_rows] of either script asks
    for the deletion of rows 2 and 1 -- the first B and the first A --
    reports 2 rows removed and leaves A, C, B: one row per distinct value,
    the last occurrence of each. A scan in the other direction would leave
    A, B, C, again one row per value. On every sheet the reverse scan leaves
    the header and the last occurrence of each row below it, removes as many
    rows as it reports, and leaves the same rows as a forward scan up to
    their order. *)
Theorem dedupe_fixture (hdr A B C : row) :
  A <> B -> A <> C -> B <> C ->
  (forall E w,
     Chase.sheet w = [hdr; A; B; A; C; B] ->
     Chase.sink_reply E (Chase.clock w) = None ->
     Chase.sink_reply E (S (Chase.clock w)) = None ->
     fst (Chase.dedupe_rows E w) = Ret 2%nat
     /\ Chase.sheet (snd (Chase.dedupe_rows E w)) = [hdr; A; C; B])
  /\ (forall E w,
     Amex.sheet w = [hdr; A; B; A; C; B] ->
     Amex.sink_reply E (Amex.clock w) = None ->
     Amex.sink_reply E (S (Amex.clock w)) = None ->
     fst (Amex.dedupe_rows E w) = Ret 2%nat
     /\ Amex.sheet (snd (Amex.dedupe_rows E w)) = [hdr; A; C; B])
  /\ dedupe_requests [hdr; A; B; A; C; B] = [2; 1]%nat
  /\ keep_last [A; B; A; C; B] = [A; C; B]
  /\ keep_first [A; B; A; C; B] = [A; B; C]
  /\ (forall rows,
       delete_all rows (dedupe_requests rows) = take 1 rows ++ keep_last (drop 1 rows)
       /\ length (dedupe_requests rows) + length (keep_last (drop 1 rows))
          = length (drop 1 rows)
       /\ NoDup (keep_last (drop 1 rows))
       /\ (forall x, x ∈ keep_last (drop 1 rows) <-> x ∈ drop 1 rows)
       /\ keep_first (drop 1 rows) ≡ₚ keep_last (drop 1 rows)).
Proof.
  intros HAB HAC HBC.
  pose proof (fixture_requests hdr A B C HAB HAC HBC) as Hreq.
  destruct (fixture_survivors A B C HAB HAC HBC) as [Hlast Hfirst].
  split; [|split; [|split; [|split; [|split]]]]; try assumption.
  - intros E w Hsheet H0 H1.
    destruct (chase_dedupe_rows_run E w [2; 1]%nat) as [Hr Hs];
      rewrite ?Hsheet; try assumption; try discriminate.
    rewrite Hr, Hs, Hsheet. split; reflexivity.
  - intros E w Hsheet H0 H1.
    destruct (amex_dedupe_rows_run E w [2; 1]%nat) as [Hr Hs];
      rewrite ?Hsheet; try assumption; try discriminate.
    rewrite Hr, Hs, Hsheet. split; reflexivity.
  - intros rows. destruct (dedupe_requests_spec rows) as [Hd Hl].
    split; [exact Hd|]. split; [exact Hl|]. split; [apply keep_last_NoDup|].
    split; [intros x; apply keep_last_elem | apply keep_first_last_perm].
Qed.

Lemma dedupe_fixture_witness :
  fst (Chase.dedupe_rows chase_calm (chase_world fixture_sheet [])) = Ret 2%nat
  /\ Chase.sheet (snd (Chase.dedupe_rows chase_calm (chase_world fixture_sheet [])))
     = [Chase.OFFER_HEADERS; row_A; row_C; row_B].
Proof.
  destruct (dedupe_fixture Chase.OFFER_HEADERS row_A row_B row_C) as (H & _);
    [discriminate | discriminate | discriminate |].
  apply (H chase_calm (chase_world fixture_sheet [])); reflexivity.
Defined.

End DedupFacts.

(* ===================================================================== *)
(** ** Properties: the final flush *)
(* ===================================================================== *)

Section FlushFacts.
Import Text Re Datetime Py Fixtures Sheets Chase.
Local Open Scope list_scope.
Local Open Scope nat_scope.
Local Arguments take : simpl never.
Local Arguments drop : simpl never.

Variable E : env.
Variable cfg : config.

Lemma keeps_call {A} I ev (reply : nat -> result A) :
  (forall w, I w -> I (tick ev w)) -> keeps I (call ev reply).
Proof.
  intros H w Hw. unfold call. destruct (reply (clock w)); simpl; auto.
Qed.

Lemma keeps_print I p : (forall e w, I w -> I (emit e w)) -> keeps I (print p).
Proof. intros H. apply keeps_modify. intros w. apply H. Qed.

Lemma keeps_sheet_log I l f :
  (forall e w, I w -> I (emit e w)) -> keeps I (sheet_log l f).
Proof. intros H. apply keeps_modify. intros w. apply H. Qed.

Section OnBuffers.
Variable I : world -> Prop.
Hypothesis HI : on_buffers I.

Lemma on_buffers_tick ev w : I w -> I (tick ev w).
Proof. apply HI; reflexivity. Qed.
Lemma on_buffers_emit ev w : I w -> I (emit ev w).
Proof. apply HI; reflexivity. Qed.
Lemma on_buffers_sheet v w : I w -> I (set_sheet v w).
Proof. apply HI; reflexivity. Qed.

Lemma keeps_append_rows rows : keeps I (append_rows E rows).
Proof.
  unfold append_rows. apply keeps_bind.
  - apply keeps_call. intros w. apply on_buffers_tick.
  - intros _. apply keeps_modify. intros w. apply on_buffers_sheet.
Qed.

Lemma keeps_get_all_values : keeps I (get_all_values E).
Proof.
  unfold get_all_values. apply keeps_bind.
  - apply keeps_call. intros w. apply on_buffers_tick.
  - intros _. apply keeps_bind; [apply keeps_get | intros; apply keeps_ret].
Qed.

Lemma keeps_reset_filters : keeps I (reset_filters_full_range E).
Proof.
  unfold reset_filters_full_range, set_filter. apply keeps_bind.
  - apply keeps_get_all_values.
  - intros values. apply keeps_call. intros w. apply on_buffers_tick.
Qed.

Lemma keeps_append_chunks starts total : keeps I (append_chunks E cfg starts total).
Proof.
  revert total. induction starts as [|i starts IH]; intros total; simpl.
  - apply keeps_ret.
  - apply keeps_bind; [apply keeps_get|]. intros w.
    apply keeps_bind; [apply keeps_append_rows|]. intros _. apply IH.
Qed.

End OnBuffers.

(** Whatever the sink does, and whatever the outcome, both buffers are empty
    after [flush_buffer]. *)
Lemma flush_buffer_empties w :
  APPEND_BUFFER (snd (flush_buffer E cfg w)) = []
  /\ CURRENT_CARD_BUFFER (snd (flush_buffer E cfg w)) = [].
Proof.
  set (C := fun w : world => CURRENT_CARD_BUFFER w = []).
  set (B := fun w : world => APPEND_BUFFER w = [] /\ CURRENT_CARD_BUFFER w = []).
  assert (HC : on_buffers C) by (intros w1 w2 _ Hc _; unfold C; congruence).
  enough (H : triple (fun _ => True) (flush_buffer E cfg) (fun _ => B) (fun _ => B)).
  { specialize (H w I). destruct (flush_buffer E cfg w) as [[[]|e] w']; exact H. }
  unfold flush_buffer.
  eapply triple_bind with (Q := fun _ => C).
  { apply triple_modify. intros w0 _. unfold C.
    destruct (CURRENT_CARD_BUFFER w0) eqn:Hc; simpl; [exact Hc | reflexivity]. }
  intros _. eapply triple_bind with (Q := fun a w0 => a = w0 /\ C w0).
  { apply triple_get. auto. }
  intros w0. destruct (nonnil (APPEND_BUFFER w0)) eqn:Hnn; simpl.
  - eapply triple_try_finally with (Q1 := fun _ => C) (R1 := fun _ => C).
    + eapply triple_weaken with (P' := C); [| intros ? [_ ?]; assumption | intros ? ? H; exact H | intros ? ? H; exact H].
      apply keeps_try_except.
      * apply keeps_bind; [apply keeps_lift|]. intros starts.
        apply keeps_bind; [apply keeps_append_chunks; exact HC|]. intros total.
        apply keeps_bind; [apply keeps_print; intros; now apply on_buffers_emit|].
        intros _. apply keeps_reset_filters; exact HC.
      * intros e. apply keeps_print. intros; now apply on_buffers_emit.
    + intros _. apply triple_modify. intros w1 Hc. split; [reflexivity | exact Hc].
    + intros _. apply triple_modify. intros w1 Hc. split; [reflexivity | exact Hc].
  - apply triple_modify. intros w1 [-> Hc]. split; [|exact Hc].
    simpl. destruct (APPEND_BUFFER w1); [reflexivity | discriminate].
Qed.

Lemma world_ext (w1 w2 : world) :
  sheet w1 = sheet w2 -> APPEND_BUFFER w1 = APPEND_BUFFER w2 ->
  CURRENT_CARD_BUFFER w1 = CURRENT_CARD_BUFFER w2 ->
  existing_rows w1 = existing_rows w2 -> clock w1 = clock w2 ->
  trace w1 = trace w2 -> w1 = w2.
Proof. destruct w1, w2. simpl. congruence. Qed.

Ltac world_fields :=
  cbn [sheet APPEND_BUFFER CURRENT_CARD_BUFFER existing_rows clock trace
       set_sheet set_APPEND_BUFFER set_CURRENT_CARD_BUFFER set_existing_rows
       tick emit fst snd].

Lemma bind_ok {A B} (m : M world A) (f : A -> M world B) w a w' :
  m w = (Ret a, w') -> bind m f w = f a w'.
Proof. unfold bind. now intros ->. Qed.

Lemma bind_fail {A B} (m : M world A) (f : A -> M world B) w e w' :
  m w = (Raise e, w') -> bind m f w = (Raise e, w').
Proof. unfold bind. now intros ->. Qed.

Lemma append_rows_ok rows w :
  sink_reply E (clock w) = None ->
  append_rows E rows w = (Ret tt, set_sheet (sheet w ++ rows) (tick (EvAppend rows) w)).
Proof. intros H. unfold append_rows, call, bind, modify. now rewrite H. Qed.

Lemma append_rows_fail rows w e :
  sink_reply E (clock w) = Some e ->
  append_rows E rows w = (Raise e, tick (EvAppend rows) w).
Proof. intros H. unfold append_rows, call, bind, modify. now rewrite H. Qed.

Lemma reset_filters_ok w :
  sink_reply E (clock w) = None -> sink_reply E (S (clock w)) = None ->
  reset_filters_full_range E w
  = (Ret tt, tick (EvFilter (Nat.max 1 (length (sheet w)))) (tick EvRead w)).
Proof.
  intros H0 H1.
  unfold reset_filters_full_range, get_all_values, set_filter, call, bind, get, ret.
  rewrite H0. simpl. now rewrite H1.
Qed.

Lemma append_chunk_step i starts total w :
  append_chunks E cfg (i :: starts) total w
  = bind (append_rows E (take (Z.to_nat (APPEND_CHUNK_SIZE cfg)) (drop i (APPEND_BUFFER w))))
         (fun _ => append_chunks E cfg starts
                     (total + length (take (Z.to_nat (APPEND_CHUNK_SIZE cfg))
                                           (drop i (APPEND_BUFFER w))))) w.
Proof. reflexivity. Qed.

(** The body of [flush_buffer] once the card buffer has been merged in. *)
Lemma flush_buffer_pending w :
  CURRENT_CARD_BUFFER w = [] -> APPEND_BUFFER w <> [] ->
  flush_buffer E cfg w
  = try_finally
      (try_except
         (starts <- lift (chunk_starts (length (APPEND_BUFFER w)) (APPEND_CHUNK_SIZE cfg));;
          total <- append_chunks E cfg starts 0;;
          print (PFlushAppended total);;
          reset_filters_full_range E)
         is_Exception (fun _ => print PFlushError))
      (modify (set_APPEND_BUFFER [])) w.
Proof.
  intros Hc Ha. unfold flush_buffer.
  unfold bind at 1. unfold modify at 1. rewrite Hc. simpl nonnil. cbv iota.
  unfold bind at 1. unfold get at 1.
  destruct (APPEND_BUFFER w) eqn:Hab; [congruence|]. reflexivity.
Qed.

(** With 900 pending rows, chunks of 400 and a sink that answers: three
    appends of 400, 400 and 100 rows, in the order of the buffer. *)
Lemma flush_900_ok w buf :
  APPEND_CHUNK_SIZE cfg = 400%Z ->
  APPEND_BUFFER w = buf -> length buf = 900 -> CURRENT_CARD_BUFFER w = [] ->
  (forall j, j < 5 -> sink_reply E (clock w + j) = None) ->
  flush_buffer E cfg w
  = (Ret tt,
     World (sheet w ++ buf) [] [] (existing_rows w) (clock w + 5)
       (trace w ++ [EvAppend (take 400 buf); EvAppend (take 400 (drop 400 buf));
                    EvAppend (drop 800 buf); EvPrint (PFlushAppended 900);
                    EvRead; EvFilter (Nat.max 1 (length (sheet w) + 900))])).
Proof.
  intros Hsz Hbuf Hlen Hcur Hok.
  pose proof (Hok 0 ltac:(lia)) as H0. pose proof (Hok 1 ltac:(lia)) as H1.
  pose proof (Hok 2 ltac:(lia)) as H2. pose proof (Hok 3 ltac:(lia)) as H3.
  pose proof (Hok 4 ltac:(lia)) as H4.
  rewrite Nat.add_0_r in H0.
  replace (clock w + 1) with (S (clock w)) in H1 by lia.
  replace (clock w + 2) with (S (S (clock w))) in H2 by lia.
  replace (clock w + 3) with (S (S (S (clock w)))) in H3 by lia.
  replace (clock w + 4) with (S (S (S (S (clock w))))) in H4 by lia.
  rewrite flush_buffer_pending; [| exact Hcur | rewrite Hbuf; destruct buf; [discriminate | congruence]].
  rewrite Hbuf, Hlen, Hsz.
  change (chunk_starts 900 400%Z) with (@Ret (list nat) [0; 400; 800]).
  unfold try_finally, try_except.
  erewrite bind_ok; [| reflexivity].
  erewrite bind_ok.
  2:{ rewrite append_chunk_step. erewrite bind_ok; [| apply append_rows_ok; exact H0].
      rewrite append_chunk_step. erewrite bind_ok; [| apply append_rows_ok; exact H1].
      rewrite append_chunk_step. erewrite bind_ok; [| apply append_rows_ok; exact H2].
      reflexivity. }
  erewrite bind_ok; [| reflexivity].
  rewrite reset_filters_ok; [| exact H3 | exact H4].
  unfold modify. world_fields. rewrite Hbuf, Hsz.
  change (Z.to_nat 400) with 400. rewrite drop_0.
  assert (Hlast : take 400 (drop 800 buf) = drop 800 buf)
    by (apply take_ge; rewrite length_drop; lia).
  assert (Hall : take 400 buf ++ take 400 (drop 400 buf) ++ drop 800 buf = buf).
  { rewrite <- (take_drop 400 buf) at 4. f_equal.
    rewrite <- (take_drop 400 (drop 400 buf)) at 2. f_equal.
    rewrite drop_drop. reflexivity. }
  f_equal. apply world_ext; world_fields;
    rewrite ?Hbuf, ?Hsz, ?Hcur; change (Z.to_nat 400) with 400;
    rewrite ?drop_0, ?Hlast, <- ?app_assoc, ?Hall; try reflexivity.
  - lia.
  - cbn [app]. rewrite !length_take, !length_drop, length_app, Hlen.
    repeat f_equal; lia.
Qed.
(** The same when the second append fails with an [Exception]: the loop
    stops there, the error is printed, and the [finally] clause empties the
    buffer all the same. *)
Lemma flush_900_second_fails w buf e :
  APPEND_CHUNK_SIZE cfg = 400%Z ->
  APPEND_BUFFER w = buf -> length buf = 900 -> CURRENT_CARD_BUFFER w = [] ->
  sink_reply E (clock w) = None ->
  sink_reply E (S (clock w)) = Some e -> is_Exception e = true ->
  flush_buffer E cfg w
  = (Ret tt,
     World (sheet w ++ take 400 buf) [] [] (existing_rows w) (clock w + 2)
       (trace w ++ [EvAppend (take 400 buf); EvAppend (take 400 (drop 400 buf));
                    EvPrint PFlushError])).
Proof.
  intros Hsz Hbuf Hlen Hcur H0 H1 He.
  rewrite flush_buffer_pending; [| exact Hcur | rewrite Hbuf; destruct buf; [discriminate | congruence]].
  rewrite Hbuf, Hlen, Hsz.
  change (chunk_starts 900 400%Z) with (@Ret (list nat) [0; 400; 800]).
  unfold try_finally, try_except.
  erewrite bind_ok; [| reflexivity].
  erewrite bind_fail.
  2:{ rewrite append_chunk_step. erewrite bind_ok; [| apply append_rows_ok; exact H0].
      rewrite append_chunk_step. erewrite bind_fail; [| apply append_rows_fail; exact H1].
      reflexivity. }
  rewrite He. unfold print, modify. world_fields.
  f_equal. apply world_ext; world_fields;
    rewrite ?Hbuf, ?Hsz, ?Hcur; change (Z.to_nat 400) with 400;
    rewrite ?drop_0, <- ?app_assoc; try reflexivity.
  lia.
Qed.

End FlushFacts.

Section FlushClaim.
Import Text Re Datetime Py Fixtures Sheets Chase.
Local Open Scope list_scope.
Local Open Scope nat_scope.
Local Arguments take : simpl never.
Local Arguments drop : simpl never.
Local Arguments rows900 : simpl never.

(** C1, counterexample. 900 rows are pending, the chunk size is 400 and the
    second append fails: two appends are attempted (400 rows each), the
    first 400 rows reach the sheet, and the buffer is empty afterwards --
    the 500 rows not appended are gone, not queued. *)
Lemma flush_drops_rows_on_failure :
  let w' := snd (flush_buffer (chase_sink_fails_at 1) chase_cfg
                   (chase_world [OFFER_HEADERS] rows900)) in
  map length (chase_appends (trace w')) = [400; 400]
  /\ sheet w' = OFFER_HEADERS :: take 400 rows900
  /\ APPEND_BUFFER w' = []
  /\ ~ rows_stay_queued rows900 w'.
Proof.
  cbv zeta.
  rewrite (flush_900_second_fails (chase_sink_fails_at 1) chase_cfg
             (chase_world [OFFER_HEADERS] rows900) rows900 OtherException
             eq_refl eq_refl eq_refl eq_refl eq_refl eq_refl eq_refl).
  unfold rows_stay_queued. cbn [snd trace sheet APPEND_BUFFER chase_world app].
  split; [|split; [|split]]; try reflexivity.
  intros H. apply (f_equal length) in H. rewrite length_drop in H.
  discriminate H.
Qed.

(** C1, as amended. With 900 rows pending and chunks of 400: when the sink
    answers, the flush makes exactly three appends, of the first 400 rows,
    the next 400 and the last 100, and every row is then in the sheet; when
    the second append fails, the flush stops after that call, having made
    two appends, with only the first 400 rows in the sheet. In both cases,
    and after every flush whatever the sink does, both buffers are empty:
    rows the sink did not take are not kept for a later attempt. *)
Theorem flush_chunks_then_clears (E : env) (cfg : config) (w : world)
    (buf : list row) :
  APPEND_CHUNK_SIZE cfg = 400%Z ->
  APPEND_BUFFER w = buf -> length buf = 900 -> CURRENT_CARD_BUFFER w = [] ->
  ((forall j, j < 5 -> sink_reply E (clock w + j) = None) ->
   let w' := snd (flush_buffer E cfg w) in
   fst (flush_buffer E cfg w) = Ret tt
   /\ chase_appends (trace w')
      = chase_appends (trace w)
        ++ [take 400 buf; take 400 (drop 400 buf); drop 800 buf]
   /\ map length [take 400 buf; take 400 (drop 400 buf); drop 800 buf]
      = [400; 400; 100]
   /\ sheet w' = sheet w ++ buf)
  /\ (forall e, sink_reply E (clock w) = None ->
       sink_reply E (S (clock w)) = Some e -> is_Exception e = true ->
       let w' := snd (flush_buffer E cfg w) in
       fst (flush_buffer E cfg w) = Ret tt
       /\ chase_appends (trace w')
          = chase_appends (trace w) ++ [take 400 buf; take 400 (drop 400 buf)]
       /\ sheet w' = sheet w ++ take 400 buf
       /\ APPEND_BUFFER w' = [])
  /\ (forall E' cfg' w0,
       APPEND_BUFFER (snd (flush_buffer E' cfg' w0)) = []
       /\ CURRENT_CARD_BUFFER (snd (flush_buffer E' cfg' w0)) = []).
Proof.
  intros Hsz Hbuf Hlen Hcur. split; [|split].
  - intros Hok. cbv zeta.
    rewrite (flush_900_ok E cfg w buf Hsz Hbuf Hlen Hcur Hok). simpl.
    repeat split.
    + unfold chase_appends. rewrite omap_app. reflexivity.
    + rewrite !length_take, !length_drop, Hlen. reflexivity.
  - intros e H0 H1 He. cbv zeta.
    rewrite (flush_900_second_fails E cfg w buf e Hsz Hbuf Hlen Hcur H0 H1 He). simpl.
    repeat split.
    unfold chase_appends. rewrite omap_app. reflexivity.
  - intros E' cfg' w0. apply flush_buffer_empties.
Qed.

Lemma flush_chunks_then_clears_witness :
  map length (chase_appends (trace (snd (flush_buffer chase_calm chase_cfg
                                           (chase_world [OFFER_HEADERS] rows900)))))
  = [400; 400; 100].
Proof.
  destruct (flush_chunks_then_clears chase_calm chase_cfg
              (chase_world [OFFER_HEADERS] rows900) rows900
              eq_refl eq_refl eq_refl eq_refl) as (Hok & _ & _).
  destruct (Hok (fun _ _ => eq_refl)) as (_ & Ha & Hl & _).
  rewrite Ha. exact Hl.
Defined.

End FlushClaim.

(* ===================================================================== *)
(** ** Properties: navigation *)
(* ===================================================================== *)

Section NavigationFacts.
Import Text Re Datetime Py Fixtures Sheets.
Local Open Scope list_scope.
Local Open Scope nat_scope.

(** One round of the Chase [robust_get], by cases on what the two attempts
    meet. *)
Lemma chase_robust_get_round (E : Chase.env) url n w :
  Chase.robust_get_loop E url (S n) w
  = let w1 := Chase.tick (Chase.EvGet url) w in
    match Chase.get_reply E (Chase.clock w) with
    | None => (Ret true, w1)
    | Some e =>
        if is_WebDriverException e then
          let w2 := Chase.tick (Chase.EvScript url) w1 in
          match Chase.script_reply E (Chase.clock w1) with
          | None => (Ret true, w2)
          | Some e2 =>
              if is_Exception e2 then Chase.robust_get_loop E url n w2
              else (Raise e2, w2)
          end
        else (Raise e, w1)
    end.
Proof.
  simpl Chase.robust_get_loop. unfold bind, try_except, Chase.call, ret. simpl.
  destruct (Chase.get_reply E (Chase.clock w)) as [e|]; simpl; [|reflexivity].
  destruct (is_WebDriverException e); simpl; [|reflexivity].
  destruct (Chase.script_reply E (S (Chase.clock w))) as [e2|]; simpl; [|reflexivity].
  destruct (is_Exception e2); reflexivity.
Qed.

(** What [robust_get] of the Chase script does when direct navigation only
    fails with [WebDriverException]s and the script only with
    [Exception]s: it returns a boolean, after full rounds of two attempts
    followed either by a successful attempt or, the rounds used up, by the
    warning. *)
Lemma chase_robust_get_loop_spec (E : Chase.env) url n w :
  (forall k e, Chase.get_reply E k = Some e -> is_WebDriverException e = true) ->
  (forall k e, Chase.script_reply E k = Some e -> is_Exception e = true) ->
  exists b w',
    Chase.robust_get_loop E url n w = (Ret b, w')
    /\ ((b = false
         /\ Chase.trace w'
            = Chase.trace w ++ nav_rounds url n ++ [Chase.EvLog "WARN" "nav"])
        \/ (b = true /\ exists j, j < n /\
              (Chase.trace w' = Chase.trace w ++ nav_rounds url j ++ [Chase.EvGet url]
               \/ Chase.trace w'
                  = Chase.trace w ++ nav_rounds url j
                    ++ [Chase.EvGet url; Chase.EvScript url]))).
Proof.
  intros Hget Hscr. revert w. induction n as [|n IH]; intros w.
  - exists false, (Chase.emit (Chase.EvLog "WARN" "nav") w).
    split; [reflexivity|]. left. split; reflexivity.
  - rewrite chase_robust_get_round. cbv zeta.
    destruct (Chase.get_reply E (Chase.clock w)) as [e|] eqn:Hg.
    + rewrite (Hget _ _ Hg).
      destruct (Chase.script_reply E _) as [e2|] eqn:Hs.
      * rewrite (Hscr _ _ Hs).
        destruct (IH (Chase.tick (Chase.EvScript url) (Chase.tick (Chase.EvGet url) w)))
          as (b & w' & Hrun & Htr).
        exists b, w'. split; [exact Hrun|].
        simpl in Htr.
        destruct Htr as [[-> Htr] | [-> (j & Hj & [Htr | Htr])]].
        -- left. split; [reflexivity|]. rewrite Htr. simpl.
           rewrite <- !app_assoc. reflexivity.
        -- right. split; [reflexivity|]. exists (S j). split; [lia|]. left.
           rewrite Htr. simpl. rewrite <- !app_assoc. reflexivity.
        -- right. split; [reflexivity|]. exists (S j). split; [lia|]. right.
           rewrite Htr. simpl. rewrite <- !app_assoc. reflexivity.
      * eexists true, _. split; [reflexivity|]. right. split; [reflexivity|].
        exists 0. split; [lia|]. right. simpl. rewrite <- app_assoc. reflexivity.
    + eexists true, _. split; [reflexivity|]. right. split; [reflexivity|].
      exists 0. split; [lia|]. left. reflexivity.
Qed.

Lemma amex_robust_get_run (E : Amex.env) url w :
  Amex.robust_get E url w
  = let w1 := Amex.tick (Amex.EvGet url) w in
    match Amex.get_reply E (Amex.clock w) with
    | None => (Ret true, w1)
    | Some e =>
        if is_WebDriverException e
        then (Ret false, Amex.emit (Amex.EvLog "WARN" "nav") w1)
        else (Raise e, w1)
    end.
Proof.
  unfold Amex.robust_get, bind, try_except, Amex.call, ret, Amex.sheet_log, modify.
  simpl. destruct (Amex.get_reply E (Amex.clock w)) as [e|]; simpl; [|reflexivity].
  destruct (is_WebDriverException e); reflexivity.
Qed.

(** C8, counterexample. When direct navigation fails with a
    [WebDriverException], [robust_get] of the Amex script reports [False]
    after that single attempt: there is no scripted fallback and no retry.
    And a failure of direct navigation that is not a [WebDriverException]
    leaves [robust_get] of the Chase script as an exception. *)
Lemma robust_get_single_attempt_or_raise :
  Amex.robust_get (amex_get_fails WebDriverException) Amex.LOGIN_URL (amex_world [] [])
  = (Ret false,
     Amex.World [] [] 1 [Amex.EvGet Amex.LOGIN_URL; Amex.EvLog "WARN" "nav"])
  /\ fst (Chase.robust_get (chase_get_fails OtherException) Chase.CHASE_HOME_URL 2
            (chase_world [] []))
     = Raise OtherException.
Proof. split; reflexivity. Qed.

(** C8, as amended. In the Chase script, when direct navigation fails only
    with [WebDriverException]s and the scripted navigation only with
    [Exception]s, [robust_get] raises nothing and returns a boolean: it makes
    at most [max(1, tries)] rounds of a direct attempt followed by a scripted
    one, returns [True] at the first attempt that succeeds and [False], after
    logging a warning, when every attempt of every round has failed. A
    failure of direct navigation of another class is raised to the caller.
    In the Amex script [robust_get] makes one direct attempt and returns
    [True], or [False] on a [WebDriverException]; anything else is raised. *)
Theorem robust_get_outcomes (E : Chase.env) (url : string) (tries : Z)
    (w : Chase.world) :
  ((forall k e, Chase.get_reply E k = Some e -> is_WebDriverException e = true) ->
   (forall k e, Chase.script_reply E k = Some e -> is_Exception e = true) ->
   let n := Z.to_nat (Z.max 1 tries) in
   exists b w',
     Chase.robust_get E url tries w = (Ret b, w')
     /\ 1 <= n
     /\ ((b = false
          /\ Chase.trace w'
             = Chase.trace w ++ nav_rounds url n ++ [Chase.EvLog "WARN" "nav"])
         \/ (b = true /\ exists j, j < n /\
               (Chase.trace w' = Chase.trace w ++ nav_rounds url j ++ [Chase.EvGet url]
                \/ Chase.trace w'
                   = Chase.trace w ++ nav_rounds url j
                     ++ [Chase.EvGet url; Chase.EvScript url]))))
  /\ (forall e, Chase.get_reply E (Chase.clock w) = Some e ->
        is_WebDriverException e = false ->
        fst (Chase.robust_get E url tries w) = Raise e)
  /\ (forall (E' : Amex.env) (w0 : Amex.world),
        Amex.robust_get E' url w0
        = match Amex.get_reply E' (Amex.clock w0) with
          | None => (Ret true, Amex.tick (Amex.EvGet url) w0)
          | Some e =>
              if is_WebDriverException e
              then (Ret false, Amex.emit (Amex.EvLog "WARN" "nav")
                                 (Amex.tick (Amex.EvGet url) w0))
              else (Raise e, Amex.tick (Amex.EvGet url) w0)
          end).
Proof.
  split; [|split].
  - intros Hget Hscr n.
    destruct (chase_robust_get_loop_spec E url n w Hget Hscr) as (b & w' & Hrun & Htr).
    exists b, w'. split; [exact Hrun|]. split; [subst n; lia | exact Htr].
  - intros e Hg Hne. unfold Chase.robust_get.
    destruct (Z.to_nat (Z.max 1 tries)) as [|n] eqn:Hn; [lia|].
    rewrite chase_robust_get_round. cbv zeta. rewrite Hg, Hne. reflexivity.
  - intros E' w0. apply amex_robust_get_run.
Qed.

Lemma robust_get_outcomes_witness :
  exists b w',
    Chase.robust_get (chase_get_fails WebDriverException) Chase.CHASE_HOME_URL 2
      (chase_world [] []) = (Ret b, w').
Proof.
  destruct (robust_get_outcomes (chase_get_fails WebDriverException)
              Chase.CHASE_HOME_URL 2 (chase_world [] [])) as (H & _ & _).
  destruct H as (b & w' & Hrun & _).
  - intros k e He. simpl in He. injection He as <-. reflexivity.
  - intros k e He. discriminate He.
  - exists b, w'. exact Hrun.
Defined.

End NavigationFacts.

(* ===================================================================== *)
(** ** Properties: the run always ends with a flush *)
(* ===================================================================== *)

Section MainFlushFacts.
Import Text Re Datetime Py Fixtures Sheets.
Local Open Scope list_scope.
Local Open Scope nat_scope.
Local Arguments take : simpl never.
Local Arguments drop : simpl never.

Lemma chase_grown_refl w : chase_grown (Chase.trace w) w.
Proof. exists []. now rewrite app_nil_r. Qed.

Lemma chase_grown_tick t ev w : chase_grown t w -> chase_grown t (Chase.tick ev w).
Proof. intros [evs H]. exists (evs ++ [ev]). simpl. rewrite H. now rewrite app_assoc. Qed.

Lemma chase_grown_emit t ev w : chase_grown t w -> chase_grown t (Chase.emit ev w).
Proof. intros [evs H]. exists (evs ++ [ev]). simpl. rewrite H. now rewrite app_assoc. Qed.

Lemma chase_grown_trans t w w' :
  chase_grown t w -> chase_grown (Chase.trace w) w' -> chase_grown t w'.
Proof. intros [e1 H1] [e2 H2]. exists (e1 ++ e2). rewrite H2, H1. now rewrite app_assoc. Qed.

Section Grown.
Variable E : Chase.env.
Variable cfg : Chase.config.
Variable t : list Chase.event.

Lemma grown_append_rows rows : keeps (chase_grown t) (Chase.append_rows E rows).
Proof.
  unfold Chase.append_rows. apply keeps_bind.
  - intros w Hw. unfold Chase.call.
    destruct (outcome _); now apply chase_grown_tick.
  - intros _. apply keeps_modify. intros w [evs H]. exists evs. exact H.
Qed.

Lemma grown_get_all_values : keeps (chase_grown t) (Chase.get_all_values E).
Proof.
  unfold Chase.get_all_values. apply keeps_bind.
  - intros w Hw. unfold Chase.call.
    destruct (outcome _); now apply chase_grown_tick.
  - intros _. apply keeps_bind; [apply keeps_get | intros; apply keeps_ret].
Qed.

Lemma grown_print p : keeps (chase_grown t) (Chase.print p).
Proof. apply keeps_modify. intros w. apply chase_grown_emit. Qed.

Lemma grown_reset_filters : keeps (chase_grown t) (Chase.reset_filters_full_range E).
Proof.
  unfold Chase.reset_filters_full_range, Chase.set_filter. apply keeps_bind.
  - apply grown_get_all_values.
  - intros values w Hw. unfold Chase.call.
    destruct (outcome _); now apply chase_grown_tick.
Qed.

Lemma grown_append_chunks starts total :
  keeps (chase_grown t) (Chase.append_chunks E cfg starts total).
Proof.
  revert total. induction starts as [|i starts IH]; intros total; simpl.
  - apply keeps_ret.
  - apply keeps_bind; [apply keeps_get|]. intros w.
    apply keeps_bind; [apply grown_append_rows|]. intros _. apply IH.
Qed.

End Grown.

(** Every positive chunk size makes the first chunk start at row 0. *)
Lemma chunk_starts_head n c :
  0 < n -> (0 < c)%Z ->
  exists rest, Chase.chunk_starts n c = Ret (0 :: rest).
Proof.
  intros Hn Hc. unfold Chase.chunk_starts.
  destruct (c =? 0)%Z eqn:H0; [lia|]. destruct (c <? 0)%Z eqn:H1; [lia|].
  assert (Hst : 0 < Z.to_nat c) by lia.
  destruct ((n + Z.to_nat c - 1) / Z.to_nat c) as [|k] eqn:Hk.
  - apply Nat.div_small_iff in Hk; lia.
  - simpl. eexists. reflexivity.
Qed.

Lemma opens_with_trace {A} (m : M Chase.world A) w1 ev :
  opens_with m w1 ev ->
  exists evs, Chase.trace (snd (m w1)) = Chase.trace w1 ++ ev :: evs.
Proof.
  intros H. specialize (H w1 eq_refl).
  destruct (m w1) as [[a|e] w']; destruct H as [evs H]; exists evs; simpl;
    rewrite H; now rewrite <- app_assoc.
Qed.

Lemma opens_with_bind {A B} (m : M Chase.world A) (f : A -> M Chase.world B) w1 ev :
  opens_with m w1 ev ->
  (forall a, keeps (chase_grown (Chase.trace w1 ++ [ev])) (f a)) ->
  opens_with (bind m f) w1 ev.
Proof. intros Hm Hf. eapply triple_bind; [exact Hm | exact Hf]. Qed.

Lemma opens_with_append_rows (E : Chase.env) rows w1 :
  opens_with (Chase.append_rows E rows) w1 (Chase.EvAppend rows).
Proof.
  intros w <-. unfold Chase.append_rows, Chase.call, bind, modify.
  destruct (outcome _) as [[]|e]; simpl; exists []; now rewrite app_nil_r.
Qed.

Lemma opens_with_print w1 p : opens_with (Chase.print p) w1 (Chase.EvPrint p).
Proof. intros w <-. simpl. exists []. now rewrite app_nil_r. Qed.

Lemma opens_with_append_chunks (E : Chase.env) (cfg : Chase.config) w1 i starts total :
  opens_with (Chase.append_chunks E cfg (i :: starts) total) w1
    (Chase.EvAppend (take (Z.to_nat (Chase.APPEND_CHUNK_SIZE cfg))
                          (drop i (Chase.APPEND_BUFFER w1)))).
Proof.
  intros w <-.
  set (chunk := take _ _).
  change (Chase.append_chunks E cfg (i :: starts) total w1)
    with (bind (Chase.append_rows E chunk)
               (fun _ => Chase.append_chunks E cfg starts (total + length chunk)) w1).
  apply (opens_with_bind _ _ w1 (Chase.EvAppend chunk)); [| | reflexivity].
  - apply opens_with_append_rows.
  - intros _. apply grown_append_chunks.
Qed.

(** A flush makes itself known: its first entry in the log of calls is the
    opening described by [flush_opening]. *)
Lemma chase_flush_opens (E : Chase.env) (cfg : Chase.config) w :
  exists evs,
    Chase.trace (snd (Chase.flush_buffer E cfg w))
    = Chase.trace w
      ++ flush_opening (Chase.APPEND_CHUNK_SIZE cfg)
           (Chase.APPEND_BUFFER w ++ Chase.CURRENT_CARD_BUFFER w) :: evs.
Proof.
  unfold Chase.flush_buffer. unfold bind at 1. unfold modify at 1.
  set (w1 := if nonnil (Chase.CURRENT_CARD_BUFFER w) then _ else w).
  assert (Hw1 : Chase.APPEND_BUFFER w1
                = Chase.APPEND_BUFFER w ++ Chase.CURRENT_CARD_BUFFER w
                /\ Chase.trace w1 = Chase.trace w).
  { subst w1. destruct (Chase.CURRENT_CARD_BUFFER w); simpl;
      [now rewrite app_nil_r | auto]. }
  destruct Hw1 as [Hab Htr]. rewrite <- Hab, <- Htr. clearbody w1. clear Hab Htr w.
  unfold bind at 1. unfold get at 1.
  destruct (Chase.APPEND_BUFFER w1) as [|r0 pending] eqn:Hp.
  - exists []. reflexivity.
  - change (negb (nonnil (r0 :: pending))) with false. cbv iota.
    apply opens_with_trace.
    set (ev := flush_opening _ _).
    apply triple_try_finally
      with (Q1 := fun _ => chase_grown (Chase.trace w1 ++ [ev]))
           (R1 := fun _ => chase_grown (Chase.trace w1 ++ [ev]));
      [| intros _; apply keeps_modify; intros w0 [evs H]; exists evs; exact H
       | intros _; apply keeps_modify; intros w0 [evs H]; exists evs; exact H].
    subst ev. unfold flush_opening.
    destruct (0 <? Chase.APPEND_CHUNK_SIZE cfg)%Z eqn:Hpos.
    + destruct (chunk_starts_head (length (r0 :: pending)) (Chase.APPEND_CHUNK_SIZE cfg))
        as [rest Hs]; [simpl; lia | lia |].
      rewrite Hs.
      apply triple_try_except
        with (R1 := fun _ => chase_grown (Chase.trace w1 ++ [Chase.EvAppend
                      (take (Z.to_nat (Chase.APPEND_CHUNK_SIZE cfg)) (r0 :: pending))]));
        [| intros e _; apply grown_print | auto].
      intros w <-.
      change (bind (lift (Ret (0 :: rest))) ?f w1) with (f (0 :: rest) w1). cbv beta.
      pose proof (opens_with_append_chunks E cfg w1 0 rest 0) as Hc.
      rewrite Hp, drop_0 in Hc.
      apply (opens_with_bind _ _ w1 _ Hc); [| reflexivity].
      intros total. apply keeps_bind; [apply grown_print|].
      intros _. apply grown_reset_filters.
    + unfold Chase.chunk_starts.
      destruct (Chase.APPEND_CHUNK_SIZE cfg =? 0)%Z eqn:Hz.
      * apply triple_try_except
          with (R1 := fun e w => e = OtherException /\ w = w1).
        -- intros w <-. simpl. auto.
        -- intros e _ w [_ ->]. apply (opens_with_print w1 Chase.PFlushError w1 eq_refl).
        -- intros e w He [-> _]. discriminate He.
      * assert (Hneg : (Chase.APPEND_CHUNK_SIZE cfg <? 0)%Z = true) by lia.
        rewrite Hneg.
        apply triple_try_except
          with (R1 := fun _ => chase_grown (Chase.trace w1
                        ++ [Chase.EvPrint (Chase.PFlushAppended 0)]));
          [| intros e _; apply grown_print | auto].
        intros w <-.
        change (bind (lift (Ret []) ) ?f w1) with (f [] w1). cbv beta.
        simpl Chase.append_chunks.
        change (bind (ret 0) ?f w1) with (f 0 w1). cbv beta.
        apply (opens_with_bind _ _ w1 _ (opens_with_print w1 _)); [| reflexivity].
        intros _. apply grown_reset_filters.
Qed.

(** The last steps of the Chase [main] add to the log of calls and leave
    the buffers alone. *)
Lemma chase_exit_step (E : Chase.env) (cfg : Chase.config) w :
  let w' := snd ((if Chase.CLOSE_ON_EXIT cfg then Chase.safe_quit E
                  else Chase.hold_open) w) in
  chase_grown (Chase.trace w) w'
  /\ Chase.APPEND_BUFFER w' = Chase.APPEND_BUFFER w
  /\ Chase.CURRENT_CARD_BUFFER w' = Chase.CURRENT_CARD_BUFFER w.
Proof.
  cbv zeta. destruct (Chase.CLOSE_ON_EXIT cfg).
  - unfold Chase.safe_quit, try_except, Chase.call, ret.
    destruct (outcome (Chase.quit_reply E (Chase.clock w))) as [[]|e]; simpl.
    + split; [apply chase_grown_tick, chase_grown_refl | auto].
    + destruct (is_InvalidSessionId e); simpl;
        (split; [apply chase_grown_tick, chase_grown_refl | auto]).
  - unfold Chase.hold_open, modify. simpl.
    split; [apply chase_grown_emit, chase_grown_refl | auto].
Qed.

(** The handlers of the Chase [main] only print and log. *)
Lemma chase_handler_step e w :
  let w' := snd (Chase.main_handler e w) in
  fst (Chase.main_handler e w) = Ret tt
  /\ chase_grown (Chase.trace w) w'
  /\ Chase.APPEND_BUFFER w' = Chase.APPEND_BUFFER w
  /\ Chase.CURRENT_CARD_BUFFER w' = Chase.CURRENT_CARD_BUFFER w.
Proof.
  cbv zeta. unfold Chase.main_handler.
  destruct (is_KeyboardInterrupt e);
    (split; [reflexivity | split; [| split; reflexivity]]);
    apply chase_grown_emit, chase_grown_emit, chase_grown_refl.
Qed.

Lemma amex_grown_refl w : amex_grown (Amex.trace w) w.
Proof. exists []. now rewrite app_nil_r. Qed.

Lemma amex_grown_tick t ev w : amex_grown t w -> amex_grown t (Amex.tick ev w).
Proof. intros [evs H]. exists (evs ++ [ev]). simpl. rewrite H. now rewrite app_assoc. Qed.

Lemma amex_grown_emit t ev w : amex_grown t w -> amex_grown t (Amex.emit ev w).
Proof. intros [evs H]. exists (evs ++ [ev]). simpl. rewrite H. now rewrite app_assoc. Qed.

(** The Amex flush: nothing when nothing is pending, otherwise one append of
    all pending rows as its first call. *)
Lemma amex_flush_opens (E : Amex.env) w :
  match Amex.APPEND_BUFFER w with
  | [] => Amex.flush_buffer E w = (Ret tt, w)
  | pending =>
      exists evs,
        Amex.trace (snd (Amex.flush_buffer E w))
        = Amex.trace w ++ Amex.EvAppend pending :: evs
  end.
Proof.
  unfold Amex.flush_buffer, bind, get.
  destruct (Amex.APPEND_BUFFER w) as [|r rows] eqn:Hb; [reflexivity|].
  simpl nonnil. cbv iota.
  unfold Amex.append_rows_now, try_except, Amex.append_rows, Amex.call, bind, modify.
  simpl.
  destruct (outcome (Amex.sink_reply E (Amex.clock w))) as [[]|e]; simpl.
  - exists []. reflexivity.
  - destruct (is_Exception e); simpl; eexists; rewrite <- ?app_assoc; reflexivity.
Qed.

Lemma amex_exit_step (E : Amex.env) (cfg : Amex.config) w :
  let w' := snd ((if Amex.AUTO_CLOSE cfg
                  then try_except (Amex.call Amex.EvQuit
                                     (fun n => outcome (Amex.quit_reply E n)))
                                  is_Exception (fun _ => ret tt)
                  else try_except (Amex.call Amex.EvInput
                                     (fun n => outcome (Amex.input_reply E n)))
                                  is_EOFError (fun _ => ret tt)) w) in
  amex_grown (Amex.trace w) w'.
Proof.
  cbv zeta. destruct (Amex.AUTO_CLOSE cfg); unfold try_except, Amex.call, ret.
  - destruct (outcome (Amex.quit_reply E (Amex.clock w))) as [[]|e]; simpl;
      [| destruct (is_Exception e); simpl]; apply amex_grown_tick, amex_grown_refl.
  - destruct (outcome (Amex.input_reply E (Amex.clock w))) as [[]|e]; simpl;
      [| destruct (is_EOFError e); simpl]; apply amex_grown_tick, amex_grown_refl.
Qed.

(** C9. Whatever the [try] block of [main] does -- it completes, it is
    interrupted by the operator, it fails, in any world and with any
    behaviour of the browser and of the sink -- the handlers (which only
    print and log) are followed by [flush_buffer], run on the rows the block
    left pending, before [main] does anything else and before any exception
    leaves it. In the Chase script the flush shows in the log of calls right
    after the handlers (an append of the first chunk, or the report that
    nothing is pending) and both buffers are empty when [main] is over; in
    the Amex script the flush is one append of all pending rows. *)
Theorem main_always_flushes :
  (forall (E : Chase.env) (cfg : Chase.config) (w : Chase.world),
     exists rb wb w1 rf w2,
       Chase.main_body E cfg w = (rb, wb)
       /\ chase_grown (Chase.trace wb) w1
       /\ Chase.APPEND_BUFFER w1 = Chase.APPEND_BUFFER wb
       /\ Chase.CURRENT_CARD_BUFFER w1 = Chase.CURRENT_CARD_BUFFER wb
       /\ Chase.flush_buffer E cfg w1 = (rf, w2)
       /\ (exists evs,
             Chase.trace w2
             = Chase.trace w1
               ++ flush_opening (Chase.APPEND_CHUNK_SIZE cfg)
                    (Chase.APPEND_BUFFER wb ++ Chase.CURRENT_CARD_BUFFER wb) :: evs)
       /\ chase_grown (Chase.trace w2) (snd (Chase.main E cfg w))
       /\ Chase.APPEND_BUFFER (snd (Chase.main E cfg w)) = []
       /\ Chase.CURRENT_CARD_BUFFER (snd (Chase.main E cfg w)) = [])
  /\ (forall (E : Amex.env) (cfg : Amex.config) (w : Amex.world),
     exists rb wb w1 rf w2,
       Amex.main_body E cfg w = (rb, wb)
       /\ amex_grown (Amex.trace wb) w1
       /\ Amex.APPEND_BUFFER w1 = Amex.APPEND_BUFFER wb
       /\ Amex.flush_buffer E w1 = (rf, w2)
       /\ match Amex.APPEND_BUFFER wb with
          | [] => w2 = w1
          | pending =>
              exists evs, Amex.trace w2 = Amex.trace w1 ++ Amex.EvAppend pending :: evs
          end
       /\ amex_grown (Amex.trace w2) (snd (Amex.main E cfg w))).
Proof.
  split.
  - intros E cfg w. unfold Chase.main, try_finally, try_except.
    destruct (Chase.main_body E cfg w) as [rb wb] eqn:Hb.
    exists rb, wb.
    set (w1 := snd (match rb with
                    | Ret a => (Ret a, wb)
                    | Raise e => if Chase.main_handled e then Chase.main_handler e wb
                                 else (Raise e, wb)
                    end)).
    assert (Hw1 : chase_grown (Chase.trace wb) w1
                  /\ Chase.APPEND_BUFFER w1 = Chase.APPEND_BUFFER wb
                  /\ Chase.CURRENT_CARD_BUFFER w1 = Chase.CURRENT_CARD_BUFFER wb).
    { subst w1. destruct rb as [[]|e]; simpl.
      - split; [apply chase_grown_refl | auto].
      - destruct (Chase.main_handled e); simpl.
        + apply (chase_handler_step e wb).
        + split; [apply chase_grown_refl | auto]. }
    destruct Hw1 as (Hg & Ha & Hc).
    destruct (Chase.flush_buffer E cfg w1) as [rf w2] eqn:Hf.
    exists w1, rf, w2.
    pose proof (chase_flush_opens E cfg w1) as Hopen. rewrite Hf, Ha, Hc in Hopen.
    destruct (flush_buffer_empties E cfg w1) as [He1 He2]. rewrite Hf in He1, He2.
    simpl in Hopen, He1, He2.
    split; [reflexivity|]. split; [exact Hg|]. split; [exact Ha|]. split; [exact Hc|].
    split; [exact Hf|]. split; [exact Hopen|].
    assert (Hfin : forall (r0 : result unit),
              let out := match Chase.main_finally E cfg w1 with
                         | (Ret _, w'') => (r0, w'')
                         | (Raise e, w'') => (Raise e, w'')
                         end in
              chase_grown (Chase.trace w2) (snd out)
              /\ Chase.APPEND_BUFFER (snd out) = []
              /\ Chase.CURRENT_CARD_BUFFER (snd out) = []).
    { intros r0. cbv zeta.
      assert (Hmf : Chase.main_finally E cfg w1
                    = match rf with
                      | Ret _ => (if Chase.CLOSE_ON_EXIT cfg then Chase.safe_quit E
                                  else Chase.hold_open) w2
                      | Raise e => (Raise e, w2)
                      end).
      { unfold Chase.main_finally, bind. rewrite Hf. reflexivity. }
      rewrite Hmf. destruct rf as [[]|e].
      - destruct (chase_exit_step E cfg w2) as (Hx & Hxa & Hxc).
        destruct ((if Chase.CLOSE_ON_EXIT cfg then Chase.safe_quit E else Chase.hold_open) w2)
          as [[[]|e] w3]; cbn [snd] in *;
          (split; [exact Hx | split; [rewrite Hxa; exact He1 | rewrite Hxc; exact He2]]).
      - cbn [snd]. split; [apply chase_grown_refl | auto]. }
    subst w1.
    destruct rb as [[]|e]; simpl in *.
    + apply Hfin.
    + destruct (Chase.main_handled e); simpl in *.
      * destruct (Chase.main_handler e wb) as [rh wh]; simpl in *. apply Hfin.
      * apply Hfin.
  - intros E cfg w. unfold Amex.main, try_finally, try_except.
    destruct (Amex.main_body E cfg w) as [rb wb] eqn:Hb.
    exists rb, wb.
    set (w1 := snd (match rb with
                    | Ret a => (Ret a, wb)
                    | Raise e => if is_Exception e
                                 then Amex.sheet_log "ERROR" "main" wb
                                 else (Raise e, wb)
                    end)).
    assert (Hw1 : amex_grown (Amex.trace wb) w1
                  /\ Amex.APPEND_BUFFER w1 = Amex.APPEND_BUFFER wb).
    { subst w1. destruct rb as [[]|e]; simpl.
      - split; [apply amex_grown_refl | auto].
      - destruct (is_Exception e); simpl.
        + split; [apply amex_grown_emit, amex_grown_refl | reflexivity].
        + split; [apply amex_grown_refl | auto]. }
    destruct Hw1 as (Hg & Ha).
    destruct (Amex.flush_buffer E w1) as [rf w2] eqn:Hf.
    exists w1, rf, w2.
    pose proof (amex_flush_opens E w1) as Hopen. rewrite Hf, Ha in Hopen.
    split; [reflexivity|]. split; [exact Hg|]. split; [exact Ha|].
    split; [exact Hf|].
    split.
    { destruct (Amex.APPEND_BUFFER wb); [now injection Hopen | exact Hopen]. }
    assert (Hfin : forall (r0 : result unit),
              let out := match Amex.main_finally E cfg w1 with
                         | (Ret _, w'') => (r0, w'')
                         | (Raise e, w'') => (Raise e, w'')
                         end in
              amex_grown (Amex.trace w2) (snd out)).
    { intros r0. cbv zeta.
      assert (Hmf : Amex.main_finally E cfg w1
                    = match rf with
                      | Ret _ =>
                          (if Amex.AUTO_CLOSE cfg
                           then try_except (Amex.call Amex.EvQuit
                                              (fun n => outcome (Amex.quit_reply E n)))
                                           is_Exception (fun _ => ret tt)
                           else try_except (Amex.call Amex.EvInput
                                              (fun n => outcome (Amex.input_reply E n)))
                                           is_EOFError (fun _ => ret tt)) w2
                      | Raise e => (Raise e, w2)
                      end).
      { unfold Amex.main_finally, bind. rewrite Hf. reflexivity. }
      rewrite Hmf. destruct rf as [[]|e].
      - pose proof (amex_exit_step E cfg w2) as Hx. cbv zeta in Hx.
        match type of Hx with
        | amex_grown _ (snd ?x) => destruct x as [[[]|e] w3]
        end; cbn [snd] in *; exact Hx.
      - cbn [snd]. apply amex_grown_refl. }
    subst w1.
    destruct rb as [[]|e]; simpl in *.
    + apply Hfin.
    + destruct (is_Exception e); simpl in *; apply Hfin.
Qed.

End MainFlushFacts.

(* ===================================================================== *)
(** ** Properties: the enrolment loop stops *)
(* ===================================================================== *)

Section LoopFacts.
Import Text Re Datetime Py Fixtures Sheets.
Local Open Scope list_scope.
Local Open Scope nat_scope.

Section ChaseLoop.
Variable E : Chase.env.
Variable cfg : Chase.config.

Lemma record_row_counters r s :
  returns (Chase.record_row r s)
    (fun s' => Chase.idle_cycles s' = Chase.idle_cycles s
               /\ Chase.safety_clicks s' = Chase.safety_clicks s).
Proof.
  unfold Chase.record_row. apply returns_bind. intros w.
  destruct (_ && _).
  - apply returns_bind. intros _. apply returns_ret. simpl. auto.
  - apply returns_ret. auto.
Qed.

(** Every turn that does not leave the loop uses up one of the turns left. *)
Lemma scan_step_measure s :
  chase_counters_ok s ->
  returns (Chase.scan_step E cfg s)
    (fun r => match r with
              | (Chase.Continue, s') =>
                  chase_counters_ok s' /\ Chase.turns_left s' < Chase.turns_left s
              | (Chase.Break, _) => True
              end).
Proof.
  intros [Hi Hs]. unfold Chase.scan_step.
  apply returns_bind. intros buttons. apply returns_bind. intros [[b fp]|].
  - destruct (Nat.ltb 200 _) eqn:Hcap; cbn [Chase.safety_clicks] in Hcap.
    + apply returns_bind. intros _. apply returns_ret. exact I.
    + apply Nat.ltb_ge in Hcap.
      set (s1 := Chase.Scan _ _ _ _ 0 (S (Chase.safety_clicks s))).
      assert (Hdone : forall s2,
                Chase.idle_cycles s2 = 0 /\ Chase.safety_clicks s2 = S (Chase.safety_clicks s) ->
                chase_counters_ok (Chase.mark_processed fp s2)
                /\ Chase.turns_left (Chase.mark_processed fp s2) < Chase.turns_left s).
      { intros s2 [H0 H1]. unfold chase_counters_ok, Chase.turns_left. simpl.
        rewrite H0, H1. lia. }
      apply returns_bind. intros tile_txt. apply returns_bind. intros guess.
      destruct (negb (Chase.click_ok b)).
      * apply returns_ret. apply Hdone. auto.
      * apply returns_bind. intros [|].
        -- apply returns_bind. intros r.
           eapply returns_bind_with; [apply record_row_counters|].
           intros s2 Hs2. apply returns_bind. intros _. apply returns_ret.
           apply Hdone. exact Hs2.
        -- apply returns_bind. intros r.
           eapply returns_bind_with; [apply record_row_counters|].
           intros s2 Hs2. apply returns_ret. apply Hdone. exact Hs2.
  - cbn [Chase.idle_cycles].
    destruct (Nat.leb 3 (S (Chase.idle_cycles s))) eqn:H3; apply returns_ret; [exact I|].
    apply Nat.leb_gt in H3. unfold chase_counters_ok, Chase.turns_left. simpl. lia.
Qed.

(** With at least [turns_left s] turns allowed the loop ends on its own:
    it never runs out of turns. *)
Lemma scan_loop_terminates fuel s :
  chase_counters_ok s -> Chase.turns_left s <= fuel ->
  returns (Chase.scan_loop E cfg fuel s) (fun r => r <> None).
Proof.
  revert s. induction fuel as [|fuel IH]; intros s Hok Hfuel.
  - destruct Hok as [Hi Hs]. unfold Chase.turns_left in Hfuel. lia.
  - simpl. eapply returns_bind_with; [apply (scan_step_measure s Hok)|].
    intros [[|] s'] Hr.
    + destruct Hr as [Hok' Hlt]. apply IH; [exact Hok' | lia].
    + apply returns_ret. discriminate.
Qed.

(** A poll that finds nothing to pick. *)
Lemma scan_step_idle s w bs :
  Chase.scan_reply E (Chase.clock w) = Ret bs ->
  Chase.pick (Chase.processed_fps s) bs = Ret None ->
  Chase.scan_step E cfg s w
  = (Ret (if Nat.leb 3 (S (Chase.idle_cycles s)) then Chase.Break else Chase.Continue,
          Chase.Scan (Chase.per_card_rows s) (Chase.per_card_keys s)
            (Chase.processed_fps s) (Chase.added_total s)
            (S (Chase.idle_cycles s)) (Chase.safety_clicks s)),
     Chase.tick Chase.EvScan w).
Proof.
  intros Hr Hp. unfold Chase.scan_step, bind, Chase.call, lift. rewrite Hr. cbn [fst snd].
  rewrite Hp. cbn [Chase.idle_cycles]. destruct (Nat.leb 3 _); reflexivity.
Qed.

(** Three polls in a row that find nothing end the loop, with the rows and
    the world (but for the log of calls) as they were. *)
Lemma scan_loop_three_idle fuel s w :
  Chase.idle_cycles s = 0 ->
  (forall j, j < 3 -> Chase.scan_reply E (Chase.clock w + j) = Ret []) ->
  Chase.scan_loop E cfg (3 + fuel) s w
  = (Ret (Some (Chase.Scan (Chase.per_card_rows s) (Chase.per_card_keys s)
                  (Chase.processed_fps s) (Chase.added_total s) 3
                  (Chase.safety_clicks s))),
     Chase.tick Chase.EvScan (Chase.tick Chase.EvScan (Chase.tick Chase.EvScan w))).
Proof.
  intros Hi Hr.
  pose proof (Hr 0 ltac:(lia)) as H0. pose proof (Hr 1 ltac:(lia)) as H1.
  pose proof (Hr 2 ltac:(lia)) as H2.
  rewrite Nat.add_0_r in H0.
  replace (Chase.clock w + 1) with (S (Chase.clock w)) in H1 by lia.
  replace (Chase.clock w + 2) with (S (S (Chase.clock w))) in H2 by lia.
  change (3 + fuel) with (S (S (S fuel))).
  cbn [Chase.scan_loop]. unfold bind at 1.
  rewrite (scan_step_idle s w [] H0 eq_refl). rewrite Hi. cbn [Nat.leb].
  cbn [Chase.scan_loop]. unfold bind at 1.
  erewrite scan_step_idle; [| exact H1 | reflexivity]. cbn [Nat.leb Chase.idle_cycles
    Chase.per_card_rows Chase.per_card_keys Chase.processed_fps Chase.added_total
    Chase.safety_clicks].
  cbn [Chase.scan_loop]. unfold bind at 1.
  erewrite scan_step_idle; [| exact H2 | reflexivity]. cbn [Nat.leb Chase.idle_cycles
    Chase.per_card_rows Chase.per_card_keys Chase.processed_fps Chase.added_total
    Chase.safety_clicks].
  reflexivity.
Qed.







End ChaseLoop.

Section AmexLoop.
Variable E : Amex.env.
Variables holder last4 card_name date_added : string.

Lemma add_step_measure s :
  amex_counters_ok s ->
  returns (Amex.add_step E holder last4 card_name date_added s)
    (fun r => match r with
              | (Amex.Continue, s') =>
                  amex_counters_ok s'
                  /\ Amex.turns_left s' < Amex.turns_left s
              | (Amex.Break, _) => True
              end).
Proof.
  intros [Hi Hs]. unfold Amex.add_step. apply returns_bind. intros [|btn btns].
  - cbn [Amex.idle_rounds].
    destruct (Nat.leb 2 (S (Amex.idle_rounds s))) eqn:H2; apply returns_ret; [exact I|].
    apply Nat.leb_gt in H2. unfold amex_counters_ok, Amex.turns_left. simpl. lia.
  - apply returns_bind. intros _. apply returns_bind. intros _.
    apply returns_bind. intros w. apply returns_bind. intros _.
    cbn [Amex.safety_clicks].
    destruct (Nat.ltb 800 (S (Amex.safety_clicks s))) eqn:Hcap.
    + apply returns_bind. intros _. apply returns_ret. exact I.
    + apply Nat.ltb_ge in Hcap. apply returns_ret.
      unfold amex_counters_ok, Amex.turns_left. simpl. lia.
Qed.

Lemma add_loop_terminates fuel s :
  amex_counters_ok s ->
  Amex.turns_left s <= fuel ->
  returns (Amex.add_loop E fuel holder last4 card_name date_added s)
    (fun r => r <> None).
Proof.
  revert s. induction fuel as [|fuel IH]; intros s Hok Hfuel.
  - destruct Hok as [Hi Hs]. unfold Amex.turns_left in Hfuel. lia.
  - simpl. eapply returns_bind_with; [apply (add_step_measure s Hok)|].
    intros [[|] s'] Hr.
    + destruct Hr as [Hok' Hlt]. apply IH; [exact Hok' | lia].
    + apply returns_ret. discriminate.
Qed.





End AmexLoop.



End LoopFacts.

(* ===================================================================== *)
(** ** Properties: a key the sheet holds is not queued again *)
(* ===================================================================== *)

Section KeyFacts.
Import Text Re Datetime Py Fixtures Sheets Chase.
Local Open Scope list_scope.
Local Open Scope nat_scope.
Local Arguments take : simpl never.
Local Arguments drop : simpl never.

Variable E : env.
Variable cfg : config.
Variable k : row.

Lemma key_inv_weaken base kn base' kn' w :
  (base' = None \/ base' = base) -> (kn' = true -> kn = true) ->
  chase_key_inv k base kn w -> chase_key_inv k base' kn' w.
Proof.
  intros H1 H2 (Hf & Hh & Hk). split; [exact Hf|]. split; [|auto].
  intros sh0 Hb. destruct H1 as [->| ->]; [discriminate | auto].
Qed.

(** The key is still in the sheet below the header. *)
Lemma key_inv_held sh0 kn w :
  chase_key_inv k (Some sh0) kn w -> k ∈ tail (sheet w).
Proof.
  intros (_ & Hh & _). destruct (Hh sh0 eq_refl) as (Hin & extra & -> & _).
  destruct sh0 as [|hdr rest]; [inversion Hin|].
  simpl. simpl in Hin. apply elem_of_app. left. exact Hin.
Qed.

Lemma key_inv_tick base kn ev w :
  quiet_for k ev -> chase_key_inv k base kn w -> chase_key_inv k base kn (tick ev w).
Proof.
  intros Hq ((Ha & Hc & Ht) & Hh & Hk).
  split; [|split; assumption]. split; [exact Ha|]. split; [exact Hc|].
  intros rows Hin. cbn [trace tick] in Hin. apply elem_of_app in Hin as [Hin|Hin].
  - apply (Ht rows Hin).
  - apply list_elem_of_singleton in Hin. subst ev. exact Hq.
Qed.

Lemma key_inv_emit base kn ev w :
  quiet_for k ev -> chase_key_inv k base kn w -> chase_key_inv k base kn (emit ev w).
Proof.
  intros Hq ((Ha & Hc & Ht) & Hh & Hk).
  split; [|split; assumption]. split; [exact Ha|]. split; [exact Hc|].
  intros rows Hin. cbn [trace emit] in Hin. apply elem_of_app in Hin as [Hin|Hin].
  - apply (Ht rows Hin).
  - apply list_elem_of_singleton in Hin. subst ev. exact Hq.
Qed.

Lemma key_inv_grow base kn rows w :
  k ∉ rows ->
  chase_key_inv k base kn w -> chase_key_inv k base kn (set_sheet (sheet w ++ rows) w).
Proof.
  intros Hr (Hf & Hh & Hk). split; [exact Hf|]. split; [|exact Hk].
  intros sh0 Hb. destruct (Hh sh0 Hb) as (Hin & extra & Hsh & Hex). split; [exact Hin|].
  exists (extra ++ rows). cbn [sheet set_sheet]. rewrite Hsh, app_assoc.
  split; [reflexivity|]. intros Hx. apply elem_of_app in Hx as [Hx|Hx]; auto.
Qed.

Lemma key_inv_sheet kn v w :
  chase_key_inv k None kn w -> chase_key_inv k None kn (set_sheet v w).
Proof.
  intros (Hf & Hh & Hk). split; [exact Hf|]. split; [discriminate | exact Hk].
Qed.

Lemma key_keeps_call {A} base kn ev (reply : nat -> result A) :
  quiet_for k ev -> keeps (chase_key_inv k base kn) (call ev reply).
Proof. intros Hq. apply keeps_call. intros w. apply key_inv_tick. exact Hq. Qed.

Lemma key_keeps_print base kn p : keeps (chase_key_inv k base kn) (print p).
Proof. apply keeps_modify. intros w. apply key_inv_emit. exact I. Qed.

Lemma key_keeps_sheet_log base kn l f : keeps (chase_key_inv k base kn) (sheet_log l f).
Proof. apply keeps_modify. intros w. apply key_inv_emit. exact I. Qed.

Lemma key_get_all_values base kn :
  triple (chase_key_inv k base kn) (get_all_values E)
    (fun rows w => rows = sheet w /\ chase_key_inv k base kn w)
    (fun _ => chase_key_inv k base kn).
Proof.
  unfold get_all_values. eapply triple_bind.
  - apply key_keeps_call. exact I.
  - intros u.
    eapply triple_bind with (Q := fun a w => a = w /\ chase_key_inv k base kn w);
      [apply triple_get; intros w Hw; exact (conj eq_refl Hw)|].
    intros w0. apply triple_ret. intros w [Heq Hw]. rewrite Heq. auto.
Qed.

Lemma key_keeps_get_all_values base kn : keeps (chase_key_inv k base kn) (get_all_values E).
Proof.
  intros w Hw. pose proof (key_get_all_values base kn w Hw) as H.
  destruct (get_all_values E w) as [[a|e] w']; [exact (proj2 H) | exact H].
Qed.

Lemma key_keeps_append_rows base kn rows :
  k ∉ rows -> keeps (chase_key_inv k base kn) (append_rows E rows).
Proof.
  intros Hk. unfold append_rows. apply keeps_bind.
  - apply key_keeps_call. exact Hk.
  - intros _. apply keeps_modify. intros w. apply key_inv_grow. exact Hk.
Qed.

Lemma key_keeps_set_filter base kn n : keeps (chase_key_inv k base kn) (set_filter E n).
Proof. apply key_keeps_call. exact I. Qed.

Lemma key_keeps_reset_filters base kn :
  keeps (chase_key_inv k base kn) (reset_filters_full_range E).
Proof.
  unfold reset_filters_full_range. apply keeps_bind.
  - apply key_keeps_get_all_values.
  - intros values. apply key_keeps_set_filter.
Qed.

Lemma key_keeps_update_cell kn r c v :
  keeps (chase_key_inv k None kn) (update_cell E r c v).
Proof.
  unfold update_cell. apply keeps_bind.
  - apply key_keeps_call. exact I.
  - intros _. apply keeps_modify. intros w. apply key_inv_sheet.
Qed.

Lemma key_keeps_delete_rows kn idx :
  keeps (chase_key_inv k None kn) (delete_rows E idx).
Proof.
  unfold delete_rows. apply keeps_bind.
  - apply key_keeps_call. exact I.
  - intros _. apply keeps_modify. intros w. apply key_inv_sheet.
Qed.

Lemma key_keeps_robust_get_loop base kn url n :
  keeps (chase_key_inv k base kn) (robust_get_loop E url n).
Proof.
  induction n as [|n IH]; simpl.
  - apply keeps_bind; [apply key_keeps_sheet_log | intros; apply keeps_ret].
  - apply keeps_bind.
    + apply keeps_try_except; [|intros; apply keeps_ret].
      apply keeps_bind; [apply key_keeps_call; exact I | intros; apply keeps_ret].
    + intros [|]; [apply keeps_ret|]. apply keeps_bind.
      * apply keeps_try_except; [|intros; apply keeps_ret].
        apply keeps_bind; [apply key_keeps_call; exact I | intros; apply keeps_ret].
      * intros [|]; [apply keeps_ret | exact IH].
Qed.

(** *** The enrolment loop *)

(** A row is queued only when its key is not in the shared set: a key in
    the set is never queued. *)
Lemma key_record_row base r s :
  k ∉ per_card_rows s ->
  triple (chase_key_inv k base true) (record_row r s)
    (fun s' w => (k ∉ per_card_rows s') /\ chase_key_inv k base true w)
    (fun _ => chase_key_inv k base true).
Proof.
  intros Hs w Hw. unfold record_row, bind, get.
  destruct (bool_decide (r ∉ existing_rows w)) eqn:Hr; cbn [andb].
  - destruct (bool_decide (r ∉ per_card_keys s)); cbn [modify ret per_card_rows];
      [|split; assumption].
    apply bool_decide_eq_true_1 in Hr.
    destruct Hw as ((Ha & Hc & Ht) & Hh & Hk).
    assert (Hne : k <> r) by (intros ->; apply Hr, Hk; reflexivity).
    split.
    + intros Hin. apply elem_of_app in Hin as [Hin|Hin]; [exact (Hs Hin)|].
      apply list_elem_of_singleton in Hin. exact (Hne Hin).
    + split; [|split].
      * split; [exact Ha|]. split; [|exact Ht].
        cbn [CURRENT_CARD_BUFFER set_existing_rows set_CURRENT_CARD_BUFFER].
        intros Hin. apply elem_of_app in Hin as [Hin|Hin]; [exact (Hc Hin)|].
        apply list_elem_of_singleton in Hin. exact (Hne Hin).
      * exact Hh.
      * intros _. cbn [existing_rows set_existing_rows].
        apply elem_of_union_r. apply Hk. reflexivity.
  - cbn [ret]. split; assumption.
Qed.


Lemma key_scan_step base s :
  k ∉ per_card_rows s ->
  triple (chase_key_inv k base true) (scan_step E cfg s)
    (fun r w => (k ∉ per_card_rows (snd r)) /\ chase_key_inv k base true w)
    (fun _ => chase_key_inv k base true).
Proof.
  intros Hs. unfold scan_step.
  eapply triple_bind; [apply key_keeps_call; exact I|]. intros buttons.
  eapply triple_bind; [apply keeps_lift|]. intros [[b fp]|].
  - destruct (Nat.ltb 200 _).
    + eapply triple_bind; [apply key_keeps_print|]. intros u.
      apply triple_ret. intros w Hw. split; [exact Hs | exact Hw].
    + set (s1 := Scan _ _ _ _ 0 _).
      assert (Hs1 : k ∉ per_card_rows s1) by exact Hs.
      eapply triple_bind; [apply keeps_lift|]. intros tile_txt.
      eapply triple_bind; [apply keeps_lift|]. intros guess.
      destruct (negb (click_ok b)).
      * apply triple_ret. intros w Hw. split; [exact Hs1 | exact Hw].
      * eapply triple_bind; [apply keeps_lift|]. intros [|].
        -- eapply triple_bind; [apply keeps_lift|]. intros r.
           eapply triple_bind; [apply (key_record_row base r s1 Hs1)|]. intros s2.
           eapply triple_bind with (Q := fun _ w => (k ∉ per_card_rows s2)
                                                   /\ chase_key_inv k base true w).
           { apply triple_lift; [intros a w _ Hw; exact Hw | intros e w _ [_ Hw]; exact Hw]. }
           intros u. apply triple_ret. intros w Hw. exact Hw.
        -- eapply triple_bind; [apply keeps_lift|]. intros r.
           eapply triple_bind; [apply (key_record_row base r s1 Hs1)|]. intros s2.
           apply triple_ret. intros w Hw. exact Hw.
  - destruct (Nat.leb 3 _); apply triple_ret; intros w Hw; (split; [exact Hs | exact Hw]).
Qed.

Lemma key_scan_loop base fuel : forall s,
  k ∉ per_card_rows s ->
  triple (chase_key_inv k base true) (scan_loop E cfg fuel s)
    (fun r w => (forall s', r = Some s' -> k ∉ per_card_rows s')
                /\ chase_key_inv k base true w)
    (fun _ => chase_key_inv k base true).
Proof.
  induction fuel as [|fuel IH]; intros s Hs; simpl.
  - apply triple_ret. intros w Hw. split; [discriminate | exact Hw].
  - eapply triple_bind; [apply (key_scan_step base s Hs)|]. intros [[|] s'].
    + intros w [Hs' Hw]. apply (IH s' Hs' w Hw).
    + apply triple_ret. intros w [Hs' Hw]. split; [|exact Hw].
      intros s2 Heq. injection Heq as <-. exact Hs'.
Qed.

Lemma key_inv_buffer base kn rows w :
  k ∉ rows -> chase_key_inv k base kn w ->
  chase_key_inv k base kn (set_APPEND_BUFFER (APPEND_BUFFER w ++ rows) w).
Proof.
  intros Hr ((Ha & Hc & Ht) & Hh & Hk).
  split; [|split; assumption]. split; [|split; assumption].
  cbn [APPEND_BUFFER set_APPEND_BUFFER]. intros Hin.
  apply elem_of_app in Hin as [Hin|Hin]; auto.
Qed.

Lemma key_inv_card_reset base kn w :
  chase_key_inv k base kn w -> chase_key_inv k base kn (set_CURRENT_CARD_BUFFER [] w).
Proof.
  intros ((Ha & Hc & Ht) & Hh & Hk).
  split; [|split; assumption]. split; [exact Ha|]. split; [|exact Ht].
  cbn [CURRENT_CARD_BUFFER set_CURRENT_CARD_BUFFER]. apply not_elem_of_nil.
Qed.

Lemma key_keeps_record_card_rows base kn s :
  k ∉ per_card_rows s -> keeps (chase_key_inv k base kn) (record_card_rows E s).
Proof.
  intros Hs. unfold record_card_rows. apply keeps_bind.
  - destruct (nonnil (per_card_rows s)); [|apply keeps_ret].
    apply keeps_try_except.
    + apply keeps_bind; [apply key_keeps_append_rows; exact Hs|]. intros _.
      apply keeps_bind; [apply keeps_modify; intros w; apply key_inv_card_reset|].
      intros _. apply keeps_bind; [apply key_keeps_print|]. intros _.
      apply key_keeps_reset_filters.
    + intros e. apply keeps_bind; [|intros; apply key_keeps_print].
      apply keeps_modify. intros w. apply key_inv_buffer. exact Hs.
  - intros _. apply keeps_bind; [apply key_keeps_print | intros; apply keeps_ret].
Qed.

Lemma key_keeps_enroll base :
  keeps (chase_key_inv k base true) (enroll_all_offers_for_current_card E cfg).
Proof.
  unfold enroll_all_offers_for_current_card.
  apply keeps_bind; [apply keeps_modify; intros w; apply key_inv_card_reset|].
  intros _. apply keeps_bind; [apply key_keeps_print|]. intros _.
  eapply triple_bind.
  - apply (key_scan_loop base scan_fuel scan_start). apply not_elem_of_nil.
  - intros [s|].
    + intros w [Hs Hw]. apply (key_keeps_record_card_rows base true s (Hs s eq_refl) w Hw).
    + apply triple_ret. intros w [_ Hw]. exact Hw.
Qed.

Lemma key_keeps_cards_loop base ids : forall total_cards total_rows,
  keeps (chase_key_inv k base true) (cards_loop E cfg ids total_cards total_rows).
Proof.
  induction ids as [|acc_id ids IH]; intros total_cards total_rows; simpl.
  - apply keeps_ret.
  - apply keeps_bind; [|intros t; apply IH].
    apply keeps_try_except.
    + apply keeps_bind; [apply key_keeps_call; exact I|]. intros ok.
      destruct (negb ok).
      * apply keeps_bind; [apply key_keeps_print | intros; apply keeps_ret].
      * apply keeps_bind; [apply key_keeps_enroll | intros; apply keeps_ret].
    + intros e. apply keeps_bind; [apply key_keeps_sheet_log|]. intros _.
      apply keeps_bind; [apply key_keeps_print | intros; apply keeps_ret].
Qed.

(** A pass: the key set is built from the sheet as it is read, so a key the
    sheet holds is known throughout the pass. *)
Lemma key_keeps_process_cards sh0 kn :
  keeps (chase_key_inv k (Some sh0) kn) (process_cards E cfg).
Proof.
  unfold process_cards. eapply triple_bind; [apply key_get_all_values|].
  intros rows.
  eapply triple_bind with (Q := fun _ => chase_key_inv k (Some sh0) true).
  { apply triple_modify. intros w [-> Hw]. pose proof (key_inv_held _ _ _ Hw) as Hin.
    destruct Hw as (Hf & Hh & Hk). split; [exact Hf|]. split; [exact Hh|]. intros _.
    cbn [existing_rows set_existing_rows]. apply elem_of_list_to_set. exact Hin. }
  intros u.
  eapply triple_weaken with (P' := chase_key_inv k (Some sh0) true)
    (Q' := fun _ => chase_key_inv k (Some sh0) true)
    (R' := fun _ => chase_key_inv k (Some sh0) true);
    [| auto | |].
  - apply keeps_bind; [apply key_keeps_cards_loop | intros; apply key_keeps_print].
  - intros a w. apply key_inv_weaken; auto.
  - intros e w. apply key_inv_weaken; auto.
Qed.

(** *** Sheet maintenance, the final flush and [main] *)

Lemma key_keeps_apply_updates kn us :
  keeps (chase_key_inv k None kn) (apply_updates E us).
Proof.
  induction us as [|[[r c] v] us IH]; simpl; [apply keeps_ret|].
  apply keeps_bind; [apply key_keeps_update_cell | intros; exact IH].
Qed.

Lemma key_keeps_normalize_sheet_dates kn :
  keeps (chase_key_inv k None kn) (normalize_sheet_dates E).
Proof.
  unfold normalize_sheet_dates. apply keeps_bind; [apply key_keeps_get_all_values|].
  intros rows. apply key_keeps_apply_updates.
Qed.

Lemma key_keeps_dedupe_rows kn : keeps (chase_key_inv k None kn) (dedupe_rows E).
Proof.
  unfold dedupe_rows. apply keeps_bind; [apply key_keeps_get_all_values|].
  intros rows. apply keeps_bind; [|intros; apply keeps_ret].
  destruct (nonnil _); [apply key_keeps_delete_rows | apply keeps_ret].
Qed.

Lemma key_keeps_append_chunks base kn starts : forall total,
  keeps (chase_key_inv k base kn) (append_chunks E cfg starts total).
Proof.
  induction starts as [|i starts IH]; intros total; simpl; [apply keeps_ret|].
  eapply triple_bind with (Q := fun a w => a = w /\ chase_key_inv k base kn w);
    [apply triple_get; intros w Hw; exact (conj eq_refl Hw)|].
  intros w0 w [Heq Hw]. subst w0.
  assert (Hk : k ∉ take (Z.to_nat (APPEND_CHUNK_SIZE cfg)) (drop i (APPEND_BUFFER w))).
  { intros Hin. apply subseteq_take, subseteq_drop in Hin.
    apply (proj1 (proj1 Hw)). exact Hin. }
  cbv zeta.
  refine (keeps_bind _ _ _ _ _ w Hw).
  - apply key_keeps_append_rows. exact Hk.
  - intros _. apply IH.
Qed.

Lemma key_inv_merge base kn w :
  chase_key_inv k base kn w ->
  chase_key_inv k base kn
    (set_CURRENT_CARD_BUFFER []
       (set_APPEND_BUFFER (APPEND_BUFFER w ++ CURRENT_CARD_BUFFER w) w)).
Proof.
  intros Hw. apply key_inv_card_reset.
  apply key_inv_buffer; [exact (proj1 (proj2 (proj1 Hw))) | exact Hw].
Qed.

Lemma key_inv_buffer_reset base kn w :
  chase_key_inv k base kn w -> chase_key_inv k base kn (set_APPEND_BUFFER [] w).
Proof.
  intros ((Ha & Hc & Ht) & Hh & Hk).
  split; [|split; assumption]. split; [|split; assumption].
  cbn [APPEND_BUFFER set_APPEND_BUFFER]. apply not_elem_of_nil.
Qed.

Lemma key_keeps_flush_buffer base kn : keeps (chase_key_inv k base kn) (flush_buffer E cfg).
Proof.
  unfold flush_buffer. apply keeps_bind.
  - apply keeps_modify. intros w Hw.
    destruct (nonnil (CURRENT_CARD_BUFFER w)); [apply key_inv_merge|]; exact Hw.
  - intros _. apply keeps_bind; [apply keeps_get|]. intros w0.
    destruct (negb (nonnil (APPEND_BUFFER w0))); [apply key_keeps_print|].
    apply keeps_try_finally.
    + apply keeps_try_except; [|intros; apply key_keeps_print].
      apply keeps_bind; [apply keeps_lift|]. intros starts.
      apply keeps_bind; [apply key_keeps_append_chunks|]. intros total.
      apply keeps_bind; [apply key_keeps_print|]. intros _.
      apply key_keeps_reset_filters.
    + apply keeps_modify. intros w. apply key_inv_buffer_reset.
Qed.

Lemma key_keeps_main_finally base kn :
  keeps (chase_key_inv k base kn) (main_finally E cfg).
Proof.
  unfold main_finally. apply keeps_bind; [apply key_keeps_flush_buffer|]. intros _.
  destruct (CLOSE_ON_EXIT cfg).
  - apply keeps_try_except; [apply key_keeps_call; exact I | intros; apply keeps_ret].
  - apply keeps_modify. intros w. apply key_inv_emit. exact I.
Qed.

Lemma key_keeps_main_handler base kn e :
  keeps (chase_key_inv k base kn) (main_handler e).
Proof.
  unfold main_handler.
  destruct (is_KeyboardInterrupt e);
    (apply keeps_bind; [apply key_keeps_print | intros; apply key_keeps_sheet_log]).
Qed.

(** The two passes of [main], one after the other. *)
Lemma key_keeps_two_passes sh0 kn :
  keeps (chase_key_inv k (Some sh0) kn)
    (bind (process_cards E cfg) (fun _ => process_cards E cfg)).
Proof.
  apply keeps_bind; [apply key_keeps_process_cards | intros; apply key_keeps_process_cards].
Qed.

(** The [try] block: the sheet keeps the key up to the end of the second
    pass; the maintenance that follows may rewrite or delete rows, but
    queues and appends nothing. *)
Lemma key_main_body sh0 :
  triple (chase_key_inv k (Some sh0) false) (main_body E cfg)
    (fun _ => chase_key_inv k None false) (fun _ => chase_key_inv k None false).
Proof.
  set (J := chase_key_inv k (Some sh0) false).
  assert (Hweak : forall w, J w -> chase_key_inv k None false w).
  { intros w. apply key_inv_weaken; auto. }
  assert (Hlift : forall A (m : M world A),
             keeps J m ->
             triple J m (fun _ => J) (fun _ => chase_key_inv k None false)).
  { intros A m Hm. eapply triple_weaken; [exact Hm | auto | auto |].
    intros e w. apply Hweak. }
  unfold main_body.
  eapply triple_bind; [apply Hlift, key_keeps_robust_get_loop|]. intros ?.
  eapply triple_bind.
  { apply Hlift. apply keeps_try_except;
      [apply key_keeps_call; exact I | intros; apply keeps_ret]. }
  intros ?. eapply triple_bind.
  { apply Hlift. unfold wait_for_post_login.
    apply keeps_bind; [apply key_keeps_call; exact I|]. intros [|]; [apply keeps_ret|].
    apply keeps_bind; [apply key_keeps_sheet_log | intros; apply keeps_ret]. }
  intros ok. destruct (negb ok).
  { eapply triple_weaken; [apply (key_keeps_print (Some sh0) false) | auto | |];
      intros ? w; apply Hweak. }
  eapply triple_bind; [apply Hlift, key_keeps_process_cards|]. intros ?.
  eapply triple_bind; [apply Hlift, key_keeps_process_cards|]. intros ?.
  eapply triple_weaken with (P' := chase_key_inv k None false);
    [| exact Hweak | intros ? w H; exact H | intros ? w H; exact H].
  apply keeps_bind; [apply key_keeps_normalize_sheet_dates|]. intros ?.
  apply keeps_bind; [apply key_keeps_dedupe_rows|]. intros ?.
  apply keeps_bind; [apply key_keeps_reset_filters|]. intros ?.
  apply key_keeps_print.
Qed.

Lemma key_main sh0 :
  triple (chase_key_inv k (Some sh0) false) (main E cfg)
    (fun _ => chase_key_inv k None false) (fun _ => chase_key_inv k None false).
Proof.
  unfold main. eapply triple_try_finally.
  - eapply triple_try_except; [apply key_main_body | | intros e w _ H; exact H].
    intros e _. apply key_keeps_main_handler.
  - intros ?. apply key_keeps_main_finally.
  - intros ?. apply key_keeps_main_finally.
Qed.

End KeyFacts.

Section KeyClaim.
Import Text Re Datetime Py Fixtures Sheets.
Local Open Scope list_scope.
Local Open Scope nat_scope.

(** C2. When the sheet holds, below its header, a row with key [k] and
    nothing carrying [k] is queued or was appended so far (as at the start of
    a run), then: the enrolment loop of a pass whose key set has [k] leaves
    [k] out of the rows of the card; a pass, the two passes of a run one
    after the other, and the whole run queue no row with key [k] in either
    buffer and pass none to [append_rows]; and after the passes the sheet is
    the sheet of the start followed by rows other than [k]. *)
Theorem known_key_never_requeued (E : Chase.env) (cfg : Chase.config)
    (k : row) (w : Chase.world) :
  k ∈ tail (Chase.sheet w) ->
  chase_free_of k w ->
  (forall fuel s,
      k ∈ Chase.existing_rows w -> k ∉ Chase.per_card_rows s ->
      chase_free_of k (snd (Chase.scan_loop E cfg fuel s w))
      /\ forall s', fst (Chase.scan_loop E cfg fuel s w) = Ret (Some s') ->
                    k ∉ Chase.per_card_rows s')
  /\ (chase_free_of k (snd (Chase.process_cards E cfg w))
      /\ chase_sheet_from k (Chase.sheet w) (snd (Chase.process_cards E cfg w)))
  /\ (let passes := bind (Chase.process_cards E cfg) (fun _ => Chase.process_cards E cfg) in
      chase_free_of k (snd (passes w))
      /\ chase_sheet_from k (Chase.sheet w) (snd (passes w)))
  /\ chase_free_of k (snd (Chase.main E cfg w)).
Proof.
  intros Hin Hfree.
  assert (HJ : forall kn, (kn = true -> k ∈ Chase.existing_rows w) ->
                 chase_key_inv k (Some (Chase.sheet w)) kn w).
  { intros kn Hkn. split; [exact Hfree|]. split; [|exact Hkn].
    intros sh0 Heq. injection Heq as <-. split; [exact Hin|].
    exists []. rewrite app_nil_r. split; [reflexivity | apply not_elem_of_nil]. }
  assert (Hout : forall kn w', chase_key_inv k (Some (Chase.sheet w)) kn w' ->
                   chase_free_of k w' /\ chase_sheet_from k (Chase.sheet w) w').
  { intros kn w' (Hf & Hh & _). split; [exact Hf | exact (proj2 (Hh _ eq_refl))]. }
  split; [|split; [|split]].
  - intros fuel s Hk Hs.
    pose proof (key_scan_loop E cfg k (Some (Chase.sheet w)) fuel s Hs w
                  (HJ true (fun _ => Hk))) as H.
    destruct (Chase.scan_loop E cfg fuel s w) as [[r|e] w']; cbn [fst snd].
    + destruct H as [Hr Hw]. split; [exact (proj1 Hw)|].
      intros s' Heq. injection Heq as ->. apply Hr. reflexivity.
    + split; [exact (proj1 H) | discriminate].
  - apply (Hout false). apply keeps_snd; [apply key_keeps_process_cards|].
    apply HJ. discriminate.
  - cbv zeta. apply (Hout false). apply keeps_snd; [apply key_keeps_two_passes|].
    apply HJ. discriminate.
  - pose proof (key_main E cfg k (Chase.sheet w) w (HJ false ltac:(discriminate))) as H.
    destruct (Chase.main E cfg w) as [[[]|e] w']; exact (proj1 H).
Qed.

Lemma known_key_never_requeued_witness :
  let w0 := Chase.World [Chase.OFFER_HEADERS; row_A] [] [] {[row_A]} 0 [] in
  chase_free_of row_A
    (snd (Chase.scan_loop (chase_one_offer 0) chase_cfg Chase.scan_fuel
            Chase.scan_start w0))
  /\ chase_free_of row_A (snd (Chase.main (chase_one_offer 0) chase_cfg w0)).
Proof.
  intros w0.
  destruct (known_key_never_requeued (chase_one_offer 0) chase_cfg row_A w0)
    as (Hloop & _ & _ & Hmain).
  - simpl. apply list_elem_of_here.
  - split; [|split]; simpl.
    + apply not_elem_of_nil.
    + apply not_elem_of_nil.
    + intros rows Hin. exfalso. exact (not_elem_of_nil _ Hin).
  - split; [|exact Hmain].
    apply (Hloop Chase.scan_fuel Chase.scan_start).
    + simpl. apply elem_of_singleton. reflexivity.
    + simpl. apply not_elem_of_nil.
Defined.

End KeyClaim.

(* ===================================================================== *)
(** ** Properties: the two passes over the accounts *)
(* ===================================================================== *)

Section CalmFacts.
Import Text Re Datetime Py Fixtures Sheets Chase.
Local Open Scope list_scope.
Local Open Scope nat_scope.
Local Arguments take : simpl never.
Local Arguments drop : simpl never.

Variable E : env.
Variable cfg : config.
Variable t0 : list event.
Variable P : list event -> Prop.
Hypothesis HP : calm_stable P.

Lemma since_tick ev w :
  calm ev = true -> chase_since t0 P w -> chase_since t0 P (tick ev w).
Proof.
  intros Hc (evs & Ht & Hp). exists (evs ++ [ev]). cbn [trace tick].
  rewrite Ht, app_assoc. split; [reflexivity | apply HP; assumption].
Qed.

Lemma since_emit ev w :
  calm ev = true -> chase_since t0 P w -> chase_since t0 P (emit ev w).
Proof.
  intros Hc (evs & Ht & Hp). exists (evs ++ [ev]). cbn [trace emit].
  rewrite Ht, app_assoc. split; [reflexivity | apply HP; assumption].
Qed.

Lemma since_store w w' :
  trace w' = trace w -> chase_since t0 P w -> chase_since t0 P w'.
Proof. intros Heq (evs & Ht & Hp). exists evs. rewrite Heq. auto. Qed.

(** One step through a computation that logs calm events only. *)
Ltac calm_step :=
  lazymatch goal with
  | H : keeps ?I ?m |- keeps ?I ?m => exact H
  | |- keeps _ (ret _) => apply keeps_ret
  | |- keeps _ get => apply keeps_get
  | |- keeps _ (lift _) => apply keeps_lift
  | |- keeps _ (bind _ _) => apply keeps_bind; [|intros ?]
  | |- keeps _ (try_except _ _ _) => apply keeps_try_except; [|intros ?]
  | |- keeps _ (try_finally _ _) => apply keeps_try_finally
  | |- keeps _ (call _ _) =>
      apply keeps_call; intros ? ?; apply since_tick; [reflexivity | assumption]
  | |- keeps _ (modify _) =>
      apply keeps_modify; intros ? ?;
      first [ apply since_emit; [reflexivity | assumption]
            | eapply since_store; [|eassumption]; reflexivity ]
  | |- keeps _ (if ?b then _ else _) => destruct b
  | |- keeps _ (match ?x with _ => _ end) => destruct x
  end.

Lemma calm_robust_get_loop url n : keeps (chase_since t0 P) (robust_get_loop E url n).
Proof.
  induction n as [|n IH]; simpl; unfold sheet_log; repeat calm_step.
Qed.

Lemma calm_get_all_values : keeps (chase_since t0 P) (get_all_values E).
Proof. unfold get_all_values. repeat calm_step. Qed.

Lemma calm_append_rows rows : keeps (chase_since t0 P) (append_rows E rows).
Proof. unfold append_rows. repeat calm_step. Qed.

Lemma calm_reset_filters : keeps (chase_since t0 P) (reset_filters_full_range E).
Proof.
  unfold reset_filters_full_range, set_filter.
  apply keeps_bind; [apply calm_get_all_values | intros ?]. repeat calm_step.
Qed.

Lemma calm_record_row r s : keeps (chase_since t0 P) (record_row r s).
Proof. unfold record_row. repeat calm_step. Qed.

Lemma calm_scan_step s : keeps (chase_since t0 P) (scan_step E cfg s).
Proof.
  unfold scan_step, print.
  repeat first [apply calm_record_row | calm_step].
Qed.

Lemma calm_scan_loop fuel : forall s, keeps (chase_since t0 P) (scan_loop E cfg fuel s).
Proof.
  induction fuel as [|fuel IH]; intros s; simpl; [apply keeps_ret|].
  apply keeps_bind; [apply calm_scan_step|]. intros [[|] s']; [apply IH | apply keeps_ret].
Qed.

Lemma calm_record_card_rows s : keeps (chase_since t0 P) (record_card_rows E s).
Proof.
  unfold record_card_rows, print.
  repeat first [apply calm_append_rows | apply calm_reset_filters | calm_step].
Qed.

Lemma calm_enroll : keeps (chase_since t0 P) (enroll_all_offers_for_current_card E cfg).
Proof.
  unfold enroll_all_offers_for_current_card, print.
  repeat first [apply calm_scan_loop | apply calm_record_card_rows | calm_step].
Qed.

Lemma calm_apply_updates us : keeps (chase_since t0 P) (apply_updates E us).
Proof.
  induction us as [|[[r c] v] us IH]; simpl; [apply keeps_ret|].
  unfold update_cell. repeat calm_step.
Qed.

Lemma calm_normalize_sheet_dates : keeps (chase_since t0 P) (normalize_sheet_dates E).
Proof.
  unfold normalize_sheet_dates.
  repeat first [apply calm_get_all_values | apply calm_apply_updates | calm_step].
Qed.

Lemma calm_dedupe_rows : keeps (chase_since t0 P) (dedupe_rows E).
Proof.
  unfold dedupe_rows, delete_rows.
  repeat first [apply calm_get_all_values | calm_step].
Qed.

Lemma calm_append_chunks starts : forall total,
  keeps (chase_since t0 P) (append_chunks E cfg starts total).
Proof.
  induction starts as [|i starts IH]; intros total; simpl; [apply keeps_ret|].
  repeat first [apply calm_append_rows | apply IH | calm_step].
Qed.

Lemma calm_flush_buffer : keeps (chase_since t0 P) (flush_buffer E cfg).
Proof.
  unfold flush_buffer, print.
  apply keeps_bind.
  { apply keeps_modify. intros w Hw. destruct (nonnil (CURRENT_CARD_BUFFER w)); [|exact Hw].
    eapply since_store; [|exact Hw]. reflexivity. }
  intros ?.
  repeat first [apply calm_append_chunks | apply calm_reset_filters | calm_step].
Qed.

Lemma calm_main_finally : keeps (chase_since t0 P) (main_finally E cfg).
Proof.
  unfold main_finally, safe_quit, hold_open.
  repeat first [apply calm_flush_buffer | calm_step].
Qed.

Lemma calm_main_handler e : keeps (chase_since t0 P) (main_handler e).
Proof. unfold main_handler, print, sheet_log. repeat calm_step. Qed.

Lemma calm_prefill_home_login : keeps (chase_since t0 P) (prefill_home_login E).
Proof. unfold prefill_home_login. repeat calm_step. Qed.

Lemma calm_wait_for_post_login : keeps (chase_since t0 P) (wait_for_post_login E).
Proof. unfold wait_for_post_login, sheet_log. repeat calm_step. Qed.

End CalmFacts.

Section VisitFacts.
Import Text Re Datetime Py Fixtures Sheets Chase.
Local Open Scope list_scope.
Local Open Scope nat_scope.

Variable E : env.
Variable cfg : config.
Variable t0 : list event.

Lemma chase_visits_calm evs ev :
  calm ev = true -> chase_visits (evs ++ [ev]) = chase_visits evs.
Proof.
  intros Hc. unfold chase_visits. rewrite omap_app. simpl.
  destruct ev; try discriminate Hc; apply app_nil_r.
Qed.

Lemma not_complete_calm evs ev :
  calm ev = true -> EvPrint PMainComplete ∉ evs -> EvPrint PMainComplete ∉ evs ++ [ev].
Proof.
  intros Hc Hn Hin. apply elem_of_app in Hin as [Hin|Hin]; [exact (Hn Hin)|].
  apply list_elem_of_singleton in Hin. subst ev. discriminate Hc.
Qed.

Lemma visited_stable p : calm_stable (visited p).
Proof.
  intros evs ev Hc [Hn Hv]. split; [apply not_complete_calm; assumption|].
  rewrite chase_visits_calm; assumption.
Qed.

Lemma run_visits_stable : calm_stable run_visits.
Proof.
  intros evs ev Hc [Hp Hd]. rewrite <- (chase_visits_calm evs ev Hc) in Hp, Hd.
  split; [exact Hp|]. intros Hin. apply Hd.
  apply elem_of_app in Hin as [Hin|Hin]; [exact Hin|].
  apply list_elem_of_singleton in Hin. subst ev. discriminate Hc.
Qed.

(** A visit is logged whether it succeeds or raises. *)
Lemma visit_go_to_categories p acc_id :
  triple (chase_since t0 (visited p)) (go_to_categories_for E acc_id)
    (fun _ => chase_since t0 (visited (p ++ [acc_id])))
    (fun _ => chase_since t0 (visited (p ++ [acc_id]))).
Proof.
  assert (H : forall w, chase_since t0 (visited p) w ->
                chase_since t0 (visited (p ++ [acc_id])) (tick (EvVisit acc_id) w)).
  { intros w (evs & Ht & Hn & Hv). exists (evs ++ [EvVisit acc_id]).
    cbn [trace tick]. rewrite Ht, app_assoc. split; [reflexivity|]. split.
    - intros Hin. apply elem_of_app in Hin as [Hin|Hin]; [exact (Hn Hin)|].
      apply list_elem_of_singleton in Hin. discriminate Hin.
    - unfold chase_visits in *. rewrite omap_app, Hv. reflexivity. }
  intros w Hw. unfold go_to_categories_for, call.
  destruct (visit_reply E (clock w)); apply H; exact Hw.
Qed.

(** The card loop visits every account of its list, in order; it is cut
    short only by an exception that is not an [Exception]. *)
Lemma visit_cards_loop ids : forall p total_cards total_rows,
  triple (chase_since t0 (visited p)) (cards_loop E cfg ids total_cards total_rows)
    (fun _ => chase_since t0 (visited (p ++ ids)))
    (fun _ w => exists q, q `prefix_of` ids /\ chase_since t0 (visited (p ++ q)) w).
Proof.
  induction ids as [|acc_id ids IH]; intros p total_cards total_rows; simpl.
  - apply triple_ret. intros w Hw. rewrite app_nil_r. exact Hw.
  - eapply triple_bind with (Q := fun _ => chase_since t0 (visited (p ++ [acc_id]))).
    + eapply triple_weaken with
        (Q' := fun _ => chase_since t0 (visited (p ++ [acc_id])))
        (R' := fun _ => chase_since t0 (visited (p ++ [acc_id])));
        [| intros w H; exact H | intros ? w H; exact H |].
      * eapply triple_try_except with
          (R1 := fun _ => chase_since t0 (visited (p ++ [acc_id]))).
        -- eapply triple_bind; [apply visit_go_to_categories|]. intros ok.
           destruct (negb ok).
           ++ apply keeps_bind; [|intros; apply keeps_ret].
              apply keeps_modify. intros w. apply since_emit;
                [apply visited_stable | reflexivity].
           ++ apply keeps_bind; [|intros; apply keeps_ret].
              apply calm_enroll. apply visited_stable.
        -- intros e _. apply keeps_bind.
           ++ apply keeps_modify. intros w. apply since_emit;
                [apply visited_stable | reflexivity].
           ++ intros ?. apply keeps_bind; [|intros; apply keeps_ret].
              apply keeps_modify. intros w. apply since_emit;
                [apply visited_stable | reflexivity].
        -- intros e w _ H. exact H.
      * intros e w H. exists [acc_id]. split; [|exact H].
        exists ids. reflexivity.
    + intros t. eapply triple_weaken; [apply (IH (p ++ [acc_id])) | intros w H; exact H | |].
      * intros ? w H. rewrite <- app_assoc in H. exact H.
      * intros e w (q & Hq & H). exists (acc_id :: q). split.
        -- apply (prefix_app [acc_id]). exact Hq.
        -- rewrite <- app_assoc in H. exact H.
Qed.

Lemma visit_process_cards p :
  triple (chase_since t0 (visited p)) (process_cards E cfg)
    (fun _ => chase_since t0 (visited (p ++ ACCOUNT_IDS)))
    (fun _ w => exists q, q `prefix_of` ACCOUNT_IDS
                          /\ chase_since t0 (visited (p ++ q)) w).
Proof.
  assert (Hnil : forall (e : exn) w, chase_since t0 (visited p) w ->
                   exists q, q `prefix_of` ACCOUNT_IDS
                             /\ chase_since t0 (visited (p ++ q)) w).
  { intros _ w H. exists []. split; [apply prefix_nil | rewrite app_nil_r; exact H]. }
  unfold process_cards.
  eapply triple_bind with (Q := fun _ => chase_since t0 (visited p)).
  { eapply triple_weaken; [apply (calm_get_all_values E t0 _ (visited_stable p)) | | |];
      [intros w H; exact H | intros a w H; exact H | exact Hnil]. }
  intros rows. eapply triple_bind with (Q := fun _ => chase_since t0 (visited p)).
  { apply triple_modify. intros w H. eapply since_store; [|exact H]. reflexivity. }
  intros ?. eapply triple_bind; [apply visit_cards_loop|]. intros t.
  apply triple_modify. intros w. apply since_emit; [apply visited_stable | reflexivity].
Qed.


Lemma visited_run_visits p w :
  p `prefix_of` ACCOUNT_IDS ++ ACCOUNT_IDS ->
  chase_since t0 (visited p) w -> chase_since t0 run_visits w.
Proof.
  intros Hp (evs & Ht & Hn & Hv). exists evs. split; [exact Ht|]. split.
  - rewrite Hv. exact Hp.
  - intros Hin. destruct (Hn Hin).
Qed.

(** The [try] block of [main]: the visits it makes are a prefix of the
    account list gone through twice, and all of it once completion is
    reported. *)
Lemma visit_main_body :
  triple (chase_since t0 (visited [])) (main_body E cfg)
    (fun _ => chase_since t0 run_visits) (fun _ => chase_since t0 run_visits).
Proof.
  assert (Hlift : forall A (m : M world A) p,
             p `prefix_of` ACCOUNT_IDS ++ ACCOUNT_IDS ->
             keeps (chase_since t0 (visited p)) m ->
             triple (chase_since t0 (visited p)) m
               (fun _ => chase_since t0 (visited p))
               (fun _ => chase_since t0 run_visits)).
  { intros A m p Hp Hm. eapply triple_weaken; [exact Hm | auto | auto |].
    intros e w. apply visited_run_visits. exact Hp. }
  assert (Hpass : forall p,
             p ++ ACCOUNT_IDS `prefix_of` ACCOUNT_IDS ++ ACCOUNT_IDS ->
             triple (chase_since t0 (visited p)) (process_cards E cfg)
               (fun _ => chase_since t0 (visited (p ++ ACCOUNT_IDS)))
               (fun _ => chase_since t0 run_visits)).
  { intros p Hp. eapply triple_weaken;
      [apply visit_process_cards | intros w H; exact H | intros ? w H; exact H |].
    intros e w (q & Hq & H). revert H. apply visited_run_visits.
    etransitivity; [|exact Hp]. apply prefix_app. exact Hq. }
  unfold main_body.
  eapply triple_bind;
    [apply Hlift; [apply prefix_nil | apply calm_robust_get_loop, visited_stable]|].
  intros ?. eapply triple_bind;
    [apply Hlift; [apply prefix_nil | apply calm_prefill_home_login, visited_stable]|].
  intros ?. eapply triple_bind;
    [apply Hlift; [apply prefix_nil | apply calm_wait_for_post_login, visited_stable]|].
  intros ok. destruct (negb ok).
  { apply triple_modify. intros w Hw. apply (visited_run_visits []); [apply prefix_nil|].
    apply since_emit; [apply visited_stable | reflexivity | exact Hw]. }
  eapply triple_bind; [apply (Hpass []); exists ACCOUNT_IDS; reflexivity|].
  intros ?. eapply triple_bind; [apply (Hpass ([] ++ ACCOUNT_IDS)); reflexivity|].
  intros ?. eapply triple_bind;
    [apply Hlift; [reflexivity | apply calm_normalize_sheet_dates, visited_stable]|].
  intros ?. eapply triple_bind;
    [apply Hlift; [reflexivity | apply calm_dedupe_rows, visited_stable]|].
  intros ?. eapply triple_bind;
    [apply Hlift; [reflexivity | apply calm_reset_filters, visited_stable]|].
  intros ?. apply triple_modify. intros w (evs & Ht & Hn & Hv).
  exists (evs ++ [EvPrint PMainComplete]). cbn [trace emit]. rewrite Ht, app_assoc.
  split; [reflexivity|].
  assert (Hvis : chase_visits (evs ++ [EvPrint PMainComplete])
                 = ACCOUNT_IDS ++ ACCOUNT_IDS).
  { unfold chase_visits in *. rewrite omap_app, Hv. reflexivity. }
  split; [rewrite Hvis; reflexivity | intros _; exact Hvis].
Qed.

Lemma visit_main :
  triple (chase_since t0 (visited [])) (main E cfg)
    (fun _ => chase_since t0 run_visits) (fun _ => chase_since t0 run_visits).
Proof.
  assert (Hfin : keeps (chase_since t0 run_visits) (main_finally E cfg))
    by apply calm_main_finally, run_visits_stable.
  unfold main. eapply triple_try_finally.
  - eapply triple_try_except; [apply visit_main_body | | intros e w _ H; exact H].
    intros e _. apply calm_main_handler, run_visits_stable.
  - intros ?. exact Hfin.
  - intros ?. exact Hfin.
Qed.

End VisitFacts.

Section PassesClaim.
Import Text Re Datetime Py Fixtures Sheets.
Local Open Scope list_scope.
Local Open Scope nat_scope.

(** C10, counterexample. Login is detected in each of these runs. When the
    sheet cannot be read at the start of the first pass, [main] reports a
    fatal error and no account is visited at all; when the read at the start
    of the second pass fails, every account has been visited once only; and
    when no card view opens, the accounts are visited twice but the
    enrolment loop is never entered: no poll for buttons is made. *)
Lemma second_pass_can_be_missing :
  Chase.trace (snd (Chase.main (chase_sink_fails_at 3) chase_cfg
                      (chase_world [Chase.OFFER_HEADERS] [])))
  = [Chase.EvGet Chase.CHASE_HOME_URL; Chase.EvPrefill; Chase.EvWaitLogin;
     Chase.EvRead; Chase.EvPrint Chase.PMainFatal; Chase.EvLog "ERROR" "main";
     Chase.EvPrint Chase.PFlushNothing; Chase.EvQuit]
  /\ chase_visits
       (Chase.trace (snd (Chase.main (chase_sink_fails_at 20) chase_cfg
                            (chase_world [Chase.OFFER_HEADERS] []))))
     = Chase.ACCOUNT_IDS
  /\ (let t := Chase.trace (snd (Chase.main chase_views_closed chase_cfg
                                   (chase_world [Chase.OFFER_HEADERS] []))) in
      chase_visits t = Chase.ACCOUNT_IDS ++ Chase.ACCOUNT_IDS
      /\ forallb (fun ev => match ev with Chase.EvScan => false | _ => true end) t
         = true).
Proof. vm_compute. repeat split. Qed.

(** A row the first pass could only buffer is not in the sheet when the
    second pass builds its key set: the second pass produces it again, and
    the final flush, which runs after the duplicates have been removed, adds
    the buffered copy. *)
Lemma buffered_row_is_produced_again :
  Chase.sheet (snd (Chase.main (chase_one_offer 9) chase_cfg
                      (chase_world [Chase.OFFER_HEADERS] [])))
  = [Chase.OFFER_HEADERS; starbucks_row; starbucks_row].
Proof. vm_compute. reflexivity. Qed.

(** C10, as amended. A pass that returns has visited every account of the
    list once, in order. The visits of a whole run are a prefix of the list
    gone through twice, and all of it when the run reports completion. A
    card whose view does not open is skipped: its enrolment loop is not run.
    And each pass builds its key set anew from the rows the sheet holds at
    that moment. *)
Theorem passes_visit_accounts (E : Chase.env) (cfg : Chase.config) (w : Chase.world) :
  (forall w', Chase.process_cards E cfg w = (Ret tt, w') ->
     chase_visits (Chase.trace w') = chase_visits (Chase.trace w) ++ Chase.ACCOUNT_IDS)
  /\ (exists evs,
         Chase.trace (snd (Chase.main E cfg w)) = Chase.trace w ++ evs
         /\ chase_visits evs `prefix_of` Chase.ACCOUNT_IDS ++ Chase.ACCOUNT_IDS
         /\ (Chase.EvPrint Chase.PMainComplete ∈ evs ->
             chase_visits evs = Chase.ACCOUNT_IDS ++ Chase.ACCOUNT_IDS))
  /\ (forall acc_id ids total_cards total_rows,
         Chase.visit_reply E (Chase.clock w) = Ret false ->
         Chase.cards_loop E cfg (acc_id :: ids) total_cards total_rows w
         = Chase.cards_loop E cfg ids (S total_cards) total_rows
             (Chase.emit (Chase.EvPrint Chase.PCardSkipped)
                (Chase.tick (Chase.EvVisit acc_id) w)))
  /\ (Chase.sink_reply E (Chase.clock w) = None ->
      Chase.process_cards E cfg w
      = bind (Chase.cards_loop E cfg Chase.ACCOUNT_IDS 0 0)
          (fun t => Chase.print (Chase.PCardsComplete (fst t) (snd t)))
          (Chase.set_existing_rows (list_to_set (tail (Chase.sheet w)))
             (Chase.tick Chase.EvRead w))).
Proof.
  assert (Hstart : chase_since (Chase.trace w) (visited []) w).
  { exists []. rewrite app_nil_r. split; [reflexivity|].
    split; [apply not_elem_of_nil | reflexivity]. }
  split; [|split; [|split]].
  - intros w' Hrun.
    pose proof (visit_process_cards E cfg (Chase.trace w) [] w Hstart) as H.
    rewrite Hrun in H. destruct H as (evs & Ht & _ & Hv).
    rewrite Ht. unfold chase_visits in *. rewrite omap_app, Hv. reflexivity.
  - pose proof (visit_main E cfg (Chase.trace w) w Hstart) as H.
    destruct (Chase.main E cfg w) as [[[]|e] w']; cbn [snd];
      destruct H as (evs & Ht & Hp & Hd); exists evs; auto.
  - intros acc_id ids total_cards total_rows Hv.
    cbn [Chase.cards_loop]. unfold bind at 1. unfold try_except at 1.
    unfold bind at 1. unfold Chase.go_to_categories_for, Chase.call. rewrite Hv.
    reflexivity.
  - intros Hs. unfold Chase.process_cards, Chase.get_all_values.
    unfold bind at 1. unfold bind at 1. unfold Chase.call. rewrite Hs. reflexivity.
Qed.

Lemma passes_visit_accounts_witness :
  let w0 := chase_world [Chase.OFFER_HEADERS] [] in
  chase_visits (Chase.trace (snd (Chase.process_cards chase_views_closed chase_cfg w0)))
  = Chase.ACCOUNT_IDS
  /\ Chase.cards_loop chase_views_closed chase_cfg Chase.ACCOUNT_IDS 0 0 w0
     = Chase.cards_loop chase_views_closed chase_cfg (tail Chase.ACCOUNT_IDS) 1 0
         (Chase.emit (Chase.EvPrint Chase.PCardSkipped)
            (Chase.tick (Chase.EvVisit "1091891200") w0))
  /\ Chase.existing_rows (snd (Chase.process_cards chase_views_closed chase_cfg w0)) = ∅.
Proof.
  intros w0.
  destruct (passes_visit_accounts chase_views_closed chase_cfg w0)
    as (Hpass & _ & Hskip & Hkeys).
  split; [|split].
  - apply (Hpass (snd (Chase.process_cards chase_views_closed chase_cfg w0))).
    vm_compute. reflexivity.
  - exact (Hskip "1091891200" (tail Chase.ACCOUNT_IDS) 0 0 eq_refl).
  - rewrite (Hkeys eq_refl). vm_compute. reflexivity.
Defined.

End PassesClaim.

(* ===================================================================== *)
(** ** What can be raised *)
(* ===================================================================== *)

Section RaiseFacts.
Import Text Re Datetime Py Fixtures Sheets Shapes.
Local Open Scope list_scope.
Local Open Scope nat_scope.
Context {W : Type}.

Lemma raises_only_weaken {A} (m : M W A) (P Q : exn -> Prop) :
  raises_only m P -> (forall e, P e -> Q e) -> raises_only m Q.
Proof.
  intros H HPQ w _. specialize (H w I). destruct (m w) as [[a|e] w']; auto.
Qed.

Lemma raises_only_ret {A} (a : A) P : raises_only (@ret W A a) P.
Proof. intros w _. exact I. Qed.

Lemma raises_only_modify (f : W -> W) P : raises_only (modify f) P.
Proof. intros w _. exact I. Qed.

Lemma raises_only_get P : raises_only (@get W) P.
Proof. intros w _. exact I. Qed.

Lemma raises_only_lift {A} (r : result A) (P : exn -> Prop) :
  (forall e, r = Raise e -> P e) -> raises_only (@lift W A r) P.
Proof. intros H w _. unfold lift. destruct r; auto. Qed.

Lemma raises_only_bind {A B} (m : M W A) (f : A -> M W B) P :
  raises_only m P -> (forall a, raises_only (f a) P) -> raises_only (bind m f) P.
Proof.
  intros Hm Hf w _. unfold bind. specialize (Hm w I).
  destruct (m w) as [[a|e] w']; [apply (Hf a w' I) | exact Hm].
Qed.

(** A handler for [cls] that raises nothing leaves only what [cls] does not
    catch. *)
Lemma raises_only_try_except {A} (m : M W A) cls h (P Q : exn -> Prop) :
  raises_only m P ->
  (forall e, cls e = true -> raises_only (h e) Q) ->
  (forall e, P e -> cls e = false -> Q e) ->
  raises_only (try_except m cls h) Q.
Proof.
  intros Hm Hh HPQ w _. unfold try_except. specialize (Hm w I).
  destruct (m w) as [[a|e] w']; [exact I|].
  destruct (cls e) eqn:Hc; [apply (Hh e Hc w' I) | apply HPQ; assumption].
Qed.

Lemma raises_only_try_finally {A} (m : M W A) fin (P : exn -> Prop) :
  raises_only m P -> raises_only fin P -> raises_only (try_finally m fin) P.
Proof.
  intros Hm Hf w _. unfold try_finally. specialize (Hm w I).
  destruct (m w) as [[a|e] w']; specialize (Hf w' I);
    destruct (fin w') as [[[]|e'] w'']; auto.
Qed.

Lemma raises_only_any {A} (m : M W A) : raises_only m (fun _ => True).
Proof. intros w _. destruct (m w) as [[a|e] w']; exact I. Qed.

Lemma raises_only_fst {A} (m : M W A) P w e :
  raises_only m P -> fst (m w) = Raise e -> P e.
Proof.
  intros H Hr. specialize (H w I). destruct (m w) as [[a|e'] w']; [discriminate|].
  injection Hr as <-. exact H.
Qed.

End RaiseFacts.

Section BrandRaises.
Import Text Re Datetime Py Fixtures Sheets Shapes.

Lemma swallow_raises {A} (r : result (option A)) e :
  Chase.swallow r = Raise e -> is_Exception e = false.
Proof.
  unfold Chase.swallow, rescue. destruct r as [a|e']; [discriminate|].
  destruct (is_Exception e') eqn:He; [discriminate|]. intros [= <-]. exact He.
Qed.

Lemma brand_from_selectors_raises dom sels e :
  Chase.brand_from_selectors dom sels = Raise e -> is_Exception e = false.
Proof.
  induction sels as [|sel sels IH]; simpl; [discriminate|].
  destruct (Chase.brand_from_selector dom sel) as [[b|]|e'] eqn:Hs; try discriminate.
  - exact IH.
  - intros [= <-]. apply swallow_raises in Hs. exact Hs.
Qed.

Lemma brand_from_selector_nonempty dom sel b :
  Chase.brand_from_selector dom sel = Ret (Some b) -> nonempty b = true.
Proof.
  unfold Chase.brand_from_selector, Chase.swallow, rescue.
  destruct (Chase.first_text dom sel) as [[t|]|e]; try discriminate.
  - destruct (nonempty (strip t)) eqn:Hn; [|discriminate].
    destruct (found true Chase.re_guard (strip t)); [discriminate|].
    intros [= <-]. exact Hn.
  - destruct (is_Exception e); discriminate.
Qed.

Lemma brand_from_selectors_nonempty dom sels b :
  Chase.brand_from_selectors dom sels = Ret (Some b) -> nonempty b = true.
Proof.
  induction sels as [|sel sels IH]; simpl; [discriminate|].
  destruct (Chase.brand_from_selector dom sel) as [[b'|]|e] eqn:Hsel.
  - intros [= <-]. eapply brand_from_selector_nonempty; eauto.
  - exact IH.
  - discriminate.
Qed.

Lemma scan_headings_nonempty hs b :
  Chase.scan_headings hs = Ret (Some b) -> nonempty b = true.
Proof.
  induction hs as [|[t|e] hs IH]; simpl; try discriminate.
  destruct (Chase.heading_ok (strip t)) eqn:Hok; [|exact IH].
  intros [= <-]. unfold Chase.heading_ok in Hok.
  repeat (apply andb_prop in Hok as [Hok ?]). exact Hok.
Qed.

Lemma brand_from_headings_nonempty dom b :
  Chase.brand_from_headings dom = Ret (Some b) -> nonempty b = true.
Proof.
  unfold Chase.brand_from_headings, Chase.swallow, rescue.
  destruct (Chase.headings dom) as [hs|e].
  - destruct (Chase.scan_headings (firstn 6 hs)) as [o|e] eqn:Hs.
    + intros [= ->]. eapply scan_headings_nonempty; eauto.
    + destruct (is_Exception e); discriminate.
  - destruct (is_Exception e); discriminate.
Qed.

Lemma brand_fallback_nonempty g : nonempty (Chase.brand_fallback g) = true.
Proof.
  unfold Chase.brand_fallback, or_else. destruct (nonempty (strip g)) eqn:H; [exact H|].
  reflexivity.
Qed.

(** X1. Whatever the page does, brand extraction raises no [Exception] (only
    an interrupt or an exit request can leave it), and the brand it returns
    is blank only if it is what the first probe found. *)
Theorem extract_brand_smart_safe (dom : Chase.brand_dom) (tile_guess : string) :
  (forall e, Chase.extract_brand_smart dom tile_guess = Raise e ->
             is_Exception e = false)
  /\ (forall b, Chase.extract_brand_smart dom tile_guess = Ret b ->
                nonempty b = true \/ Chase.brand_from_js dom = Ret (Some b)).
Proof.
  unfold Chase.extract_brand_smart. split.
  - intros e. destruct (Chase.brand_from_js dom) as [[b|]|e1] eqn:Hjs.
    + discriminate.
    + destruct (Chase.brand_from_selectors dom Chase.brand_selectors)
        as [[b|]|e2] eqn:Hsel.
      * discriminate.
      * destruct (Chase.brand_from_headings dom) as [[b|]|e3] eqn:Hh; try discriminate.
        intros [= <-]. apply swallow_raises in Hh. exact Hh.
      * intros [= <-]. eapply brand_from_selectors_raises; eauto.
    + intros [= <-]. apply swallow_raises in Hjs. exact Hjs.
  - intros b. destruct (Chase.brand_from_js dom) as [[b0|]|e1] eqn:Hjs.
    + intros [= <-]. right. reflexivity.
    + destruct (Chase.brand_from_selectors dom Chase.brand_selectors)
        as [[b1|]|e2] eqn:Hsel.
      * intros [= <-]. left. eapply brand_from_selectors_nonempty; eauto.
      * destruct (Chase.brand_from_headings dom) as [[b2|]|e3] eqn:Hh.
        -- intros [= <-]. left. eapply brand_from_headings_nonempty; eauto.
        -- intros [= <-]. left. apply brand_fallback_nonempty.
        -- discriminate.
      * discriminate.
    + discriminate.
Qed.

Lemma extract_brand_smart_safe_witness :
  nonempty "Unknown Brand" = true
  \/ Chase.brand_from_js silent_page = Ret (Some "Unknown Brand").
Proof.
  apply (proj2 (extract_brand_smart_safe silent_page EmptyString)).
  vm_compute. reflexivity.
Defined.

End BrandRaises.

Section ChaseRaises.
Import Text Re Datetime Py Fixtures Sheets Shapes Chase.
Open Scope run_scope.

Variable E : env.
Variable cfg : config.

Ltac raise_step :=
  lazymatch goal with
  | H : raises_only ?m ?P |- raises_only ?m ?P => exact H
  | |- raises_only (ret _) _ => apply raises_only_ret
  | |- raises_only get _ => apply raises_only_get
  | |- raises_only (modify _) _ => apply raises_only_modify
  | |- raises_only (print _) _ => apply raises_only_modify
  | |- raises_only (sheet_log _ _) _ => apply raises_only_modify
  | |- raises_only (bind _ _) _ => apply raises_only_bind; [|intros ?]
  | |- raises_only (try_finally _ _) _ => apply raises_only_try_finally
  | |- raises_only (if ?b then _ else _) _ => destruct b
  | |- raises_only (match ?x with _ => _ end) _ => destruct x
  end.

Lemma guarded_raises {A} (m : M world A) (h : exn -> M world A) :
  (forall e, raises_only (h e) no_Exception) ->
  raises_only (try_except m is_Exception h) no_Exception.
Proof.
  intros Hh. eapply raises_only_try_except.
  - apply raises_only_any.
  - intros e _. apply Hh.
  - intros e _ He. exact He.
Qed.

Lemma cards_loop_raises ids : forall total_cards total_rows,
  raises_only (cards_loop E cfg ids total_cards total_rows) no_Exception.
Proof.
  induction ids as [|acc_id ids IH]; intros tc tr; cbn [cards_loop].
  - apply raises_only_ret.
  - apply raises_only_bind; [|intros t; apply IH].
    apply guarded_raises. intros e. repeat raise_step.
Qed.

Lemma flush_buffer_raises : raises_only (flush_buffer E cfg) no_Exception.
Proof.
  unfold flush_buffer. raise_step; [raise_step|]. raise_step; [raise_step|].
  raise_step; [raise_step|]. raise_step; [|raise_step]. apply guarded_raises. intros e. raise_step.
Qed.

Lemma call_raises {A} ev (reply : nat -> result A) (P : exn -> Prop) :
  (forall n e, reply n = Raise e -> P e) -> raises_only (call ev reply) P.
Proof.
  intros H w _. unfold call. destruct (reply (clock w)) eqn:Hr; [exact I|].
  eapply H; eauto.
Qed.

(** An [Exception] raised while working on a card is logged, the counters
    stay as they were, and the loop goes on with the cards that remain. *)
Lemma cards_loop_logs_and_goes_on acc_id ids total_cards total_rows w e w1 :
  (ok <- go_to_categories_for E acc_id;;
   if negb ok then print PCardSkipped;; ret (S total_cards, total_rows)
   else added <- enroll_all_offers_for_current_card E cfg;;
        ret (S total_cards, (total_rows + added)%nat)) w = (Raise e, w1) ->
  is_Exception e = true ->
  cards_loop E cfg (acc_id :: ids) total_cards total_rows w
  = cards_loop E cfg ids total_cards total_rows
      (emit (EvPrint (PCardError acc_id)) (emit (EvLog "ERROR" "card") w1)).
Proof.
  intros Hwork He. cbn [cards_loop]. unfold bind at 1. unfold try_except at 1.
  rewrite Hwork, He. reflexivity.
Qed.

(** X2. A pass over the cards isolates them from one another. The only
    [Exception] that can leave [process_cards] is the one raised by its own
    first read of the sheet. An [Exception] raised while working on a card
    is caught and logged, the counters stay as they were, and the loop goes
    on with the cards that remain; so a pass that returns has visited every
    account of the list, in order. *)
Theorem process_cards_isolates_cards (w : world) :
  (forall e, fst (process_cards E cfg w) = Raise e ->
     is_Exception e = false \/ sink_reply E (clock w) = Some e)
  /\ (forall acc_id ids total_cards total_rows e w1,
        (ok <- go_to_categories_for E acc_id;;
         if negb ok then print PCardSkipped;; ret (S total_cards, total_rows)
         else added <- enroll_all_offers_for_current_card E cfg;;
              ret (S total_cards, (total_rows + added)%nat)) w = (Raise e, w1) ->
        is_Exception e = true ->
        cards_loop E cfg (acc_id :: ids) total_cards total_rows w
        = cards_loop E cfg ids total_cards total_rows
            (emit (EvPrint (PCardError acc_id)) (emit (EvLog "ERROR" "card") w1)))
  /\ (forall w', process_cards E cfg w = (Ret tt, w') ->
        chase_visits (trace w') = (chase_visits (trace w) ++ ACCOUNT_IDS)%list).
Proof.
  split; [|split].
  - intros e Hr. unfold process_cards in Hr. unfold bind at 1 in Hr.
    destruct (sink_reply E (clock w)) as [e0|] eqn:Hs.
    + right. replace (get_all_values E w) with (@Raise (list row) e0, tick EvRead w) in Hr
        by (unfold get_all_values, call, bind; rewrite Hs; reflexivity).
      cbn in Hr. congruence.
    + left. replace (get_all_values E w) with (Ret (sheet w), tick EvRead w) in Hr
        by (unfold get_all_values, call, bind; rewrite Hs; reflexivity).
      revert Hr. apply (raises_only_fst _ no_Exception).
      repeat raise_step. apply cards_loop_raises.
  - intros acc_id ids total_cards total_rows e w1.
    apply cards_loop_logs_and_goes_on.
  - intros w' Hrun.
    assert (Hstart : chase_since (trace w) (visited []) w).
    { exists []. rewrite app_nil_r. split; [reflexivity|].
      split; [apply not_elem_of_nil | reflexivity]. }
    pose proof (visit_process_cards E cfg (trace w) [] w Hstart) as H.
    rewrite Hrun in H. destruct H as (evs & Ht & _ & Hv).
    rewrite Ht. unfold chase_visits in *. rewrite omap_app, Hv. reflexivity.
Qed.

(** The exceptions that can leave [main]. *)
Lemma main_raises :
  raises_only (main E cfg)
    (fun e => is_Exception e = false \/
              (CLOSE_ON_EXIT cfg = true /\ is_InvalidSessionId e = false /\
               exists n, quit_reply E n = Some e)).
Proof.
  unfold main, main_finally. apply raises_only_try_finally.
  - eapply raises_only_try_except with (P := fun _ => True).
    + apply raises_only_any.
    + intros e _. unfold main_handler. repeat raise_step.
    + intros e _ He. left. unfold main_handled in He.
      apply orb_false_iff in He as [_ He]. exact He.
  - apply raises_only_bind.
    + eapply raises_only_weaken; [apply flush_buffer_raises|]. intros e He. left. exact He.
    + intros _. destruct (CLOSE_ON_EXIT cfg) eqn:Hc; [|apply raises_only_modify].
      unfold safe_quit. eapply raises_only_try_except
        with (P := fun e => exists n, quit_reply E n = Some e).
      * apply call_raises. intros n e. destruct (quit_reply E n) as [e'|] eqn:Hq;
          cbn [outcome]; [|discriminate]. intros [= <-]. exists n. exact Hq.
      * intros e _. apply raises_only_ret.
      * intros e Hq He. right. auto.
Qed.

End ChaseRaises.

Section CardsIsolated.
Import Text Re Datetime Py Fixtures Sheets Shapes.
Local Open Scope list_scope.

Lemma process_cards_isolates_cards_witness :
  (fst (Chase.process_cards (chase_sink_fails_at 0) chase_cfg (chase_world [] []))
     = Raise OtherException
   /\ (is_Exception OtherException = false \/
       Chase.sink_reply (chase_sink_fails_at 0) (Chase.clock (chase_world [] []))
         = Some OtherException))
  /\ (let w0 := chase_world [Chase.OFFER_HEADERS] [] in
      let w1 := Chase.tick Chase.EvRead w0 in
      Chase.trace (snd (Chase.process_cards chase_card_fails chase_cfg w0))
      = [Chase.EvRead; Chase.EvVisit "1091891200"; Chase.EvLog "ERROR" "card";
         Chase.EvPrint (Chase.PCardError "1091891200");
         Chase.EvVisit "571406113"; Chase.EvPrint Chase.PCardSkipped;
         Chase.EvVisit "504430043"; Chase.EvPrint Chase.PCardSkipped;
         Chase.EvVisit "1095857180"; Chase.EvPrint Chase.PCardSkipped;
         Chase.EvPrint (Chase.PCardsComplete 3 0)]
      /\ chase_visits (Chase.trace (snd (Chase.process_cards chase_card_fails chase_cfg w0)))
         = Chase.ACCOUNT_IDS
      /\ Chase.cards_loop chase_card_fails chase_cfg Chase.ACCOUNT_IDS 0 0 w1
         = Chase.cards_loop chase_card_fails chase_cfg (tail Chase.ACCOUNT_IDS) 0 0
             (Chase.emit (Chase.EvPrint (Chase.PCardError "1091891200"))
                (Chase.emit (Chase.EvLog "ERROR" "card")
                   (Chase.tick (Chase.EvVisit "1091891200") w1)))).
Proof.
  split.
  - split; [vm_compute; reflexivity|].
    apply (proj1 (process_cards_isolates_cards (chase_sink_fails_at 0) chase_cfg
                    (chase_world [] []))).
    vm_compute. reflexivity.
  - intros w0 w1. split; [vm_compute; reflexivity|]. split.
    + apply (proj2 (proj2 (process_cards_isolates_cards chase_card_fails chase_cfg w0))
               (snd (Chase.process_cards chase_card_fails chase_cfg w0))).
      vm_compute. reflexivity.
    + apply (proj1 (proj2 (process_cards_isolates_cards chase_card_fails chase_cfg w1))
               "1091891200" (tail Chase.ACCOUNT_IDS) 0%nat 0%nat OtherException
               (Chase.tick (Chase.EvVisit "1091891200") w1));
        reflexivity.
Defined.

End CardsIsolated.

Section MainRaises.
Import Text Re Datetime Py Fixtures Sheets Shapes.

(** X3. The Chase [main] lets an [Exception] out in one case only: the
    browser is to be closed on exit and [driver.quit()] raises something
    other than an invalid-session error. Everything raised before that is
    caught, logged and followed by the final flush. *)
Theorem chase_main_raises (E : Chase.env) (cfg : Chase.config) (w : Chase.world)
    (e : exn) :
  fst (Chase.main E cfg w) = Raise e ->
  is_Exception e = false \/
  (Chase.CLOSE_ON_EXIT cfg = true /\ is_InvalidSessionId e = false /\
   exists n, Chase.quit_reply E n = Some e).
Proof. intros H. exact (raises_only_fst _ _ w e (main_raises E cfg) H). Qed.

Lemma chase_main_raises_witness :
  fst (Chase.main chase_quit_fails chase_cfg (chase_world [] [])) = Raise WebDriverException
  /\ (is_Exception WebDriverException = false \/
      (Chase.CLOSE_ON_EXIT chase_cfg = true /\
       is_InvalidSessionId WebDriverException = false /\
       exists n, Chase.quit_reply chase_quit_fails n = Some WebDriverException)).
Proof.
  split; [vm_compute; reflexivity|].
  apply (chase_main_raises chase_quit_fails chase_cfg (chase_world [] [])).
  vm_compute. reflexivity.
Defined.

Lemma amex_flush_buffer_raises (E : Amex.env) :
  raises_only (Amex.flush_buffer E) no_Exception.
Proof.
  unfold Amex.flush_buffer. apply raises_only_bind; [apply raises_only_get|].
  intros w. destruct (nonnil (Amex.APPEND_BUFFER w)); [|apply raises_only_ret].
  apply raises_only_bind; [|intros _; apply raises_only_modify].
  unfold Amex.append_rows_now. destruct (negb _); [apply raises_only_ret|].
  eapply raises_only_try_except with (P := fun _ => True).
  - apply raises_only_any.
  - intros e _. apply raises_only_modify.
  - intros e _ He. exact He.
Qed.

Lemma amex_call_raises (E : Amex.env) {A} ev (reply : nat -> result A)
    (P : exn -> Prop) :
  (forall n e, reply n = Raise e -> P e) -> raises_only (Amex.call ev reply) P.
Proof.
  intros H w _. unfold Amex.call. destruct (reply (Amex.clock w)) eqn:Hr; [exact I|].
  eapply H; eauto.
Qed.

(** X4. The Amex [main] lets an [Exception] out in one case only: the
    browser is left open and the final prompt raises something other than
    an end-of-file error. A failing [driver.quit()] is swallowed. *)
Theorem amex_main_raises (E : Amex.env) (cfg : Amex.config) (w : Amex.world)
    (e : exn) :
  fst (Amex.main E cfg w) = Raise e ->
  is_Exception e = false \/
  (Amex.AUTO_CLOSE cfg = false /\ is_EOFError e = false /\
   exists n, Amex.input_reply E n = Some e).
Proof.
  intros H.
  refine (raises_only_fst _
    (fun e => is_Exception e = false \/
              (Amex.AUTO_CLOSE cfg = false /\ is_EOFError e = false /\
               exists n, Amex.input_reply E n = Some e)) w e _ H).
  unfold Amex.main, Amex.main_finally.
  apply raises_only_try_finally.
  - eapply raises_only_try_except with (P := fun _ => True).
    + apply raises_only_any.
    + intros e0 _. apply raises_only_modify.
    + intros e0 _ He. left. exact He.
  - apply raises_only_bind.
    + eapply raises_only_weaken; [apply amex_flush_buffer_raises|].
      intros e0 He. left. exact He.
    + intros _. destruct (Amex.AUTO_CLOSE cfg) eqn:Hc.
      * eapply raises_only_try_except with (P := fun _ => True).
        -- apply raises_only_any.
        -- intros e0 _. apply raises_only_ret.
        -- intros e0 _ He. left. exact He.
      * eapply raises_only_try_except
          with (P := fun e => exists n, Amex.input_reply E n = Some e).
        -- apply (amex_call_raises E). intros n e0.
           destruct (Amex.input_reply E n) as [e'|] eqn:Hq; cbn [outcome]; [|discriminate].
           intros [= <-]. exists n. exact Hq.
        -- intros e0 _. apply raises_only_ret.
        -- intros e0 Hq He. right. auto.
Qed.

Lemma amex_main_raises_witness :
  fst (Amex.main amex_input_fails amex_cfg_open (amex_world [] [])) = Raise OtherException
  /\ (is_Exception OtherException = false \/
      (Amex.AUTO_CLOSE amex_cfg_open = false /\ is_EOFError OtherException = false /\
       exists n, Amex.input_reply amex_input_fails n = Some OtherException)).
Proof.
  split; [vm_compute; reflexivity|].
  apply (amex_main_raises amex_input_fails amex_cfg_open (amex_world [] [])).
  vm_compute. reflexivity.
Defined.

End MainRaises.

(* ===================================================================== *)
(** ** Properties: the rows of a card *)
(* ===================================================================== *)

Section CardFacts.
Import Text Re Datetime Py Fixtures Sheets Shapes Chase.
Open Scope run_scope.
Local Open Scope list_scope.
Local Open Scope nat_scope.

Variable E : env.
Variable cfg : config.

Lemma or_else_nonempty a b : nonempty b = true -> nonempty (or_else a b) = true.
Proof. intros Hb. unfold or_else. destruct (nonempty a) eqn:Ha; assumption. Qed.

Lemma parse_limits_shape today terms hdr maxd mind exp local :
  parse_limits_local_expiration today terms hdr = (maxd, mind, exp, local) ->
  nonempty mind = true /\ (local = "Yes" \/ local = "No").
Proof.
  unfold parse_limits_local_expiration. intros H. injection H as _ Hm _ Hl.
  split.
  - rewrite <- Hm. apply or_else_nonempty. reflexivity.
  - rewrite <- Hl. destruct (found true re_location_only terms); cbn [String.eqb andb].
    + left. reflexivity.
    + replace ("No" =? "No")%string with true by reflexivity. cbn [andb].
      destruct (found false re_address terms); auto.
Qed.

Lemma detail_row_shape b tile_txt guess disc_tile r :
  detail_row E cfg b tile_txt guess disc_tile = Ret r -> offer_row_shape E cfg r.
Proof.
  unfold detail_row. destruct (pay_with (detail b)) as [card_name last4].
  destruct (detail_text (detail b)) as [terms|e]; [|discriminate].
  destruct (parse_limits_local_expiration _ _ _) as [[[maxd mind] exp] local] eqn:Hp.
  apply parse_limits_shape in Hp as [Hm Hl].
  destruct (extract_brand_smart _ _) as [brand|e]; [|discriminate].
  intros [= <-]. unfold offer_row_shape. cbn [length lookup list_lookup].
  repeat split; try reflexivity.
  - eexists. split; [reflexivity|]. repeat apply or_else_nonempty. reflexivity.
  - eexists. split; [reflexivity|]. exact Hm.
  - destruct Hl as [-> | ->]; auto.
Qed.

Lemma tile_row_shape b guess disc_tile r :
  tile_row E cfg b guess disc_tile = Ret r -> offer_row_shape E cfg r.
Proof.
  unfold tile_row.
  destruct (if nonempty guess then _ else _) as [brand|e]; [|discriminate].
  intros [= <-]. unfold offer_row_shape. cbn [length lookup list_lookup].
  repeat split; try reflexivity.
  - eexists. split; [reflexivity|]. apply or_else_nonempty. reflexivity.
  - eexists. split; [reflexivity|]. reflexivity.
  - right. reflexivity.
Qed.

Variable w0 : world.
Local Abbreviation Inv := (card_inv E cfg w0).

Lemma card_inv_world s w w' :
  Inv s w ->
  sheet w' = sheet w -> APPEND_BUFFER w' = APPEND_BUFFER w ->
  CURRENT_CARD_BUFFER w' = CURRENT_CARD_BUFFER w ->
  existing_rows w' = existing_rows w ->
  Inv s w'.
Proof.
  intros [] H1 H2 H3 H4. constructor; try assumption; congruence.
Qed.

Lemma card_inv_state s s' w :
  Inv s w ->
  per_card_rows s' = per_card_rows s -> per_card_keys s' = per_card_keys s ->
  added_total s' = added_total s -> safety_clicks s <= safety_clicks s' ->
  Inv s' w.
Proof.
  intros [] H1 H2 H3 H4. constructor; rewrite ?H1, ?H2, ?H3; try assumption. lia.
Qed.

Lemma card_inv_tick s ev w : Inv s w -> Inv s (tick ev w).
Proof. intros H. eapply card_inv_world; [exact H|..]; reflexivity. Qed.

Lemma card_inv_emit s ev w : Inv s w -> Inv s (emit ev w).
Proof. intros H. eapply card_inv_world; [exact H|..]; reflexivity. Qed.

(** A row is queued when its key is new, and then in every place at once. *)
Lemma card_record_row r s :
  offer_row_shape E cfg r ->
  triple (fun w => Inv s w /\ length (per_card_rows s) < safety_clicks s
                   /\ safety_clicks s <= 200)
    (record_row r s)
    (fun s' w => Inv s' w /\ safety_clicks s' = safety_clicks s
                 /\ processed_fps s' = processed_fps s)
    (fun _ _ => False).
Proof.
  intros Hr w (Hw & Hlt & Hcap). unfold record_row, bind, get.
  destruct (bool_decide (r ∉ existing_rows w)) eqn:H1; cbn [andb];
    [|cbn [ret]; auto].
  destruct (bool_decide (r ∉ per_card_keys s)) eqn:H2; [|cbn [ret]; auto].
  apply bool_decide_eq_true_1 in H1. apply bool_decide_eq_true_1 in H2.
  cbn [modify ret]. split; [|split; reflexivity].
  destruct Hw. rewrite ci_keys0 in H2. rewrite ci_known0 in H1.
  constructor; cbn [sheet APPEND_BUFFER CURRENT_CARD_BUFFER existing_rows
                    set_existing_rows set_CURRENT_CARD_BUFFER
                    per_card_rows per_card_keys added_total safety_clicks].
  - assumption.
  - assumption.
  - rewrite ci_buffer0. reflexivity.
  - rewrite length_app. cbn [length]. lia.
  - apply NoDup_app. split; [assumption|]. split; [|apply NoDup_singleton].
    intros x Hx Hx'. apply list_elem_of_singleton in Hx'. subst x.
    apply H2. apply elem_of_list_to_set. exact Hx.
  - rewrite list_to_set_app_L. cbn [list_to_set]. set_solver.
  - rewrite ci_known0, list_to_set_app_L. cbn [list_to_set]. set_solver.
  - intros x Hx. apply elem_of_app in Hx as [Hx|Hx]; [auto|].
    apply list_elem_of_singleton in Hx. subst x. set_solver.
  - rewrite length_app. cbn [length]. lia.
  - rewrite length_app. cbn [length]. lia.
  - apply Forall_app. split; [assumption|]. apply Forall_singleton. exact Hr.
Qed.

Lemma card_scan_step s :
  triple (Inv s) (scan_step E cfg s)
    (fun r w => Inv (snd r) w) (fun _ w => exists s', Inv s' w).
Proof.
  unfold scan_step.
  eapply triple_bind with (Q := fun _ w => Inv s w).
  { intros w Hw. unfold call.
    destruct (scan_reply E (clock w)); [|exists s]; apply card_inv_tick; exact Hw. }
  intros buttons.
  eapply triple_bind with (Q := fun _ w => Inv s w).
  { apply triple_lift; intros; [assumption | exists s; assumption]. }
  intros [[b fp]|].
  - cbn [safety_clicks]. destruct (Nat.ltb 200 (S (safety_clicks s))) eqn:Hcap.
    + eapply triple_bind with (Q := fun _ w => Inv s w).
      { apply triple_modify. intros w Hw. apply card_inv_emit. exact Hw. }
      intros _. apply triple_ret. intros w Hw. cbn [snd].
      eapply card_inv_state; [exact Hw|..]; cbn; try reflexivity; try lia.
    + apply Nat.ltb_ge in Hcap.
      set (s1 := Scan _ _ _ _ 0 (S (safety_clicks s))).
      assert (H1 : forall w, Inv s w -> Inv s1 w).
      { intros w Hw. eapply card_inv_state; [exact Hw|..]; cbn; try reflexivity; try lia. }
      assert (Hmark : forall s2 w, Inv s2 w -> Inv (mark_processed fp s2) w).
      { intros s2 w Hw. eapply card_inv_state; [exact Hw|..]; cbn; try reflexivity; try lia. }
      eapply triple_bind with (Q := fun _ w => Inv s w).
      { apply triple_lift; intros; [assumption | exists s; assumption]. }
      intros tile_txt.
      eapply triple_bind with (Q := fun _ w => Inv s w).
      { apply triple_lift; intros; [assumption | exists s; assumption]. }
      intros guess.
      assert (Hrec : forall r, offer_row_shape E cfg r ->
                triple (Inv s) (record_row r s1)
                  (fun s' w => Inv s' w) (fun _ w => exists s', Inv s' w)).
      { intros r Hr. eapply triple_weaken; [apply (card_record_row r s1 Hr)|..].
        - intros w Hw. split; [apply H1; exact Hw|]. destruct Hw.
          subst s1. cbn [per_card_rows safety_clicks]. lia.
        - intros s' w [Hw _]. exact Hw.
        - intros e w []. }
      destruct (negb (click_ok b)).
      * apply triple_ret. intros w Hw. cbn [snd]. apply Hmark, H1. exact Hw.
      * eapply triple_bind with (Q := fun _ w => Inv s w).
        { apply triple_lift; intros; [assumption | exists s; assumption]. }
        intros [|].
        -- eapply triple_bind with (Q := fun r w => Inv s w /\ offer_row_shape E cfg r).
           { apply triple_lift.
             - intros r w Hr Hw. split; [exact Hw|]. eapply detail_row_shape; eauto.
             - intros e w _ Hw. exists s. exact Hw. }
           intros r.
           eapply triple_bind with (Q := fun s' w => Inv s' w).
           { intros w [Hw Hr]. apply (Hrec r Hr w Hw). }
           intros s2.
           eapply triple_bind with (Q := fun _ w => Inv s2 w).
           { apply triple_lift; intros; [assumption | exists s2; assumption]. }
           intros _. apply triple_ret. intros w Hw. cbn [snd]. apply Hmark. exact Hw.
        -- eapply triple_bind with (Q := fun r w => Inv s w /\ offer_row_shape E cfg r).
           { apply triple_lift.
             - intros r w Hr Hw. split; [exact Hw|]. eapply tile_row_shape; eauto.
             - intros e w _ Hw. exists s. exact Hw. }
           intros r.
           eapply triple_bind with (Q := fun s' w => Inv s' w).
           { intros w [Hw Hr]. apply (Hrec r Hr w Hw). }
           intros s2. apply triple_ret. intros w Hw. cbn [snd]. apply Hmark. exact Hw.
  - cbn [idle_cycles].
    assert (H1 : forall w, Inv s w ->
              Inv (Scan (per_card_rows s) (per_card_keys s) (processed_fps s)
                        (added_total s) (S (idle_cycles s)) (safety_clicks s)) w).
    { intros w Hw. eapply card_inv_state; [exact Hw|..]; cbn; try reflexivity; try lia. }
    destruct (Nat.leb 3 _); apply triple_ret; intros w Hw; cbn [snd]; apply H1; exact Hw.
Qed.

Lemma card_scan_loop fuel : forall s,
  triple (Inv s) (scan_loop E cfg fuel s)
    (fun r w => match r with
                | Some s' => Inv s' w
                | None => exists s', Inv s' w
                end)
    (fun _ w => exists s', Inv s' w).
Proof.
  induction fuel as [|fuel IH]; intros s; cbn [scan_loop].
  - apply triple_ret. intros w Hw. exists s. exact Hw.
  - eapply triple_bind; [apply card_scan_step|]. intros [[|] s']; cbn [snd].
    + apply IH.
    + apply triple_ret. intros w Hw. exact Hw.
Qed.

Ltac run_card :=
  cbv beta iota zeta delta
    [record_card_rows try_except append_rows reset_filters_full_range get_all_values
     set_filter call bind modify get ret print
     sheet APPEND_BUFFER CURRENT_CARD_BUFFER existing_rows clock trace
     set_sheet set_APPEND_BUFFER set_CURRENT_CARD_BUFFER set_existing_rows tick emit
     outcome fst snd nonnil].

(** After the loop: where the rows of the card go. *)
Lemma card_record_card_rows s w :
  Inv s w ->
  card_settled w0 (per_card_rows s)
    (fst (record_card_rows E s w)) (snd (record_card_rows E s w))
  /\ existing_rows (snd (record_card_rows E s w)) = existing_rows w.
Proof.
  intros [Hsh Hpe Hbu Hco _ _ _ _ _ _ _]. unfold card_settled.
  destruct w as [sh ab cb ex ck tr]. cbn [sheet APPEND_BUFFER CURRENT_CARD_BUFFER] in *.
  destruct (per_card_rows s) as [|r rows] eqn:Hrows.
  - run_card. rewrite ?Hrows. run_card. rewrite ?Hrows.
    split; [|reflexivity]. split; [exact Hco|]. left. rewrite app_nil_r. auto.
  - run_card. rewrite ?Hrows. run_card.
    destruct (sink_reply E ck) as [e1|]; run_card.
    + destruct (is_Exception e1); run_card.
      * split; [|reflexivity]. split; [exact Hco|]. right. right. rewrite Hpe. auto.
      * split; [|reflexivity]. split; [exact Hpe|]. right. auto.
    + destruct (sink_reply E (S ck)) as [e2|]; run_card.
      * destruct (is_Exception e2); run_card.
        -- split; [|reflexivity]. split; [exact Hco|]. right. left. rewrite Hsh, Hpe. auto.
        -- split; [|reflexivity]. split; [exact Hpe|]. left. rewrite Hsh. auto.
      * destruct (sink_reply E (S (S ck))) as [e3|]; run_card.
        -- destruct (is_Exception e3); run_card.
           ++ split; [|reflexivity]. split; [exact Hco|]. right. left.
              rewrite Hsh, Hpe. auto.
           ++ split; [|reflexivity]. split; [exact Hpe|]. left. rewrite Hsh. auto.
        -- split; [|reflexivity]. split; [exact Hco|]. left. rewrite Hsh, Hpe. auto.
Qed.

End CardFacts.

Section CardClaims.
Import Text Re Datetime Py Fixtures Sheets Shapes.
Local Open Scope list_scope.
Local Open Scope nat_scope.

Lemma card_inv_start (E : Chase.env) (cfg : Chase.config) (w : Chase.world) :
  Chase.CURRENT_CARD_BUFFER w = [] -> card_inv E cfg w Chase.scan_start w.
Proof.
  intros Hb. constructor; cbn; try reflexivity; try assumption; try lia.
  - apply NoDup_nil_2.
  - set_solver.
  - intros r Hr. apply not_elem_of_nil in Hr. destruct Hr.
  - apply Forall_nil_2.
Qed.

(** What one call of the enrolment function leaves, in terms of the rows it
    collected. *)
Lemma enroll_spec (E : Chase.env) (cfg : Chase.config) (w : Chase.world) :
  let run := Chase.enroll_all_offers_for_current_card E cfg w in
  exists rows,
    NoDup rows
    /\ length rows <= 200
    /\ Forall (offer_row_shape E cfg) rows
    /\ (forall r, r ∈ rows -> r ∉ Chase.existing_rows w)
    /\ Chase.existing_rows (snd run) = Chase.existing_rows w ∪ list_to_set rows
    /\ card_settled w rows (fst run) (snd run).
Proof.
  intros run.
  set (w0 := Chase.emit (Chase.EvPrint Chase.POffersStart)
               (Chase.set_CURRENT_CARD_BUFFER [] w)).
  assert (Hrun : run =
            match Chase.scan_loop E cfg Chase.scan_fuel Chase.scan_start w0 with
            | (Ret (Some s), w1) => Chase.record_card_rows E s w1
            | (Ret None, w1) => (Ret 0, w1)
            | (Raise e, w1) => (Raise e, w1)
            end).
  { subst run. unfold Chase.enroll_all_offers_for_current_card.
    unfold bind at 1 2 3. cbn [modify Chase.print]. fold w0.
    destruct (Chase.scan_loop E cfg Chase.scan_fuel Chase.scan_start w0)
      as [[[s|]|e] w1]; reflexivity. }
  clearbody run.
  assert (H0 : card_inv E cfg w0 Chase.scan_start w0) by (apply card_inv_start; reflexivity).
  pose proof (card_scan_loop E cfg w0 Chase.scan_fuel Chase.scan_start w0 H0) as Hloop.
  pose proof (scan_loop_terminates E cfg Chase.scan_fuel Chase.scan_start) as Hterm.
  specialize (Hterm ltac:(unfold chase_counters_ok; cbn; lia) ltac:(reflexivity) w0 I).
  destruct (Chase.scan_loop E cfg Chase.scan_fuel Chase.scan_start w0) as [[[s|]|e] w1];
    subst run.
  - destruct (card_record_card_rows E cfg w0 s w1 Hloop) as [Hset Hex].
    destruct Hloop. exists (Chase.per_card_rows s).
    split; [assumption|]. split; [assumption|]. split; [assumption|].
    split; [exact ci_new0|]. split; [|exact Hset].
    rewrite Hex. exact ci_known0.
  - destruct Hterm. reflexivity.
  - destruct Hloop as [s Hs]. destruct Hs. exists (Chase.per_card_rows s).
    split; [assumption|]. split; [assumption|]. split; [assumption|].
    split; [exact ci_new0|]. split; [exact ci_known0|].
    cbn [fst snd card_settled]. split; [exact ci_pending0|]. right. auto.
Qed.

(** X5. The enrolment function accounts for every row it collects. Whatever
    the page and the sheet do, the rows collected for the card are pairwise
    distinct, at most 200, none of them was a known key, they are exactly
    what the shared key set gains, the function returns their number, and
    none is dropped: they are in the sheet, or still in the card buffer, or
    (when the append or the filter reset after it failed) in
    [APPEND_BUFFER]. *)
Theorem enrolment_accounts_for_rows (E : Chase.env) (cfg : Chase.config)
    (w : Chase.world) :
  let run := Chase.enroll_all_offers_for_current_card E cfg w in
  exists rows,
    NoDup rows
    /\ length rows <= 200
    /\ (forall r, r ∈ rows <-> r ∈ Chase.existing_rows (snd run)
                              /\ r ∉ Chase.existing_rows w)
    /\ card_settled w rows (fst run) (snd run).
Proof.
  destruct (enroll_spec E cfg w) as (rows & Hd & Hn & _ & Hnew & Hex & Hset).
  exists rows. cbv zeta. split; [exact Hd|]. split; [exact Hn|]. split; [|exact Hset].
  intros r. rewrite Hex. split.
  - intros Hr. split; [|auto]. apply elem_of_union_r, elem_of_list_to_set. exact Hr.
  - intros [Hr Hw]. apply elem_of_union in Hr as [Hr|Hr]; [contradiction|].
    apply elem_of_list_to_set in Hr. exact Hr.
Qed.

(** X6. Every key the enrolment function adds to the shared set is a row
    of the shape of the sheet: ten cells, the holder first, a discount and a
    minimum spend that are not blank, today's date as "Date Added" and
    "Yes" or "No" as "Local". *)
Theorem enrolled_rows_have_shape (E : Chase.env) (cfg : Chase.config)
    (w : Chase.world) (r : Sheets.row) :
  r ∈ Chase.existing_rows (snd (Chase.enroll_all_offers_for_current_card E cfg w)) ->
  r ∉ Chase.existing_rows w ->
  offer_row_shape E cfg r.
Proof.
  destruct (enroll_spec E cfg w) as (rows & _ & _ & Hsh & _ & Hex & _).
  cbv zeta in Hex. rewrite Hex. intros Hr Hw.
  apply elem_of_union in Hr as [Hr|Hr]; [contradiction|].
  apply elem_of_list_to_set in Hr. rewrite Forall_forall in Hsh. apply Hsh. exact Hr.
Qed.

Lemma enrolled_rows_have_shape_witness :
  offer_row_shape (chase_one_offer 99) chase_cfg starbucks_row.
Proof.
  apply (enrolled_rows_have_shape (chase_one_offer 99) chase_cfg (chase_world [] [])).
  - apply (bool_decide_unpack _). vm_compute. exact I.
  - apply (bool_decide_unpack _). vm_compute. exact I.
Defined.

End CardClaims.

(* ===================================================================== *)
(** ** Properties: the flush, for every buffer and chunk size *)
(* ===================================================================== *)

Section FlushAll.
Import Text Re Datetime Py Fixtures Sheets Shapes Chase.
Open Scope run_scope.
Local Open Scope list_scope.
Local Open Scope nat_scope.

Variable E : env.
Variable cfg : config.

(** Cutting a list at the multiples of [st] loses nothing. *)
Lemma chunks_concat {A} st (Hst : 0 < st) : forall k (l : list A),
  length l <= k * st ->
  concat (map (fun i => take st (drop i l)) (map (fun j => j * st) (seq 0 k))) = l.
Proof.
  induction k as [|k IH]; intros l Hl.
  - destruct l; [reflexivity | simpl in Hl; lia].
  - cbn [seq map concat]. rewrite <- seq_shift, !map_map.
    cbn [Nat.mul]. rewrite drop_0.
    erewrite map_ext.
    2:{ intros j. replace (S j * st) with (st + j * st) by lia.
        rewrite <- drop_drop. reflexivity. }
    rewrite <- (map_map (fun j => j * st) (fun i => take st (drop i (drop st l)))).
    rewrite IH; [apply take_drop|]. rewrite length_drop. lia.
Qed.

Lemma chunks_sized {A} st (Hst : 0 < st) (l : list A) k :
  (k - 1) * st < length l \/ k = 0 ->
  Forall (fun ch : list A => 1 <= length ch <= st)
    (map (fun i => take st (drop i l)) (map (fun j => j * st) (seq 0 k))).
Proof.
  intros Hk. rewrite map_map. apply Forall_map, Forall_forall. intros j Hj.
  apply elem_of_seq in Hj. rewrite length_take, length_drop.
  assert (j * st <= (k - 1) * st) by (apply Nat.mul_le_mono_r; lia). lia.
Qed.

Lemma ceil_covers n st : 0 < st -> n <= (n + st - 1) / st * st.
Proof.
  intros Hst. pose proof (Nat.div_mod_eq (n + st - 1) st) as H.
  pose proof (Nat.mod_upper_bound (n + st - 1) st ltac:(lia)). nia.
Qed.

Lemma ceil_tight n st : 0 < st -> 0 < n -> ((n + st - 1) / st - 1) * st < n.
Proof.
  intros Hst Hn. pose proof (Nat.div_mod_eq (n + st - 1) st) as H.
  assert (1 <= (n + st - 1) / st) by (apply Nat.div_le_lower_bound; lia).
  nia.
Qed.

Ltac flush_fields :=
  cbn [sheet APPEND_BUFFER CURRENT_CARD_BUFFER existing_rows clock trace
       set_sheet set_APPEND_BUFFER set_CURRENT_CARD_BUFFER set_existing_rows
       tick emit fst snd].

(** The chunks go out one call after the other while the sink answers. *)
Lemma append_chunks_ok starts : forall total w,
  (forall j, j < length starts -> sink_reply E (clock w + j) = None) ->
  let chunks := map (fun i => take (Z.to_nat (APPEND_CHUNK_SIZE cfg))
                                   (drop i (APPEND_BUFFER w))) starts in
  append_chunks E cfg starts total w
  = (Ret (total + length (concat chunks)),
     World (sheet w ++ concat chunks) (APPEND_BUFFER w) (CURRENT_CARD_BUFFER w)
       (existing_rows w) (clock w + length starts)
       (trace w ++ map EvAppend chunks)).
Proof.
  induction starts as [|i starts IH]; intros total w Hok; cbv zeta.
  - cbn [append_chunks map concat length]. unfold ret. f_equal; [f_equal; lia|].
    destruct w. cbn. rewrite !app_nil_r, Nat.add_0_r. reflexivity.
  - rewrite append_chunk_step.
    erewrite bind_ok; [| apply append_rows_ok; rewrite <- (Hok 0); [f_equal; lia | cbn; lia]].
    rewrite IH.
    + cbn [map concat length APPEND_BUFFER set_sheet tick sheet CURRENT_CARD_BUFFER
           existing_rows clock trace].
      f_equal; [f_equal; rewrite length_app; lia|].
      f_equal; [rewrite <- app_assoc; reflexivity | lia |].
      rewrite <- app_assoc. reflexivity.
    + intros j Hj. cbn [clock set_sheet tick]. rewrite <- (Hok (S j)); [f_equal; lia|].
      cbn [length]. lia.
Qed.

(** Merging the card buffer first changes nothing to what the flush does. *)
Lemma flush_buffer_merge w :
  flush_buffer E cfg w
  = flush_buffer E cfg
      (World (sheet w) (pending_rows w) [] (existing_rows w) (clock w) (trace w)).
Proof.
  unfold flush_buffer, pending_rows. unfold bind at 1 3. unfold modify at 1 3.
  destruct w as [sh ab cb ex ck tr]. cbn [CURRENT_CARD_BUFFER APPEND_BUFFER sheet
    existing_rows clock trace nonnil].
  destruct cb as [|r cb]; cbn [nonnil set_CURRENT_CARD_BUFFER set_APPEND_BUFFER
    CURRENT_CARD_BUFFER APPEND_BUFFER sheet existing_rows clock trace].
  - rewrite app_nil_r. reflexivity.
  - reflexivity.
Qed.

Lemma flush_buffer_all w :
  CURRENT_CARD_BUFFER w = [] -> APPEND_BUFFER w <> [] ->
  (0 < APPEND_CHUNK_SIZE cfg)%Z ->
  (forall j, j < length (APPEND_BUFFER w) + 2 -> sink_reply E (clock w + j) = None) ->
  let st := Z.to_nat (APPEND_CHUNK_SIZE cfg) in
  let n := length (APPEND_BUFFER w) in
  let k := (n + st - 1) / st in
  let chunks := map (fun i => take st (drop i (APPEND_BUFFER w)))
                    (map (fun j => j * st) (seq 0 k)) in
  flush_buffer E cfg w
  = (Ret tt,
     World (sheet w ++ APPEND_BUFFER w) [] [] (existing_rows w) (clock w + k + 2)
       (trace w ++ map EvAppend chunks
                ++ [EvPrint (PFlushAppended n); EvRead;
                    EvFilter (Nat.max 1 (length (sheet w ++ APPEND_BUFFER w)))])).
Proof.
  intros Hcur Hne Hsz Hok st n k chunks.
  assert (Hst : 0 < st) by (subst st; lia).
  assert (Hn : 0 < n) by (subst n; destruct (APPEND_BUFFER w); [congruence | cbn; lia]).
  assert (Hk : k <= n).
  { subst k. apply Nat.Div0.div_le_upper_bound. nia. }
  assert (Hcat : concat chunks = APPEND_BUFFER w).
  { subst chunks. apply chunks_concat; [exact Hst|]. apply ceil_covers. exact Hst. }
  rewrite flush_buffer_pending; [| exact Hcur | exact Hne].
  unfold chunk_starts.
  destruct (Z.eqb_spec (APPEND_CHUNK_SIZE cfg) 0) as [H0|_]; [lia|].
  destruct (Z.ltb_spec (APPEND_CHUNK_SIZE cfg) 0) as [H0|_]; [lia|].
  fold st n k.
  unfold try_finally, try_except.
  erewrite bind_ok; [| reflexivity].
  erewrite bind_ok.
  2:{ apply append_chunks_ok. intros j Hj. apply Hok.
      rewrite length_map, length_seq in Hj. fold n. lia. }
  fold st chunks. rewrite Hcat.
  erewrite bind_ok; [| reflexivity].
  rewrite reset_filters_ok.
  - unfold modify. rewrite length_map, length_seq. f_equal.
    apply world_ext; flush_fields; try reflexivity; try assumption; try lia.
    fold n. rewrite <- !app_assoc. reflexivity.
  - flush_fields. rewrite length_map, length_seq.
    rewrite <- (Hok k); [f_equal; lia | fold n; lia].
  - flush_fields. rewrite length_map, length_seq.
    rewrite <- (Hok (S k)); [f_equal; lia | fold n; lia].
Qed.

Lemma chase_appends_chunks chunks tl :
  chase_appends (map EvAppend chunks ++ tl) = chunks ++ chase_appends tl.
Proof.
  unfold chase_appends. rewrite omap_app. f_equal.
  induction chunks as [|c chunks IH]; [reflexivity|]. cbn. f_equal. exact IH.
Qed.

Lemma appended_since_app w t extra :
  trace w = t ++ extra -> appended_since t w = chase_appends extra.
Proof. intros H. unfold appended_since. rewrite H, drop_app_length. reflexivity. Qed.

Lemma flush_buffer_nothing w :
  CURRENT_CARD_BUFFER w = [] -> APPEND_BUFFER w = [] ->
  flush_buffer E cfg w = (Ret tt, emit (EvPrint PFlushNothing) w).
Proof.
  intros Hc Ha. unfold flush_buffer, bind, modify, get. rewrite Hc. cbn [nonnil].
  rewrite Ha. reflexivity.
Qed.

(** X7. With a positive chunk size and a sink that answers, the final flush
    sends every pending row exactly once and in order -- the global buffer
    first, then the rows of the card in progress --, in chunks that are
    never empty and never longer than the chunk size; the rows are then in
    the sheet and both buffers are empty. *)
Theorem flush_sends_every_row (w : world) :
  (0 < APPEND_CHUNK_SIZE cfg)%Z ->
  (forall j, j < length (pending_rows w) + 2 -> sink_reply E (clock w + j) = None) ->
  let w' := snd (flush_buffer E cfg w) in
  let chunks := appended_since (trace w) w' in
  fst (flush_buffer E cfg w) = Ret tt
  /\ concat chunks = pending_rows w
  /\ Forall (fun ch => 1 <= length ch <= Z.to_nat (APPEND_CHUNK_SIZE cfg)) chunks
  /\ sheet w' = sheet w ++ pending_rows w
  /\ pending_rows w' = [].
Proof.
  intros Hsz Hok. cbv zeta. rewrite flush_buffer_merge.
  set (w1 := World (sheet w) (pending_rows w) [] (existing_rows w) (clock w) (trace w)).
  destruct (pending_rows w) as [|r rows] eqn:Hp.
  - rewrite (flush_buffer_nothing w1 eq_refl eq_refl). subst w1.
    cbn [fst snd emit sheet pending_rows APPEND_BUFFER CURRENT_CARD_BUFFER trace].
    erewrite appended_since_app; [|reflexivity]. rewrite app_nil_r.
    repeat split; constructor.
  - assert (Hne : APPEND_BUFFER w1 <> []) by (subst w1; cbn; discriminate).
    rewrite (flush_buffer_all w1 eq_refl Hne Hsz) by (subst w1; exact Hok).
    cbv zeta. cbn [fst snd sheet]. subst w1. cbn [trace APPEND_BUFFER sheet clock].
    erewrite appended_since_app; [|reflexivity].
    rewrite chase_appends_chunks. cbn [chase_appends omap]. rewrite app_nil_r.
    assert (Hst : 0 < Z.to_nat (APPEND_CHUNK_SIZE cfg)) by lia.
    split; [reflexivity|]. split; [|split; [|split; reflexivity]].
    + apply chunks_concat; [exact Hst|]. apply ceil_covers. exact Hst.
    + apply chunks_sized; [exact Hst|]. left. apply ceil_tight; [exact Hst|].
      cbn [length]. lia.
Qed.

Ltac run_flush_once :=
  cbv beta iota zeta delta
    [try_finally try_except append_chunks reset_filters_full_range get_all_values
     set_filter call bind modify get ret lift print
     sheet APPEND_BUFFER CURRENT_CARD_BUFFER existing_rows clock trace
     set_sheet set_APPEND_BUFFER set_CURRENT_CARD_BUFFER set_existing_rows tick emit
     outcome fst snd nonnil pending_rows].
Ltac run_flush := run_flush_once; cbn [is_Exception]; run_flush_once.

(** X8. With a chunk size of zero or less the final flush sends nothing to
    the sheet and empties both buffers all the same: the pending rows are
    dropped. (A zero step makes [range] raise, which the flush catches and
    prints; a negative one makes it empty, and the flush reports 0 rows.) *)
Theorem flush_without_chunk_size (w : world) :
  (APPEND_CHUNK_SIZE cfg <= 0)%Z ->
  let w' := snd (flush_buffer E cfg w) in
  appended_since (trace w) w' = []
  /\ sheet w' = sheet w
  /\ pending_rows w' = []
  /\ (pending_rows w <> [] ->
      exists p, p ∈ [PFlushError; PFlushAppended 0]
                /\ (APPEND_CHUNK_SIZE cfg = 0%Z <-> p = PFlushError)
                /\ take 1 (drop (length (trace w)) (trace w')) = [EvPrint p]).
Proof.
  intros Hsz. cbv zeta. rewrite flush_buffer_merge. destruct w as [sh ab cb ex ck tr].
  cbn [sheet existing_rows clock trace].
  set (pend := pending_rows (World sh ab cb ex ck tr)).
  set (w1 := World sh pend [] ex ck tr).
  destruct pend as [|r rows] eqn:Hp.
  - rewrite (flush_buffer_nothing w1 eq_refl eq_refl). subst w1.
    cbn [fst snd emit sheet pending_rows APPEND_BUFFER CURRENT_CARD_BUFFER trace].
    erewrite appended_since_app; [|reflexivity].
    repeat split. intros H. congruence.
  - assert (Hne : APPEND_BUFFER w1 <> []) by (subst w1; cbn; discriminate).
    rewrite (flush_buffer_pending E cfg w1 eq_refl Hne).
    unfold chunk_starts. subst w1. cbn [APPEND_BUFFER].
    destruct (Z.eqb_spec (APPEND_CHUNK_SIZE cfg) 0) as [H0|H0].
    + run_flush. unfold appended_since. cbn [trace]. rewrite drop_app_length. cbn.
      repeat split. intros _. exists PFlushError. split; [apply list_elem_of_here|].
      split; [tauto | reflexivity].
    + destruct (Z.ltb_spec (APPEND_CHUNK_SIZE cfg) 0) as [H1|H1]; [|lia].
      assert (Hp0 : exists p, p ∈ [PFlushError; PFlushAppended 0]
                /\ (APPEND_CHUNK_SIZE cfg = 0%Z <-> p = PFlushError)
                /\ [EvPrint (PFlushAppended 0)] = [EvPrint p]).
      { exists (PFlushAppended 0). split; [apply list_elem_of_further, list_elem_of_here|].
        split; [|reflexivity]. split; [lia | discriminate]. }
      run_flush.
      destruct (sink_reply E ck) as [e1|]; run_flush.
      * destruct (is_Exception e1); run_flush;
          unfold appended_since; cbn [trace]; rewrite <- ?app_assoc, drop_app_length; cbn;
          repeat split; intros _; exact Hp0.
      * destruct (sink_reply E (S ck)) as [e2|]; run_flush;
          [destruct (is_Exception e2); run_flush|];
          unfold appended_since; cbn [trace]; rewrite <- ?app_assoc, drop_app_length; cbn;
          repeat split; intros _; exact Hp0.
Qed.

End FlushAll.

Section FlushAllWitnesses.
Import Text Re Datetime Py Fixtures Sheets Shapes.
Local Open Scope list_scope.
Local Open Scope nat_scope.

Lemma flush_sends_every_row_witness :
  Chase.sheet (snd (Chase.flush_buffer chase_calm (chase_cfg_chunks 2)
                      (Chase.World [row_A] [row_B; row_C] [row_A; row_B; row_C] ∅ 0 [])))
  = [row_A; row_B; row_C; row_A; row_B; row_C].
Proof.
  pose proof (flush_sends_every_row chase_calm (chase_cfg_chunks 2)
                (Chase.World [row_A] [row_B; row_C] [row_A; row_B; row_C] ∅ 0 [])
                eq_refl (fun j _ => eq_refl)) as H.
  cbv zeta in H. destruct H as (_ & _ & _ & H & _). exact H.
Defined.

Lemma flush_without_chunk_size_witness :
  Chase.sheet (snd (Chase.flush_buffer chase_calm (chase_cfg_chunks 0)
                      (Chase.World [row_A] [row_B; row_C] [] ∅ 0 [])))
  = [row_A].
Proof.
  assert (H0 : (Chase.APPEND_CHUNK_SIZE (chase_cfg_chunks 0) <= 0)%Z)
    by (vm_compute; discriminate).
  pose proof (flush_without_chunk_size chase_calm (chase_cfg_chunks 0)
                (Chase.World [row_A] [row_B; row_C] [] ∅ 0 []) H0) as H.
  cbv zeta in H. destruct H as (_ & H & _). exact H.
Defined.

End FlushAllWitnesses.

(* ===================================================================== *)
(** ** Properties: removing duplicates twice *)
(* ===================================================================== *)

Section DedupeAgain.
Import Text Re Datetime Py Fixtures Sheets Shapes.
Local Open Scope list_scope.
Local Open Scope nat_scope.

(** Over rows that are pairwise distinct the scan requests nothing. *)
Lemma dedupe_scan_distinct rows : forall i seen req,
  i < length rows -> NoDup (drop 1 rows) ->
  seen = list_to_set (drop (S i) rows) ->
  dedupe_scan rows i seen req = req.
Proof.
  induction i as [|i IH]; intros seen req Hi Hnd Hseen; [reflexivity|].
  cbn [dedupe_scan].
  destruct (lookup_lt_is_Some_2 rows (S i) Hi) as [key Hkey]. rewrite Hkey.
  pose proof (drop_S _ _ _ Hkey) as Hdrop.
  assert (Hsuf : NoDup (drop (S i) rows)).
  { rewrite <- (take_drop i (drop 1 rows)) in Hnd. apply NoDup_app in Hnd as (_ & _ & Hnd).
    rewrite drop_drop in Hnd. exact Hnd. }
  rewrite Hdrop in Hsuf. apply NoDup_cons in Hsuf as [Hnot _].
  rewrite bool_decide_eq_false_2.
  - apply IH; [lia | exact Hnd |]. rewrite Hdrop, Hseen. reflexivity.
  - rewrite Hseen, elem_of_list_to_set. exact Hnot.
Qed.

Lemma dedupe_requests_distinct rows :
  NoDup (drop 1 rows) -> dedupe_requests rows = [].
Proof.
  intros Hnd. unfold dedupe_requests. destruct rows as [|hdr data]; [reflexivity|].
  apply dedupe_scan_distinct; [cbn; lia | exact Hnd |].
  rewrite drop_ge by (cbn; lia). reflexivity.
Qed.

Lemma dedupe_requests_settled rows :
  dedupe_requests (delete_all rows (dedupe_requests rows)) = [].
Proof.
  destruct (dedupe_requests_spec rows) as [-> _]. apply dedupe_requests_distinct.
  destruct rows as [|hdr data]; cbn [take drop app]; [apply NoDup_nil_2|].
  rewrite drop_0. apply keep_last_NoDup.
Qed.

Lemma chase_dedupe_rows_sheet (E : Chase.env) w :
  (forall n, Chase.sink_reply E n = None) ->
  Chase.sheet (snd (Chase.dedupe_rows E w))
  = delete_all (Chase.sheet w) (dedupe_requests (Chase.sheet w)).
Proof.
  intros Hok.
  unfold Chase.dedupe_rows, Chase.get_all_values, Chase.delete_rows, Chase.call.
  unfold bind, get, ret, modify. cbn. rewrite Hok. cbn.
  destruct (dedupe_requests (Chase.sheet w)) as [|i req]; cbn; [reflexivity|].
  rewrite Hok. reflexivity.
Qed.

Lemma chase_dedupe_rows_quiet (E : Chase.env) w :
  Chase.sink_reply E (Chase.clock w) = None ->
  dedupe_requests (Chase.sheet w) = [] ->
  Chase.dedupe_rows E w = (Ret 0, Chase.tick Chase.EvRead w).
Proof.
  intros Hok Hreq.
  unfold Chase.dedupe_rows, Chase.get_all_values, Chase.delete_rows, Chase.call.
  unfold bind, get, ret, modify. cbn. rewrite Hok. cbn. rewrite Hreq. reflexivity.
Qed.

Lemma amex_dedupe_rows_sheet (E : Amex.env) w :
  (forall n, Amex.sink_reply E n = None) ->
  Amex.sheet (snd (Amex.dedupe_rows E w))
  = delete_all (Amex.sheet w) (dedupe_requests (Amex.sheet w)).
Proof.
  intros Hok.
  unfold Amex.dedupe_rows, Amex.get_all_values, Amex.delete_rows, Amex.call.
  unfold bind, get, ret, modify. cbn. rewrite Hok. cbn.
  destruct (dedupe_requests (Amex.sheet w)) as [|i req]; cbn; [reflexivity|].
  rewrite Hok. reflexivity.
Qed.

Lemma amex_dedupe_rows_quiet (E : Amex.env) w :
  Amex.sink_reply E (Amex.clock w) = None ->
  dedupe_requests (Amex.sheet w) = [] ->
  Amex.dedupe_rows E w = (Ret 0, Amex.tick Amex.EvRead w).
Proof.
  intros Hok Hreq.
  unfold Amex.dedupe_rows, Amex.get_all_values, Amex.delete_rows, Amex.call.
  unfold bind, get, ret, modify. cbn. rewrite Hok. cbn. rewrite Hreq. reflexivity.
Qed.

(** X9. Removing duplicates is idempotent, in both scripts: on a sink that
    answers, a second [dedupe_rows] right after the first reads the sheet,
    finds nothing to delete, makes no delete call and returns 0; and a
    sheet whose data rows are pairwise distinct is left alone. *)
Theorem dedupe_rows_twice :
  (forall rows, NoDup (drop 1 rows) -> dedupe_requests rows = [])
  /\ (forall (E : Chase.env) w,
        (forall n, Chase.sink_reply E n = None) ->
        let w1 := snd (Chase.dedupe_rows E w) in
        Chase.dedupe_rows E w1 = (Ret 0, Chase.tick Chase.EvRead w1))
  /\ (forall (E : Amex.env) w,
        (forall n, Amex.sink_reply E n = None) ->
        let w1 := snd (Amex.dedupe_rows E w) in
        Amex.dedupe_rows E w1 = (Ret 0, Amex.tick Amex.EvRead w1)).
Proof.
  split; [exact dedupe_requests_distinct|]. split.
  - intros E w Hok w1. apply chase_dedupe_rows_quiet; [apply Hok|].
    subst w1. rewrite chase_dedupe_rows_sheet by exact Hok. apply dedupe_requests_settled.
  - intros E w Hok w1. apply amex_dedupe_rows_quiet; [apply Hok|].
    subst w1. rewrite amex_dedupe_rows_sheet by exact Hok. apply dedupe_requests_settled.
Qed.

Lemma dedupe_rows_twice_witness :
  fst (Chase.dedupe_rows chase_calm
         (snd (Chase.dedupe_rows chase_calm (chase_world fixture_sheet [])))) = Ret 0.
Proof.
  pose proof (proj1 (proj2 dedupe_rows_twice) chase_calm (chase_world fixture_sheet [])
                (fun n => eq_refl)) as H.
  cbv zeta in H. rewrite H. reflexivity.
Defined.

End DedupeAgain.

(* ===================================================================== *)
(** ** Properties: the rows of an Amex pass *)
(* ===================================================================== *)

Section AmexPass.
Import Text Re Datetime Py Fixtures Sheets Shapes Amex.
Open Scope run_scope.
Local Open Scope list_scope.
Local Open Scope nat_scope.

Variable E : env.
Variable holder : string.
Hypothesis sink_answers : forall n, sink_reply E n = None.

Lemma amex_or_else_nonempty a b : nonempty b = true -> nonempty (or_else a b) = true.
Proof. intros Hb. unfold or_else. destruct (nonempty a) eqn:Ha; assumption. Qed.

Lemma offer_row_shape_amex last4 card_name tile :
  amex_row_shape E holder
    (offer_row holder last4 card_name (strftime (today E) "%b %d, %Y") tile).
Proof.
  unfold offer_row.
  destruct (extract_tile_data tile) as [[[[brand discount] min_spend] max_total] exp].
  unfold amex_row_shape. cbn [length lookup list_lookup].
  repeat split; try reflexivity;
    (eexists; split; [reflexivity|]; apply amex_or_else_nonempty; reflexivity).
Qed.

(** With a sink that answers a flush moves the buffer to the sheet. *)
Lemma amex_flush_ok w :
  fst (flush_buffer E w) = Ret tt
  /\ sheet (snd (flush_buffer E w)) = sheet w ++ APPEND_BUFFER w
  /\ APPEND_BUFFER (snd (flush_buffer E w)) = [].
Proof.
  unfold flush_buffer, bind, get. destruct (APPEND_BUFFER w) as [|r rows] eqn:Hb.
  - cbn. rewrite app_nil_r. auto.
  - cbn [nonnil]. unfold append_rows_now. cbn [nonnil negb].
    unfold try_except, append_rows, call, bind, modify.
    rewrite sink_answers. cbn. auto.
Qed.

Variable w0 : world.
Variables last4 card_name : string.
Local Abbreviation date_added := (strftime (today E) "%b %d, %Y").
Local Abbreviation Inv := (amex_inv E holder w0).

Lemma amex_inv_world s w w' :
  Inv s w -> sheet w' = sheet w -> APPEND_BUFFER w' = APPEND_BUFFER w -> Inv s w'.
Proof.
  intros (Hc & rows & Hr & Hl & Hs) H1 H2. split; [exact Hc|].
  exists rows. rewrite H1, H2. auto.
Qed.

Lemma amex_add_step s :
  triple (fun w => Inv s w /\ safety_clicks s <= 800)
    (add_step E holder last4 card_name date_added s)
    (fun r w => Inv (snd r) w /\ safety_clicks (snd r) <= 801)
    (fun e _ => is_Exception e = false).
Proof.
  unfold add_step.
  eapply triple_bind with (Q := fun _ w => Inv s w /\ safety_clicks s <= 800).
  { unfold plus_buttons_snapshot.
    eapply triple_try_except
      with (R1 := fun _ w => Inv s w /\ safety_clicks s <= 800).
    - intros w [Hw Hs]. unfold call.
      destruct (snapshot_reply E (clock w)); (split; [|exact Hs]);
        eapply amex_inv_world; eauto.
    - intros e _. apply triple_ret. auto.
    - intros e w He _. exact He. }
  intros [|btn btns].
  - cbn [idle_rounds].
    destruct (Nat.leb 2 _); apply triple_ret; intros w [Hw Hs]; cbn [snd safety_clicks];
      (split; [|lia]); destruct Hw as (Hc & Hrows); split; assumption.
  - set (r := offer_row _ _ _ _ _).
    eapply triple_bind with (Q := fun _ w => Inv s w /\ safety_clicks s <= 800).
    { eapply triple_try_except
        with (R1 := fun _ w => Inv s w /\ safety_clicks s <= 800).
      - intros w [Hw Hs]. unfold call.
        destruct (outcome (click btn)); (split; [|exact Hs]);
          eapply amex_inv_world; eauto.
      - intros e _. apply triple_modify. intros w [Hw Hs]. split; [|exact Hs].
        eapply amex_inv_world; eauto.
      - intros e w He _. exact He. }
    intros _.
    set (s1 := Add (S (safety_clicks s)) 0 (S (added_count s))).
    eapply triple_bind with (Q := fun _ w => Inv s1 w /\ safety_clicks s <= 800).
    { apply triple_modify. intros w [(Hc & rows & Hr & Hl & Hsh) Hs]. split; [|exact Hs].
      split; [cbn; lia|]. exists (rows ++ [r]).
      cbn [sheet APPEND_BUFFER set_APPEND_BUFFER added_count s1].
      rewrite (app_assoc (sheet w)), Hr, <- !app_assoc.
      split; [reflexivity|]. split; [rewrite length_app; cbn; lia|].
      apply Forall_app. split; [exact Hsh|]. apply Forall_singleton.
      apply offer_row_shape_amex. }
    intros _.
    eapply triple_bind with (Q := fun _ w => Inv s1 w /\ safety_clicks s <= 800).
    { apply triple_get. auto. }
    intros w1.
    eapply triple_bind with (Q := fun _ w => Inv s1 w /\ safety_clicks s <= 800).
    { destruct (Nat.leb MICRO_BATCH _); [|apply triple_ret; auto].
      intros w [(Hc & rows & Hr & Hl & Hsh) Hs].
      destruct (amex_flush_ok w) as (Hf & Hsheet & Hbuf).
      destruct (flush_buffer E w) as [[[]|e] w']; cbn [fst snd] in *; [|discriminate].
      split; [|exact Hs]. split; [exact Hc|]. exists rows.
      rewrite Hsheet, Hbuf, app_nil_r. auto. }
    intros _. fold s1. destruct (Nat.ltb 800 _).
    + eapply triple_bind with (Q := fun _ w => Inv s1 w /\ safety_clicks s <= 800).
      { apply triple_modify. intros w [Hw Hs]. split; [|exact Hs].
        eapply amex_inv_world; eauto. }
      intros _. apply triple_ret. intros w [Hw Hs]. cbn [snd]. split; [exact Hw|].
      cbn. lia.
    + apply triple_ret. intros w [Hw Hs]. cbn [snd]. split; [exact Hw|]. cbn. lia.
Qed.

Lemma amex_add_loop fuel : forall s,
  amex_counters_ok s ->
  triple (Inv s) (add_loop E fuel holder last4 card_name date_added s)
    (fun r w => match r with
                | Some s' => Inv s' w /\ safety_clicks s' <= 801
                | None => True
                end)
    (fun e _ => is_Exception e = false).
Proof.
  induction fuel as [|fuel IH]; intros s Hok; cbn [add_loop].
  - apply triple_ret. auto.
  - intros w Hw. unfold bind.
    pose proof (amex_add_step s w (conj Hw (proj2 Hok))) as Hstep.
    pose proof (add_step_measure E holder last4 card_name date_added s Hok w I) as Hm.
    destruct (add_step E holder last4 card_name date_added s w) as [[[[|] s']|e] w'];
      cbn [snd] in *.
    + apply (IH s' (proj1 Hm) w' (proj1 Hstep)).
    + exact Hstep.
    + exact Hstep.
Qed.

End AmexPass.

Section AmexPassClaims.
Import Text Re Datetime Py Fixtures Sheets Shapes.
Local Open Scope list_scope.
Local Open Scope nat_scope.

(** X10. An Amex pass -- the adding loop, then a flush -- on a sink that
    answers: the only exceptions that can leave it are not [Exception]s,
    and when it returns [n] the sheet has gained exactly [n] rows after the
    rows that were pending, one per button clicked whether or not the click
    went through, at most 801 of them, each of ten cells with the holder
    first and no blank brand, discount or minimum spend; the buffer is
    empty. *)
Theorem amex_pass_reaches_sheet (E : Amex.env) (holder : string) (w : Amex.world) :
  (forall n, Amex.sink_reply E n = None) ->
  let run := amex_pass E holder w in
  (forall e, fst run = Raise e -> is_Exception e = false)
  /\ (forall n, fst run = Ret n ->
        exists rows,
          length rows = n /\ n <= 801
          /\ Forall (amex_row_shape E holder) rows
          /\ Amex.sheet (snd run) = Amex.sheet w ++ Amex.APPEND_BUFFER w ++ rows
          /\ Amex.APPEND_BUFFER (snd run) = []).
Proof.
  intros Hsink run.
  set (w1 := Amex.tick Amex.EvCardInfo w).
  set (info := Amex.card_info_reply E (Amex.clock w)).
  assert (H0 : amex_inv E holder w Amex.add_start w1).
  { split; [reflexivity|]. exists []. subst w1. cbn. rewrite app_nil_r. auto. }
  assert (Hok : amex_counters_ok Amex.add_start)
    by (unfold amex_counters_ok; cbn; lia).
  pose proof (amex_add_loop E holder Hsink w (snd info) (fst info) Amex.add_fuel
                Amex.add_start Hok w1 H0) as Hloop.
  pose proof (add_loop_terminates E holder (snd info) (fst info)
                (strftime (Amex.today E) "%b %d, %Y") Amex.add_fuel Amex.add_start
                Hok ltac:(reflexivity) w1 I) as Hterm.
  assert (Hrun : run =
            match Amex.add_loop E Amex.add_fuel holder (snd info) (fst info)
                    (strftime (Amex.today E) "%b %d, %Y") Amex.add_start w1 with
            | (Ret (Some s), w2) =>
                match Amex.flush_buffer E w2 with
                | (Ret _, w3) => (Ret (Amex.added_count s), w3)
                | (Raise e, w3) => (Raise e, w3)
                end
            | (Ret None, w2) =>
                match Amex.flush_buffer E w2 with
                | (Ret _, w3) => (Ret 0, w3)
                | (Raise e, w3) => (Raise e, w3)
                end
            | (Raise e, w2) => (Raise e, w2)
            end).
  { subst run. unfold amex_pass, Amex.add_all_offers_for_current_card,
      Amex.current_card_info, Amex.call. unfold bind. fold w1 info.
    destruct (Amex.add_loop _ _ _ _ _ _ _ _) as [[[s|]|e] w2]; cbn [ret];
      try destruct (Amex.flush_buffer E w2) as [[[]|e'] w3]; reflexivity. }
  clearbody run. subst run.
  destruct (Amex.add_loop _ _ _ _ _ _ _ _) as [[[s|]|e] w2].
  - destruct Hloop as [(Hc & rows & Hr & Hl & Hsh) Hcap].
    destruct (amex_flush_ok E Hsink w2) as (Hf & Hsheet & Hbuf).
    destruct (Amex.flush_buffer E w2) as [[[]|e'] w3]; cbn [fst snd] in *; [|discriminate].
    split; [discriminate|]. intros n [= <-]. exists rows.
    split; [exact Hl|]. split; [lia|]. split; [exact Hsh|]. split; [|exact Hbuf].
    rewrite Hsheet, Hr. reflexivity.
  - destruct Hterm. reflexivity.
  - cbn [fst]. split; [|discriminate]. intros e' [= <-]. exact Hloop.
Qed.

Lemma amex_pass_reaches_sheet_witness :
  exists rows,
    length rows = 1
    /\ Amex.sheet (snd (amex_pass amex_one_offer "Card Holder" (amex_world [row_A] [row_B])))
       = [row_A] ++ [row_B] ++ rows.
Proof.
  destruct (proj2 (amex_pass_reaches_sheet amex_one_offer "Card Holder"
                     (amex_world [row_A] [row_B]) (fun n => eq_refl)) 1)
    as (rows & Hl & _ & _ & Hs & _).
  - vm_compute. reflexivity.
  - exists rows. split; [exact Hl | exact Hs].
Defined.

End AmexPassClaims.

(* ===================================================================== *)
(** ** Properties: refreshes of the Amex offers view *)
(* ===================================================================== *)

Section AmexRefresh.
Import Text Re Datetime Py Fixtures Sheets Shapes Amex.
Open Scope run_scope.
Local Open Scope list_scope.
Local Open Scope nat_scope.

Variable E : env.
Variable cfg : config.

(** At most [c] refreshes so far. *)
Local Abbreviation upto c := (fun w : world => amex_refreshes (trace w) <= c).

Lemma refreshes_snoc t ev :
  amex_refreshes (t ++ [ev]) = amex_refreshes t + (if is_refresh ev then 1 else 0).
Proof.
  unfold amex_refreshes. rewrite List.filter_app, length_app. cbn.
  destruct (is_refresh ev); reflexivity.
Qed.

Lemma upto_tick c ev w : is_refresh ev = false -> upto c w -> upto c (tick ev w).
Proof. intros Hev H. cbn beta in *. cbn [trace tick]. rewrite refreshes_snoc, Hev. lia. Qed.

Lemma upto_emit c ev w : is_refresh ev = false -> upto c w -> upto c (emit ev w).
Proof. intros Hev H. cbn beta in *. cbn [trace emit]. rewrite refreshes_snoc, Hev. lia. Qed.

Lemma upto_call {A} c ev (reply : nat -> result A) :
  is_refresh ev = false -> keeps (upto c) (call ev reply).
Proof.
  intros Hev w Hw. unfold call. destruct (reply (clock w)); apply upto_tick; assumption.
Qed.

Ltac quiet_step :=
  lazymatch goal with
  | H : keeps ?I ?m |- keeps ?I ?m => exact H
  | |- keeps _ (ret _) => apply keeps_ret
  | |- keeps _ get => apply keeps_get
  | |- keeps _ (lift _) => apply keeps_lift
  | |- keeps _ (bind _ _) => apply keeps_bind; [|intros ?]
  | |- keeps _ (try_except _ _ _) => apply keeps_try_except; [|intros ?]
  | |- keeps _ (try_finally _ _) => apply keeps_try_finally
  | |- keeps _ (call _ _) => apply upto_call; reflexivity
  | |- keeps _ (sheet_log _ _) =>
      apply keeps_modify; intros ? ?; apply upto_emit; [reflexivity | assumption]
  | |- keeps _ (modify _) => apply keeps_modify; intros ? ?; assumption
  | |- keeps _ (if ?b then _ else _) => destruct b
  | |- keeps _ (match ?x with _ => _ end) => destruct x
  end.

Lemma upto_flush_buffer c : keeps (upto c) (flush_buffer E).
Proof.
  unfold flush_buffer, append_rows_now, append_rows. repeat quiet_step.
Qed.

Lemma upto_add_step c h l n d s : keeps (upto c) (add_step E h l n d s).
Proof.
  unfold add_step, plus_buttons_snapshot.
  apply keeps_bind; [repeat quiet_step|]. intros [|btn btns]; [repeat quiet_step|].
  apply keeps_bind; [repeat quiet_step|]. intros _.
  apply keeps_bind; [repeat quiet_step|]. intros _.
  apply keeps_bind; [repeat quiet_step|]. intros w.
  apply keeps_bind.
  { destruct (Nat.leb _ _); [apply upto_flush_buffer | apply keeps_ret]. }
  intros _. repeat quiet_step.
Qed.

Lemma upto_add_loop c h l n d fuel : forall s, keeps (upto c) (add_loop E fuel h l n d s).
Proof.
  induction fuel as [|fuel IH]; intros s; cbn [add_loop]; [apply keeps_ret|].
  apply keeps_bind; [apply upto_add_step|]. intros [[|] s']; [apply IH | apply keeps_ret].
Qed.

Lemma upto_add_all c h : keeps (upto c) (add_all_offers_for_current_card E h).
Proof.
  unfold add_all_offers_for_current_card, current_card_info.
  quiet_step; [quiet_step|]. quiet_step; [apply upto_add_loop|]. repeat quiet_step.
Qed.

(** A round refreshes once, and only after a pass that added something. *)
Lemma upto_refresh_rounds rounds : forall c total_added,
  triple (upto c) (refresh_rounds E cfg rounds total_added)
    (fun _ => upto (c + if Nat.eqb total_added 0 then 0 else rounds))
    (fun _ => upto (c + if Nat.eqb total_added 0 then 0 else rounds)).
Proof.
  induction rounds as [|rounds IH]; intros c total_added; cbn [refresh_rounds].
  - apply triple_ret. intros w Hw. destruct (Nat.eqb _ _); lia.
  - destruct (Nat.eqb total_added 0).
    + apply triple_ret. intros w Hw. lia.
    + eapply triple_bind with (Q := fun _ => upto (S c)).
      { intros w Hw. unfold call. destruct (outcome _);
          cbn [trace tick]; rewrite refreshes_snoc; cbn [is_refresh]; lia. }
      intros _.
      eapply triple_bind with (Q := fun _ => upto (S c)).
      { eapply triple_weaken; [apply (upto_add_all (S c))|..]; cbn beta; intros; lia. }
      intros added.
      eapply triple_bind with (Q := fun _ => upto (S c)).
      { eapply triple_weaken; [apply (upto_flush_buffer (S c))|..]; cbn beta; intros; lia. }
      intros _.
      eapply triple_weaken; [apply (IH (S c) added)|..]; cbn beta; intros;
        destruct (Nat.eqb added 0); lia.
Qed.

Lemma upto_later {A} c k (m : M world A) :
  keeps (upto c) m ->
  triple (upto c) m (fun _ => upto c) (fun _ => upto (c + k)).
Proof.
  intros H. eapply triple_weaken; [exact H|..]; cbn beta; intros; lia.
Qed.

Lemma upto_main_body c :
  triple (upto c) (main_body E cfg)
    (fun _ => upto (c + MAX_REFRESH_ROUNDS cfg))
    (fun _ => upto (c + MAX_REFRESH_ROUNDS cfg)).
Proof.
  unfold main_body.
  eapply triple_bind; [apply upto_later; unfold robust_get; repeat quiet_step|].
  intros ?.
  eapply triple_bind; [apply upto_later; repeat quiet_step|].
  intros ?.
  eapply triple_bind; [apply upto_later; apply upto_add_all|].
  intros total_added.
  eapply triple_bind; [apply upto_later; apply upto_flush_buffer|].
  intros ?.
  eapply triple_bind with (Q := fun _ => upto (c + MAX_REFRESH_ROUNDS cfg)).
  { eapply triple_weaken; [apply (upto_refresh_rounds (MAX_REFRESH_ROUNDS cfg) c total_added)|..];
      cbn beta; intros; try destruct (Nat.eqb total_added 0); lia. }
  intros ?.
  change (keeps (upto (c + MAX_REFRESH_ROUNDS cfg))
            (dedupe_rows E;; reset_filters E)).
  unfold dedupe_rows, reset_filters, get_all_values, delete_rows. repeat quiet_step.
Qed.

(** X11. The Amex script refreshes the offers view at most
    [MAX_REFRESH_ROUNDS] times in a run, whatever happens; the refresh loop
    makes at most one refresh per round, and none at all when the pass
    before it added nothing. *)
Theorem amex_refreshes_bounded (w : world) :
  amex_refreshes (trace (snd (main E cfg w)))
    <= amex_refreshes (trace w) + MAX_REFRESH_ROUNDS cfg
  /\ (forall rounds total_added,
        amex_refreshes (trace (snd (refresh_rounds E cfg rounds total_added w)))
        <= amex_refreshes (trace w) + (if Nat.eqb total_added 0 then 0 else rounds)).
Proof.
  split.
  - set (c := amex_refreshes (trace w)).
    set (c' := c + MAX_REFRESH_ROUNDS cfg).
    assert (Hm : triple (upto c) (main E cfg) (fun _ => upto c') (fun _ => upto c')).
    { unfold main.
      assert (Hfin : keeps (upto c') (main_finally E cfg)).
      { unfold main_finally. apply keeps_bind; [apply upto_flush_buffer|].
        intros ?. repeat quiet_step. }
      eapply triple_try_finally
        with (Q1 := fun _ => upto c') (R1 := fun _ => upto c').
      - eapply triple_try_except with (R1 := fun _ => upto c').
        + apply upto_main_body.
        + intros e _. change (keeps (upto c') (sheet_log "ERROR" "main")). quiet_step.
        + intros e w' _ H. exact H.
      - intros ?. exact Hfin.
      - intros ?. exact Hfin. }
    specialize (Hm w). destruct (main E cfg w) as [[[]|e] w']; cbn [snd];
      apply Hm; subst c; cbn beta; lia.
  - intros rounds total_added.
    pose proof (upto_refresh_rounds rounds (amex_refreshes (trace w)) total_added w) as H.
    destruct (refresh_rounds E cfg rounds total_added w) as [[[]|e] w']; cbn [snd];
      apply H; cbn beta; lia.
Qed.

End AmexRefresh.

(* ===================================================================== *)
(** ** Properties: dates written and read back *)
(* ===================================================================== *)

Section ForwardMatching.
Import Text Re Datetime Py Shapes.
Local Open Scope nat_scope.

Context {A : Type}.
Implicit Types (k : cursor -> caps -> option A).

(** What a successful continuation gives back through each construct. *)
Lemma run_lit_hit icase a b p s g k x :
  lit_ok icase a b = true ->
  k (Cursor (Some b) s) g = Some x ->
  run icase (Lit a) (Cursor p (String b s)) g k = Some x.
Proof. intros H Hk. cbn. rewrite H. exact Hk. Qed.

Lemma run_cls_hit icase q b p s g k x :
  cls_ok icase q b = true ->
  k (Cursor (Some b) s) g = Some x ->
  run icase (Cls q) (Cursor p (String b s)) g k = Some x.
Proof. intros H Hk. cbn. rewrite H. exact Hk. Qed.

Lemma run_cat_hit icase r1 r2 c g k x :
  run icase r1 c g (fun c' g' => run icase r2 c' g' k) = Some x ->
  run icase (Cat r1 r2) c g k = Some x.
Proof. intros H. exact H. Qed.

Lemma length_str_app (s t : string) :
  String.length (s +:+ t) = String.length s + String.length t.
Proof. induction s as [|a s IH]; simpl; [reflexivity | f_equal; exact IH]. Qed.

Lemma str_app_nil (s : string) : s = (s +:+ EmptyString)%string.
Proof.
  induction s as [|a s IH]; [reflexivity|].
  change (String a s = String a (s +:+ EmptyString)). f_equal. exact IH.
Qed.

Lemma str_take_app (s t : string) : str_take (String.length s) (s +:+ t) = s.
Proof.
  induction s as [|a s IH]; simpl; [destruct t; reflexivity | f_equal; exact IH].
Qed.

Lemma consumed_prefix c c' s1 :
  rest c = (s1 +:+ rest c')%string -> consumed c c' = s1.
Proof.
  intros H. unfold consumed. rewrite H, length_str_app.
  replace (String.length s1 + String.length (rest c') - String.length (rest c'))
    with (String.length s1) by lia.
  apply str_take_app.
Qed.

Lemma rep_loop_S
    (step : cursor -> caps -> (cursor -> caps -> option A) -> option A)
    lo hi k fuel cnt c g :
  rep_loop step lo hi k (S fuel) cnt c g
  = if under hi cnt then
      match step c g (fun c' g' =>
              if String.length (rest c') <? String.length (rest c)
              then rep_loop step lo hi k fuel (S cnt) c' g' else None) with
      | Some x => Some x
      | None => if lo <=? cnt then k c g else None
      end
    else if lo <=? cnt then k c g else None.
Proof. reflexivity. Qed.

Lemma rep_loop_O
    (step : cursor -> caps -> (cursor -> caps -> option A) -> option A)
    lo hi k cnt c g :
  rep_loop step lo hi k 0 cnt c g = if lo <=? cnt then k c g else None.
Proof. reflexivity. Qed.

Lemma run_cls_at icase q b p s g k :
  run icase (Cls q) (Cursor p (String b s)) g k
  = if cls_ok icase q b then k (Cursor (Some b) s) g else None.
Proof. reflexivity. Qed.

(** One more character of the class, then the rest of the repetition. *)
Lemma rep_cls_hit icase q lo hi k fuel cnt b p s g x :
  cls_ok icase q b = true -> under hi cnt = true ->
  rep_loop (run icase (Cls q)) lo hi k fuel (S cnt) (Cursor (Some b) s) g = Some x ->
  rep_loop (run icase (Cls q)) lo hi k (S fuel) cnt (Cursor p (String b s)) g = Some x.
Proof.
  intros Hb Hu Hk. rewrite rep_loop_S, Hu, run_cls_at, Hb. cbn [rest String.length].
  replace (String.length s <? S (String.length s)) with true
    by (symmetry; apply Nat.ltb_lt; lia).
  rewrite Hk. reflexivity.
Qed.

(** The repetition stops where the class does not match, or at its bound. *)
Lemma rep_cls_stop icase q lo hi k fuel cnt b p s g x :
  cls_ok icase q b = false \/ under hi cnt = false -> lo <= cnt ->
  k (Cursor p (String b s)) g = Some x ->
  rep_loop (run icase (Cls q)) lo hi k fuel cnt (Cursor p (String b s)) g = Some x.
Proof.
  intros Hb Hlo Hk. apply Nat.leb_le in Hlo.
  destruct fuel as [|fuel]; [rewrite rep_loop_O, Hlo; exact Hk|].
  rewrite rep_loop_S, Hlo. destruct (under hi cnt); [|exact Hk].
  destruct Hb as [Hb|Hb]; [|discriminate]. rewrite run_cls_at, Hb. exact Hk.
Qed.

(** ... or where the subject ends. *)
Lemma rep_cls_end icase q lo hi k fuel cnt p g x :
  lo <= cnt ->
  k (Cursor p EmptyString) g = Some x ->
  rep_loop (run icase (Cls q)) lo hi k fuel cnt (Cursor p EmptyString) g = Some x.
Proof.
  intros Hlo Hk. apply Nat.leb_le in Hlo.
  destruct fuel as [|fuel]; [rewrite rep_loop_O, Hlo; exact Hk|].
  rewrite rep_loop_S, Hlo. destruct (under hi cnt); exact Hk.
Qed.

End ForwardMatching.

Section DateRoundTrip.
Import Text Re Datetime Py Shapes Fixtures.
Local Open Scope Z_scope.

Lemma pattern_canonical :
  pattern false "%b %d, %Y"
  = Some (Cat (Grp g_b re_month_name)
            (Cat (plus sp)
               (Cat (Grp g_d re_day)
                  (Cat (Lit ",") (Cat (plus sp) (Cat (Grp g_Y (times d 4)) Eps)))))).
Proof. reflexivity. Qed.

Lemma strftime_canonical dt :
  strftime dt "%b %d, %Y"
  = (month_abbr (month dt)
     +:+ String " " (zfill 2 (day dt) EmptyString
                     +:+ String "," (String " " (zfill 4 (year dt) EmptyString))))%string.
Proof.
  cbn [strftime ascii_eqb]. 
  change (strftime dt "") with EmptyString.
  reflexivity.
Qed.

(** *** Digits *)

Lemma digit_char_cases n :
  exists j, (0 <= j < 10) /\ n mod 10 = j /\ digit_char n = ascii_of_N (Z.to_N (48 + j)).
Proof.
  exists (n mod 10). split; [apply Z.mod_pos_bound; lia|]. split; reflexivity.
Qed.

Ltac digit_cases n :=
  let j := fresh "j" in let Hj := fresh "Hj" in let Hm := fresh "Hm" in
  let Hd := fresh "Hd" in
  destruct (digit_char_cases n) as (j & Hj & Hm & Hd); rewrite Hd; clear Hd;
  assert (j = 0 \/ j = 1 \/ j = 2 \/ j = 3 \/ j = 4 \/ j = 5 \/ j = 6 \/ j = 7
          \/ j = 8 \/ j = 9) as Hcase by lia;
  destruct Hcase as [->|[->|[->|[->|[->|[->|[->|[->|[->| ->]]]]]]]]].

Lemma digit_char_is_digit icase n : cls_ok icase is_digit (digit_char n) = true.
Proof. digit_cases n; destruct icase; reflexivity. Qed.

Lemma digit_char_no_space icase n : cls_ok icase is_space (digit_char n) = false.
Proof. digit_cases n; destruct icase; reflexivity. Qed.

Lemma digit_char_code n : Z.of_N (code (digit_char n)) - 48 = n mod 10.
Proof. digit_cases n; rewrite Hm; reflexivity. Qed.

Lemma int_zfill4 y : 0 <= y <= 9999 -> int (zfill 4 y EmptyString) = y.
Proof.
  intros Hy. unfold int. cbn [zfill int_acc]. rewrite !digit_char_code.
  Z.div_mod_to_equations. lia.
Qed.

(** *** The pieces of the canonical form *)

Ltac month_cases m H :=
  assert (m = 1 \/ m = 2 \/ m = 3 \/ m = 4 \/ m = 5 \/ m = 6 \/ m = 7 \/ m = 8
          \/ m = 9 \/ m = 10 \/ m = 11 \/ m = 12) as Hcase by lia;
  clear H;
  destruct Hcase as [->|[->|[->|[->|[->|[->|[->|[->|[->|[->|[->| ->]]]]]]]]]]].

Ltac day_cases dd H :=
  assert (dd = 1 \/ dd = 2 \/ dd = 3 \/ dd = 4 \/ dd = 5 \/ dd = 6 \/ dd = 7
          \/ dd = 8 \/ dd = 9 \/ dd = 10 \/ dd = 11 \/ dd = 12 \/ dd = 13
          \/ dd = 14 \/ dd = 15 \/ dd = 16 \/ dd = 17 \/ dd = 18 \/ dd = 19
          \/ dd = 20 \/ dd = 21 \/ dd = 22 \/ dd = 23 \/ dd = 24 \/ dd = 25
          \/ dd = 26 \/ dd = 27 \/ dd = 28 \/ dd = 29 \/ dd = 30 \/ dd = 31)
    as Hcase by lia;
  clear H;
  repeat (destruct Hcase as [->|Hcase]); [..|subst dd].

Lemma month_name_hit {A} m tl p g (k : cursor -> caps -> option A) x :
  1 <= m <= 12 ->
  k (Cursor (str_last (month_abbr m) p) tl) g = Some x ->
  run true re_month_name (Cursor p (month_abbr m +:+ tl)) g k = Some x.
Proof.
  intros Hm. month_cases m Hm; intros Hk; cbv in Hk |- *; rewrite Hk; reflexivity.
Qed.

Lemma day_hit {A} dd tl p g (k : cursor -> caps -> option A) x :
  1 <= dd <= 31 ->
  k (Cursor (str_last (zfill 2 dd EmptyString) p) tl) g = Some x ->
  run true re_day (Cursor p (zfill 2 dd EmptyString +:+ tl)) g k = Some x.
Proof.
  intros Hd. day_cases dd Hd; intros Hk; cbv in Hk |- *; rewrite Hk; reflexivity.
Qed.

Lemma month_index m :
  1 <= m <= 12 -> index_of (lower_str (month_abbr m)) a_month 1 = m.
Proof. intros Hm. month_cases m Hm; reflexivity. Qed.

Lemma day_int dd : 1 <= dd <= 31 -> int (lstrip (zfill 2 dd EmptyString)) = dd.
Proof. intros Hd. day_cases dd Hd; reflexivity. Qed.

Lemma plus_sp_hit {A} b s p g (k : cursor -> caps -> option A) x :
  cls_ok true is_space b = false ->
  k (Cursor (Some " "%char) (String b s)) g = Some x ->
  run true (plus sp) (Cursor p (String " " (String b s))) g k = Some x.
Proof.
  intros Hb Hk. unfold plus, sp. rewrite run_rep. cbn [rest String.length].
  apply rep_cls_hit; [reflexivity | reflexivity |].
  apply rep_cls_stop; [left; exact Hb | lia | exact Hk].
Qed.

Lemma year_hit {A} y p g (k : cursor -> caps -> option A) x :
  k (Cursor (str_last (zfill 4 y EmptyString) p) EmptyString) g = Some x ->
  run true (times d 4) (Cursor p (zfill 4 y EmptyString)) g k = Some x.
Proof.
  intros Hk. unfold times, d. rewrite run_rep. cbn [zfill rest String.length].
  do 4 (apply rep_cls_hit; [apply digit_char_is_digit | reflexivity |]).
  apply rep_cls_end; [lia | exact Hk].
Qed.

Lemma make_date_valid y m dd dt :
  make_date y m dd = Some dt ->
  dt = Date y m dd /\ 1 <= y <= 9999 /\ 1 <= m <= 12 /\ 1 <= dd <= 31.
Proof.
  unfold make_date, MINYEAR, MAXYEAR.
  destruct (_ && _) eqn:H; [|discriminate]. intros [= <-].
  rewrite !andb_true_iff, !Z.leb_le in H.
  assert (days_in_month y m <= 31).
  { unfold days_in_month. destruct (_ && _); [lia|].
    assert (Hm : 1 <= m <= 12) by lia. month_cases m Hm; cbn; lia. }
  split; [reflexivity | lia].
Qed.

(** The canonical form of a valid date reads back as that date. *)
Lemma canonical_parses dt :
  valid_date dt -> strptime (strftime dt "%b %d, %Y") "%b %d, %Y" = Some dt.
Proof.
  intros Hv. pose proof Hv as Hv'. apply make_date_valid in Hv' as (_ & Hy & Hm & Hd).
  unfold strptime. rewrite pattern_canonical, strftime_canonical.
  set (mon := month_abbr (month dt)). set (dd := zfill 2 (day dt) EmptyString).
  set (yyyy := zfill 4 (year dt) EmptyString).
  set (s1 := (mon +:+ String " " (dd +:+ String "," (String " " yyyy)))%string).
  set (g3 := set_cap g_Y yyyy (set_cap g_d dd (set_cap g_b mon []))).
  assert (Hrun : rmatch true
            (Cat (Grp g_b re_month_name)
               (Cat (plus sp)
                  (Cat (Grp g_d re_day)
                     (Cat (Lit ",") (Cat (plus sp) (Cat (Grp g_Y (times d 4)) Eps))))))
            s1
          = Some (Mobj s1 g3, EmptyString)).
  { unfold rmatch, match_at.
    set (c0 := Cursor None s1).
    set (kf := fun c' g => Some (c', Mobj (consumed c0 c') g)).
    assert (Hfinal : forall p, kf (Cursor p EmptyString) g3
                               = Some (Cursor p EmptyString, Mobj s1 g3)).
    { intros p. subst kf. cbv beta. do 3 f_equal. apply consumed_prefix.
      subst c0. cbn [rest]. apply str_app_nil. }
    assert (Hr : exists p,
              run true
                (Cat (Grp g_b re_month_name)
                   (Cat (plus sp)
                      (Cat (Grp g_d re_day)
                         (Cat (Lit ",") (Cat (plus sp) (Cat (Grp g_Y (times d 4)) Eps))))))
                c0 [] kf
              = Some (Cursor p EmptyString, Mobj s1 g3)).
    { eexists. rewrite run_cat, run_grp.
      apply month_name_hit; [exact Hm|]. rewrite run_cat.
      rewrite (consumed_prefix c0 _ mon) by reflexivity.
      subst dd. cbn [zfill]. cbn [append].
      apply plus_sp_hit; [apply digit_char_no_space|].
      rewrite run_cat, run_grp.
      change (String (digit_char (day dt / 10)) (String (digit_char (day dt)) ?t))
        with (zfill 2 (day dt) EmptyString +:+ t)%string.
      apply day_hit; [exact Hd|]. rewrite run_cat.
      erewrite consumed_prefix by reflexivity.
      apply run_lit_hit; [reflexivity|]. rewrite run_cat.
      subst yyyy. cbn [zfill].
      apply plus_sp_hit; [apply digit_char_no_space|].
      rewrite run_cat, run_grp.
      change (String (digit_char (year dt / 10 / 10 / 10)) _)
        with (zfill 4 (year dt) EmptyString).
      apply year_hit. erewrite consumed_prefix by (cbn [rest]; apply str_app_nil).
      cbn [run]. apply Hfinal. }
    destruct Hr as [p ->]. reflexivity. }
  rewrite Hrun.
  assert (HY : year_of (Mobj s1 g3) = year dt).
  { unfold year_of, g3. cbn. apply int_zfill4. lia. }
  assert (HM : month_of (Mobj s1 g3) = month dt).
  { unfold month_of, g3. cbn. apply month_index. exact Hm. }
  assert (HD : day_of (Mobj s1 g3) = day dt).
  { unfold day_of, g3. cbn. apply day_int. exact Hd. }
  rewrite HY, HM, HD. exact Hv.
Qed.

(** *** Ordinals *)

Lemma all_below_spec f n :
  fst (all_below f n) = Z.pos n
  /\ (snd (all_below f n) = true -> forall r, 0 <= r < Z.pos n -> f r = true).
Proof.
  unfold all_below. induction n as [|n IH] using Pos.peano_ind.
  - cbn. split; [reflexivity|]. intros H r Hr. replace r with 0 by lia.
    exact H.
  - rewrite Pos.iter_succ. destruct IH as [Hi Hall].
    destruct (Pos.iter _ (0, true) n) as [i ok]. cbn [fst snd] in *. subst i.
    split; [lia|]. intros H r Hr. apply andb_prop in H as [Hok Hf].
    destruct (Z.eq_dec r (Z.pos n)) as [->|Hne]; [exact Hf|].
    apply Hall; [exact Hok | lia].
Qed.

Lemma cycle_days_ok : snd (all_below cycle_day_ok 146097) = true.
Proof. vm_compute. reflexivity. Qed.

(** The calendar repeats every 400 years. *)
Lemma ord2ymd_cycle q r :
  0 <= r < DI400Y ->
  ord2ymd (q * DI400Y + r + 1)
  = Date (400 * q + year (ord2ymd (r + 1))) (month (ord2ymd (r + 1)))
         (day (ord2ymd (r + 1))).
Proof.
  intros Hr. unfold ord2ymd. cbv zeta.
  replace (q * DI400Y + r + 1 - 1) with (r + q * DI400Y) by lia.
  replace (r + 1 - 1) with r by lia.
  rewrite Z.div_add, Z.mod_add by (unfold DI400Y; lia).
  rewrite (Z.div_small r DI400Y), (Z.mod_small r DI400Y) by exact Hr.
  set (n100 := r / DI100Y). set (n4 := r mod DI100Y / DI4Y).
  set (n1 := r mod DI100Y mod DI4Y / 365). set (n := r mod DI100Y mod DI4Y mod 365).
  destruct ((n1 =? 4) || (n100 =? 4)); cbn [year month day]; [f_equal; lia|].
  set (leapyear := (n1 =? 3) && (negb (n4 =? 24) || (n100 =? 3))).
  set (m := Z.shiftr (n + 50) 5).
  destruct (n <? _); cbn [year month day]; f_equal; lia.
Qed.

Lemma is_leap_cycle q y : is_leap (400 * q + y) = is_leap y.
Proof.
  unfold is_leap.
  replace ((400 * q + y) mod 4) with (y mod 4)
    by (rewrite <- (Z.mod_add y (100 * q) 4) by lia; f_equal; lia).
  replace ((400 * q + y) mod 100) with (y mod 100)
    by (rewrite <- (Z.mod_add y (4 * q) 100) by lia; f_equal; lia).
  replace ((400 * q + y) mod 400) with (y mod 400)
    by (rewrite <- (Z.mod_add y q 400) by lia; f_equal; lia).
  reflexivity.
Qed.

(** Every ordinal in range is the ordinal of a date of the calendar. *)
Lemma ord2ymd_valid o : 1 <= o <= MAXORDINAL -> valid_date (ord2ymd o).
Proof.
  intros Ho. set (q := (o - 1) / DI400Y). set (r := (o - 1) mod DI400Y).
  assert (Ho' : o = q * DI400Y + r + 1).
  { subst q r. pose proof (Z.div_mod (o - 1) DI400Y ltac:(unfold DI400Y; lia)). lia. }
  assert (Hr : 0 <= r < DI400Y) by (subst r; apply Z.mod_pos_bound; unfold DI400Y; lia).
  assert (Hq : 0 <= q <= 24).
  { unfold MAXORDINAL, DI400Y in *. lia. }
  pose proof (proj2 (all_below_spec cycle_day_ok 146097) cycle_days_ok r Hr) as Hc.
  rewrite Ho', ord2ymd_cycle by exact Hr.
  unfold cycle_day_ok in Hc. cbv zeta in Hc.
  destruct (ord2ymd (r + 1)) as [y m dd]. cbn [year month day] in *.
  rewrite !andb_true_iff, orb_true_iff, !Z.leb_le in Hc.
  destruct Hc as ((((((Hy1 & Hy2) & Hm1) & Hm2) & Hd1) & Hd2) & Hlast).
  unfold valid_date, make_date. cbn [year month day].
  unfold days_in_month in *. rewrite is_leap_cycle.
  replace (_ && _) with true; [reflexivity|]. symmetry.
  rewrite !andb_true_iff, !Z.leb_le. unfold MINYEAR, MAXYEAR.
  unfold MAXORDINAL, DI400Y in *.
  destruct Hlast as [Hlast|Hlast]; repeat split; lia.
Qed.

(** *** The canonical form is stable *)

Lemma month_abbr_solid m tl :
  1 <= m <= 12 ->
  lstrip (month_abbr m +:+ tl) = (month_abbr m +:+ tl)%string
  /\ nonempty (month_abbr m +:+ tl) = true.
Proof. intros Hm. month_cases m Hm; split; reflexivity. Qed.

Lemma str_last_cons a s p q : str_last (String a s) p = str_last (String a s) q.
Proof. reflexivity. Qed.

Lemma str_last_app a b p : str_last (a +:+ b) p = str_last b (str_last a p).
Proof.
  revert p. induction a as [|x a IH]; intros p; [reflexivity|].
  change (str_last (a +:+ b) (Some x) = str_last b (str_last a (Some x))). apply IH.
Qed.

Lemma rstrip_cons a s :
  rstrip (String a s)
  = match rstrip s with
    | EmptyString => if is_space a then EmptyString else String a EmptyString
    | t => String a t
    end.
Proof. reflexivity. Qed.

(** A text that ends with a character other than a blank is its own
    [rstrip]. *)
Lemma rstrip_last s c :
  str_last s None = Some c -> is_space c = false -> rstrip s = s.
Proof.
  intros Hl Hc. induction s as [|a s IH]; [discriminate|].
  destruct s as [|b s].
  - cbn in Hl. injection Hl as ->. cbn [rstrip]. rewrite Hc. reflexivity.
  - rewrite (rstrip_cons a (String b s)), IH; [reflexivity|].
    rewrite (str_last_cons b s None (Some a)). exact Hl.
Qed.

Lemma digit_char_solid n : is_space (digit_char n) = false.
Proof. digit_cases n; reflexivity. Qed.

(** The canonical form has no blank at either end. *)
Lemma strip_canonical dt :
  1 <= month dt <= 12 ->
  strip (strftime dt "%b %d, %Y") = strftime dt "%b %d, %Y"
  /\ nonempty (strftime dt "%b %d, %Y") = true.
Proof.
  intros Hm. rewrite strftime_canonical.
  destruct (month_abbr_solid (month dt)
              (String " " (zfill 2 (day dt) EmptyString
                           +:+ String "," (String " " (zfill 4 (year dt) EmptyString))))
              Hm) as [Hl Hn].
  split; [|exact Hn]. unfold strip. rewrite Hl.
  apply (rstrip_last _ (digit_char (year dt))); [|apply digit_char_solid].
  rewrite str_last_app. cbn [str_last]. rewrite str_last_app. reflexivity.
Qed.

Lemma make_date_is_valid y m dd dt : make_date y m dd = Some dt -> valid_date dt.
Proof.
  intros H. pose proof H as H'. apply make_date_valid in H' as [-> _]. exact H.
Qed.

Lemma first_format_valid s fmts dt :
  Chase.first_format s fmts = Some dt -> valid_date dt.
Proof.
  induction fmts as [|f fmts IH]; cbn [Chase.first_format]; [discriminate|].
  destruct (strptime s f) as [dt'|] eqn:Hp; [|exact IH].
  intros [= <-]. unfold strptime in Hp.
  destruct (pattern false f); [|discriminate].
  destruct (rmatch true _ s) as [[m [|? ?]]|]; try discriminate.
  eapply make_date_is_valid; eauto.
Qed.

(** Whatever [try_parse_date_any] finds is a date of the calendar. *)
Lemma try_parse_valid today s dt :
  Chase.try_parse_date_any today s = Some dt -> valid_date dt.
Proof.
  unfold Chase.try_parse_date_any. destruct (negb (nonempty s)); [discriminate|].
  destruct (Chase.first_format (strip s) Chase.date_formats) as [dt'|] eqn:Hf.
  - intros [= <-]. eapply first_format_valid; eauto.
  - destruct (search true Chase.re_days (strip s)); [|discriminate].
    unfold add_days. destruct (_ <=? 999999999); [|discriminate].
    destruct (_ && _) eqn:Ho; [|discriminate]. intros [= <-].
    apply andb_prop in Ho as [H1 H2]. apply Z.ltb_lt in H1. apply Z.leb_le in H2.
    apply ord2ymd_valid. change (group 1 m) with
      (match get_cap 1 (groups m) with Some v => v | None => EmptyString end) in *.
    lia.
Qed.

Lemma try_parse_canonical today dt :
  valid_date dt ->
  Chase.try_parse_date_any today (strftime dt "%b %d, %Y") = Some dt.
Proof.
  intros Hv. pose proof Hv as Hv'. apply make_date_valid in Hv' as (_ & _ & Hm & _).
  destruct (strip_canonical dt Hm) as [Hs Hn].
  unfold Chase.try_parse_date_any. rewrite Hn. cbn [negb]. rewrite Hs.
  unfold Chase.date_formats. cbn [Chase.first_format].
  rewrite (canonical_parses dt Hv). reflexivity.
Qed.

Lemma length_canonical dt :
  1 <= month dt <= 12 -> String.length (strftime dt "%b %d, %Y") = 12%nat.
Proof.
  intros Hm. rewrite strftime_canonical. cbn [zfill].
  destruct dt as [y m dd]. cbn [month] in *. month_cases m Hm; reflexivity.
Qed.

(** X12. A date written by [normalize_date_out] is stable: for every text
    in which [try_parse_date_any] finds a date (with a four-digit year), the
    output is the 12-character form "Mon DD, YYYY" of that date, it reads
    back as the same date on any day, and normalizing it again changes
    nothing; a text with no date gives the empty string, which also
    normalizes to itself. *)
Theorem normalized_date_is_stable (today today' : date) (s : option string) :
  (forall dt, Chase.try_parse_date_any today (default EmptyString s) = Some dt ->
              1000 <= year dt) ->
  let out := Chase.normalize_date_out today s in
  Chase.normalize_date_out today' (Some out) = out
  /\ (out = EmptyString
      \/ (String.length out = 12%nat
          /\ exists dt, Chase.try_parse_date_any today (default EmptyString s) = Some dt
                        /\ Chase.try_parse_date_any today' out = Some dt)).
Proof.
  intros _ out.
  destruct (Chase.try_parse_date_any today (default EmptyString s)) as [dt|] eqn:Hp.
  - assert (Hout : out = strftime dt "%b %d, %Y")
      by (subst out; unfold Chase.normalize_date_out; rewrite Hp; reflexivity).
    clearbody out. subst out.
    pose proof (try_parse_valid _ _ _ Hp) as Hv.
    pose proof Hv as Hv'. apply make_date_valid in Hv' as (_ & _ & Hm & _).
    pose proof (try_parse_canonical today' dt Hv) as Hc.
    split.
    + unfold Chase.normalize_date_out.
      change (default EmptyString (Some (strftime dt "%b %d, %Y")))
        with (strftime dt "%b %d, %Y").
      rewrite Hc. reflexivity.
    + right. split; [apply length_canonical; exact Hm|]. exists dt.
      split; [reflexivity | exact Hc].
  - assert (Hout : out = EmptyString)
      by (subst out; unfold Chase.normalize_date_out; rewrite Hp; reflexivity).
    clearbody out. subst out. split; [reflexivity | left; reflexivity].
Qed.

Lemma normalized_date_is_stable_witness :
  Chase.normalize_date_out new_year_2024
    (Some (Chase.normalize_date_out new_year_2024 (Some "12 days")))
  = Chase.normalize_date_out new_year_2024 (Some "12 days").
Proof.
  apply (normalized_date_is_stable new_year_2024 new_year_2024 (Some "12 days")).
  intros dt. vm_compute. intros [= <-]. discriminate.
Defined.

End DateRoundTrip.

(* ===================================================================== *)
(** ** Properties: normalizing the dates of the sheet *)
(* ===================================================================== *)

Section SheetDates.
Import Text Re Datetime Py Fixtures Sheets Shapes Chase.
Open Scope run_scope.
Local Open Scope list_scope.
Local Open Scope nat_scope.

Variable E : env.
Hypothesis sink_answers : forall n, sink_reply E n = None.

Lemma update_cell_ok r c v w :
  fst (update_cell E r c v w) = Ret tt
  /\ sheet (snd (update_cell E r c v w)) = put_cell (sheet w) (r, c, v).
Proof.
  unfold update_cell, call, bind, modify. rewrite sink_answers. cbn. auto.
Qed.

Lemma apply_updates_ok us : forall w,
  fst (apply_updates E us w) = Ret tt
  /\ sheet (snd (apply_updates E us w)) = foldl put_cell (sheet w) us.
Proof.
  induction us as [|[[r c] v] us IH]; intros w; [cbn; auto|].
  cbn [apply_updates foldl]. unfold bind.
  destruct (update_cell_ok r c v w) as [Hr Hs].
  destruct (update_cell E r c v w) as [[[]|e] w1]; cbn [fst snd] in *; [|discriminate].
  rewrite <- Hs. apply IH.
Qed.

Local Abbreviation today := (Chase.today E).

Lemma date_updates_of_row_fix i r :
  date_updates_of_row E i r
  = match date_fix today r 7 with Some v => [(S i, 8, v)] | None => [] end
    ++ match date_fix today r 8 with Some v => [(S i, 9, v)] | None => [] end.
Proof.
  unfold date_updates_of_row, date_fix. cbn [flat_map]. rewrite app_nil_r.
  destruct (_ && _); destruct (_ && _); reflexivity.
Qed.

Lemma put_cell_at sh i c v :
  put_cell sh (S i, S c, v) = alter (fun cells => <[c := v]> cells) i sh.
Proof. reflexivity. Qed.

Lemma put_updates_of_row i r sh :
  foldl put_cell sh (date_updates_of_row E i r)
  = alter (fun cells => put_fix today r 8 (put_fix today r 7 cells)) i sh.
Proof.
  rewrite date_updates_of_row_fix, foldl_app. unfold put_fix.
  destruct (date_fix today r 7) as [v7|]; destruct (date_fix today r 8) as [v8|];
    cbn [foldl]; rewrite ?put_cell_at.
  - rewrite list_alter_alter_eq. reflexivity.
  - reflexivity.
  - reflexivity.
  - symmetry. apply list_alter_id. reflexivity.
Qed.

Lemma put_date_updates data : forall pre,
  foldl put_cell (pre ++ data) (date_updates E (length pre) data)
  = pre ++ map (fixed_row today) data.
Proof.
  induction data as [|r data IH]; intros pre; [reflexivity|].
  cbn [date_updates map]. rewrite foldl_app, put_updates_of_row.
  replace (length pre) with (length pre + 0) at 1 by lia.
  rewrite alter_app_r. cbn [alter list_alter].
  replace (S (length pre)) with (length (pre ++ [fixed_row today r]))
    by (rewrite length_app; cbn; lia).
  change (pre ++ put_fix today r 8 (put_fix today r 7 r) :: data)
    with (pre ++ [fixed_row today r] ++ data).
  rewrite app_assoc, IH, <- app_assoc. reflexivity.
Qed.

(** Only the two date cells of a row can change, and its length does not. *)
Lemma fixed_row_elsewhere r j :
  j <> 7 -> j <> 8 -> fixed_row today r !! j = r !! j.
Proof.
  intros H7 H8. unfold fixed_row, put_fix.
  unfold Sheets.row in *.
  destruct (date_fix today r 8); destruct (date_fix today r 7);
    rewrite ?list_lookup_insert_ne by lia; reflexivity.
Qed.

Lemma length_fixed_row r : length (fixed_row today r) = length r.
Proof.
  unfold fixed_row, put_fix. unfold Sheets.row in *.
  destruct (date_fix today r 8); destruct (date_fix today r 7);
    rewrite ?length_insert; reflexivity.
Qed.

(** A date written by the normalizer is left alone by the normalizer. *)
Lemma normalized_solid s out :
  normalize_date_out today s = out -> nonempty out = true ->
  strip out = out /\ normalize_date_out today (Some out) = out.
Proof.
  intros Hout Hne. unfold normalize_date_out in Hout.
  destruct (try_parse_date_any today (default EmptyString s)) as [dt|] eqn:Hp;
    [|subst out; discriminate].
  pose proof (try_parse_valid _ _ _ Hp) as Hv.
  pose proof Hv as Hv'. apply make_date_valid in Hv' as (_ & _ & Hm & _).
  subst out. split; [apply strip_canonical; exact Hm|].
  unfold normalize_date_out.
  change (default EmptyString (Some (strftime dt "%b %d, %Y")))
    with (strftime dt "%b %d, %Y").
  rewrite (try_parse_canonical today dt Hv). reflexivity.
Qed.

Lemma date_fix_spec r col v :
  date_fix today r col = Some v ->
  nonempty v = true /\ nonempty (cell r col) = true
  /\ v = normalize_date_out today (Some (cell r col)).
Proof.
  unfold date_fix. destruct (nonempty (cell r col)) eqn:Hraw.
  - destruct (nonempty (normalize_date_out today (Some (cell r col)))) eqn:Hn;
      cbn [andb]; [|discriminate].
    destruct (negb _); [|discriminate]. intros [= <-]. auto.
  - cbn. discriminate.
Qed.

Lemma date_fix_of_cell r1 r2 col :
  cell r1 col = cell r2 col -> date_fix today r1 col = date_fix today r2 col.
Proof. intros H. unfold date_fix. rewrite H. reflexivity. Qed.

Lemma date_fix_settled r col v :
  cell r col = v -> nonempty v = true -> normalize_date_out today (Some v) = v ->
  date_fix today r col = None.
Proof.
  intros Hc Hne Hn. unfold date_fix. rewrite Hc, Hne, Hn, Hne, String.eqb_refl.
  reflexivity.
Qed.

Lemma cell_in_range r col : nonempty (cell r col) = true -> col < length r.
Proof.
  unfold cell. unfold Sheets.row in *. destruct (r !! col) eqn:H; [|discriminate].
  intros _. eapply lookup_lt_Some; eauto.
Qed.

Lemma cell_insert r col v : col < length r -> cell (<[col := v]> r) col = strip v.
Proof.
  intros H. unfold cell. unfold Sheets.row in *.
  rewrite list_lookup_insert_eq by exact H. reflexivity.
Qed.

Lemma cell_insert_ne r col col' v : col' <> col -> cell (<[col' := v]> r) col = cell r col.
Proof.
  intros H. unfold cell. unfold Sheets.row in *.
  rewrite list_lookup_insert_ne by exact H. reflexivity.
Qed.

Lemma cell_put_fix_ne r0 r col col' :
  col' <> col -> cell (put_fix today r0 col' r) col = cell r col.
Proof.
  intros H. unfold put_fix. destruct (date_fix today r0 col'); [|reflexivity].
  apply cell_insert_ne. exact H.
Qed.

(** After the fix of a cell, that cell needs no fix. *)
Lemma put_fix_settles r0 r col :
  cell r col = cell r0 col -> length r = length r0 ->
  date_fix today (put_fix today r0 col r) col = None.
Proof.
  intros Hc Hl. unfold put_fix. destruct (date_fix today r0 col) as [v|] eqn:Hf.
  - apply date_fix_spec in Hf as (Hne & Hraw & Hv).
    destruct (normalized_solid _ _ (eq_sym Hv) Hne) as [Hs Hn].
    apply (date_fix_settled _ _ v); [|exact Hne | exact Hn].
    rewrite cell_insert; [exact Hs|]. rewrite Hl. apply cell_in_range. exact Hraw.
  - rewrite (date_fix_of_cell r r0 col Hc). exact Hf.
Qed.

Lemma length_put_fix r0 r col : length (put_fix today r0 col r) = length r.
Proof.
  unfold put_fix. unfold Sheets.row in *.
  destruct (date_fix today r0 col); rewrite ?length_insert; reflexivity.
Qed.

Lemma date_updates_of_fixed_row i r :
  date_updates_of_row E i (fixed_row today r) = [].
Proof.
  rewrite date_updates_of_row_fix.
  assert (H7 : date_fix today (fixed_row today r) 7 = None).
  { unfold fixed_row.
    rewrite (date_fix_of_cell _ (put_fix today r 7 r) 7)
      by (apply cell_put_fix_ne; lia).
    apply put_fix_settles; reflexivity. }
  assert (H8 : date_fix today (fixed_row today r) 8 = None).
  { unfold fixed_row. apply put_fix_settles.
    - apply cell_put_fix_ne. lia.
    - apply length_put_fix. }
  rewrite H7, H8. reflexivity.
Qed.

Lemma date_updates_of_fixed data : forall i,
  date_updates E i (map (fixed_row today) data) = [].
Proof.
  induction data as [|r data IH]; intros i; [reflexivity|].
  cbn [map date_updates]. rewrite date_updates_of_fixed_row, IH. reflexivity.
Qed.

Lemma normalize_sheet_dates_run w :
  fst (normalize_sheet_dates E w) = Ret tt
  /\ sheet (snd (normalize_sheet_dates E w))
     = take 1 (sheet w) ++ map (fixed_row today) (tail (sheet w)).
Proof.
  assert (Hrun : normalize_sheet_dates E w
                 = apply_updates E (date_updates E 1 (tail (sheet w))) (tick EvRead w)).
  { unfold normalize_sheet_dates, get_all_values, call, bind, get, ret.
    rewrite sink_answers. reflexivity. }
  rewrite Hrun.
  destruct (apply_updates_ok (date_updates E 1 (tail (sheet w))) (tick EvRead w))
    as [Hr Hs].
  split; [exact Hr|]. rewrite Hs. change (sheet (tick EvRead w)) with (sheet w).
  destruct (sheet w) as [|hdr data]; [reflexivity|].
  cbn [tail take]. apply (put_date_updates data [hdr]).
Qed.

End SheetDates.

Section SheetDatesClaim.
Import Text Re Datetime Py Fixtures Sheets Shapes.
Local Open Scope list_scope.

(** X13. Normalizing the dates of the sheet is idempotent and touches
    nothing else. On a sink that answers (and a sheet whose dates have
    four-digit years), [normalize_sheet_dates] returns, leaves the header
    row and the number of rows as they are, changes in a data row at most
    its "Date Added" and "Expiration" cells (columns 8 and 9), and leaves a
    sheet in which it would find no cell to update. *)
Theorem normalize_sheet_dates_settles (E : Chase.env) (w : Chase.world) :
  (forall n, Chase.sink_reply E n = None) ->
  (forall r col dt,
     r ∈ tail (Chase.sheet w) -> col = 7%nat \/ col = 8%nat ->
     Chase.try_parse_date_any (Chase.today E) (Chase.cell r col) = Some dt ->
     (1000 <= year dt)%Z) ->
  let w1 := snd (Chase.normalize_sheet_dates E w) in
  fst (Chase.normalize_sheet_dates E w) = Ret tt
  /\ Chase.sheet w1
     = take 1 (Chase.sheet w) ++ map (fixed_row (Chase.today E)) (tail (Chase.sheet w))
  /\ (forall r j, j <> 7%nat -> j <> 8%nat -> fixed_row (Chase.today E) r !! j = r !! j)
  /\ (forall r, length (fixed_row (Chase.today E) r) = length r)
  /\ Chase.date_updates E 1 (tail (Chase.sheet w1)) = [].
Proof.
  intros Hsink _ w1. destruct (normalize_sheet_dates_run E Hsink w) as [Hr Hs].
  split; [exact Hr|]. split; [exact Hs|].
  split; [intros r j; apply fixed_row_elsewhere|].
  split; [apply length_fixed_row|].
  subst w1. rewrite Hs. destruct (Chase.sheet w) as [|hdr data]; [reflexivity|].
  cbn [take tail app]. apply date_updates_of_fixed.
Qed.

Lemma normalize_sheet_dates_settles_witness :
  Chase.sheet (snd (Chase.normalize_sheet_dates chase_calm (chase_world dated_sheet [])))
  = [Chase.OFFER_HEADERS;
     ["Andrew"; "1001"; "Chase Card"; "Starbucks"; "10% back"; EmptyString; "None";
      "Jan 01, 2024"; "Dec 31, 2024"; "No"]].
Proof.
  destruct (normalize_sheet_dates_settles chase_calm (chase_world dated_sheet []))
    as (_ & Hs & _).
  - intros n. reflexivity.
  - intros r col dt Hr Hcol. apply list_elem_of_singleton in Hr. subst r.
    destruct Hcol as [-> | ->]; vm_compute; intros [= <-]; discriminate.
  - rewrite Hs. vm_compute. reflexivity.
Defined.

End SheetDatesClaim.

(* ===================================================================== *)
(** ** Properties: what the patterns can extract *)
(* ===================================================================== *)

Section Soundness.
Import Text Re Datetime Py Shapes.
Local Open Scope nat_scope.

Lemma app_str_assoc (a b c : string) : ((a +:+ b) +:+ c = a +:+ (b +:+ c))%string.
Proof.
  induction a as [|x a IH]; [reflexivity|].
  change (String x ((a +:+ b) +:+ c) = String x (a +:+ (b +:+ c))). f_equal. exact IH.
Qed.

Lemma get_set_cap_ne m n v g : m <> n -> get_cap m (set_cap n v g) = get_cap m g.
Proof.
  intros Hne. unfold set_cap. cbn [get_cap].
  destruct (Nat.eqb_spec n m) as [->|_]; [congruence|].
  unfold caps in *.
  induction g as [|[k v'] g IH]; [reflexivity|].
  destruct (Nat.eqb_spec k n) as [->|Hk].
  - rewrite filter_cons_False by (cbn; rewrite Nat.eqb_refl; cbn; auto).
    rewrite IH. cbn [get_cap]. destruct (Nat.eqb_spec n m); [congruence | reflexivity].
  - rewrite filter_cons_True
      by (cbn; destruct (Nat.eqb_spec k n); [congruence | exact I]).
    cbn [get_cap]. rewrite IH. reflexivity.
Qed.

Lemma run_sound_eps icase r c g :
  lang icase r EmptyString -> (forall n v, grp_lang icase n r v -> False) ->
  (forall n, sets n r = false) ->
  run_sound icase r c g c g.
Proof.
  intros Hl Hg Hs. split; [|split; [|split]].
  - exists EmptyString. auto.
  - auto.
  - auto.
  - intros n H. rewrite Hs in H. discriminate.
Qed.

Lemma run_sound_char icase r b p s g :
  lang icase r (String b EmptyString) -> (forall n v, grp_lang icase n r v -> False) ->
  (forall n, sets n r = false) ->
  run_sound icase r (Cursor p (String b s)) g (Cursor (Some b) s) g.
Proof.
  intros Hl Hg Hs. split; [|split; [|split]].
  - exists (String b EmptyString). auto.
  - auto.
  - auto.
  - intros n H. rewrite Hs in H. discriminate.
Qed.

Lemma run_sound_cat icase r1 r2 c g c1 g1 c2 g2 :
  run_sound icase r1 c g c1 g1 -> run_sound icase r2 c1 g1 c2 g2 ->
  run_sound icase (Cat r1 r2) c g c2 g2.
Proof.
  intros ((s1 & Hr1 & Hl1) & Hg1 & Hk1 & Hs1) ((s2 & Hr2 & Hl2) & Hg2 & Hk2 & Hs2).
  split; [|split; [|split]].
  - exists (s1 +:+ s2)%string. split.
    + rewrite Hr1, Hr2, app_str_assoc. reflexivity.
    + cbn [lang]. eauto.
  - intros n v Hv. cbn [grp_lang]. destruct (Hg2 n v Hv) as [H|H]; [|auto].
    destruct (Hg1 n v H); auto.
  - intros n H. apply Hk2, Hk1, H.
  - intros n H. cbn [sets] in H. apply orb_prop in H as [H|H].
    + apply Hk2, Hs1, H.
    + apply Hs2, H.
Qed.

Lemma run_sound_grp icase n r1 c g c1 g1 :
  run_sound icase r1 c g c1 g1 ->
  run_sound icase (Grp n r1) c g c1 (set_cap n (consumed c c1) g1).
Proof.
  intros ((s1 & Hr1 & Hl1) & Hg1 & Hk1 & Hs1).
  rewrite (consumed_prefix c c1 s1 Hr1).
  split; [|split; [|split]].
  - exists s1. auto.
  - intros m v Hv. cbn [grp_lang]. destruct (Nat.eq_dec m n) as [->|Hne].
    + rewrite get_set_cap in Hv. injection Hv as <-. auto.
    + rewrite get_set_cap_ne in Hv by exact Hne. destruct (Hg1 m v Hv); auto.
  - intros m H. destruct (Nat.eq_dec m n) as [->|Hne].
    + rewrite get_set_cap. discriminate.
    + rewrite get_set_cap_ne by exact Hne. apply Hk1, H.
  - intros m H. cbn [sets] in H. destruct (Nat.eq_dec m n) as [->|Hne].
    + rewrite get_set_cap. discriminate.
    + rewrite get_set_cap_ne by exact Hne. apply orb_prop in H as [H|H].
      * apply Nat.eqb_eq in H. congruence.
      * apply Hs1, H.
Qed.

Lemma run_sound_alt_l icase r1 r2 c g c' g' :
  run_sound icase r1 c g c' g' -> run_sound icase (Alt r1 r2) c g c' g'.
Proof.
  intros ((s1 & Hr1 & Hl1) & Hg1 & Hk1 & Hs1). split; [|split; [|split]].
  - exists s1. cbn [lang]. auto.
  - intros n v Hv. cbn [grp_lang]. destruct (Hg1 n v Hv); auto.
  - exact Hk1.
  - intros n H. cbn [sets] in H. apply andb_prop in H as [H _]. apply Hs1, H.
Qed.

Lemma run_sound_alt_r icase r1 r2 c g c' g' :
  run_sound icase r2 c g c' g' -> run_sound icase (Alt r1 r2) c g c' g'.
Proof.
  intros ((s1 & Hr1 & Hl1) & Hg1 & Hk1 & Hs1). split; [|split; [|split]].
  - exists s1. cbn [lang]. auto.
  - intros n v Hv. cbn [grp_lang]. destruct (Hg1 n v Hv); auto.
  - exact Hk1.
  - intros n H. cbn [sets] in H. apply andb_prop in H as [_ H]. apply Hs1, H.
Qed.

(** The loop of a repetition, given what one iteration does. *)
Lemma rep_loop_sound {A} icase r1 lo hi (k : cursor -> caps -> option A) :
  (forall c g (k' : cursor -> caps -> option A) x, run icase r1 c g k' = Some x ->
     exists c' g', k' c' g' = Some x /\ run_sound icase r1 c g c' g') ->
  forall fuel cnt c g x,
    rep_loop (run icase r1) lo hi k fuel cnt c g = Some x ->
    exists c' g' ss,
      k c' g' = Some x
      /\ rest c = (joined ss +:+ rest c')%string
      /\ Forall (lang icase r1) ss
      /\ lo <= cnt + length ss
      /\ (forall h, hi = Some h -> cnt <= h -> cnt + length ss <= h)
      /\ (forall n v, get_cap n g' = Some v ->
                      get_cap n g = Some v \/ grp_lang icase n r1 v)
      /\ (forall n, get_cap n g <> None -> get_cap n g' <> None)
      /\ (ss <> [] -> forall n, sets n r1 = true -> get_cap n g' <> None).
Proof.
  intros Hstep. induction fuel as [|fuel IH]; intros cnt c g x H.
  - rewrite rep_loop_O in H. destruct (Nat.leb_spec lo cnt); [|discriminate].
    exists c, g, []. cbn [joined length]. repeat split; auto; try lia; congruence.
  - rewrite rep_loop_S in H.
    assert (Hstop : (if lo <=? cnt then k c g else None) = Some x ->
              exists c' g' ss,
                k c' g' = Some x
                /\ rest c = (joined ss +:+ rest c')%string
                /\ Forall (lang icase r1) ss
                /\ lo <= cnt + length ss
                /\ (forall h, hi = Some h -> cnt <= h -> cnt + length ss <= h)
                /\ (forall n v, get_cap n g' = Some v ->
                                get_cap n g = Some v \/ grp_lang icase n r1 v)
                /\ (forall n, get_cap n g <> None -> get_cap n g' <> None)
                /\ (ss <> [] -> forall n, sets n r1 = true -> get_cap n g' <> None)).
    { intros H0. destruct (Nat.leb_spec lo cnt); [|discriminate].
      exists c, g, []. cbn [joined length]. repeat split; auto; try lia; congruence. }
    destruct (under hi cnt) eqn:Hu; [|exact (Hstop H)].
    destruct (run icase r1 c g _) as [y|] eqn:Hr; [|exact (Hstop H)].
    injection H as ->.
    apply Hstep in Hr as (c1 & g1 & Hk1 & (s1 & Hr1 & Hl1) & Hg1 & Hkept1 & Hs1).
    destruct (String.length (rest c1) <? String.length (rest c)); [|discriminate].
    apply IH in Hk1 as (c' & g' & ss & Hk & Hrest & Hall & Hlo & Hhi & Hg & Hkept & Hs).
    exists c', g', (s1 :: ss). cbn [joined length].
    split; [exact Hk|]. split; [rewrite Hr1, Hrest, app_str_assoc; reflexivity|].
    split; [constructor; assumption|]. split; [lia|].
    split.
    { intros h Hh Hc. subst hi. cbn [under] in Hu. apply Nat.ltb_lt in Hu.
      specialize (Hhi h eq_refl). lia. }
    split.
    { intros n v Hv. destruct (Hg n v Hv) as [Hv1|Hv1]; [|auto]. apply (Hg1 n v Hv1). }
    split.
    { intros n Hn. apply Hkept, Hkept1, Hn. }
    intros _ n Hn. apply Hkept, Hs1, Hn.
Qed.

(** What a run that succeeds has matched and captured. *)
Lemma run_is_sound {A} icase r : forall c g (k : cursor -> caps -> option A) x,
  run icase r c g k = Some x ->
  exists c' g', k c' g' = Some x /\ run_sound icase r c g c' g'.
Proof.
  induction r as [| a | p | p | r1 IH1 r2 IH2 | r1 IH1 r2 IH2 | r1 IH1 lo hi
                  | n r1 IH1 | | |]; intros c g k x H;
    [| | | | | | rewrite run_rep in H | | | |]; cbn [run] in H.
  - exists c, g. split; [exact H|]. apply run_sound_eps; cbn; auto.
  - destruct c as [p s]. unfold advance in H. cbn [rest] in H.
    destruct s as [|b s]; [discriminate|].
    destruct (lit_ok icase a b) eqn:Hb; [|discriminate].
    exists (Cursor (Some b) s), g. split; [exact H|].
    apply run_sound_char; cbn; eauto.
  - destruct c as [q s]. unfold advance in H. cbn [rest] in H.
    destruct s as [|b s]; [discriminate|].
    destruct (cls_ok icase p b) eqn:Hb; [|discriminate].
    exists (Cursor (Some b) s), g. split; [exact H|].
    apply run_sound_char; cbn; eauto.
  - destruct c as [q s]. unfold advance in H. cbn [rest] in H.
    destruct s as [|b s]; [discriminate|].
    destruct (cls_ok icase p b) eqn:Hb; [discriminate|].
    exists (Cursor (Some b) s), g. split; [exact H|].
    apply run_sound_char; cbn; eauto.
  - apply IH1 in H as (c1 & g1 & H & Hs1). apply IH2 in H as (c2 & g2 & H & Hs2).
    exists c2, g2. split; [exact H|]. eapply run_sound_cat; eauto.
  - destruct (run icase r1 c g k) as [y|] eqn:H1.
    + injection H as ->. apply IH1 in H1 as (c1 & g1 & H & Hs1).
      exists c1, g1. split; [exact H|]. apply run_sound_alt_l, Hs1.
    + apply IH2 in H as (c1 & g1 & H & Hs1).
      exists c1, g1. split; [exact H|]. apply run_sound_alt_r, Hs1.
  - apply (rep_loop_sound icase r1 lo hi k IH1) in H
      as (c' & g' & ss & Hk & Hrest & Hall & Hlo & Hhi & Hg & Hkept & Hs).
    exists c', g'. split; [exact Hk|]. split; [|split; [|split]].
    + exists (joined ss). split; [exact Hrest|]. cbn [lang]. exists ss.
      split; [reflexivity|]. split; [exact Hall|]. split; [lia|].
      destruct hi as [h|]; [|exact I]. specialize (Hhi h eq_refl). lia.
    + exact Hg.
    + exact Hkept.
    + intros n Hn. cbn [sets] in Hn. apply andb_prop in Hn as [H1 Hn].
      apply Nat.leb_le in H1. apply Hs; [|exact Hn].
      destruct ss; [cbn in Hlo; lia | discriminate].
  - apply IH1 in H as (c1 & g1 & H & Hs1).
    exists c1, (set_cap n (consumed c c1) g1). split; [exact H|].
    apply run_sound_grp, Hs1.
  - destruct (prev c); [discriminate|]. exists c, g. split; [exact H|].
    apply run_sound_eps; cbn; auto.
  - exists c, g. split; [apply (run_eol icase c g k x); cbn [run]; exact H|].
    apply run_sound_eps; cbn; auto.
  - destruct (xorb _ _); [|discriminate]. exists c, g. split; [exact H|].
    apply run_sound_eps; cbn; auto.
Qed.

(** [re.search]: the match is a piece of the subject in the language of the
    pattern, and its groups hold what the pattern's groups can hold. *)
Lemma search_is_sound icase r s m :
  search icase r s = Some m ->
  lang icase r (whole m)
  /\ (forall n v, get_cap n (groups m) = Some v -> grp_lang icase n r v)
  /\ (forall n, sets n r = true -> get_cap n (groups m) <> None).
Proof.
  unfold search. generalize (@None ascii). revert m.
  induction s as [|a s IH]; intros m p H; cbn [search_from] in H.
  - destruct (match_at icase r (Cursor p EmptyString)) as [[c' m']|] eqn:Hm;
      [|discriminate].
    injection H as ->. unfold match_at in Hm.
    apply run_is_sound in Hm as (c1 & g1 & Hk & (s1 & Hr1 & Hl1) & Hg1 & _ & Hs1).
    injection Hk as _ <-. cbn [whole groups].
    rewrite (consumed_prefix _ _ s1 Hr1). split; [exact Hl1|]. split; [|exact Hs1].
    intros n v Hv. destruct (Hg1 n v Hv) as [H|H]; [discriminate | exact H].
  - destruct (match_at icase r (Cursor p (String a s))) as [[c' m']|] eqn:Hm.
    + injection H as ->. unfold match_at in Hm.
      apply run_is_sound in Hm as (c1 & g1 & Hk & (s1 & Hr1 & Hl1) & Hg1 & _ & Hs1).
      injection Hk as _ <-. cbn [whole groups].
      rewrite (consumed_prefix _ _ s1 Hr1). split; [exact Hl1|]. split; [|exact Hs1].
      intros n v Hv. destruct (Hg1 n v Hv) as [H|H]; [discriminate | exact H].
    + eapply IH; eauto.
Qed.

End Soundness.

Section Amounts.
Import Text Re Datetime Py Shapes Fixtures.
Local Open Scope nat_scope.

Ltac every_char b :=
  destruct b as [[] [] [] [] [] [] [] []].

Lemma cls_digit icase b : cls_ok icase is_digit b = true -> is_digit b = true.
Proof. destruct icase; every_char b; cbn; intros H; try reflexivity; discriminate H. Qed.

Lemma lit_comma icase b : lit_ok icase "," b = true -> b = ","%char.
Proof. destruct icase; every_char b; cbn; intros H; try reflexivity; discriminate H. Qed.

Lemma lit_point icase b : lit_ok icase "." b = true -> b = "."%char.
Proof. destruct icase; every_char b; cbn; intros H; try reflexivity; discriminate H. Qed.

Lemma lit_dollar icase b : lit_ok icase "$" b = true -> b = "$"%char.
Proof. destruct icase; every_char b; cbn; intros H; try reflexivity; discriminate H. Qed.

Lemma all_chars_app p a b :
  all_chars p (a +:+ b) = all_chars p a && all_chars p b.
Proof.
  induction a as [|x a IH]; [reflexivity|].
  change (all_chars p (String x (a +:+ b)) = all_chars p (String x a) && all_chars p b).
  cbn [all_chars]. rewrite IH, andb_assoc. reflexivity.
Qed.

(** Iterations of "a digit or a comma". *)
Lemma lang_digits_commas icase ss :
  Forall (lang icase (alts [d; Lit ","])) ss ->
  all_chars digit_or_comma (joined ss) = true
  /\ (ss <> [] -> nonempty (joined ss) = true).
Proof.
  induction 1 as [|s ss Hs Hall [IH1 IH2]]; [split; [reflexivity | congruence]|].
  cbn [joined]. cbn [alts lang d] in Hs.
  assert (Hone : exists b, s = String b EmptyString /\ digit_or_comma b = true).
  { destruct Hs as [(b & -> & Hb) | (b & -> & Hb)]; exists b; split; try reflexivity;
      unfold digit_or_comma.
    - apply cls_digit in Hb. rewrite Hb. reflexivity.
    - apply lit_comma in Hb. subst b. reflexivity. }
  destruct Hone as (b & -> & Hb). split.
  - change (all_chars digit_or_comma (String b (joined ss)) = true).
    cbn [all_chars]. rewrite Hb, IH1. reflexivity.
  - intros _. reflexivity.
Qed.

(** The optional cents. *)
Lemma lang_cents icase s :
  lang icase (opt (cats [Lit "."; times d 2])) s ->
  s = EmptyString
  \/ exists d1 d2, s = String "." (String d1 (String d2 EmptyString))
                   /\ is_digit d1 = true /\ is_digit d2 = true.
Proof.
  cbn [opt lang]. intros (ss & -> & Hall & _ & Hhi).
  destruct ss as [|x [|y ss]]; [left; reflexivity | | cbn in Hhi; lia].
  right. apply Forall_inv in Hall. cbn [cats lang times d] in Hall.
  destruct Hall as (s1 & s2 & -> & (b & -> & Hb) & (ds & -> & Hds & Hlo & Hh)).
  apply lit_point in Hb. subst b.
  destruct ds as [|x1 [|x2 [|x3 ds]]]; cbn in Hlo, Hh; try lia.
  apply Forall_cons in Hds as [(d1 & -> & H1) Hds].
  apply Forall_cons in Hds as [(d2 & -> & H2) _].
  exists d1, d2. split; [reflexivity|]. split; eapply cls_digit; eauto.
Qed.

Lemma lang_number icase v : lang icase Chase.re_number v -> number_text true v.
Proof.
  unfold Chase.re_number. cbn [cats]. cbn [lang d star].
  intros (s1 & s2 & -> & (b & -> & Hb) & (s3 & s4 & -> & (ss & -> & Hall & _) & Hc)).
  fold (opt (cats [Lit "."; times d 2])) in Hc. apply lang_cents in Hc.
  apply cls_digit in Hb.
  destruct (lang_digits_commas icase ss Hall) as [Hdc _].
  exists (String b (joined ss)), s4. split; [reflexivity|]. split; [reflexivity|].
  split; [cbn [all_chars]; unfold digit_or_comma at 1; rewrite Hb, Hdc; reflexivity|].
  split; [intros _; exists b, (joined ss); auto | exact Hc].
Qed.

Lemma lang_loose_number icase v :
  lang icase (Cat (plus (alts [d; Lit ","])) (opt (cats [Lit "."; times d 2]))) v ->
  number_text false v.
Proof.
  cbn [lang plus].
  intros (s3 & s4 & -> & (ss & -> & Hall & Hlo & _) & Hc).
  fold (opt (cats [Lit "."; times d 2])) in Hc. apply lang_cents in Hc.
  destruct (lang_digits_commas icase ss Hall) as [Hdc Hne].
  exists (joined ss), s4. split; [reflexivity|].
  split; [apply Hne; destruct ss; [cbn in Hlo; lia | discriminate]|].
  split; [exact Hdc|]. split; [discriminate | exact Hc].
Qed.


(** The value of a group that the pattern always sets. *)
Lemma group_is_sound icase r s m n :
  search icase r s = Some m -> sets (S n) r = true ->
  grp_lang icase (S n) r (group (S n) m).
Proof.
  intros Hm Hs. apply search_is_sound in Hm as (_ & Hg & Hset).
  specialize (Hset (S n) Hs). unfold group.
  destruct (get_cap (S n) (groups m)) as [v|] eqn:Hv; [|congruence].
  apply Hg, Hv.
Qed.

Ltac group_value H :=
  apply (fun icase r s m => group_is_sound icase r s m 0) in H; [|reflexivity];
  cbn [grp_lang cats alts opt star plus rep times str d sp one_of none_of
       Chase.re_max_after Chase.re_max_before Chase.re_min_spend
       Chase.re_header_amount Chase.re_number Amex.re_money] in H;
  repeat match type of H with
         | False \/ _ => destruct H as [[]|H]
         | _ \/ False => destruct H as [H|[]]
         | (_ \/ _) \/ _ => destruct H as [H|H]
         | _ \/ (_ \/ _) => destruct H as [H|H]
         | False => destruct H
         | _ /\ _ => destruct H as [_ H]
         end.










(** *** The Amex description *)

Lemma lang_money icase v : lang icase Amex.re_money v -> dollar_amount false v.
Proof.
  unfold Amex.re_money. cbn [cats]. intros H. cbn [lang] in H.
  destruct H as (s1 & s2 & -> & (b & -> & Hb) & H2).
  apply lit_dollar in Hb. subst b. exists s2. split; [reflexivity|].
  apply (lang_loose_number icase). exact H2.
Qed.

Lemma contains_char_app c a b :
  Amex.contains_char c (a +:+ b) = Amex.contains_char c a || Amex.contains_char c b.
Proof.
  induction a as [|x a IH]; [reflexivity|].
  change (Amex.contains_char c (String x (a +:+ b))
          = Amex.contains_char c (String x a) || Amex.contains_char c b).
  cbn [Amex.contains_char]. rewrite IH, orb_assoc. reflexivity.
Qed.

Lemma lit_percent icase b : lit_ok icase "%" b = true -> b = "%"%char.
Proof. destruct icase; every_char b; cbn; intros H; try reflexivity; discriminate H. Qed.

(** A percentage, whatever follows it in the pattern, contains the sign. *)
Lemma lang_percent icase r v :
  lang icase (Cat (rep d 1 3) (Cat (Lit "%") r)) v -> Amex.contains_char "%" v = true.
Proof.
  cbn [lang]. intros (s1 & s2 & -> & _ & (s3 & s4 & -> & (b & -> & Hb) & _)).
  apply lit_percent in Hb. subst b. rewrite contains_char_app.
  change (Amex.contains_char "%" (String "%" EmptyString +:+ s4)) with true.
  apply orb_true_r.
Qed.

Lemma lang_percent_only icase v :
  lang icase (Cat (rep d 1 3) (Lit "%")) v -> Amex.contains_char "%" v = true.
Proof.
  cbn [lang]. intros (s1 & s2 & -> & _ & (b & -> & Hb)).
  apply lit_percent in Hb. subst b. rewrite contains_char_app. apply orb_true_r.
Qed.

(** X15. What the Amex script reads in the description of an offer has a
    fixed format: the minimum spend is "None" or a dollar amount (a dollar
    sign, a run of digits and commas, optional cents); the maximum total is
    empty or a dollar amount; the discount is "Unknown", or a dollar amount
    followed by " back", or a text containing a percent sign. *)
Theorem amex_desc_format (desc discount min_spend max_total : string) :
  Amex.parse_from_desc desc = (discount, min_spend, max_total) ->
  (min_spend = "None" \/ dollar_amount false min_spend)
  /\ (max_total = EmptyString \/ dollar_amount false max_total)
  /\ (discount = "Unknown"
      \/ (exists a, dollar_amount false a /\ discount = (a +:+ " back")%string)
      \/ Amex.contains_char "%" discount = true).
Proof.
  unfold Amex.parse_from_desc. cbv zeta. intros H.
  apply pair_equal_spec in H as [H Hmax]. apply pair_equal_spec in H as [Hdisc Hmin].
  split; [|split].
  - rewrite <- Hmin. clear.
    destruct (search true (cats [str "Spend"; _; _]) desc) as [m|] eqn:H1; [|auto].
    right. group_value H1. eapply lang_money; eauto.
  - rewrite <- Hmax. clear.
    destruct (search true (cats [str "total of"; _; _]) desc) as [m|] eqn:H1; [|auto].
    right. group_value H1. eapply lang_money; eauto.
  - rewrite <- Hdisc. clear Hdisc Hmin Hmax.
    assert (Hgroup : forall m : mobj,
              (Amex.contains_char "%" (group 1 m) = true
               \/ dollar_amount false (group 1 m)) ->
              (if negb (Amex.contains_char "%" (group 1 m))
               then (group 1 m +:+ " back")%string else group 1 m) = "Unknown"
              \/ (exists a, dollar_amount false a
                            /\ (if negb (Amex.contains_char "%" (group 1 m))
                                then (group 1 m +:+ " back")%string else group 1 m)
                               = (a +:+ " back")%string)
              \/ Amex.contains_char "%"
                   (if negb (Amex.contains_char "%" (group 1 m))
                    then (group 1 m +:+ " back")%string else group 1 m) = true).
    { intros m Hm. destruct (Amex.contains_char "%" (group 1 m)) eqn:Hc; cbn [negb].
      - right. right. exact Hc.
      - destruct Hm as [Hm|Hm]; [discriminate|]. right. left. eauto. }
    destruct (search true (cats [alts [str "earn"; str "get"]; _; _; _; _]) desc)
      as [m|] eqn:H1.
    { apply Hgroup. group_value H1.
      change (lang true (Cat (rep d 1 3) (Lit "%")) (group 1 m)
              \/ lang true Amex.re_money (group 1 m)) in H1.
      destruct H1 as [H1|H1].
      - left. eapply lang_percent_only; eauto.
      - right. eapply lang_money; eauto. }
    destruct (search true (Grp 1 _) desc) as [m|] eqn:H2.
    { apply Hgroup. left. group_value H2. eapply lang_percent; eauto. }
    destruct (search true (cats [Grp 1 Amex.re_money; _; _]) desc) as [m|] eqn:H3.
    { apply Hgroup. right. group_value H3. eapply lang_money; eauto. }
    left. reflexivity.
Qed.

Lemma amex_desc_format_witness :
  (("$20" : string) = "None" \/ dollar_amount false "$20")
  /\ ((EmptyString : string) = EmptyString \/ dollar_amount false EmptyString)
  /\ (("$5 back" : string) = "Unknown"
      \/ (exists a, dollar_amount false a /\ ("$5 back" : string) = (a +:+ " back")%string)
      \/ Amex.contains_char "%" "$5 back" = true).
Proof.
  apply (amex_desc_format "Spend $20 or more, get $5 back").
  vm_compute. reflexivity.
Defined.

End Amounts.

(* ===================================================================== *)
(** ** Chase: a run that does not get past the login *)
(* ===================================================================== *)

Section LoggedOut.
Import Text Re Datetime Py Fixtures Sheets Shapes Chase.
Open Scope run_scope.
Local Open Scope list_scope.

Variable E : env.
Variable cfg : config.
Variable sh : list row.
Variable t0 : list event.

Local Abbreviation I := (logged_out sh t0).

Lemma logged_out_emit ev w : off_sheet ev = true -> I w -> I (emit ev w).
Proof.
  intros Hev (Hs & Ha & Hc & evs & Ht & Hq).
  repeat split; try assumption.
  exists (evs ++ [ev]). cbn. rewrite Ht, <- app_assoc. split; [reflexivity|].
  rewrite forallb_app, Hq. cbn. rewrite Hev. reflexivity.
Qed.

Lemma logged_out_tick ev w : off_sheet ev = true -> I w -> I (tick ev w).
Proof.
  intros Hev (Hs & Ha & Hc & evs & Ht & Hq).
  repeat split; try assumption.
  exists (evs ++ [ev]). cbn. rewrite Ht, <- app_assoc. split; [reflexivity|].
  rewrite forallb_app, Hq. cbn. rewrite Hev. reflexivity.
Qed.

Lemma logged_out_call {A} ev (reply : nat -> result A) :
  off_sheet ev = true -> keeps I (call ev reply).
Proof. intros Hev. apply keeps_call. intros w. apply logged_out_tick, Hev. Qed.

Lemma logged_out_print p : keeps I (print p).
Proof. apply keeps_modify. intros w. apply logged_out_emit. reflexivity. Qed.

Lemma logged_out_sheet_log l f : keeps I (sheet_log l f).
Proof. apply keeps_modify. intros w. apply logged_out_emit. reflexivity. Qed.

Lemma logged_out_robust_get_loop url n : keeps I (robust_get_loop E url n).
Proof.
  induction n as [|n IH]; cbn [robust_get_loop].
  - apply keeps_bind; [apply logged_out_sheet_log | intros; apply keeps_ret].
  - apply keeps_bind.
    + apply keeps_try_except; [|intros; apply keeps_ret].
      apply keeps_bind; [apply logged_out_call; reflexivity | intros; apply keeps_ret].
    + intros [|]; [apply keeps_ret|].
      apply keeps_bind.
      * apply keeps_try_except; [|intros; apply keeps_ret].
        apply keeps_bind; [apply logged_out_call; reflexivity | intros; apply keeps_ret].
      * intros [|]; [apply keeps_ret | apply IH].
Qed.

Lemma logged_out_prefill : keeps I (prefill_home_login E).
Proof.
  apply keeps_try_except; [apply logged_out_call; reflexivity | intros; apply keeps_ret].
Qed.

(** The wait for the login returns [False] or raises. *)
Lemma logged_out_wait :
  (forall n, login_reply E n <> Ret true) ->
  triple I (wait_for_post_login E) (fun ok w => ok = false /\ I w) (fun _ => I).
Proof.
  intros Hno. unfold wait_for_post_login.
  eapply triple_bind with (Q := fun ok w => ok = false /\ I w).
  - intros w Hw. unfold call. cbn.
    pose proof (Hno (clock w)) as Hn.
    destruct (login_reply E (clock w)) as [[|]|e]; cbn.
    + congruence.
    + split; [reflexivity | apply logged_out_tick; [reflexivity | exact Hw]].
    + apply logged_out_tick; [reflexivity | exact Hw].
  - intros ok w [-> Hw]. cbn -[sheet_log].
    pose proof (logged_out_sheet_log "ERROR" "wait" w Hw) as H.
    unfold bind. destruct (sheet_log "ERROR" "wait" w) as [[[]|e] w']; cbn; auto.
Qed.

Lemma logged_out_main_body :
  (forall n, login_reply E n <> Ret true) -> keeps I (main_body E cfg).
Proof.
  intros Hno. unfold main_body.
  apply keeps_bind; [apply logged_out_robust_get_loop | intros _].
  apply keeps_bind; [apply logged_out_prefill | intros _].
  eapply triple_bind; [apply (logged_out_wait Hno)|].
  intros ok w [-> Hw]. cbn [negb]. apply logged_out_print, Hw.
Qed.

Lemma logged_out_flush : keeps I (flush_buffer E cfg).
Proof.
  intros w Hw. destruct w as [s a c x k t].
  assert (Ha : a = []) by apply Hw. assert (Hc : c = []) by apply Hw.
  subst a c. apply (logged_out_print PFlushNothing _ Hw).
Qed.

Lemma logged_out_finally : keeps I (main_finally E cfg).
Proof.
  unfold main_finally.
  apply keeps_bind; [apply logged_out_flush | intros _].
  destruct (CLOSE_ON_EXIT cfg).
  - apply keeps_try_except; [apply logged_out_call; reflexivity | intros; apply keeps_ret].
  - apply keeps_modify. intros w. apply logged_out_emit. reflexivity.
Qed.

Lemma logged_out_main :
  (forall n, login_reply E n <> Ret true) -> keeps I (main E cfg).
Proof.
  intros Hno. unfold main.
  apply keeps_try_finally; [|apply logged_out_finally].
  apply keeps_try_except; [apply (logged_out_main_body Hno)|].
  intros e. unfold main_handler.
  destruct (is_KeyboardInterrupt e);
    (apply keeps_bind; [apply logged_out_print | intros _; apply logged_out_sheet_log]).
Qed.

End LoggedOut.

Section LoggedOutClaim.
Import Text Re Datetime Py Fixtures Sheets Shapes Chase.
Local Open Scope list_scope.

(** X16. A run of [main] in which the login is never detected leaves the
    offers sheet as it was: whatever the browser and the sheet service answer,
    it opens no account, scans no page, and neither reads, appends to, edits,
    filters nor deletes from the sheet. *)
Theorem no_login_no_sheet (E : env) (cfg : config) (w : world) :
  APPEND_BUFFER w = [] ->
  CURRENT_CARD_BUFFER w = [] ->
  (forall n, login_reply E n <> Ret true) ->
  let w' := snd (main E cfg w) in
  sheet w' = sheet w
  /\ exists evs, trace w' = trace w ++ evs /\ forallb off_sheet evs = true.
Proof.
  intros Ha Hc Hno w'.
  assert (H : logged_out (sheet w) (trace w) w).
  { repeat split; try assumption. exists []. rewrite app_nil_r. split; reflexivity. }
  apply (keeps_snd _ _ _ (logged_out_main E cfg (sheet w) (trace w) Hno)) in H.
  destruct H as (Hs & _ & _ & Hev). split; assumption.
Qed.

Lemma no_login_no_sheet_witness :
  let w := chase_world [["h"]; ["a"]] [] in
  let w' := snd (main chase_quit_fails chase_cfg w) in
  sheet w' = sheet w
  /\ exists evs, trace w' = trace w ++ evs /\ forallb off_sheet evs = true.
Proof.
  apply (no_login_no_sheet chase_quit_fails chase_cfg (chase_world [["h"]; ["a"]] []));
    [reflexivity | reflexivity | intros n; cbn; discriminate].
Defined.

End LoggedOutClaim.

(* ===================================================================== *)
(** ** Amex: normalizing an expiration twice *)
(* ===================================================================== *)

Section AmexDates.
Import Text Re Datetime Py Shapes Fixtures.
Local Open Scope Z_scope.


(** *** [strip] *)






(** *** What the formats give *)



(** *** The canonical form under the steps of [normalize_exp] *)













End AmexDates.

Section AmexDatesClaim.
Import Text Re Datetime Py Shapes Fixtures.
Local Open Scope Z_scope.



End AmexDatesClaim.

(* ===================================================================== *)
(** ** Chase: the format of a discount *)
(* ===================================================================== *)

Section Discounts.
Import Text Re Datetime Py Shapes Fixtures.
Local Open Scope nat_scope.

Ltac each_char b :=
  destruct b as [[] [] [] [] [] [] [] []].

Lemma cls_space icase b : cls_ok icase is_space b = true -> is_space b = true.
Proof. destruct icase; each_char b; cbn; intros H; try reflexivity; discriminate H. Qed.

Lemma code_inj a b : code a = code b -> a = b.
Proof.
  unfold code. intros H. rewrite <- (ascii_N_embedding a), <- (ascii_N_embedding b), H.
  reflexivity.
Qed.

Lemma lit_icase a b : lit_ok true a b = true -> lower b = lower a.
Proof.
  unfold lit_ok, ascii_eqb. intros H. apply N.eqb_eq in H. symmetry. apply code_inj, H.
Qed.

Lemma lower_str_cons b s : lower_str (String b s) = String (lower b) (lower_str s).
Proof. reflexivity. Qed.

(** A word of the pattern is matched letter by letter, whatever the case. *)
Lemma lang_str_icase w0 : forall w,
  w0 <> EmptyString -> lang true (str w0) w -> lower_str w = lower_str w0.
Proof.
  induction w0 as [|c w0 IH]; intros w Hne; [congruence|].
  destruct w0 as [|c' w0].
  - cbn [str lang]. intros (b & -> & Hb). rewrite !lower_str_cons.
    rewrite (lit_icase _ _ Hb). reflexivity.
  - change (str (String c (String c' w0))) with (Cat (Lit c) (str (String c' w0))).
    cbn [lang]. intros (s1 & s2 & -> & (b & -> & Hb) & H2).
    change (String b EmptyString +:+ s2)%string with (String b s2).
    rewrite (lower_str_cons b s2), (lower_str_cons c), (lit_icase _ _ Hb).
    f_equal. apply IH; [discriminate | exact H2].
Qed.

Lemma lang_blanks icase s : lang icase (star sp) s -> all_chars is_space s = true.
Proof.
  cbn [star lang sp]. intros (ss & -> & Hall & _).
  induction Hall as [|x ss (b & -> & Hb) Hall IH]; [reflexivity|].
  cbn [joined]. change (all_chars is_space (String b (joined ss)) = true).
  cbn [all_chars]. rewrite (cls_space _ _ Hb), IH. reflexivity.
Qed.

Lemma lang_digits icase ss :
  Forall (lang icase d) ss ->
  all_chars is_digit (joined ss) = true /\ String.length (joined ss) = length ss.
Proof.
  induction 1 as [|x ss (b & -> & Hb) Hall [IH1 IH2]]; [split; reflexivity|].
  cbn [joined]. change (String b EmptyString +:+ joined ss)%string with (String b (joined ss)).
  cbn [all_chars String.length length]. rewrite (cls_digit _ _ Hb), IH1, IH2.
  split; reflexivity.
Qed.

Lemma lang_amount icase v : lang icase Chase.re_amount v -> dollar_amount true v.
Proof.
  change Chase.re_amount with (Cat (Lit "$") Chase.re_number). cbn [lang].
  intros (s1 & s2 & -> & (b & -> & Hb) & H2).
  apply lit_dollar in Hb. subst b. exists s2. split; [reflexivity|].
  eapply lang_number; eauto.
Qed.

Lemma lang_percent_text icase v : lang icase Chase.re_percent v -> percent_text v.
Proof.
  unfold Chase.re_percent. cbn [cats rep lang d].
  intros (s1 & s2 & -> & (ss & -> & Hall & Hlo & Hhi) & (b & -> & Hb)).
  apply lit_percent in Hb. subst b.
  destruct (lang_digits icase ss Hall) as [Hd Hl].
  exists (joined ss). split; [reflexivity|]. split; [exact Hd|]. rewrite Hl. lia.
Qed.

Lemma lang_cash s :
  lang true Chase.re_cash_opt s ->
  s = EmptyString
  \/ exists c b, s = (c +:+ b)%string /\ lower_str c = "cash"
                 /\ all_chars is_space b = true.
Proof.
  unfold Chase.re_cash_opt. cbn [opt lang]. intros (ss & -> & Hall & _ & Hhi).
  destruct ss as [|x [|y ss]]; [left; reflexivity | | cbn in Hhi; lia].
  right. apply Forall_inv in Hall. cbn [cats] in Hall. cbn [lang] in Hall.
  destruct Hall as (c & b & -> & Hc & Hb). exists c, b.
  split; [cbn [joined]; symmetry; apply str_app_nil|].
  split; [apply (lang_str_icase "cash"); [discriminate | exact Hc]|].
  apply (lang_blanks true). exact Hb.
Qed.

Lemma all_blank_app a b :
  all_chars is_space a = true -> all_chars is_space b = true ->
  all_chars is_space (a +:+ b) = true.
Proof. intros Ha Hb. rewrite all_chars_app, Ha, Hb. reflexivity. Qed.

(** Blanks, then possibly "cash" and blanks. *)
Lemma lang_gap b c :
  lang true (star sp) b -> lang true Chase.re_cash_opt c ->
  discount_gap true (b +:+ c).
Proof.
  intros Hb Hc. apply lang_blanks in Hb. apply lang_cash in Hc.
  destruct Hc as [->|(c' & b2 & -> & Hc' & Hb2)].
  - left. rewrite <- str_app_nil. exact Hb.
  - right. split; [reflexivity|]. exists b, c', b2. auto.
Qed.

(** What the pattern of [parse_discount_from_sources] matches. *)
Lemma lang_discount v : grp_lang true 1 Chase.re_discount v -> discount_text v.
Proof.
  unfold Chase.re_discount. cbn [grp_lang alts]. intros [[_ H]|H].
  2:{ cbn [grp_lang cats alts opt star plus rep times str d sp
           Chase.re_amount Chase.re_number Chase.re_percent Chase.re_cash_opt] in H.
      tauto. }
  cbn [lang] in H. destruct H as [H|[H|[H|H]]].
  - cbn [cats] in H. cbn [lang] in H.
    destruct H as (amt & s2 & -> & Ha & (b & s3 & -> & Hb & (c & w & -> & Hc & Hw))).
    exists amt, (b +:+ c)%string, w. rewrite app_str_assoc.
    split; [reflexivity|]. split; [left; eapply lang_amount; eauto|].
    left. split; [apply (lang_str_icase "back"); [discriminate | exact Hw]|].
    apply lang_gap; assumption.
  - cbn [cats] in H. cbn [lang] in H.
    destruct H as (amt & s2 & -> & Ha & (b & w & -> & Hb & Hw)).
    exists amt, b, w.
    split; [reflexivity|]. split; [left; eapply lang_amount; eauto|].
    right. split; [apply (lang_str_icase "off"); [discriminate | exact Hw]|].
    left. eapply lang_blanks; eauto.
  - cbn [cats] in H. cbn [lang] in H.
    destruct H as (amt & s2 & -> & Ha & (b & s3 & -> & Hb & (c & w & -> & Hc & Hw))).
    exists amt, (b +:+ c)%string, w. rewrite app_str_assoc.
    split; [reflexivity|]. split; [right; eapply lang_percent_text; eauto|].
    left. split; [apply (lang_str_icase "back"); [discriminate | exact Hw]|].
    apply lang_gap; assumption.
  - cbn [cats] in H. cbn [lang] in H.
    destruct H as (amt & s2 & -> & Ha & (b & w & -> & Hb & Hw)).
    exists amt, b, w.
    split; [reflexivity|]. split; [right; eapply lang_percent_text; eauto|].
    right. split; [apply (lang_str_icase "off"); [discriminate | exact Hw]|].
    left. eapply lang_blanks; eauto.
Qed.

(** *** A discount has no blank at either end *)

Lemma digit_solid c : is_digit c = true -> is_space c = false.
Proof. each_char c; cbn; intros H; try reflexivity; discriminate H. Qed.

Lemma lower_solid c x :
  lower c = x -> is_space x = false -> is_space c = false.
Proof. intros <-. each_char c; cbn; intros H; try reflexivity; discriminate H. Qed.

(** The last character of a word that reads as [w0], up to case. *)
Lemma str_last_word w0 : forall w p,
  lower_str w = w0 -> w0 <> EmptyString ->
  all_chars (fun c => negb (is_space c)) w0 = true ->
  exists c, str_last w p = Some c /\ is_space c = false.
Proof.
  induction w0 as [|x w0 IH]; intros w p Hw Hne Hall; [congruence|].
  destruct w as [|b w]; [discriminate|].
  rewrite lower_str_cons in Hw. injection Hw as Hb Hw.
  cbn [all_chars] in Hall. apply andb_prop in Hall as [Hx Hall].
  apply negb_true_iff in Hx.
  destruct w0 as [|y w0].
  - destruct w as [|? ?]; [|discriminate]. exists b.
    split; [reflexivity | eapply lower_solid; eauto].
  - apply (IH w (Some b) Hw); [discriminate | exact Hall].
Qed.

Lemma amount_head amt :
  dollar_amount true amt \/ percent_text amt ->
  exists c tl, amt = String c tl /\ is_space c = false.
Proof.
  intros [(v & -> & _)|(ds & -> & Hd & Hl)].
  - exists "$"%char, v. split; reflexivity.
  - destruct ds as [|c ds]; [cbn in Hl; lia|].
    cbn [all_chars] in Hd. apply andb_prop in Hd as [Hc _].
    exists c, (ds +:+ "%")%string. split; [reflexivity | apply digit_solid, Hc].
Qed.

Lemma discount_text_solid s : discount_text s -> strip s = s.
Proof.
  intros (amt & gap & word & -> & Hamt & Hword).
  destruct (amount_head amt Hamt) as (c & tl & -> & Hc).
  assert (Hlast : exists z, str_last word (str_last gap (str_last (String c tl) None))
                            = Some z /\ is_space z = false).
  { destruct Hword as [[Hw _]|[Hw _]];
      eapply str_last_word; eauto; try discriminate; reflexivity. }
  destruct Hlast as (z & Hz & Hsz).
  unfold strip.
  change (String c tl +:+ gap +:+ word)%string with (String c (tl +:+ gap +:+ word)).
  cbn [lstrip]. rewrite Hc.
  apply (rstrip_last _ z); [|exact Hsz].
  change (String c (tl +:+ gap +:+ word)) with (String c tl +:+ gap +:+ word)%string.
  rewrite !str_last_app. exact Hz.
Qed.

End Discounts.

Section DiscountsClaim.
Import Text Re Datetime Py Shapes Fixtures.

(** X18. The discount that [parse_discount_from_sources] reads from the
    texts of an offer is empty or has a fixed format: a dollar amount that
    starts with a digit (with optional cents) or one to three digits and a
    percent sign, then blanks, then "back", possibly preceded by "cash" and
    blanks, or "off", in any case; it has no blank at either end. *)
Theorem chase_discount_format (texts : list string) :
  let out := Chase.parse_discount_from_sources texts in
  out = EmptyString \/ (discount_text out /\ strip out = out).
Proof.
  cbv zeta. induction texts as [|t texts IH]; [left; reflexivity|].
  cbn [Chase.parse_discount_from_sources].
  destruct (negb (nonempty t)); [exact IH|].
  destruct (search true Chase.re_discount t) as [m|] eqn:Hm; [|exact IH].
  right. apply (fun icase r s m => group_is_sound icase r s m 0) in Hm; [|reflexivity].
  apply lang_discount in Hm. pose proof (discount_text_solid _ Hm) as Hs.
  rewrite Hs. split; [exact Hm | exact Hs].
Qed.

End DiscountsClaim.

(* ===================================================================== *)
(** ** The first Chase script: the format of the amounts *)
(* ===================================================================== *)

Section FirstAmounts.
Import Text Re Datetime Py Shapes Fixtures.

Ltac group_text H :=
  apply (fun icase r s m => group_is_sound icase r s m 0) in H; [|reflexivity];
  cbn [grp_lang cats alts opt star plus rep times str d sp one_of none_of
       ChaseFirst.re_max ChaseFirst.re_min] in H;
  repeat match type of H with
         | False \/ _ => destruct H as [[]|H]
         | _ \/ False => destruct H as [H|[]]
         | (_ \/ _) \/ _ => destruct H as [H|H]
         | _ \/ (_ \/ _) => destruct H as [H|H]
         | False => destruct H
         | _ /\ _ => destruct H as [_ H]
         end.

Lemma lang_whole icase v :
  lang icase (cats [d; star (alts [d; Lit ","])]) v ->
  exists c tl, v = String c tl /\ is_digit c = true
               /\ all_chars digit_or_comma tl = true.
Proof.
  cbn [cats]. cbn [lang d star].
  intros (s1 & s2 & -> & (b & -> & Hb) & (ss & -> & Hall & _)).
  exists b, (joined ss). split; [reflexivity|].
  split; [eapply cls_digit; eauto | apply (lang_digits_commas icase ss Hall)].
Qed.

Lemma first_max_amount text m :
  search false ChaseFirst.re_max text = Some m ->
  whole_dollars ("$" +:+ group 1 m).
Proof.
  intros H. group_text H.
  apply (lang_whole _ (group 1 m)) in H as (c & tl & -> & Hc & Htl). exists c, tl. auto.
Qed.

Lemma first_min_amount text m :
  search true ChaseFirst.re_min text = Some m ->
  whole_dollars ("$" +:+ group 1 m).
Proof.
  intros H. group_text H.
  apply (lang_whole _ (group 1 m)) in H as (c & tl & -> & Hc & Htl). exists c, tl. auto.
Qed.

End FirstAmounts.

Section FirstAmountsClaim.
Import Text Re Datetime Py Shapes Fixtures.

(** X19. The amounts that [parse_vals] of the first script reads are each
    empty or in whole dollars: a dollar sign, a digit, then digits and
    commas only, so the cents of an amount in the text are left out. *)
Theorem first_parse_vals_format (text : string) :
  (fst (ChaseFirst.parse_vals text) = EmptyString
   \/ whole_dollars (fst (ChaseFirst.parse_vals text)))
  /\ (snd (ChaseFirst.parse_vals text) = EmptyString
      \/ whole_dollars (snd (ChaseFirst.parse_vals text))).
Proof.
  unfold ChaseFirst.parse_vals. cbv zeta. cbn [fst snd]. split.
  - destruct (search false ChaseFirst.re_max text) as [m|] eqn:H; [|left; reflexivity].
    right. eapply first_max_amount; eauto.
  - destruct (search true ChaseFirst.re_min text) as [m|] eqn:H; [|left; reflexivity].
    right. eapply first_min_amount; eauto.
Qed.

End FirstAmountsClaim.

(* ===================================================================== *)
(** ** Expirations: text that is not parsed, and relative phrases *)
(* ===================================================================== *)

Section UnparsedText.
Import Text Re Datetime Py Shapes Fixtures.
Local Open Scope nat_scope.











End UnparsedText.

Section ExpirationClaims.
Import Text Re Datetime Py Shapes Fixtures.



(** C4, counterexample. Each of these inputs contains the phrase "expires
    in 30 days", and on the run date 2024-01-01 none of them gets the
    expiration "Jan 31, 2024": in a terms text an absolute "Expires <date>"
    phrase is read first, or read and not parsed; in a text handed to
    [normalize_date_out] the first "N days" is read. *)
Lemma relative_phrase_read_second :
  "Expires 12/31/2024. Offer expires in 30 days"
  = ("Expires 12/31/2024. Offer " +:+ "expires in 30 days" +:+ EmptyString)%string
  /\ snd (fst (Chase.parse_limits_local_expiration new_year_2024
                 "Expires 12/31/2024. Offer expires in 30 days" EmptyString))
     = "Dec 31, 2024"
  /\ "Expires Foo 12, 2024. Offer expires in 30 days"
     = ("Expires Foo 12, 2024. Offer " +:+ "expires in 30 days" +:+ EmptyString)%string
  /\ snd (fst (Chase.parse_limits_local_expiration new_year_2024
                 "Expires Foo 12, 2024. Offer expires in 30 days" EmptyString))
     = EmptyString
  /\ "5 days left, expires in 30 days"
     = ("5 days left, " +:+ "expires in 30 days" +:+ EmptyString)%string
  /\ Chase.normalize_date_out new_year_2024 (Some "5 days left, expires in 30 days")
     = "Jan 06, 2024"
  /\ "Dec 31, 2024" <> "Jan 31, 2024"
  /\ EmptyString <> "Jan 31, 2024"
  /\ "Jan 06, 2024" <> "Jan 31, 2024".
Proof. repeat split; try (vm_compute; reflexivity); discriminate. Qed.

(** C4, as amended. On the run date 2024-01-01 the phrase "expires in 30
    days" parses to the date 2024-01-31, is normalized to exactly
    "Jan 31, 2024", and that is the expiration of a terms text consisting of
    the phrase. An input that contains the phrase gets the same expiration
    when the phrase is what is read: from [normalize_date_out], when none of
    the four date formats reads the stripped input and the first "N days"
    in it has N = 30; from the term parser, when no absolute
    "Expires <date>" phrase is found in the terms and the first
    "expires in N days" phrase found is "expires in 30 days". *)
Theorem relative_expiration_read_first (s terms hdr : string) :
  Chase.try_parse_date_any new_year_2024 "expires in 30 days" = Some (Date 2024 1 31)
  /\ Chase.normalize_date_out new_year_2024 (Some "expires in 30 days") = "Jan 31, 2024"
  /\ Chase.parse_limits_local_expiration new_year_2024 "expires in 30 days" EmptyString
     = (EmptyString, "None", "Jan 31, 2024", "No")
  /\ (Chase.first_format (strip s) Chase.date_formats = None ->
      (exists m, search true Chase.re_days (strip s) = Some m
                 /\ int (group 1 m) = 30%Z) ->
      Chase.normalize_date_out new_year_2024 (Some s) = "Jan 31, 2024")
  /\ (search true Chase.re_expires_on terms = None ->
      (exists m, search true Chase.re_expires_in terms = Some m
                 /\ group 0 m = "expires in 30 days") ->
      snd (fst (Chase.parse_limits_local_expiration new_year_2024 terms hdr))
      = "Jan 31, 2024").
Proof.
  assert (Hphrase : Chase.normalize_date_out new_year_2024 (Some "expires in 30 days")
                    = "Jan 31, 2024") by (vm_compute; reflexivity).
  split; [vm_compute; reflexivity|]. split; [exact Hphrase|].
  split; [vm_compute; reflexivity|]. split.
  - intros Hf (m & Hm & Hn).
    unfold Chase.normalize_date_out, Chase.try_parse_date_any. simpl default.
    destruct s as [|a s']; [vm_compute in Hm; discriminate|].
    cbn [nonempty negb]. cbv zeta. rewrite Hf, Hm, Hn. vm_compute. reflexivity.
  - intros H1 (m & Hm & Hg). unfold Chase.parse_limits_local_expiration.
    cbv zeta. cbn [fst snd]. rewrite H1, Hm, Hg. exact Hphrase.
Qed.

Lemma relative_expiration_read_first_witness :
  Chase.normalize_date_out new_year_2024 (Some "Offer expires in 30 days. Terms apply.")
  = "Jan 31, 2024"
  /\ snd (fst (Chase.parse_limits_local_expiration new_year_2024
                 "Spend $50 or more. Offer expires in 30 days." EmptyString))
     = "Jan 31, 2024".
Proof.
  split.
  - apply (relative_expiration_read_first "Offer expires in 30 days. Terms apply."
             EmptyString EmptyString).
    + vm_compute. reflexivity.
    + exists (Mobj "30 days" [(1%nat, "30")]). split; vm_compute; reflexivity.
  - apply (relative_expiration_read_first EmptyString
             "Spend $50 or more. Offer expires in 30 days." EmptyString).
    + vm_compute. reflexivity.
    + exists (Mobj "expires in 30 days" []). split; vm_compute; reflexivity.
Defined.

End ExpirationClaims.
